(** * spandex: snippet trees, merging and the two expander backends

    A shallow embedding of the Go packages [expander], [expander/textexpander]
    and [expander/autokey], and of the program [spandex] that runs an import
    with them.

    Go values of pointer type ([*Group], [*Snippet]) are addresses into a
    store of cells; a slice is the list of its elements, held by the struct
    that owns it.  Go [error] results, run-time panics (nil dereference) and
    unbounded recursion are the constructors of [result].

    The packages come first, then the notions the properties are stated
    with and the worked examples, then the properties. *)

From Stdlib Require Import ZArith String Ascii List Lia Bool.
From stdpp Require Import base option list gmap strings fin_maps sorting.

Local Open Scope string_scope.
Local Open Scope list_scope.

Set Warnings "-register-all".

(** ** Results of Go calls *)

(** A call that touches only the store returns, panics, or recurses without
    end ([OutOfFuel] stands for the stack overflow of the Go run time). *)
Inductive result (A : Type) : Type :=
| Ok (a : A)
| Panic
| OutOfFuel.

Arguments Ok {A} a.
Arguments Panic {A}.
Arguments OutOfFuel {A}.

#[global] Instance result_bind : MBind result := fun A B k r =>
  match r with
  | Ok a => k a
  | Panic => Panic
  | OutOfFuel => OutOfFuel
  end.

(** Dereferencing an address that holds no cell is Go's nil dereference. *)
Definition deref {A : Type} (o : option A) : result A :=
  match o with
  | Some a => Ok a
  | None => Panic
  end.

(** ** Strings, and the [path], [filepath] and [regexp] calls the code makes *)

Definition slash : ascii := "/"%char.
Definition dot : ascii := "."%char.
Definition newline : ascii := "010"%char.

Definition bytes (s : string) : list ascii := list_ascii_of_string s.
Definition str (l : list ascii) : string := string_of_list_ascii l.

Definition nonempty {A : Type} (l : list A) : bool :=
  match l with
  | [] => false
  | _ :: _ => true
  end.

(** [strings.Split(p, "/")]. *)
Fixpoint split_slash (l : list ascii) : list (list ascii) :=
  match l with
  | [] => [[]]
  | c :: r =>
      if Ascii.eqb c slash then [] :: split_slash r
      else match split_slash r with
           | e :: es => (c :: e) :: es
           | [] => [[c]]
           end
  end.

(** [strings.Join(es, "/")]. *)
Fixpoint join_slash (es : list (list ascii)) : list ascii :=
  match es with
  | [] => []
  | [e] => e
  | e :: es' => e ++ slash :: join_slash es'
  end.

(** One element of [path.Clean]'s scan.  [out] holds the elements written
    so far, the most recent first: an empty or "." element is dropped, ".."
    removes the last real element, is kept in front of a relative path and
    is dropped at the root. *)
Definition clean_step (rooted : bool) (out : list (list ascii)) (e : list ascii)
  : list (list ascii) :=
  if decide (e = []) then out
  else if decide (e = [dot]) then out
  else if decide (e = [dot; dot]) then
    match out with
    | top :: rest => if decide (top = [dot; dot]) then e :: out else rest
    | [] => if rooted then [] else [e]
    end
  else e :: out.

Definition is_rooted (l : list ascii) : bool :=
  match l with
  | c :: _ => Ascii.eqb c slash
  | [] => false
  end.

Definition clean (l : list ascii) : list ascii :=
  match l with
  | [] => [dot]
  | _ :: _ =>
      let rooted := is_rooted l in
      let body := join_slash (rev (fold_left (clean_step rooted) (split_slash l) [])) in
      if rooted then slash :: body
      else if nonempty body then body else [dot]
  end.

(** [path.Clean]. *)
Definition path_Clean (p : string) : string := str (clean (bytes p)).

(** [path.Join]: empty elements are ignored and the result is cleaned; when
    every element is empty the result is the empty string. *)
Definition join_elems (elem : list (list ascii)) : list ascii :=
  match filter (fun e => nonempty e = true) elem with
  | [] => []
  | es => clean (join_slash es)
  end.

Definition path_Join (a b : string) : string :=
  str (join_elems [bytes a; bytes b]).

(** [filepath.Base] on a slash-separated path. *)
Fixpoint strip_slashes_rev (r : list ascii) : list ascii :=
  match r with
  | c :: r' => if Ascii.eqb c slash then strip_slashes_rev r' else r
  | [] => []
  end.

Definition base (l : list ascii) : list ascii :=
  match l with
  | [] => [dot]
  | _ :: _ =>
      match last (split_slash (rev (strip_slashes_rev (rev l)))) with
      | Some (c :: e) => c :: e
      | _ => [slash]
      end
  end.

Definition filepath_Base (p : string) : string := str (base (bytes p)).

(** [strings.HasPrefix(name, ".")]. *)
Definition hidden (name : string) : bool :=
  match bytes name with
  | c :: _ => Ascii.eqb c dot
  | [] => false
  end.

(** The pattern [^(.+/)?(.+)\.(.+?)$] of [filePattern], read as a
    backtracking matcher reads it: the directory part as long as it can be,
    then the stem as long as it can be.  A "." of the pattern matches any
    byte but a newline. *)
Fixpoint tail_splits (pre r : list ascii) : option (list ascii * list ascii) :=
  match r with
  | [] => None
  | c :: r' =>
      match tail_splits (pre ++ [c]) r' with
      | Some x => Some x
      | None =>
          if Ascii.eqb c dot && nonempty pre && nonempty r'
          then Some (pre, r') else None
      end
  end.

Fixpoint dir_splits (pre r : list ascii)
  : option (list ascii * list ascii * list ascii) :=
  match r with
  | [] => None
  | c :: r' =>
      match dir_splits (pre ++ [c]) r' with
      | Some x => Some x
      | None =>
          if Ascii.eqb c slash && nonempty pre
          then match tail_splits [] r' with
               | Some (stem, ext) => Some (pre ++ [c], stem, ext)
               | None => None
               end
          else None
      end
  end.

(** [filePattern.FindStringSubmatch]: the three groups, or no match. *)
Definition filePattern (l : list ascii)
  : option (list ascii * list ascii * list ascii) :=
  if existsb (Ascii.eqb newline) l then None
  else match dir_splits [] l with
       | Some x => Some x
       | None =>
           match tail_splits [] l with
           | Some (stem, ext) => Some ([], stem, ext)
           | None => None
           end
       end.

(** ** Package [expander] *)

Module expander.

(** A [*Group] or [*Snippet]: the address of a cell of the store. *)
Definition loc : Type := nat.

(** [time.Time], as an instant on the time line: the nanoseconds since
    January 1, 1970 UTC, of any size. *)
Definition Time : Type := Z.

(** The zero [time.Time]: January 1 of the year 1, 00:00 UTC. *)
Definition zero_time : Time := (-62135596800000000000)%Z.

(** [Time.IsZero]. *)
Definition IsZero (t : Time) : bool := (t =? zero_time)%Z.

(** [Time.UnixNano]: the instant as an [int64], which wraps around for an
    instant before the year 1678 or after the year 2262. *)
Definition UnixNano (t : Time) : Z := ((t + 2 ^ 63) mod 2 ^ 64 - 2 ^ 63)%Z.

Module Snippet.
Record t : Type := mk {
  Name : string;
  Abbr : string;
  Text : string;
  Parent : option loc;
  ModTime : Time
}.
End Snippet.

Module Group.
Record t : Type := mk {
  Name : string;
  Snippets : list loc;
  Groups : list loc;
  Parent : option loc
}.
End Group.

(** The store: the [Group] cells and the [Snippet] cells, by address. *)
Record heap : Type := mkHeap {
  groups : list Group.t;
  snippets : list Snippet.t
}.

Definition set_group (h : heap) (a : loc) (g : Group.t) : heap :=
  mkHeap (<[a := g]> (groups h)) (snippets h).

Definition set_Snippets (g : Group.t) (l : list loc) : Group.t :=
  Group.mk (Group.Name g) l (Group.Groups g) (Group.Parent g).

Definition set_Groups (g : Group.t) (l : list loc) : Group.t :=
  Group.mk (Group.Name g) (Group.Snippets g) l (Group.Parent g).

(** [func (g Group) Path() string]. *)
Fixpoint Group_Path (fuel : nat) (h : heap) (g : Group.t) : result string :=
  match Group.Parent g with
  | None => Ok (Group.Name g)
  | Some p =>
      match fuel with
      | 0 => OutOfFuel
      | S n =>
          pg ← deref (groups h !! p);
          pp ← Group_Path n h pg;
          Ok (path_Join pp (Group.Name g))
      end
  end.

(** [func (s Snippet) Path() string]. *)
Definition Snippet_Path (fuel : nat) (h : heap) (s : Snippet.t) : result string :=
  pg ← deref (Snippet.Parent s ≫= fun p => groups h !! p);
  pp ← Group_Path fuel h pg;
  Ok (path_Join pp (Snippet.Name s)).

(** The inner loop of [mergeSnippets]: the index of the first element of
    [g.Snippets] that has the name of [snippet]. *)
Fixpoint find_snippet (h : heap) (snippet : loc) (i : nat) (l : list loc)
  : result (option nat) :=
  match l with
  | [] => Ok None
  | s :: l' =>
      sn ← deref (snippets h !! snippet);
      sc ← deref (snippets h !! s);
      if String.eqb (Snippet.Name sn) (Snippet.Name sc) then Ok (Some i)
      else find_snippet h snippet (S i) l'
  end.

(** One round of the outer loop of [mergeSnippets]. *)
Definition merge_snippet (g : loc) (h : heap) (snippet : loc) : result heap :=
  gc ← deref (groups h !! g);
  found ← find_snippet h snippet 0 (Group.Snippets gc);
  match found with
  | Some i => Ok (set_group h g (set_Snippets gc (<[i := snippet]> (Group.Snippets gc))))
  | None => Ok (set_group h g (set_Snippets gc (Group.Snippets gc ++ [snippet])))
  end.

(** [func (g *Group) mergeSnippets(snippets []*Snippet)]. *)
Fixpoint Group_mergeSnippets (h : heap) (g : loc) (snippets : list loc) : result heap :=
  match snippets with
  | [] => Ok h
  | snippet :: rest =>
      h' ← merge_snippet g h snippet;
      Group_mergeSnippets h' g rest
  end.

(** The inner loop of [MergeAll]: the first element of [g.Groups] that has
    the name of [right]. *)
Fixpoint find_group (h : heap) (rgt : loc) (l : list loc) : result (option loc) :=
  match l with
  | [] => Ok None
  | lft :: l' =>
      lc ← deref (groups h !! lft);
      rc ← deref (groups h !! rgt);
      if String.eqb (Group.Name lc) (Group.Name rc) then Ok (Some lft)
      else find_group h rgt l'
  end.

Section MergeAll.

(** The call [left.Merge(right)]. *)
Variable Merge : heap -> loc -> loc -> result heap.

(** One round of the outer loop of [MergeAll]. *)
Definition merge_group (g : loc) (h : heap) (rgt : loc) : result heap :=
  gc ← deref (groups h !! g);
  found ← find_group h rgt (Group.Groups gc);
  match found with
  | Some lft => Merge h lft rgt
  | None => Ok (set_group h g (set_Groups gc (Group.Groups gc ++ [rgt])))
  end.

Fixpoint MergeAll_loop (h : heap) (g : loc) (rights : list loc) : result heap :=
  match rights with
  | [] => Ok h
  | rgt :: rest =>
      h' ← merge_group g h rgt;
      MergeAll_loop h' g rest
  end.

End MergeAll.

(** [func (g *Group) Merge(other *Group)]; [fuel] bounds the depth of the
    recursion through [MergeAll]. *)
Fixpoint Group_Merge (fuel : nat) (h : heap) (g other : loc) : result heap :=
  match fuel with
  | 0 => OutOfFuel
  | S n =>
      oc ← deref (groups h !! other);
      h1 ← MergeAll_loop (Group_Merge n) h g (Group.Groups oc);
      oc' ← deref (groups h1 !! other);
      Group_mergeSnippets h1 g (Group.Snippets oc')
  end.

(** [func (g *Group) MergeAll(groups []*Group)]. *)
Definition Group_MergeAll (fuel : nat) (h : heap) (g : loc) (rights : list loc)
  : result heap :=
  MergeAll_loop (Group_Merge fuel) h g rights.

(** ** The registry of backends *)

(** The errors of [Register] and [New]. *)
Inductive registry_error : Type :=
| AlreadyRegistered (name : string)   (* "%v already registered" *)
| InvalidExpander (name : string).    (* "invalid expander: %v" *)

Section registry.

(** [NewExpander], the type of the constructors the registry holds. *)
Context {NewExpander : Type}.

(** [func Register(name string, fun NewExpander) error]; the result is the
    registry after the call, or the error. *)
Definition Register (name : string) (fn : NewExpander)
    (registry : gmap string NewExpander) : registry_error + gmap string NewExpander :=
  match registry !! name with
  | Some _ => inl (AlreadyRegistered name)
  | None => inr (<[name := fn]> registry)
  end.

(** [func New(name string) (Expander, error)]; the result is the
    constructor that [New] calls. *)
Definition New (name : string) (registry : gmap string NewExpander)
  : registry_error + NewExpander :=
  match registry !! name with
  | Some fn => inr fn
  | None => inl (InvalidExpander name)
  end.

End registry.

End expander.

Import expander.

(** ** Calls that return an [error]

    A Go method that returns an [error] leaves its effects behind when it
    fails, so a failing call carries the state it reached. *)

Inductive error : Type :=
| ErrInvalidSnippetUUID (uuid : string)   (* "invalid snippet UUID: %v" *)
| ErrInvalidFileName (file : string)      (* "invalid file name: %v" *)
| ErrNotImplemented                       (* "not implemented" *)
| ErrPath (op path : string)              (* an *os.PathError *)
| ErrDecode.                              (* a decoder's error *)

Inductive outcome (S A : Type) : Type :=
| Returns (a : A) (s : S)
| Fails (e : error) (s : S)
| Panics
| Diverges.

Arguments Returns {S A} a s.
Arguments Fails {S A} e s.
Arguments Panics {S A}.
Arguments Diverges {S A}.

Definition M (S A : Type) : Type := S -> outcome S A.

#[global] Instance M_ret {S : Type} : MRet (M S) := fun A a s => Returns a s.

#[global] Instance M_bind {S : Type} : MBind (M S) := fun A B k m s =>
  match m s with
  | Returns a s' => k a s'
  | Fails e s' => Fails e s'
  | Panics => Panics
  | Diverges => Diverges
  end.

Definition fail {S A : Type} (e : error) : M S A := fun s => Fails e s.
Definition get {S : Type} : M S S := fun s => Returns s s.
Definition put {S : Type} (s : S) : M S unit := fun _ => Returns tt s.

(** A store-only call inside a call that may fail. *)
Definition lift {S A : Type} (r : result A) : M S A := fun s =>
  match r with
  | Ok a => Returns a s
  | Panic => Panics
  | OutOfFuel => Diverges
  end.

(** [for _, x := range xs { if err := body(x); err != nil { return err } }]. *)
Fixpoint for_each {S A : Type} (body : A -> M S unit) (xs : list A) : M S unit :=
  match xs with
  | [] => mret tt
  | x :: rest => _ ← body x; for_each body rest
  end.

(** ** Package [expander/textexpander] *)

Module textexpander.

Record rawGroup : Type := mkRawGroup {
  Name : string;           (* plist:"name" *)
  UUIDs : list string      (* plist:"snippetUUIDs" *)
}.

Record rawSnippet : Type := mkRawSnippet {
  Abbr : string;           (* plist:"abbreviation" *)
  Label : string;          (* plist:"label" *)
  Text : string;           (* plist:"plainText" *)
  UUID : string;           (* plist:"uuidString" *)
  ModDate : Time           (* plist:"modificationDate" *)
}.

Record rawData : Type := mkRawData {
  Groups : list rawGroup;      (* plist:"groupsTE2" *)
  Snippets : list rawSnippet   (* plist:"snippetsTE2" *)
}.

Record TextExpander : Type := mkTE {
  file : string;
  data : option rawData;
  groups : list loc
}.

(** What [os.Open(te.file)] and the plist decoder deliver to [Load]. *)
Inductive source : Type :=
| Unreadable                       (* os.Open fails *)
| Malformed (partial : rawData)    (* Decode fails, having filled te.data so far *)
| Document (d : rawData).          (* Decode succeeds *)

(** The state of a [TextExpander] call: the store and the receiver. *)
Definition state : Type := heap * TextExpander.

Definition set_data (d : option rawData) : M state unit := fun '(h, te) =>
  Returns tt (h, mkTE (file te) d (groups te)).

Definition set_groups (l : list loc) : M state unit := fun '(h, te) =>
  Returns tt (h, mkTE (file te) (data te) l).

Definition new_snippet (s : Snippet.t) : M state loc := fun '(h, te) =>
  Returns (length (snippets h))
          (mkHeap (expander.groups h) (snippets h ++ [s]), te).

Definition new_group (g : Group.t) : M state loc := fun '(h, te) =>
  Returns (length (expander.groups h))
          (mkHeap (expander.groups h ++ [g]) (snippets h), te).

(** [s.Parent = group]. *)
Definition set_snippet_parent (s group : loc) : M state unit := fun '(h, te) =>
  match snippets h !! s with
  | Some sc =>
      Returns tt (mkHeap (expander.groups h)
                         (<[s := Snippet.mk (Snippet.Name sc) (Snippet.Abbr sc)
                                            (Snippet.Text sc) (Some group)
                                            (Snippet.ModTime sc)]> (snippets h)),
                  te)
  | None => Panics
  end.

(** [group.Snippets = append(group.Snippets, s)]. *)
Definition push_snippet (group s : loc) : M state unit := fun '(h, te) =>
  match expander.groups h !! group with
  | Some gc =>
      Returns tt (set_group h group (set_Snippets gc (Group.Snippets gc ++ [s])), te)
  | None => Panics
  end.

(** The first loop of [parse]: the map from identifier to a new [*Snippet]. *)
Fixpoint index_snippets (l : list rawSnippet) (m : gmap string loc)
  : M state (gmap string loc) :=
  match l with
  | [] => mret m
  | s :: rest =>
      a ← new_snippet (Snippet.mk (UUID s) (Abbr s) (Text s) None (ModDate s));
      index_snippets rest (<[UUID s := a]> m)
  end.

(** The body of the loop over [g.UUIDs]. *)
Definition resolve (snips : gmap string loc) (group : loc) (uuid : string)
  : M state unit :=
  match snips !! uuid with
  | None => fail (ErrInvalidSnippetUUID uuid)
  | Some s =>
      _ ← set_snippet_parent s group;
      push_snippet group s
  end.

(** The body of the loop over [te.data.Groups]. *)
Definition parse_group (snips : gmap string loc) (g : rawGroup) : M state unit :=
  group ← new_group (Group.mk (Name g) [] [] None);
  _ ← for_each (resolve snips group) (UUIDs g);
  '(_, te) ← get;
  set_groups (groups te ++ [group]).

(** [func (te *TextExpander) parse() error]. *)
Definition parse : M state unit :=
  '(_, te) ← get;
  match data te with
  | None => fun _ => Panics
  | Some d =>
      snips ← index_snippets (Snippets d) ∅;
      for_each (parse_group snips) (Groups d)
  end.

(** [func (te *TextExpander) Load() error]. *)
Definition Load (src : source) : M state unit :=
  '(_, te) ← get;
  match src with
  | Unreadable => fail (ErrPath "open" (file te))
  | Malformed partial =>
      _ ← set_data (Some partial);
      fail ErrDecode
  | Document d =>
      _ ← set_data (Some d);
      parse
  end.

(** [func (te *TextExpander) Groups() []*expander.Group]. *)
Definition Groups_of (te : TextExpander) : list loc := groups te.

(** [func (te *TextExpander) Group(name string) *expander.Group]; the
    result is [None] for Go's nil. *)
Fixpoint find_named (h : heap) (name : string) (l : list loc) : result (option loc) :=
  match l with
  | [] => Ok None
  | g :: rest =>
      gc ← deref (expander.groups h !! g);
      if String.eqb name (Group.Name gc) then Ok (Some g)
      else find_named h name rest
  end.

Definition Group_of (h : heap) (te : TextExpander) (name : string)
  : result (option loc) :=
  find_named h name (groups te).

(** [func (te *TextExpander) SetGroup(group *expander.Group)]. *)
Fixpoint upsert_group (h : heap) (group : loc) (l : list loc) : result (list loc) :=
  match l with
  | [] => Ok [group]
  | g :: rest =>
      nc ← deref (expander.groups h !! group);
      gc ← deref (expander.groups h !! g);
      if String.eqb (Group.Name nc) (Group.Name gc) then Ok (group :: rest)
      else rest' ← upsert_group h group rest; Ok (g :: rest')
  end.

Definition SetGroup (group : loc) : M state unit := fun '(h, te) =>
  match upsert_group h group (groups te) with
  | Ok l => Returns tt (h, mkTE (file te) (data te) l)
  | Panic => Panics
  | OutOfFuel => Diverges
  end.

(** [func (te *TextExpander) Write() error]. *)
Definition Write : M state unit := fail ErrNotImplemented.

End textexpander.

(** ** The file system seen by [expander/autokey]

    A node is a directory or a regular file, found under the path string
    the backend hands to the [os] and [ioutil] calls (every such path comes
    out of [path.Join] or names a sidecar next to one that does).  A
    directory keeps the time of its creation, a file the time of its last
    write or the one that [os.Chtimes] has left on it, to the nanosecond.
    [denied] tells the paths at which [os.Chtimes] is refused (a file of
    another owner, say).  [trace] records the calls that change the file
    system, in the order they were made. *)

Inductive node : Type :=
| Dir (mtime : Time)
| File (content : string) (mtime : Time).

Definition node_ModTime (n : node) : Time :=
  match n with
  | Dir t => t
  | File _ t => t
  end.

Definition set_mtime (t : Time) (n : node) : node :=
  match n with
  | Dir _ => Dir t
  | File c _ => File c t
  end.

Inductive event : Type :=
| EvMkdir (p : string)
| EvWrite (p content : string)
| EvChtimes (p : string) (t : Time).

Record World : Type := mkWorld {
  store : heap;
  fs : gmap string node;
  denied : string -> bool; (* the nodes whose times the process may not set *)
  clock : nat -> Time;     (* the wall clock at each stamp *)
  tick : nat;              (* stamps taken so far *)
  trace : list event
}.

Definition set_store (h : heap) (w : World) : World :=
  mkWorld h (fs w) (denied w) (clock w) (tick w) (trace w).

(** A call that changes the file system without reading the clock. *)
Definition touch_fs (f : gmap string node) (e : event) (w : World) : World :=
  mkWorld (store w) f (denied w) (clock w) (tick w) (trace w ++ [e]).

(** A call that stamps a node with the current time. *)
Definition stamp_fs (f : Time -> gmap string node) (e : event) (w : World) : World :=
  mkWorld (store w) (f (clock w (tick w))) (denied w) (clock w) (S (tick w))
          (trace w ++ [e]).

(** The directory a path lies in, as [os.MkdirAll] finds it: trailing
    slashes are skipped, then the last element; [None] when that leaves the
    working directory or the root, which are always there. *)
Fixpoint drop_element_rev (r : list ascii) : list ascii :=
  match r with
  | c :: r' => if Ascii.eqb c slash then r else drop_element_rev r'
  | [] => []
  end.

Definition parent_of (l : list ascii) : option (list ascii) :=
  match drop_element_rev (strip_slashes_rev (rev l)) with
  | _ :: (c :: q) => Some (rev (c :: q))
  | _ => None
  end.

Definition parent_ok (f : gmap string node) (p : string) : bool :=
  match parent_of (bytes p) with
  | None => true
  | Some q =>
      match f !! str q with
      | Some (Dir _) => true
      | _ => false
      end
  end.

(** [os.Stat]. *)
Definition os_Stat (p : string) : M World node := fun w =>
  match fs w !! p with
  | Some n => Returns n w
  | None => Fails (ErrPath "stat" p) w
  end.

(** [os.Mkdir]. *)
Definition os_Mkdir (p : string) : M World unit := fun w =>
  match fs w !! p with
  | Some _ => Fails (ErrPath "mkdir" p) w
  | None =>
      if parent_ok (fs w) p
      then Returns tt (stamp_fs (fun t => <[p := Dir t]> (fs w)) (EvMkdir p) w)
      else Fails (ErrPath "mkdir" p) w
  end.

(** [os.MkdirAll]; the recursion is on the parent, a shorter path. *)
Fixpoint MkdirAll_rec (n : nat) (p : string) : M World unit := fun w =>
  match fs w !! p with
  | Some (Dir _) => Returns tt w
  | Some (File _ _) => Fails (ErrPath "mkdir" p) w
  | None =>
      match n with
      | 0 => Diverges
      | S n' =>
          match (match parent_of (bytes p) with
                 | Some q => MkdirAll_rec n' (str q) w
                 | None => Returns tt w
                 end) with
          | Returns _ w1 =>
              match os_Mkdir p w1 with
              | Fails e w2 =>
                  match fs w2 !! p with
                  | Some (Dir _) => Returns tt w2
                  | _ => Fails e w2
                  end
              | r => r
              end
          | r => r
          end
      end
  end.

Definition os_MkdirAll (p : string) : M World unit :=
  MkdirAll_rec (S (String.length p)) p.

(** [ioutil.WriteFile], and [os.Create] followed by the write of [content]. *)
Definition write_file (op : string) (p content : string) : M World unit := fun w =>
  match fs w !! p with
  | Some (Dir _) => Fails (ErrPath op p) w
  | _ =>
      if parent_ok (fs w) p
      then Returns tt (stamp_fs (fun t => <[p := File content t]> (fs w))
                                (EvWrite p content) w)
      else Fails (ErrPath op p) w
  end.

Definition ioutil_WriteFile (p content : string) : M World unit :=
  write_file "open" p content.

(** The time [os.Chtimes] leaves on a node whose time was [old], asked to
    set it to [t]: the zero [time.Time] asks for no change, any other
    instant is handed over as [t.UnixNano()]. *)
Definition chtime (t old : Time) : Time :=
  if IsZero t then old else UnixNano t.

(** [os.Chtimes], with the same instant for both times.  It fails where
    there is no node, and on a node whose times the process may not set. *)
Definition os_Chtimes (p : string) (t : Time) : M World unit := fun w =>
  match fs w !! p with
  | Some n =>
      if denied w p then Fails (ErrPath "chtimes" p) w
      else Returns tt (touch_fs (<[p := set_mtime (chtime t (node_ModTime n)) n]> (fs w))
                                (EvChtimes p t) w)
  | None => Fails (ErrPath "chtimes" p) w
  end.

(** [ioutil.ReadFile]. *)
Definition ioutil_ReadFile (p : string) : M World string := fun w =>
  match fs w !! p with
  | Some (File c _) => Returns c w
  | Some (Dir _) => Fails (ErrPath "read" p) w
  | None => Fails (ErrPath "open" p) w
  end.

(** The name of [k] inside the directory [d], when [k] lies directly in it.
    A directory lists neither "." nor "..". *)
Fixpoint strip_prefix (p l : list ascii) : option (list ascii) :=
  match p, l with
  | [], _ => Some l
  | c :: p', x :: l' => if Ascii.eqb c x then strip_prefix p' l' else None
  | _ :: _, [] => None
  end.

Definition child_name (d k : string) : option string :=
  match strip_prefix (bytes d ++ [slash]) (bytes k) with
  | Some (c :: n) =>
      if existsb (Ascii.eqb slash) (c :: n) then None
      else if decide (c :: n = [dot]) then None
      else if decide (c :: n = [dot; dot]) then None
      else Some (str (c :: n))
  | _ => None
  end.

Definition entries (f : gmap string node) (d : string) : list (string * node) :=
  omap (fun '(k, n) => name ← child_name d k; Some (name, n)) (map_to_list f).

Definition name_le (a b : string * node) : Prop :=
  String.leb a.1 b.1 = true.

#[global] Instance name_le_dec a b : Decision (name_le a b).
Proof. unfold name_le. apply _. Defined.

(** [ioutil.ReadDir]: the entries of a directory, sorted by file name. *)
Definition ioutil_ReadDir (d : string) : M World (list (string * node)) := fun w =>
  match fs w !! d with
  | Some (Dir _) => Returns (merge_sort name_le (entries (fs w) d)) w
  | Some (File _ _) => Fails (ErrPath "readdirent" d) w
  | None => Fails (ErrPath "open" d) w
  end.

(** ** Package [expander/autokey] *)

Module autokey.

Definition dataDir : string := "data".
Definition metadataExt : string := "json".
Definition snippetExt : string := "txt".

Record mdAbbreviation : Type := mkAbbreviation {
  WordChars : string;
  Abbreviations : list string;
  Immediate : bool;
  IgnoreCase : bool;
  Backspace : bool;
  TriggerInside : bool
}.

Record mdHotkey : Type := mkHotkey {
  HotKey : option string;
  Modifiers : list string
}.

Record mdFilter : Type := mkFilter {
  Regex : option string;
  IsRecursive : bool
}.

Record metadata : Type := mkMetadata {
  UsageCount : Z;
  OmitTrigger : bool;
  Prompt : bool;
  Description : string;
  Abbreviation : mdAbbreviation;
  Hotkey : mdHotkey;
  Modes : list Z;
  ShowInTrayMenu : bool;
  MatchCase : bool;
  Filter : mdFilter;
  Type_ : string;
  SendMode : string;
  ModTime : Time               (* json:"-" *)
}.

Definition set_ModTime (t : Time) (md : metadata) : metadata :=
  mkMetadata (UsageCount md) (OmitTrigger md) (Prompt md) (Description md)
             (Abbreviation md) (Hotkey md) (Modes md) (ShowInTrayMenu md)
             (MatchCase md) (Filter md) (Type_ md) (SendMode md) t.

(** [encoding/json] on a [metadata]: what [Encoder.Encode] writes and what
    [Decoder.Decode] reads.  [ModTime] is not part of the document. *)
Class JsonCodec : Type := {
  json_encode : metadata -> string;
  json_decode : string -> option metadata
}.

Record rawGroup : Type := mkRawGroup {
  group : loc;
  managed : bool
}.

Record AutoKey : Type := mkAK {
  dir : string;
  groups : gmap string rawGroup
}.

(** [newAK], for the value [akDir] of the flag [-ak_dir]. *)
Definition newAK (akDir : string) : AutoKey :=
  mkAK (path_Join akDir dataDir) ∅.

(** The entries of a Go map in the order one [range] visits them: [keys]
    is an order of iteration of [m] when it lists every key of [m] once. *)
Definition range_map (keys : list string) (m : gmap string rawGroup) : list rawGroup :=
  omap (fun k => m !! k) keys.

Definition iteration_of (m : gmap string rawGroup) (keys : list string) : Prop :=
  NoDup keys /\ forall k, k ∈ keys <-> is_Some (m !! k).

(** [metadataPath]. *)
Definition metadataPath (file : string) : M World string :=
  match filePattern (bytes file) with
  | None => fail (ErrInvalidFileName file)
  | Some (d, stem, _) => mret (str d +:+ "." +:+ str stem +:+ "." +:+ metadataExt)
  end.

(** [newMetadata]. *)
Definition newMetadata (s : Snippet.t) : metadata :=
  mkMetadata 0 false false (Snippet.Abbr s)
    (mkAbbreviation "[\w]"
       (if String.eqb (Snippet.Abbr s) "" then [] else [Snippet.Abbr s])
       true false true false)
    (mkHotkey None [])
    [1%Z] false false (mkFilter None false) "phrase" "kb" (Snippet.ModTime s).

Section codec.

Context {Json : JsonCodec}.

(** [parseMetadata]: the document read from the sidecar, with the time of
    the sidecar file. *)
Definition parseMetadata (file : string) : M World metadata := fun w =>
  match fs w !! file with
  | None => Fails (ErrPath "open" file) w
  | Some (Dir _) => Fails ErrDecode w
  | Some (File c t) =>
      match json_decode c with
      | Some md => Returns (set_ModTime t md) w
      | None => Fails ErrDecode w
      end
  end.

(** [writeMetadata]. *)
Definition writeMetadata (file : string) (md : metadata) : M World unit :=
  write_file "open" file (json_encode md).

Definition new_snippet (s : Snippet.t) : M World loc := fun w =>
  Returns (length (snippets (store w)))
          (set_store (mkHeap (expander.groups (store w)) (snippets (store w) ++ [s])) w).

Definition new_group (g : Group.t) : M World loc := fun w =>
  Returns (length (expander.groups (store w)))
          (set_store (mkHeap (expander.groups (store w) ++ [g]) (snippets (store w))) w).

(** An assignment through a [*Group] or a [*Snippet]. *)
Definition update_group (a : loc) (f : Group.t -> Group.t) : M World unit := fun w =>
  match expander.groups (store w) !! a with
  | Some gc => Returns tt (set_store (set_group (store w) a (f gc)) w)
  | None => Panics
  end.

Definition update_snippet (a : loc) (f : Snippet.t -> Snippet.t) : M World unit := fun w =>
  match snippets (store w) !! a with
  | Some sc =>
      Returns tt (set_store (mkHeap (expander.groups (store w))
                                    (<[a := f sc]> (snippets (store w)))) w)
  | None => Panics
  end.

Definition with_Snippet_Parent (p : option loc) (s : Snippet.t) : Snippet.t :=
  Snippet.mk (Snippet.Name s) (Snippet.Abbr s) (Snippet.Text s) p (Snippet.ModTime s).

Definition with_Group_Parent (p : option loc) (g : Group.t) : Group.t :=
  Group.mk (Group.Name g) (Group.Snippets g) (Group.Groups g) p.

(** [newSnippet]. *)
Definition newSnippet (file : string) : M World loc :=
  mdPath ← metadataPath file;
  md ← parseMetadata mdPath;
  buf ← ioutil_ReadFile file;
  new_snippet (Snippet.mk (Description md)
                          (default "" (head (Abbreviations (Abbreviation md))))
                          buf None (ModTime md)).

(** [func (ak *AutoKey) load(dir string, parent *expander.Group)]. *)
Fixpoint load (fuel : nat) (d : string) (parent : option loc) : M World loc :=
  match fuel with
  | 0 => fun _ => Diverges
  | S n =>
      files ← ioutil_ReadDir d;
      g ← new_group (Group.mk (filepath_Base d) [] [] parent);
      _ ← for_each (fun fi : string * node =>
             match fi.2 with
             | Dir _ =>
                 child ← load n (path_Join d fi.1) (Some g);
                 update_group g (fun gc => set_Groups gc (Group.Groups gc ++ [child]))
             | File _ _ =>
                 if hidden fi.1 then mret tt
                 else
                   s ← newSnippet (path_Join d fi.1);
                   _ ← update_snippet s (with_Snippet_Parent (Some g));
                   update_group g (fun gc => set_Snippets gc (Group.Snippets gc ++ [s]))
             end) files;
      mret g
  end.

(** The loop of [Load] over [root.Groups]. *)
Fixpoint install (gs : list loc) (m : gmap string rawGroup) : M World (gmap string rawGroup) :=
  match gs with
  | [] => mret m
  | g :: rest =>
      _ ← update_group g (with_Group_Parent None);
      w ← get;
      gc ← lift (deref (expander.groups (store w) !! g));
      install rest (<[Group.Name gc := mkRawGroup g false]> m)
  end.

(** [func (ak *AutoKey) Load() error]; the result is the receiver after
    the call. *)
Definition Load (fuel : nat) (ak : AutoKey) : M World AutoKey :=
  root ← load fuel (dir ak) None;
  w ← get;
  rc ← lift (deref (expander.groups (store w) !! root));
  m ← install (Group.Groups rc) (groups ak);
  mret (mkAK (dir ak) m).

(** [func (ak *AutoKey) Groups() []*expander.Group], for an order of
    iteration of the map. *)
Definition Groups_of (keys : list string) (ak : AutoKey) : list loc :=
  group <$> range_map keys (groups ak).

(** [func (ak *AutoKey) Group(name string) *expander.Group]. *)
Fixpoint find_named (h : heap) (name : string) (l : list rawGroup) : result (option loc) :=
  match l with
  | [] => Ok None
  | g :: rest =>
      gc ← deref (expander.groups h !! group g);
      if String.eqb name (Group.Name gc) then Ok (Some (group g))
      else find_named h name rest
  end.

Definition Group_of (keys : list string) (h : heap) (ak : AutoKey) (name : string)
  : result (option loc) :=
  find_named h name (range_map keys (groups ak)).

(** [func (ak *AutoKey) SetGroup(group *expander.Group)]. *)
Definition SetGroup (h : heap) (ak : AutoKey) (g : loc) : result AutoKey :=
  gc ← deref (expander.groups h !! g);
  Ok (mkAK (dir ak) (<[Group.Name gc := mkRawGroup g true]> (groups ak))).

(** [func (ak *AutoKey) writeSnippet(snippet *expander.Snippet) error]. *)
Definition writeSnippet (fuel : nat) (ak : AutoKey) (snippet : loc) : M World unit :=
  w ← get;
  sc ← lift (deref (snippets (store w) !! snippet));
  p ← lift (Snippet_Path fuel (store w) sc);
  let sPath := path_Join (dir ak) (p +:+ "." +:+ snippetExt) in
  mdPath ← metadataPath sPath;
  if (match fs w !! mdPath with
      | Some fi => negb (node_ModTime fi <? Snippet.ModTime sc)%Z
      | None => false
      end)
  then mret tt
  else
    _ ← writeMetadata mdPath (newMetadata sc);
    _ ← os_Chtimes mdPath (Snippet.ModTime sc);
    _ ← ioutil_WriteFile sPath (Snippet.Text sc);
    os_Chtimes sPath (Snippet.ModTime sc).

(** [func (ak *AutoKey) writeGroup(group *expander.Group) error]. *)
Fixpoint writeGroup (fuel : nat) (ak : AutoKey) (g : loc) : M World unit :=
  match fuel with
  | 0 => fun _ => Diverges
  | S n =>
      w ← get;
      gc ← lift (deref (expander.groups (store w) !! g));
      p ← lift (Group_Path fuel (store w) gc);
      _ ← os_MkdirAll (path_Join (dir ak) p);
      _ ← for_each (writeGroup n ak) (Group.Groups gc);
      for_each (writeSnippet fuel ak) (Group.Snippets gc)
  end.

(** [func (ak *AutoKey) Write() error], for an order of iteration of the
    map. *)
Definition Write (fuel : nat) (keys : list string) (ak : AutoKey) : M World unit :=
  for_each (fun g : rawGroup =>
              if managed g then writeGroup fuel ak (group g) else mret tt)
           (range_map keys (groups ak)).

End codec.

End autokey.

(** ** The program [spandex] *)

Module spandex.

(** The command line flags of the program and of the two backends, as
    [flag.Parse] leaves them. *)
Record flags : Type := mkFlags {
  srcExp : string;         (* -source *)
  dstExp : string;         (* -dest *)
  importName : string;     (* -import_name *)
  teFile : string;         (* -te_file *)
  akDir : string           (* -ak_dir *)
}.

(** A value of the interface [expander.Expander]: one of the two backends. *)
Inductive Expander : Type :=
| TE (te : textexpander.TextExpander)
| AK (ak : autokey.AutoKey).

(** The import name: the flag, or [fmt.Sprintf("Imported from %v", *srcExp)]
    where the flag is empty. *)
Definition import_name (f : flags) : string :=
  if String.eqb (importName f) "" then "Imported from " +:+ srcExp f
  else importName f.

(** [newTE] and [newAK], which read the flags. *)
Definition newTE (f : flags) : Expander := TE (textexpander.mkTE (teFile f) None []).
Definition newAK (f : flags) : Expander := AK (autokey.newAK (akDir f)).

(** The registry after the [init] functions of the two backends, in the
    order of the imports. *)
Definition init : registry_error + gmap string (flags -> Expander) :=
  match Register "AutoKey" newAK ∅ with
  | inl e => inl e
  | inr r => Register "TextExpander" newTE r
  end.

(** What ends a run by [glog.Exit] or [log.Fatal]. *)
Inductive exit : Type :=
| ExitUsage                         (* "-source and -dest must be set" *)
| ExitRegistry (e : registry_error)
| ExitError (e : error).

(** How a run ends: [main] returns, the process exits with a message, a
    nil pointer is dereferenced, or the recursion is not bounded. *)
Inductive run : Type :=
| Done (w : World)
| Exits (m : exit) (w : World)
| Crashes
| Hangs.

(** A call on the structured-document backend, on the store of the world. *)
Definition on_store {A : Type} (m : M textexpander.state A)
    (te : textexpander.TextExpander) : M World (A * textexpander.TextExpander) :=
  fun w =>
    match m (store w, te) with
    | Returns a (h, te') => Returns (a, te') (set_store h w)
    | Fails e (h, _) => Fails e (set_store h w)
    | Panics => Panics
    | Diverges => Diverges
    end.

(** An assignment through pointers leaves the store [h]. *)
Definition put_store (h : heap) : M World unit := fun w => Returns tt (set_store h w).

Section program.

Context {Json : autokey.JsonCodec}.

(** What the run finds outside the flags: what the settings file decodes
    to, a bound on the depth of the recursions, and the orders in which
    the maps are gone through, by the two calls of [src.Groups] and by
    [dst.Write]. *)
Record surroundings : Type := mkSurroundings {
  document : textexpander.source;
  fuel : nat;
  keys1 : list string;
  keys2 : list string;
  keysW : list string
}.

(** The methods of the interface; a method with a pointer receiver returns
    the receiver after the call. *)
Definition Expander_Load (s : surroundings) (x : Expander) : M World Expander :=
  match x with
  | TE te => r ← on_store (textexpander.Load (document s)) te; mret (TE r.2)
  | AK ak => ak' ← autokey.Load (fuel s) ak; mret (AK ak')
  end.

Definition Expander_Groups (keys : list string) (x : Expander) : list loc :=
  match x with
  | TE te => textexpander.Groups_of te
  | AK ak => autokey.Groups_of keys ak
  end.

Definition Expander_SetGroup (x : Expander) (g : loc) : M World Expander :=
  match x with
  | TE te => r ← on_store (textexpander.SetGroup g) te; mret (TE r.2)
  | AK ak => w ← get; ak' ← lift (autokey.SetGroup (store w) ak g); mret (AK ak')
  end.

Definition Expander_Write (s : surroundings) (x : Expander) : M World unit :=
  match x with
  | TE te => _ ← on_store textexpander.Write te; mret tt
  | AK ak => autokey.Write (fuel s) (keysW s) ak
  end.

(** The lines of [main] from [root := &expander.Group{...}] to
    [root.MergeAll(src.Groups())]; the result is [root]. *)
Definition adopt (n : nat) (name : string) (groups1 groups2 : list loc) : M World loc :=
  root ← autokey.new_group (Group.mk name [] [] None);
  _ ← for_each (fun g => autokey.update_group g (autokey.with_Group_Parent (Some root)))
               groups1;
  w ← get;
  h ← lift (Group_MergeAll n (store w) root groups2);
  _ ← put_store h;
  mret root.

(** [func main()], after [flag.Parse]. *)
Definition main (f : flags) (s : surroundings) (w : World) : run :=
  match init with
  | inl e => Exits (ExitRegistry e) w
  | inr registry =>
      if String.eqb (srcExp f) "" || String.eqb (dstExp f) "" then Exits ExitUsage w
      else
        match New (srcExp f) registry with
        | inl e => Exits (ExitRegistry e) w
        | inr newSrc =>
            match Expander_Load s (newSrc f) w with
            | Fails e w1 => Exits (ExitError e) w1
            | Panics => Crashes
            | Diverges => Hangs
            | Returns src w1 =>
                match New (dstExp f) registry with
                | inl e => Exits (ExitRegistry e) w1
                | inr newDst =>
                    match (root ← adopt (fuel s) (import_name f)
                                        (Expander_Groups (keys1 s) src)
                                        (Expander_Groups (keys2 s) src);
                           dst ← Expander_SetGroup (newDst f) root;
                           Expander_Write s dst) w1 with
                    | Returns _ w2 => Done w2
                    | Fails e w2 => Exits (ExitError e) w2
                    | Panics => Crashes
                    | Diverges => Hangs
                    end
                end
            end
        end
  end.

End program.

End spandex.

(** * The notions the properties are stated with *)

(** ** Chains of parents *)

(** [ancestry h g n]: following [Parent] from [g] reaches a root after [n]
    steps. *)
Inductive ancestry (h : heap) : Group.t -> nat -> Prop :=
| ancestry_root g :
    Group.Parent g = None -> ancestry h g 0
| ancestry_child g p pg n :
    Group.Parent g = Some p ->
    groups h !! p = Some pg ->
    ancestry h pg n ->
    ancestry h g (S n).

(** ** Trees laid over the store

    The data model of the specification: a group owns its child groups, so
    the groups reachable from a root form a tree, and the target and the
    incoming tree of a merge share no group.  [gtree] is such a tree laid
    over the store: every node carries its address and the cell found
    there. *)

Inductive gtree : Type :=
| GNode (a : loc) (c : Group.t) (kids : list gtree).

Definition root (t : gtree) : loc := match t with GNode a _ _ => a end.
Definition cell (t : gtree) : Group.t := match t with GNode _ c _ => c end.
Definition kids (t : gtree) : list gtree := match t with GNode _ _ ks => ks end.
Definition gname (t : gtree) : string := Group.Name (cell t).

Fixpoint nodes (t : gtree) : list (loc * Group.t) :=
  match t with
  | GNode a c ks => (a, c) :: concat (map nodes ks)
  end.

Definition addrs (t : gtree) : list loc := (nodes t).*1.

Definition forest_nodes (ts : list gtree) : list (loc * Group.t) :=
  concat (map nodes ts).

Definition forest_addrs (ts : list gtree) : list loc := (forest_nodes ts).*1.

Fixpoint height (t : gtree) : nat :=
  match t with
  | GNode _ _ ks => S (foldr Nat.max 0 (map height ks))
  end.

(** The cell of every node lists the roots of the node's children. *)
Inductive shape : gtree -> Prop :=
| shape_node a c ks :
    Group.Groups c = map root ks ->
    Forall shape ks ->
    shape (GNode a c ks).

(** The store holds the cells of the tree. *)
Definition stored (h : heap) (t : gtree) : Prop :=
  Forall (fun ac => groups h !! ac.1 = Some ac.2) (nodes t).

(** Every snippet a node lists is a cell of the store. *)
Definition snippets_valid (sn : list Snippet.t) (t : gtree) : Prop :=
  Forall (fun ac => Forall (fun s => is_Some (sn !! s)) (Group.Snippets ac.2))
         (nodes t).

(** The name of the snippet at an address. *)
Definition sname (sn : list Snippet.t) (s : loc) : string :=
  default "" (Snippet.Name <$> sn !! s).

(** No two sibling groups and no two sibling snippets share a name, at
    every level of the tree. *)
Inductive unique_names (sn : list Snippet.t) : gtree -> Prop :=
| unique_names_node a c ks :
    NoDup (map gname ks) ->
    NoDup (map (sname sn) (Group.Snippets c)) ->
    Forall (unique_names sn) ks ->
    unique_names sn (GNode a c ks).

(** The store lays out [t] and [o] as two trees that share no group. *)
Record separate_trees (h : heap) (t o : gtree) : Prop := {
  sep_shape_t : shape t;
  sep_shape_o : shape o;
  sep_stored_t : stored h t;
  sep_stored_o : stored h o;
  sep_snippets_t : snippets_valid (snippets h) t;
  sep_snippets_o : snippets_valid (snippets h) o;
  sep_disjoint : NoDup (addrs t ++ addrs o)
}.

(** ** The merge, on lists and on trees *)

(** [mergeSnippets] on the list of a group's snippets: one incoming
    snippet, then all of them. *)
Fixpoint upsert1 (sn : list Snippet.t) (s : loc) (l : list loc) : list loc :=
  match l with
  | [] => [s]
  | x :: l' =>
      if String.eqb (sname sn s) (sname sn x) then s :: l'
      else x :: upsert1 sn s l'
  end.

Definition upsert (sn : list Snippet.t) (l incoming : list loc) : list loc :=
  foldl (fun acc s => upsert1 sn s acc) l incoming.

(** [MergeAll] on the list of a group's children: one incoming group,
    merged by [f] into the first child of its name or appended. *)
Fixpoint merge_kid (f : gtree -> gtree) (r : gtree) (ks : list gtree) : list gtree :=
  match ks with
  | [] => [r]
  | k :: ks' =>
      if String.eqb (gname k) (gname r) then f k :: ks'
      else k :: merge_kid f r ks'
  end.

(** [merge_tree sn o t]: the target [t] after [Merge] of the incoming [o]. *)
Fixpoint merge_tree (sn : list Snippet.t) (o t : gtree) {struct o} : gtree :=
  match o with
  | GNode _ oc oks =>
      let ks' := foldl (fun ks r => merge_kid (merge_tree sn r) r ks) (kids t) oks in
      GNode (root t)
            (Group.mk (gname t)
                      (upsert sn (Group.Snippets (cell t)) (Group.Snippets oc))
                      (map root ks')
                      (Group.Parent (cell t)))
            ks'
  end.

Definition merge_kids (sn : list Snippet.t) (ks rights : list gtree) : list gtree :=
  foldl (fun ks r => merge_kid (merge_tree sn r) r ks) ks rights.

(** Every address of the list is a snippet cell. *)
Definition valid_snippets (sn : list Snippet.t) (l : list loc) : Prop :=
  Forall (fun s => is_Some (sn !! s)) l.

(** The children before the first child of the name of [r], that child,
    and the children after it. *)
Fixpoint split_match (r : gtree) (ks : list gtree)
  : option (list gtree * gtree * list gtree) :=
  match ks with
  | [] => None
  | k :: ks' =>
      if String.eqb (gname k) (gname r) then Some ([], k, ks')
      else '(pre, x, post) ← split_match r ks'; Some (k :: pre, x, post)
  end.

(** [Merge] of the incoming tree [o] returns with enough fuel, writes the
    cells of [merge_tree sn o t] and no other cell. *)
Definition refines (sn : list Snippet.t) (o : gtree) : Prop :=
  forall t h fuel,
    snippets h = sn ->
    separate_trees h t o ->
    height o <= fuel ->
    exists h',
      Group_Merge fuel h (root t) (root o) = Ok h'
      /\ snippets h' = sn
      /\ stored h' (merge_tree sn o t)
      /\ (forall a, a ∉ addrs (merge_tree sn o t) -> groups h' !! a = groups h !! a).

(** ** Name-keyed upsert, as the specification words it

    Both loops of [Merge] place each incoming item [r] in a list [l] of
    named items: [r] is combined into the first item of its name, where it
    stands, or appended. *)

Section place.

Context {A : Type}.
Variable name : A -> string.
Variable combine : A -> A -> A.   (* [combine r x]: [x] after [r] came in *)

Fixpoint place (r : A) (l : list A) : list A :=
  match l with
  | [] => [r]
  | x :: l' =>
      if String.eqb (name x) (name r) then combine r x :: l'
      else x :: place r l'
  end.

Definition place_all (l rs : list A) : list A :=
  foldl (fun acc r => place r acc) l rs.

(** The incoming item of a name. *)
Fixpoint named (rs : list A) (n : string) : option A :=
  match rs with
  | [] => None
  | r :: rs' => if String.eqb (name r) n then Some r else named rs' n
  end.

(** The items of the target, each in its place: the first item of a name
    that comes in is combined with the incoming item of that name.  [seen]
    holds the names of the items before. *)
Fixpoint in_place (rs : list A) (seen : list string) (l : list A) : list A :=
  match l with
  | [] => []
  | x :: l' =>
      (if decide (name x ∈ seen) then x
       else match named rs (name x) with
            | Some r => combine r x
            | None => x
            end)
      :: in_place rs (name x :: seen) l'
  end.

(** The incoming items whose name no item of the target has, in the order
    they come in. *)
Definition appended (rs l : list A) : list A :=
  filter (fun r => name r ∉ map name l) rs.

Definition place_spec (l rs : list A) : list A :=
  in_place rs [] l ++ appended rs l.

End place.

(** [absorbed sn t o]: the target [t] holds all of the incoming tree [o]
    already.  The first child of the name of each incoming child [r] has
    absorbed [r], and the first snippet of the name of each incoming
    snippet is that snippet. *)
Inductive absorbed (sn : list Snippet.t) : gtree -> gtree -> Prop :=
| absorbed_node t o :
    Forall (fun r => exists k, named gname (kids t) (gname r) = Some k
                               /\ absorbed sn k r) (kids o) ->
    Forall (fun s => named (sname sn) (Group.Snippets (cell t)) (sname sn s) = Some s)
           (Group.Snippets (cell o)) ->
    absorbed sn t o.

(** ** The structured-document backend *)

Section textexpander_notions.

Import textexpander.

(** The names of the snippet cells, by address. *)
Definition names (h : heap) : list string := map Snippet.Name (snippets h).

(** The lookup of [parse] sends an identifier to a snippet of that name. *)
Definition index_ok (h : heap) (snips : gmap string loc) : Prop :=
  forall u a, snips !! u = Some a -> names h !! a = Some u.

(** The group at [a] is the group of the record [g], complete: it has the
    name of the record and one snippet for each identifier, in order. *)
Definition built (h : heap) (a : loc) (g : rawGroup) : Prop :=
  exists gc,
    expander.groups h !! a = Some gc
    /\ Group.Name gc = Name g
    /\ Forall2 (fun s u => names h !! s = Some u) (Group.Snippets gc) (UUIDs g).


(** Every identifier of the record is in the lookup. *)
Definition found (snips : gmap string loc) (g : rawGroup) : Prop :=
  Forall (fun u => is_Some (snips !! u)) (UUIDs g).

End textexpander_notions.

(** ** File systems that grow *)

Definition txt : list ascii := bytes ".txt".
Definition json : list ascii := bytes ".json".

(** A path that ends in ".txt". *)
Definition body_path (p : string) : Prop := txt `suffix_of` bytes p.

(** [f ⊑ f']: every directory of [f] is a directory of [f'], unchanged,
    and every node of [f] whose path does not end in ".txt" is a node of
    [f'] that is not older. *)
Record fs_le (f f' : gmap string node) : Prop := {
  fs_le_dir : forall q t, f !! q = Some (Dir t) -> f' !! q = Some (Dir t);
  fs_le_node : forall q n,
      ~ body_path q -> f !! q = Some n ->
      exists n', f' !! q = Some n' /\ (node_ModTime n <= node_ModTime n')%Z
}.

(** A call that leaves the store alone and only lets the file system grow. *)
Definition grows (w w' : World) : Prop :=
  store w' = store w /\ fs_le (fs w) (fs w').

(** A call that leaves every directory as it is. *)
Definition keeps_dirs (w w' : World) : Prop :=
  forall q t, fs w !! q = Some (Dir t) -> fs w' !! q = Some (Dir t).

(** An instant that [os.Chtimes] hands over as it is: neither the zero
    [time.Time], nor outside the range that [UnixNano] can express. *)
Definition ordinary (t : Time) : Prop := (- 2 ^ 63 <= t < 2 ^ 63)%Z.

(** Every snippet of the store has an ordinary modification time. *)
Definition ordinary_store (h : heap) : Prop :=
  Forall (fun sc => ordinary (Snippet.ModTime sc)) (snippets h).

(** ** Tidy paths

    A path is tidy when [path.Clean] has nothing to do on it: a list of
    elements, none of them empty, "." or "..", joined by single slashes,
    after a leading slash or none. *)

Definition slash_free (t : list ascii) : Prop := Forall (fun c => c <> slash) t.

Definition simple (x : list ascii) : Prop :=
  x <> [] /\ slash_free x /\ x <> [dot] /\ x <> [dot; dot].

Definition lead (rooted : bool) : list ascii := if rooted then [slash] else [].

Definition tidy (l : list ascii) : Prop :=
  exists rooted es, es <> [] /\ Forall simple es /\ l = lead rooted ++ join_slash es.

(** ** The file-tree backend *)

Section autokey_notions.

Import autokey.
Context {Json : JsonCodec}.

(** The body path, the sidecar path and the cell of a snippet. *)
Definition target (fuel : nat) (ak : AutoKey) (h : heap) (s : loc)
  : option (string * string * Snippet.t) :=
  sc ← snippets h !! s;
  match Snippet_Path fuel h sc with
  | Ok p =>
      let sPath := path_Join (dir ak) (p +:+ "." +:+ snippetExt) in
      '(d, stem, _) ← filePattern (bytes sPath);
      Some (sPath, str d +:+ "." +:+ str stem +:+ "." +:+ metadataExt, sc)
  | _ => None
  end.

(** The freshness check of [writeSnippet]: a node stands at the sidecar
    path and is not older than the snippet. *)
Definition up_to_date (fuel : nat) (ak : AutoKey) (h : heap) (f : gmap string node)
    (s : loc) : Prop :=
  exists sPath mdPath sc n,
    target fuel ak h s = Some (sPath, mdPath, sc)
    /\ f !! mdPath = Some n
    /\ (Snippet.ModTime sc <= node_ModTime n)%Z.

(** The four calls that write a snippet. *)
Definition write_both (sPath mdPath : string) (sc : Snippet.t) : M World unit :=
  _ ← writeMetadata mdPath (newMetadata sc);
  _ ← os_Chtimes mdPath (Snippet.ModTime sc);
  _ ← ioutil_WriteFile sPath (Snippet.Text sc);
  os_Chtimes sPath (Snippet.ModTime sc).

(** [settled n ak h f g]: [writeGroup] with fuel [n] finds nothing to do
    for the group at [g]: its directory is there, its child groups are
    settled and its snippets are up to date. *)
Fixpoint settled (n : nat) (ak : AutoKey) (h : heap) (f : gmap string node) (g : loc)
  : Prop :=
  match n with
  | 0 => False
  | S n' =>
      exists gc p t,
        expander.groups h !! g = Some gc
        /\ Group_Path (S n') h gc = Ok p
        /\ f !! path_Join (dir ak) p = Some (Dir t)
        /\ Forall (settled n' ak h f) (Group.Groups gc)
        /\ Forall (up_to_date (S n') ak h f) (Group.Snippets gc)
  end.


(** The snippet [newSnippet] builds from the body file [file] and its
    sidecar. *)
Definition snippet_at (f : gmap string node) (file : string) : option Snippet.t :=
  '(d, stem, _) ← filePattern (bytes file);
  sidecar ← f !! (str d +:+ "." +:+ str stem +:+ "." +:+ metadataExt);
  body ← f !! file;
  match sidecar, body with
  | File c t, File b _ =>
      md ← json_decode c;
      Some (Snippet.mk (Description md)
                       (default "" (head (Abbreviations (Abbreviation md))))
                       b None t)
  | _, _ => None
  end.

(** One round of the loop of [load]. *)
Definition load_entry (n : nat) (d : string) (g : loc) (fi : string * node)
  : M World unit :=
  match fi.2 with
  | Dir _ =>
      child ← load n (path_Join d fi.1) (Some g);
      update_group g (fun gc => set_Groups gc (Group.Groups gc ++ [child]))
  | File _ _ =>
      if hidden fi.1 then mret tt
      else
        s ← newSnippet (path_Join d fi.1);
        _ ← update_snippet s (with_Snippet_Parent (Some g));
        update_group g (fun gc => set_Snippets gc (Group.Snippets gc ++ [s]))
  end.

(** [only g w w']: the file system is as it was, and so are the snippet
    cells of [w] and its group cells, that of [g] apart. *)
Record only (g : loc) (w w' : World) : Prop := {
  only_fs : fs w' = fs w;
  only_snippets : forall s sc,
      snippets (store w) !! s = Some sc -> snippets (store w') !! s = Some sc;
  only_groups : forall a gc,
      a <> g -> expander.groups (store w) !! a = Some gc ->
      expander.groups (store w') !! a = Some gc
}.

(** A call that leaves every cell of [w] alone. *)
Definition apart (w w' : World) : Prop := forall g, only g w w'.

(** A child group of the directory entry [x], as the loop leaves it. *)
Definition produced (n : nat) (d : string) (g : loc) (f : gmap string node)
    (c : loc) (x : string) (u' : World) : Prop :=
  exists v v', load n (path_Join d x) (Some g) v = Returns c v'
               /\ fs v = f /\ c <> g /\ only g v' u'.

(** The loop of [Load] changes the parents of the groups and nothing else. *)
Record same_content (w w' : World) : Prop := {
  same_fs : fs w' = fs w;
  same_snippets : snippets (store w') = snippets (store w);
  same_groups : forall a gc,
      expander.groups (store w) !! a = Some gc ->
      exists gc', expander.groups (store w') !! a = Some gc'
                  /\ Group.Name gc' = Group.Name gc
                  /\ Group.Snippets gc' = Group.Snippets gc
                  /\ Group.Groups gc' = Group.Groups gc
}.

(** Decoding the encoded metadata gives back the description and the
    triggers. *)
Definition round_trips (md : metadata) : Prop :=
  exists md', json_decode (json_encode md) = Some md'
              /\ Description md' = Description md
              /\ Abbreviations (Abbreviation md') = Abbreviations (Abbreviation md).

Section the_two_files.

Variables (fuel : nat) (ak : AutoKey) (h : heap).
Variables (sPath mdPath : string) (sc : Snippet.t).

(** The two files hold the snippet. *)
Definition written (f : gmap string node) : Prop :=
  (exists t, f !! mdPath = Some (File (json_encode (newMetadata sc)) t))
  /\ (exists t, f !! sPath = Some (File (Snippet.Text sc) t)).

(** A call that leaves the store alone, and the two files too unless it
    leaves them holding the snippet. *)
Definition spares (w w' : World) : Prop :=
  store w = h ->
  store w' = h
  /\ (written (fs w')
      \/ (fs w' !! mdPath = fs w !! mdPath /\ fs w' !! sPath = fs w !! sPath)).

(** The two paths depend on the cell alone. *)
Definition paths_of (c : Snippet.t) : option (string * string) :=
  match Snippet_Path fuel h c with
  | Ok p =>
      let sp := path_Join (dir ak) (p +:+ "." +:+ snippetExt) in
      '(d, stem, _) ← filePattern (bytes sp);
      Some (sp, str d +:+ "." +:+ str stem +:+ "." +:+ metadataExt)
  | _ => None
  end.

End the_two_files.

End autokey_notions.

(** No snippet cell of the store but copies of [sc] is written to the body
    path [sPath] or to the sidecar path [mdPath]. *)
Definition no_other_writer (fuel : nat) (ak : autokey.AutoKey) (h : heap)
    (sPath mdPath : string) (sc : Snippet.t) : Prop :=
  forall s' p m c,
    target fuel ak h s' = Some (p, m, c) -> p = sPath \/ m = mdPath -> c = sc.

(** No group of the store has its directory at [q] or below it. *)
Definition no_directory_at (fuel : nat) (ak : autokey.AutoKey) (h : heap) (q : string)
  : Prop :=
  forall g gc p,
    groups h !! g = Some gc ->
    Group_Path fuel h gc = Ok p ->
    ~ bytes q `prefix_of` bytes (path_Join (autokey.dir ak) p).

(** ** Notions of the further properties *)

(** [lists_only h h']: from [h] to [h'] no snippet cell is written and no
    cell is allocated; every group keeps its name and its parent, and
    neither of its two lists gets shorter. *)
Record lists_only (h h' : heap) : Prop := {
  lo_snippets : snippets h' = snippets h;
  lo_length : length (groups h') = length (groups h);
  lo_cells : forall a gc,
      groups h !! a = Some gc ->
      exists gc',
        groups h' !! a = Some gc'
        /\ Group.Name gc' = Group.Name gc
        /\ Group.Parent gc' = Group.Parent gc
        /\ length (Group.Groups gc) <= length (Group.Groups gc')
        /\ length (Group.Snippets gc) <= length (Group.Snippets gc')
}.

(** The last incoming item of a name. *)
Definition last_named {A : Type} (name : A -> string) (rs : list A) (n : string)
  : option A :=
  named name (rev rs) n.

(** Every entry of the table stands under the name of its group. *)
Definition keyed (h : heap) (ak : autokey.AutoKey) : Prop :=
  forall k rg,
    autokey.groups ak !! k = Some rg ->
    exists gc, groups h !! autokey.group rg = Some gc /\ Group.Name gc = k.

(** The directories that [load] goes through from [d]: [d] itself and the
    directories listed in one of them. *)
Inductive under (f : gmap string node) (d : string) : string -> Prop :=
| under_here : under f d d
| under_child q x t :
    under f d q -> (x, Dir t) ∈ entries f q -> under f d (path_Join q x).

(** The state in which a call ends, with a result or with an error. *)
Definition reaches {S A : Type} (m : M S A) (s s' : S) : Prop :=
  (exists a, m s = Returns a s') \/ (exists e, m s = Fails e s').

(** A path that ends in ".json". *)
Definition sidecar_path (p : string) : Prop := json `suffix_of` bytes p.

(** [tame w w']: the store is as it was, and every path of the file system
    holds what it held, or a directory where it held nothing, or a regular
    file, under a name that ends in ".txt" or ".json", where it held no
    directory. *)
Record tame (w w' : World) : Prop := {
  tame_store : store w' = store w;
  tame_node : forall q,
      fs w' !! q = fs w !! q
      \/ (fs w !! q = None /\ exists t, fs w' !! q = Some (Dir t))
      \/ ((body_path q \/ sidecar_path q)
          /\ (forall t, fs w !! q <> Some (Dir t))
          /\ exists c t, fs w' !! q = Some (File c t))
}.

(** The snippet holds the record: its name is the identifier. *)
Definition holds_record (sc : Snippet.t) (r : textexpander.rawSnippet) : Prop :=
  Snippet.Name sc = textexpander.UUID r
  /\ Snippet.Abbr sc = textexpander.Abbr r
  /\ Snippet.Text sc = textexpander.Text r
  /\ Snippet.ModTime sc = textexpander.ModDate r.

Section textexpander_content_notions.

Import textexpander.

(** The lookup of [parse] sends an identifier to a snippet that holds the
    last record of [recs] with that identifier. *)
Definition index_holds (recs : list rawSnippet) (h : heap) (snips : gmap string loc)
  : Prop :=
  forall u s, snips !! u = Some s ->
    exists sc r, snippets h !! s = Some sc
                 /\ last_named UUID recs u = Some r /\ holds_record sc r.

(** The snippet cells after a call: the fields that a record gives are as
    they were, and the parent is [group] for the cells at [touched] and as
    it was for the others. *)
Definition reparented (group : loc) (touched : list loc) (sn sn' : list Snippet.t)
  : Prop :=
  forall s sc, sn !! s = Some sc ->
    exists sc', sn' !! s = Some sc'
                /\ Snippet.Name sc' = Snippet.Name sc
                /\ Snippet.Abbr sc' = Snippet.Abbr sc
                /\ Snippet.Text sc' = Snippet.Text sc
                /\ Snippet.ModTime sc' = Snippet.ModTime sc
                /\ Snippet.Parent sc'
                   = if decide (s ∈ touched) then Some group else Snippet.Parent sc.

(** The state of the loop of [parse] over the group records, after the
    records [done]: the lookup is as [index_holds] has it; the groups at
    [new] are those of the records, each with the snippets that the lookup
    gives for its identifiers; and every snippet that one of them lists has
    one of them as its parent, and that one lists it. *)
Definition loaded (recs : list rawSnippet) (snips : gmap string loc) (h : heap)
    (new : list loc) (done : list rawGroup) : Prop :=
  index_holds recs h snips
  /\ Forall (fun b => b < length (expander.groups h)) new
  /\ Forall2 (fun a g =>
                exists gc, expander.groups h !! a = Some gc
                           /\ Group.Name gc = Name g
                           /\ Forall2 (fun s u => snips !! u = Some s)
                                      (Group.Snippets gc) (UUIDs g))
             new done
  /\ forall a gc s,
       a ∈ new -> expander.groups h !! a = Some gc -> s ∈ Group.Snippets gc ->
       exists sc b gb,
         snippets h !! s = Some sc
         /\ Snippet.Parent sc = Some b
         /\ b ∈ new
         /\ expander.groups h !! b = Some gb
         /\ s ∈ Group.Snippets gb.

End textexpander_content_notions.

(** The name of the group at an address. *)
Definition group_name (gs : list Group.t) (g : loc) : string :=
  default "" (Group.Name <$> gs !! g).

(** A call that leaves the file system as it was and makes no call that
    changes it. *)
Definition untouched (w w' : World) : Prop :=
  fs w' = fs w /\ trace w' = trace w.

(** ** Worked examples *)

(** The cell of a snippet whose parent is another group than the target of
    the merge. *)
Definition stray_heap : heap :=
  mkHeap [Group.mk "target" [] [] None; Group.mk "source" [0] [] None]
         [Snippet.mk "sig" ";s" "Kind regards" (Some 1) 7%Z].

(** A store for the merge.  The target "Imported" holds the snippet "sig"
    and the group "Work"; the incoming tree holds another "sig", "addr",
    another "Work" and "Home". *)

Definition ex_store : heap :=
  mkHeap
    [ Group.mk "Imported" [0] [2] None;
      Group.mk "Incoming" [1; 2] [3; 4] None;
      Group.mk "Work" [3] [] (Some 0);
      Group.mk "Work" [4] [] (Some 1);
      Group.mk "Home" [5] [] (Some 1) ]
    [ Snippet.mk "sig" ";s" "Regards" (Some 0) 10%Z;
      Snippet.mk "sig" ";s" "Kind regards" (Some 1) 20%Z;
      Snippet.mk "addr" ";a" "1 Main St" (Some 1) 20%Z;
      Snippet.mk "ty" "ty" "Thank you!" (Some 2) 10%Z;
      Snippet.mk "brb" "brb" "be right back" (Some 3) 20%Z;
      Snippet.mk "omw" "omw" "on my way" (Some 4) 20%Z ].

Definition ex_target : gtree :=
  GNode 0 (Group.mk "Imported" [0] [2] None)
    [ GNode 2 (Group.mk "Work" [3] [] (Some 0)) [] ].

Definition ex_incoming : gtree :=
  GNode 1 (Group.mk "Incoming" [1; 2] [3; 4] None)
    [ GNode 3 (Group.mk "Work" [4] [] (Some 1)) [];
      GNode 4 (Group.mk "Home" [5] [] (Some 1)) [] ].

Section documents.

Import textexpander.

Definition ex_document : rawData :=
  mkRawData [mkRawGroup "Work" ["u1"]]
            [mkRawSnippet "ty" "thanks" "Thank you!" "u1" 10%Z].


End documents.

(** A codec to run the examples with: the description on the first line
    and one trigger on each further line.  The theorems hold for any
    codec. *)
Fixpoint split_lines (l : list ascii) : list (list ascii) :=
  match l with
  | [] => [[]]
  | c :: r =>
      if Ascii.eqb c newline then [] :: split_lines r
      else match split_lines r with
           | e :: es => (c :: e) :: es
           | [] => [[c]]
           end
  end.

Definition line_codec : autokey.JsonCodec := {|
  autokey.json_encode md :=
    String.concat (String newline EmptyString)
      (autokey.Description md :: autokey.Abbreviations (autokey.Abbreviation md));
  autokey.json_decode c :=
    match split_lines (bytes c) with
    | d :: abbrs =>
        Some (autokey.mkMetadata 0 false false (str d)
                (autokey.mkAbbreviation "[\w]" (map str abbrs) true false true false)
                (autokey.mkHotkey None []) [1%Z] false false
                (autokey.mkFilter None false) "phrase" "kb" 0%Z)
    | [] => None
    end
|}.

Definition ex_ak : autokey.AutoKey :=
  autokey.mkAK "/home/u/.config/autokey/data"
               {["Imported" := autokey.mkRawGroup 0 true]}.

Definition ex_world : World :=
  mkWorld ex_store ∅ (fun _ => false) (fun _ => 1000%Z) 0 [].


(** A root group "Work" with two snippets, for the round trip. *)
Definition rt_store : heap :=
  mkHeap [Group.mk "Work" [0; 1] [] None]
         [Snippet.mk "u1" "ty" "Thank you!" (Some 0) 10%Z;
          Snippet.mk "u2" "brb" "Be right back" (Some 0) 20%Z].

Definition rt_ak : autokey.AutoKey :=
  autokey.mkAK "/home/u/.config/autokey/data" {["Work" := autokey.mkRawGroup 0 true]}.

Definition rt_world : World :=
  mkWorld rt_store ∅ (fun _ => false) (fun _ => 1000%Z) 0 [].

(** The data directory after an earlier run that wrote another text for
    "u1", at a later time than the snippet of [rt_store] has. *)
Definition rt_earlier : gmap string node :=
  list_to_map
    [("/home/u/.config/autokey/data", Dir 5%Z);
     ("/home/u/.config/autokey/data/Work", Dir 5%Z);
     ("/home/u/.config/autokey/data/Work/u1.txt", File "Thanks!" 30%Z);
     ("/home/u/.config/autokey/data/Work/.u1.json",
      File (autokey.json_encode (JsonCodec := line_codec)
              (autokey.newMetadata (Snippet.mk "u1" "thx" "Thanks!" None 30%Z)))
           30%Z)].

Definition rt_world_earlier : World :=
  mkWorld rt_store rt_earlier (fun _ => false) (fun _ => 1000%Z) 0 [].

(** The data directory with a directory where the text of "u1" goes. *)
Definition rt_blocked : gmap string node :=
  list_to_map
    [("/home/u/.config/autokey/data", Dir 5%Z);
     ("/home/u/.config/autokey/data/Work", Dir 5%Z);
     ("/home/u/.config/autokey/data/Work/u1.txt", Dir 5%Z)].

Definition rt_world_blocked : World :=
  mkWorld rt_store rt_blocked (fun _ => false) (fun _ => 1000%Z) 0 [].

(** A root group "Work" with a snippet dated January 1 of the year 3000,
    and one with the zero date; the clock stands in November 2023. *)
Definition far_store : heap :=
  mkHeap [Group.mk "Work" [0; 1] [] None]
         [Snippet.mk "u1" "ty" "Thank you!" (Some 0) 32503680000000000000%Z;
          Snippet.mk "u2" "brb" "Be right back" (Some 0) zero_time].

Definition far_world : World :=
  mkWorld far_store ∅ (fun _ => false) (fun _ => 1700000000000000000%Z) 0 [].

(** A document with two records of one identifier, which two groups list. *)
Definition ex_repeating_document : textexpander.rawData :=
  textexpander.mkRawData
    [textexpander.mkRawGroup "Work" ["u1"]; textexpander.mkRawGroup "Home" ["u1"]]
    [textexpander.mkRawSnippet "ty" "thanks" "Thank you!" "u1" 10%Z;
     textexpander.mkRawSnippet "thx" "thanks" "Thanks!" "u1" 20%Z].

(** * Properties *)

(** ** Paths *)

Lemma Group_Path_enough h g n :
  ancestry h g n ->
  exists p, forall fuel, n <= fuel -> Group_Path fuel h g = Ok p.
Proof.
  induction 1 as [g Hg | g p pg n Hg Hp _ [pp IH]].
  - exists (Group.Name g). intros fuel _. destruct fuel; simpl; rewrite Hg; reflexivity.
  - exists (path_Join pp (Group.Name g)). intros fuel Hle.
    destruct fuel as [|fuel]; [lia|]. simpl. rewrite Hg, Hp. simpl.
    rewrite IH by lia. reflexivity.
Qed.

(** C10. A root group's path is its name; the path of a group with a parent
    is the parent's path joined with its name, and the path of a snippet is
    its parent group's path joined with its name.  [Path] returns whenever
    the chain of parents ends in a root. *)
Theorem Path_is_parent_path_joined_with_name (h : heap) :
  (forall g fuel,
      Group.Parent g = None -> Group_Path fuel h g = Ok (Group.Name g))
  /\ (forall g p pg n,
         Group.Parent g = Some p -> groups h !! p = Some pg -> ancestry h pg n ->
         exists pp,
           (forall fuel, n <= fuel -> Group_Path fuel h pg = Ok pp)
           /\ forall fuel, n < fuel ->
                Group_Path fuel h g = Ok (path_Join pp (Group.Name g)))
  /\ (forall s p pg n,
         Snippet.Parent s = Some p -> groups h !! p = Some pg -> ancestry h pg n ->
         exists pp,
           (forall fuel, n <= fuel -> Group_Path fuel h pg = Ok pp)
           /\ forall fuel, n <= fuel ->
                Snippet_Path fuel h s = Ok (path_Join pp (Snippet.Name s))).
Proof.
  split; [|split].
  - intros g fuel Hg. destruct fuel; simpl; rewrite Hg; reflexivity.
  - intros g p pg n Hg Hp Hanc.
    destruct (Group_Path_enough h pg n Hanc) as [pp Hpp].
    exists pp. split; [exact Hpp|]. intros fuel Hlt.
    destruct fuel as [|fuel]; [lia|]. simpl. rewrite Hg, Hp. simpl.
    rewrite Hpp by lia. reflexivity.
  - intros s p pg n Hs Hp Hanc.
    destruct (Group_Path_enough h pg n Hanc) as [pp Hpp].
    exists pp. split; [exact Hpp|]. intros fuel Hle.
    unfold Snippet_Path. rewrite Hs. simpl. rewrite Hp. simpl.
    rewrite Hpp by lia. reflexivity.
Qed.

(** ** Merging snippets *)

Lemma bind_Ok {A B : Type} (r : result A) (k : A -> result B) (b : B) :
  r ≫= k = Ok b -> exists a, r = Ok a /\ k a = Ok b.
Proof. destruct r; simpl; intros H; try discriminate. eauto. Qed.

Lemma merge_snippet_store g h snippet h' :
  merge_snippet g h snippet = Ok h' -> snippets h' = snippets h.
Proof.
  unfold merge_snippet. intros H.
  apply bind_Ok in H as (gc & _ & H). apply bind_Ok in H as (found & _ & H).
  destruct found; injection H as <-; reflexivity.
Qed.

Lemma mergeSnippets_store incoming : forall h g h',
  Group_mergeSnippets h g incoming = Ok h' -> snippets h' = snippets h.
Proof.
  induction incoming as [|s rest IH]; simpl; intros h g h' H.
  - injection H as <-. reflexivity.
  - apply bind_Ok in H as (h1 & H1 & H). apply IH in H.
    apply merge_snippet_store in H1. congruence.
Qed.

Lemma mergeSnippets_app pre : forall post h g,
  Group_mergeSnippets h g (pre ++ post)
  = h1 ← Group_mergeSnippets h g pre; Group_mergeSnippets h1 g post.
Proof.
  induction pre as [|s pre IH]; simpl; intros post h g; [reflexivity|].
  destruct (merge_snippet g h s); simpl; auto.
Qed.

Lemma find_snippet_none h snippet sc l : forall i,
  snippets h !! snippet = Some sc ->
  Forall (fun s => exists sc', snippets h !! s = Some sc'
                               /\ Snippet.Name sc' <> Snippet.Name sc) l ->
  find_snippet h snippet i l = Ok None.
Proof.
  induction l as [|s l IH]; simpl; intros i Hs Hl; [reflexivity|].
  inversion Hl as [|? ? (sc' & Hs' & Hne) Hl']; subst.
  rewrite Hs, Hs'. simpl.
  destruct (String.eqb_spec (Snippet.Name sc) (Snippet.Name sc')); [congruence|].
  apply IH; assumption.
Qed.

(** C5, as stated, fails: the snippet at address 0 matches nothing in the
    group at address 0 and is appended to it, and its parent is still the
    group at address 1. *)
Lemma mergeSnippets_leaves_parent :
  exists h', Group_mergeSnippets stray_heap 0 [0] = Ok h'
             /\ Group.Snippets <$> groups h' !! 0 = Some [0]
             /\ Snippet.Parent <$> snippets h' !! 0 = Some (Some 1).
Proof. eexists. repeat split. Qed.

(** C5, amended. When the name of an incoming snippet matches no snippet
    that the target holds when its turn comes, [mergeSnippets] appends it
    after the target's snippets; no snippet cell is written, so the parent
    reference of the adopted snippet stays what it was. *)
Theorem mergeSnippets_appends_unmatched h g incoming snippet h1 gc sc :
  Group_mergeSnippets h g incoming = Ok h1 ->
  groups h1 !! g = Some gc ->
  snippets h1 !! snippet = Some sc ->
  Forall (fun s => exists sc', snippets h1 !! s = Some sc'
                               /\ Snippet.Name sc' <> Snippet.Name sc)
         (Group.Snippets gc) ->
  exists h2,
    Group_mergeSnippets h g (incoming ++ [snippet]) = Ok h2
    /\ groups h2 !! g = Some (set_Snippets gc (Group.Snippets gc ++ [snippet]))
    /\ snippets h2 = snippets h
    /\ snippets h2 !! snippet = Some sc.
Proof.
  intros Hm Hg Hs Hall.
  exists (set_group h1 g (set_Snippets gc (Group.Snippets gc ++ [snippet]))).
  assert (Hstore : snippets h1 = snippets h) by (eapply mergeSnippets_store; eauto).
  split; [|split; [|split]].
  - rewrite mergeSnippets_app, Hm. simpl. unfold merge_snippet.
    rewrite Hg. simpl. rewrite (find_snippet_none _ _ sc) by assumption.
    reflexivity.
  - simpl. apply list_lookup_insert_eq. eapply lookup_lt_Some; eauto.
  - exact Hstore.
  - exact Hs.
Qed.

(** ** Merging trees *)

Lemma gtree_induction (P : gtree -> Prop) :
  (forall a c ks, Forall P ks -> P (GNode a c ks)) ->
  forall t, P t.
Proof.
  intros step. fix IH 1. intros [a c ks]. apply step.
  induction ks as [|k ks IHks]; constructor; [apply IH | exact IHks].
Qed.

Lemma merge_tree_unfold sn o t :
  merge_tree sn o t
  = GNode (root t)
          (Group.mk (gname t)
                    (upsert sn (Group.Snippets (cell t)) (Group.Snippets (cell o)))
                    (map root (merge_kids sn (kids t) (kids o)))
                    (Group.Parent (cell t)))
          (merge_kids sn (kids t) (kids o)).
Proof. destruct o; reflexivity. Qed.

(** *** The store and the lists of a group *)

Lemma set_Snippets_id gc : set_Snippets gc (Group.Snippets gc) = gc.
Proof. destruct gc; reflexivity. Qed.

Lemma set_Groups_id gc : set_Groups gc (Group.Groups gc) = gc.
Proof. destruct gc; reflexivity. Qed.

Lemma set_group_id h g gc : groups h !! g = Some gc -> set_group h g gc = h.
Proof.
  intros H. destruct h as [gs sn]. unfold set_group. simpl in *.
  f_equal. apply list_insert_id. exact H.
Qed.

Lemma set_group_twice h g c1 c2 :
  set_group (set_group h g c1) g c2 = set_group h g c2.
Proof. unfold set_group. simpl. f_equal. apply list_insert_insert_eq. Qed.

Lemma lookup_set_group_eq h g gc c :
  groups h !! g = Some gc -> groups (set_group h g c) !! g = Some c.
Proof. intros H. simpl. apply list_lookup_insert_eq. eapply lookup_lt_Some; eauto. Qed.

Lemma lookup_set_group_ne h g c a :
  a <> g -> groups (set_group h g c) !! a = groups h !! a.
Proof. intros H. simpl. apply list_lookup_insert_ne. congruence. Qed.

Lemma sname_lookup sn s sc : sn !! s = Some sc -> sname sn s = Snippet.Name sc.
Proof. unfold sname. intros ->. reflexivity. Qed.

Lemma upsert1_valid sn s l :
  is_Some (sn !! s) -> valid_snippets sn l -> valid_snippets sn (upsert1 sn s l).
Proof.
  intros Hs. induction 1 as [|x l Hx Hl IH]; simpl.
  - repeat constructor. exact Hs.
  - destruct (String.eqb _ _); constructor; auto.
Qed.

Lemma upsert_valid sn incoming : forall l,
  valid_snippets sn incoming -> valid_snippets sn l ->
  valid_snippets sn (upsert sn l incoming).
Proof.
  unfold upsert. induction incoming as [|s rest IH]; simpl; intros l Hi Hl; [exact Hl|].
  inversion Hi; subst. apply IH; [assumption|]. apply upsert1_valid; assumption.
Qed.

Lemma find_snippet_upsert1 h s l : forall i,
  is_Some (snippets h !! s) ->
  valid_snippets (snippets h) l ->
  exists r, find_snippet h s i l = Ok r
            /\ match r with
               | Some j => exists k, j = i + k /\ <[k := s]> l = upsert1 (snippets h) s l
               | None => l ++ [s] = upsert1 (snippets h) s l
               end.
Proof.
  intros i [sc Hs] Hl. revert i.
  induction Hl as [|x l [xc Hx] Hl IH]; intros i; simpl.
  - eexists. split; reflexivity.
  - rewrite Hs, Hx. simpl. rewrite (sname_lookup _ _ _ Hs), (sname_lookup _ _ _ Hx).
    destruct (String.eqb (Snippet.Name sc) (Snippet.Name xc)).
    + eexists. split; [reflexivity|]. exists 0. split; [lia|reflexivity].
    + destruct (IH (S i)) as (r & Hr & Hspec). exists r. split; [exact Hr|].
      destruct r as [j|].
      * destruct Hspec as (k & -> & Hk). exists (S k). split; [lia|].
        simpl. f_equal. exact Hk.
      * simpl. f_equal. exact Hspec.
Qed.

Lemma merge_snippet_upsert1 h g gc s :
  groups h !! g = Some gc ->
  is_Some (snippets h !! s) ->
  valid_snippets (snippets h) (Group.Snippets gc) ->
  merge_snippet g h s
  = Ok (set_group h g (set_Snippets gc (upsert1 (snippets h) s (Group.Snippets gc)))).
Proof.
  intros Hg Hs Hl. unfold merge_snippet. rewrite Hg. simpl.
  destruct (find_snippet_upsert1 h s (Group.Snippets gc) 0 Hs Hl) as (r & -> & Hspec).
  simpl. destruct r as [j|].
  - destruct Hspec as (k & -> & Hk). simpl. rewrite Hk. reflexivity.
  - rewrite Hspec. reflexivity.
Qed.

(** [mergeSnippets] computes [upsert] on the snippets of the target. *)
Lemma mergeSnippets_upsert incoming : forall h g gc,
  groups h !! g = Some gc ->
  valid_snippets (snippets h) incoming ->
  valid_snippets (snippets h) (Group.Snippets gc) ->
  Group_mergeSnippets h g incoming
  = Ok (set_group h g (set_Snippets gc (upsert (snippets h) (Group.Snippets gc) incoming))).
Proof.
  induction incoming as [|s rest IH]; intros h g gc Hg Hi Hl; simpl.
  - unfold upsert. simpl. rewrite set_Snippets_id, set_group_id by assumption. reflexivity.
  - inversion Hi as [|? ? Hs Hrest]; subst.
    rewrite (merge_snippet_upsert1 h g gc s) by assumption. simpl.
    set (gc1 := set_Snippets gc (upsert1 (snippets h) s (Group.Snippets gc))).
    rewrite (IH (set_group h g gc1) g gc1).
    + rewrite set_group_twice. destruct gc; reflexivity.
    + eapply lookup_set_group_eq; eauto.
    + exact Hrest.
    + simpl. apply upsert1_valid; assumption.
Qed.

(** *** Trees laid over the store *)

Lemma nodes_unfold t : nodes t = (root t, cell t) :: forest_nodes (kids t).
Proof. destruct t; reflexivity. Qed.

Lemma addrs_unfold t : addrs t = root t :: forest_addrs (kids t).
Proof. unfold addrs. rewrite nodes_unfold. reflexivity. Qed.

Lemma forest_addrs_nil : forest_addrs [] = [].
Proof. reflexivity. Qed.

Lemma forest_addrs_cons t ts : forest_addrs (t :: ts) = addrs t ++ forest_addrs ts.
Proof. unfold forest_addrs, forest_nodes, addrs. simpl. apply fmap_app. Qed.

Lemma forest_addrs_app ts us :
  forest_addrs (ts ++ us) = forest_addrs ts ++ forest_addrs us.
Proof.
  induction ts as [|t ts IH]; [reflexivity|].
  simpl. rewrite !forest_addrs_cons, IH, app_assoc. reflexivity.
Qed.

Lemma stored_unfold h t :
  stored h t <-> groups h !! root t = Some (cell t) /\ Forall (stored h) (kids t).
Proof.
  unfold stored. rewrite nodes_unfold, Forall_cons. simpl.
  apply and_iff_compat_l. unfold forest_nodes.
  induction (kids t) as [|k ks IH]; simpl.
  - split; constructor.
  - rewrite Forall_app, Forall_cons, IH. reflexivity.
Qed.

Lemma stored_root h t : stored h t -> groups h !! root t = Some (cell t).
Proof. intros H. apply stored_unfold in H. tauto. Qed.

Lemma stored_frame h h' t :
  stored h t ->
  (forall a, a ∈ addrs t -> groups h' !! a = groups h !! a) ->
  stored h' t.
Proof.
  unfold stored, addrs. intros H Hsame.
  rewrite Forall_forall in *. intros [a c] Hin.
  rewrite Hsame; [apply (H _ Hin)|].
  apply list_elem_of_fmap. exists (a, c). split; [reflexivity|exact Hin].
Qed.

Lemma forest_stored_frame h h' ts :
  Forall (stored h) ts ->
  (forall a, a ∈ forest_addrs ts -> groups h' !! a = groups h !! a) ->
  Forall (stored h') ts.
Proof.
  induction 1 as [|t ts Ht Hts IH]; intros Hsame; constructor.
  - eapply stored_frame; [exact Ht|]. intros a Ha. apply Hsame.
    rewrite forest_addrs_cons. apply elem_of_app. left. exact Ha.
  - apply IH. intros a Ha. apply Hsame.
    rewrite forest_addrs_cons. apply elem_of_app. right. exact Ha.
Qed.

Lemma snippets_valid_unfold sn t :
  snippets_valid sn t
  <-> valid_snippets sn (Group.Snippets (cell t)) /\ Forall (snippets_valid sn) (kids t).
Proof.
  unfold snippets_valid. rewrite nodes_unfold, Forall_cons. simpl.
  apply and_iff_compat_l. unfold forest_nodes.
  induction (kids t) as [|k ks IH]; simpl.
  - split; constructor.
  - rewrite Forall_app, Forall_cons, IH. reflexivity.
Qed.

Lemma shape_unfold t :
  shape t <-> Group.Groups (cell t) = map root (kids t) /\ Forall shape (kids t).
Proof.
  split.
  - intros H. inversion H; subst. simpl. auto.
  - destruct t as [a c ks]. simpl. intros [H1 H2]. constructor; assumption.
Qed.

Lemma height_unfold t : height t = S (foldr Nat.max 0 (map height (kids t))).
Proof. destruct t; reflexivity. Qed.

Lemma height_kids n ks :
  foldr Nat.max 0 (map height ks) <= n -> Forall (fun k => height k <= n) ks.
Proof.
  induction ks as [|k ks IH]; simpl; intros H; constructor; [lia|apply IH; lia].
Qed.

(** *** The first child of a name *)

Lemma split_match_Some r ks pre k post f :
  split_match r ks = Some (pre, k, post) ->
  ks = pre ++ k :: post
  /\ merge_kid f r ks = pre ++ f k :: post
  /\ gname k = gname r
  /\ Forall (fun x => gname x <> gname r) pre.
Proof.
  revert pre. induction ks as [|x ks IH]; simpl; intros pre H; [discriminate|].
  destruct (String.eqb_spec (gname x) (gname r)) as [Heq|Hne].
  - injection H as <- <- <-. repeat split; auto.
  - destruct (split_match r ks) as [[[pre' k'] post']|] eqn:E; simpl in H; [|discriminate].
    injection H as <- <- <-.
    destruct (IH pre' eq_refl) as (-> & -> & Hn & Hpre).
    repeat split; auto.
Qed.

Lemma split_match_None r ks f :
  split_match r ks = None ->
  merge_kid f r ks = ks ++ [r] /\ Forall (fun x => gname x <> gname r) ks.
Proof.
  induction ks as [|x ks IH]; simpl; intros H; [split; [reflexivity|constructor]|].
  destruct (String.eqb_spec (gname x) (gname r)) as [Heq|Hne]; [discriminate|].
  destruct (split_match r ks) as [[[pre' k'] post']|] eqn:E; simpl in H; [discriminate|].
  destruct (IH eq_refl) as [-> Hall]. split; [reflexivity|]. constructor; assumption.
Qed.

Lemma find_group_split h r ks :
  groups h !! root r = Some (cell r) ->
  Forall (fun k => groups h !! root k = Some (cell k)) ks ->
  find_group h (root r) (map root ks)
  = Ok ((fun x => root x.1.2) <$> split_match r ks).
Proof.
  intros Hr. induction 1 as [|k ks Hk Hks IH]; simpl; [reflexivity|].
  rewrite Hk, Hr. simpl. fold (gname k) (gname r).
  destruct (String.eqb (gname k) (gname r)); [reflexivity|].
  rewrite IH. destruct (split_match r ks) as [[[pre x] post]|]; reflexivity.
Qed.

(** *** What [merge_tree] keeps *)

Lemma root_merge_tree sn o t : root (merge_tree sn o t) = root t.
Proof. rewrite merge_tree_unfold. reflexivity. Qed.

Lemma gname_merge_tree sn o t : gname (merge_tree sn o t) = gname t.
Proof. rewrite merge_tree_unfold. reflexivity. Qed.

Lemma kids_merge_tree sn o t :
  kids (merge_tree sn o t) = merge_kids sn (kids t) (kids o).
Proof. rewrite merge_tree_unfold. reflexivity. Qed.

Lemma merge_kids_cons sn ks r rest :
  merge_kids sn ks (r :: rest) = merge_kids sn (merge_kid (merge_tree sn r) r ks) rest.
Proof. reflexivity. Qed.

Lemma map_root_merge_kid f r ks :
  (forall k, root (f k) = root k) ->
  map root (merge_kid f r ks)
  = match split_match r ks with
    | Some _ => map root ks
    | None => map root ks ++ [root r]
    end.
Proof.
  intros Hf. induction ks as [|k ks IH]; simpl; [reflexivity|].
  destruct (String.eqb (gname k) (gname r)); simpl; [rewrite Hf; reflexivity|].
  rewrite IH. destruct (split_match r ks) as [[[? ?] ?]|]; reflexivity.
Qed.

Section preserved.

Variable P : gtree -> Prop.

Lemma merge_kid_Forall f r ks :
  Forall P ks -> P r -> (forall k, P k -> P (f k)) -> Forall P (merge_kid f r ks).
Proof.
  intros Hks Hr Hf. induction Hks as [|k ks Hk Hks IH]; simpl.
  - repeat constructor. exact Hr.
  - destruct (String.eqb _ _); constructor; auto.
Qed.

Lemma merge_kids_Forall sn rights : forall ks,
  Forall P ks -> Forall P rights ->
  Forall (fun r => forall k, P k -> P (merge_tree sn r k)) rights ->
  Forall P (merge_kids sn ks rights).
Proof.
  induction rights as [|r rest IH]; intros ks Hks Hr Hf; [exact Hks|].
  rewrite merge_kids_cons. inversion Hr; inversion Hf; subst.
  apply IH; [|assumption|assumption]. apply merge_kid_Forall; assumption.
Qed.

End preserved.

Lemma merge_tree_shape sn o : forall t, shape o -> shape t -> shape (merge_tree sn o t).
Proof.
  induction o as [oa oc oks IH] using gtree_induction. intros t Ho Ht.
  rewrite merge_tree_unfold. constructor; [reflexivity|]. simpl.
  apply shape_unfold in Ho as [_ Hoks]. apply shape_unfold in Ht as [_ Hks].
  apply merge_kids_Forall; [assumption|assumption|].
  simpl in Hoks. clear -IH Hoks.
  induction IH as [|r rest Hr _ IHrest]; constructor; inversion Hoks; subst; auto.
Qed.

Lemma merge_tree_snippets_valid sn o : forall t,
  snippets_valid sn o -> snippets_valid sn t -> snippets_valid sn (merge_tree sn o t).
Proof.
  induction o as [oa oc oks IH] using gtree_induction. intros t Ho Ht.
  rewrite merge_tree_unfold. apply snippets_valid_unfold. simpl.
  apply snippets_valid_unfold in Ho as [Hos Hoks]. simpl in Hos, Hoks.
  apply snippets_valid_unfold in Ht as [Hts Hks].
  split; [apply upsert_valid; assumption|].
  apply merge_kids_Forall; [assumption|assumption|].
  clear -IH Hoks.
  induction IH as [|r rest Hr _ IHrest]; constructor; inversion Hoks; subst; auto.
Qed.

(** The groups of the merged tree are groups of the target or of the
    incoming tree, each at most once; the groups of the target stay. *)
Lemma submseteq_NoDup {A : Type} (l k : list A) : l ⊆+ k -> NoDup k -> NoDup l.
Proof.
  intros Hsub Hk. apply submseteq_Permutation in Hsub as [k' Hperm].
  rewrite Hperm in Hk. apply NoDup_app in Hk. tauto.
Qed.

Lemma merge_kid_addrs f r ks :
  (forall k, addrs (f k) ⊆+ addrs k ++ addrs r) ->
  forest_addrs (merge_kid f r ks) ⊆+ forest_addrs ks ++ addrs r.
Proof.
  intros Hf. induction ks as [|k ks IH]; simpl.
  - rewrite forest_addrs_cons, forest_addrs_nil. simpl. rewrite app_nil_r. reflexivity.
  - destruct (String.eqb _ _); rewrite !forest_addrs_cons.
    + etransitivity; [apply submseteq_skips_r, (Hf k)|]. solve_submseteq.
    + etransitivity; [apply submseteq_skips_l, IH|]. solve_submseteq.
Qed.

Lemma merge_tree_addrs sn o : forall t,
  addrs (merge_tree sn o t) ⊆+ addrs t ++ addrs o.
Proof.
  induction o as [oa oc oks IH] using gtree_induction. intros t.
  rewrite merge_tree_unfold. rewrite !addrs_unfold. simpl.
  assert (H : forall ks, forest_addrs (merge_kids sn ks oks)
                         ⊆+ forest_addrs ks ++ forest_addrs oks).
  { clear -IH. induction IH as [|r rest Hr _ IHrest]; intros ks.
    - simpl. rewrite forest_addrs_nil, app_nil_r. reflexivity.
    - rewrite merge_kids_cons, forest_addrs_cons.
      etransitivity; [apply IHrest|].
      etransitivity; [apply submseteq_skips_r, (merge_kid_addrs _ r ks Hr)|].
      solve_submseteq. }
  apply submseteq_skip.
  etransitivity; [apply H|]. solve_submseteq.
Qed.

Lemma merge_kids_addrs sn rights : forall ks,
  forest_addrs (merge_kids sn ks rights) ⊆+ forest_addrs ks ++ forest_addrs rights.
Proof.
  induction rights as [|r rest IH]; intros ks.
  - simpl. rewrite forest_addrs_nil, app_nil_r. reflexivity.
  - rewrite merge_kids_cons, forest_addrs_cons.
    etransitivity; [apply IH|].
    etransitivity;
      [apply submseteq_skips_r, (merge_kid_addrs _ r ks (merge_tree_addrs sn r))|].
    solve_submseteq.
Qed.

Lemma merge_kid_keeps f r ks :
  (forall k, addrs k ⊆+ addrs (f k)) ->
  forest_addrs ks ⊆+ forest_addrs (merge_kid f r ks).
Proof.
  intros Hf. induction ks as [|k ks IH]; simpl.
  - apply submseteq_nil_l.
  - destruct (String.eqb _ _); rewrite !forest_addrs_cons.
    + apply submseteq_skips_r, Hf.
    + apply submseteq_skips_l, IH.
Qed.

Lemma merge_tree_keeps sn o : forall t, addrs t ⊆+ addrs (merge_tree sn o t).
Proof.
  induction o as [oa oc oks IH] using gtree_induction. intros t.
  rewrite merge_tree_unfold. rewrite !addrs_unfold. simpl.
  apply submseteq_skip.
  generalize (kids t). clear -IH.
  induction IH as [|r rest Hr _ IHrest]; intros ks; [reflexivity|].
  rewrite merge_kids_cons. etransitivity; [|apply IHrest].
  apply merge_kid_keeps. exact Hr.
Qed.

Lemma merge_kids_keeps sn rights : forall ks,
  forest_addrs ks ⊆+ forest_addrs (merge_kids sn ks rights).
Proof.
  induction rights as [|r rest IH]; intros ks; [reflexivity|].
  rewrite merge_kids_cons. etransitivity; [|apply IH].
  apply merge_kid_keeps. apply merge_tree_keeps.
Qed.

(** *** [Merge] on the store computes [merge_tree] *)

Lemma NoDup_disjoint {A : Type} (l1 l2 big : list A) :
  l1 ++ l2 ⊆+ big -> NoDup big -> forall x, x ∈ l1 -> x ∉ l2.
Proof.
  intros Hsub Hnd. apply (submseteq_NoDup _ _ Hsub) in Hnd.
  apply NoDup_app in Hnd. tauto.
Qed.

Lemma elem_of_submseteq' {A : Type} (l k : list A) x : l ⊆+ k -> x ∈ l -> x ∈ k.
Proof.
  intros Hsub Hx. apply submseteq_Permutation in Hsub as [k' Hperm].
  rewrite Hperm. apply elem_of_app. left. exact Hx.
Qed.

Lemma set_Groups_twice gc l1 l2 : set_Groups (set_Groups gc l1) l2 = set_Groups gc l2.
Proof. reflexivity. Qed.

Lemma MergeAll_loop_refines sn n rights :
  Forall (refines sn) rights ->
  Forall (fun r => height r <= n) rights ->
  forall ks h g gc,
    snippets h = sn ->
    groups h !! g = Some gc ->
    Group.Groups gc = map root ks ->
    Forall shape ks -> Forall shape rights ->
    Forall (stored h) ks -> Forall (stored h) rights ->
    Forall (snippets_valid sn) ks -> Forall (snippets_valid sn) rights ->
    NoDup (g :: forest_addrs ks ++ forest_addrs rights) ->
    exists h',
      MergeAll_loop (Group_Merge n) h g (map root rights) = Ok h'
      /\ snippets h' = sn
      /\ groups h' !! g = Some (set_Groups gc (map root (merge_kids sn ks rights)))
      /\ Forall (stored h') (merge_kids sn ks rights)
      /\ (forall a, a <> g -> a ∉ forest_addrs (merge_kids sn ks rights) ->
                    groups h' !! a = groups h !! a).
Proof.
  intros Href Hheight. revert Hheight.
  induction Href as [|r rest Hr _ IH]; intros Hheight ks h g gc Hsn Hg Hgc
    Hshk Hshr Hstk Hstr Hvk Hvr Hnd.
  - exists h. simpl. repeat split; auto.
    rewrite <- Hgc, set_Groups_id. exact Hg.
  - inversion Hheight as [|? ? Hhr Hhrest]; subst.
    inversion Hshr as [|? ? Hshr1 Hshrest]; subst.
    inversion Hstr as [|? ? Hstr1 Hstrest]; subst.
    inversion Hvr as [|? ? Hvr1 Hvrest]; subst.
    rewrite forest_addrs_cons in Hnd.
    rewrite merge_kids_cons.
    cbn [map MergeAll_loop]. unfold merge_group. rewrite Hg.
    cbn [mbind result_bind deref]. rewrite Hgc.
    rewrite (find_group_split h r ks);
      [|apply stored_root; assumption
       |eapply Forall_impl; [exact Hstk|]; intros x; apply stored_root].
    destruct (split_match r ks) as [[[pre k] post]|] eqn:Hsplit;
      cbn [fmap option_fmap option_map fst snd mbind result_bind].
    + (* the first child of the name of [r] is [k] *)
      destruct (split_match_Some r ks pre k post (merge_tree (snippets h) r) Hsplit)
        as (Hks & -> & Hname & _).
      subst ks.
      rewrite forest_addrs_app, forest_addrs_cons in Hnd.
      apply Forall_app in Hshk as [Hshpre Hshk]. apply Forall_cons in Hshk as [Hshk Hshpost].
      apply Forall_app in Hstk as [Hstpre Hstk]. apply Forall_cons in Hstk as [Hstk Hstpost].
      apply Forall_app in Hvk as [Hvpre Hvk]. apply Forall_cons in Hvk as [Hvk Hvpost].
      destruct (Hr k h n eq_refl) as (h1 & Hmerge & Hsn1 & Hst1 & Hframe1); [|exact Hhr|].
      { constructor; try assumption.
        eapply submseteq_NoDup; [|exact Hnd]. solve_submseteq. }
      rewrite Hmerge.
      set (k' := merge_tree (snippets h) r k) in *.
      assert (Hk' : addrs k' ⊆+ addrs k ++ addrs r) by apply merge_tree_addrs.
      assert (Hout : forall l, l ++ addrs k ++ addrs r
                               ⊆+ g :: (forest_addrs pre ++ addrs k ++ forest_addrs post)
                                    ++ addrs r ++ forest_addrs rest ->
                     forall a, a ∈ l -> groups h1 !! a = groups h !! a).
      { intros l Hl a Ha. apply Hframe1. intros Hin.
        apply (elem_of_submseteq' _ _ _ Hk') in Hin.
        eapply (NoDup_disjoint l (addrs k ++ addrs r)); eauto. }
      destruct (IH Hhrest (pre ++ k' :: post) h1 g gc) as (h' & Hloop & Hsn' & Hg' & Hst' & Hframe').
      * exact Hsn1.
      * rewrite (Hout [g]); [exact Hg|solve_submseteq|apply list_elem_of_singleton; reflexivity].
      * rewrite Hgc, !map_app. simpl. unfold k'. rewrite root_merge_tree. reflexivity.
      * apply Forall_app. split; [assumption|]. constructor; [|assumption].
        apply merge_tree_shape; assumption.
      * assumption.
      * apply Forall_app. split; [|constructor].
        -- eapply forest_stored_frame; [exact Hstpre|]. apply Hout. solve_submseteq.
        -- exact Hst1.
        -- eapply forest_stored_frame; [exact Hstpost|]. apply Hout. solve_submseteq.
      * eapply forest_stored_frame; [exact Hstrest|]. apply Hout. solve_submseteq.
      * apply Forall_app. split; [assumption|]. constructor; [|assumption].
        apply merge_tree_snippets_valid; assumption.
      * assumption.
      * eapply submseteq_NoDup; [|exact Hnd].
        rewrite forest_addrs_app, forest_addrs_cons.
        etransitivity;
          [apply submseteq_skip, submseteq_skips_r, submseteq_skips_l,
                 submseteq_skips_r, Hk'|].
        solve_submseteq.
      * exists h'. cbn [mbind result_bind].
        repeat split; [exact Hloop|congruence|exact Hg'|exact Hst'|].
        intros a Hag Ha. rewrite Hframe' by assumption. apply Hframe1.
        intros Hin. apply Ha.
        eapply elem_of_submseteq'; [apply merge_kids_keeps|].
        rewrite forest_addrs_app, forest_addrs_cons, !elem_of_app. auto.
    + (* no child has the name of [r] *)
      destruct (split_match_None r ks (merge_tree (snippets h) r) Hsplit) as [-> _].
      set (gc1 := set_Groups gc (map root ks ++ [root r])).
      set (h1 := set_group h g gc1).
      assert (Hout : forall l, g :: l ⊆+ g :: forest_addrs ks ++ addrs r ++ forest_addrs rest ->
                     forall a, a ∈ l -> groups h1 !! a = groups h !! a).
      { intros l Hl a Ha. apply lookup_set_group_ne. intros ->.
        eapply (NoDup_disjoint [g] l); eauto. apply list_elem_of_singleton. reflexivity. }
      destruct (IH Hhrest (ks ++ [r]) h1 g gc1) as (h' & Hloop & Hsn' & Hg' & Hst' & Hframe').
      * reflexivity.
      * eapply lookup_set_group_eq; eauto.
      * unfold gc1. rewrite map_app. destruct gc; reflexivity.
      * apply Forall_app. split; [assumption|]. constructor; [assumption|constructor].
      * assumption.
      * apply Forall_app. split; [|constructor; [|constructor]].
        -- eapply forest_stored_frame; [exact Hstk|]. apply Hout. solve_submseteq.
        -- eapply stored_frame; [exact Hstr1|]. apply Hout. solve_submseteq.
      * eapply forest_stored_frame; [exact Hstrest|]. apply Hout. solve_submseteq.
      * apply Forall_app. split; [assumption|]. constructor; [assumption|constructor].
      * assumption.
      * eapply submseteq_NoDup; [|exact Hnd].
        rewrite forest_addrs_app, forest_addrs_cons, forest_addrs_nil. solve_submseteq.
      * exists h'. fold gc1. fold h1.
        repeat split; [exact Hloop|exact Hsn'|exact Hg'|exact Hst'|].
        intros a Hag Ha. rewrite Hframe' by assumption.
        apply lookup_set_group_ne. exact Hag.
Qed.

Lemma Merge_refines sn o : refines sn o.
Proof.
  induction o as [oa oc oks IH] using gtree_induction.
  intros t h fuel Hsn [Hsht Hsho Hstt Hsto Hvt Hvo Hnd] Hfuel.
  rewrite height_unfold in Hfuel. simpl in Hfuel.
  destruct fuel as [|n]; [lia|].
  apply shape_unfold in Hsht as [Hgt Hshk]. apply shape_unfold in Hsho as [Hgo Hsho].
  apply stored_unfold in Hstt as [Hroot Hstk]. apply stored_unfold in Hsto as [Horoot Hsto].
  rewrite Hsn in Hvt, Hvo.
  apply snippets_valid_unfold in Hvt as [Hvts Hvk].
  apply snippets_valid_unfold in Hvo as [Hvos Hvo].
  simpl in Hgo, Hsho, Horoot, Hsto, Hvos, Hvo.
  rewrite !addrs_unfold in Hnd. simpl in Hnd.
  destruct (MergeAll_loop_refines sn n oks IH (height_kids n oks ltac:(lia))
              (kids t) h (root t) (cell t))
    as (h1 & Hloop & Hsn1 & Hg1 & Hst1 & Hframe1); try assumption.
  { eapply submseteq_NoDup; [|exact Hnd]. solve_submseteq. }
  set (ks' := merge_kids sn (kids t) oks) in *.
  assert (Hks' : forest_addrs ks' ⊆+ forest_addrs (kids t) ++ forest_addrs oks)
    by apply merge_kids_addrs.
  assert (Hfresh : forall l, l ++ forest_addrs (kids t) ++ forest_addrs oks
                             ⊆+ (root t :: forest_addrs (kids t)) ++ oa :: forest_addrs oks ->
                   forall a, a ∈ l -> a ∉ forest_addrs ks').
  { intros l Hl a Ha Hin. apply (elem_of_submseteq' _ _ _ Hks') in Hin.
    eapply (NoDup_disjoint l); eauto. }
  assert (Horoot1 : groups h1 !! oa = Some oc).
  { rewrite Hframe1; [exact Horoot| |].
    - intros Heq. eapply (NoDup_disjoint [root t] [oa]); [|exact Hnd| |];
        [solve_submseteq|apply list_elem_of_singleton|apply list_elem_of_singleton];
        [reflexivity|symmetry; exact Heq].
    - apply (Hfresh [oa]); [solve_submseteq|apply list_elem_of_singleton; reflexivity]. }
  set (gc1 := set_Groups (cell t) (map root ks')) in *.
  exists (set_group h1 (root t)
            (set_Snippets gc1 (upsert sn (Group.Snippets gc1) (Group.Snippets oc)))).
  split; [|split; [|split]].
  - simpl. rewrite Horoot. cbn [mbind result_bind deref]. rewrite Hgo.
    rewrite Hloop. cbn [mbind result_bind]. rewrite Horoot1. cbn [mbind result_bind deref].
    rewrite <- Hsn1.
    apply (mergeSnippets_upsert _ h1 (root t) gc1);
      [exact Hg1|rewrite Hsn1; exact Hvos|rewrite Hsn1; exact Hvts].
  - simpl. exact Hsn1.
  - rewrite merge_tree_unfold. apply stored_unfold. cbn [root cell kids]. split.
    + erewrite lookup_set_group_eq by eassumption.
      unfold gc1, gname. destruct (cell t); reflexivity.
    + eapply forest_stored_frame; [exact Hst1|]. intros a Ha.
      apply lookup_set_group_ne. intros ->.
      revert Ha. apply (Hfresh [root t]); [solve_submseteq|].
      apply list_elem_of_singleton; reflexivity.
  - intros a Ha. rewrite merge_tree_unfold, addrs_unfold in Ha. simpl in Ha.
    apply not_elem_of_cons in Ha as [Hne Ha].
    rewrite lookup_set_group_ne by exact Hne. apply Hframe1; assumption.
Qed.

(** ** Name-keyed upsert *)

Lemma filter_ext_elem {A : Type} (P1 P2 : A -> Prop)
    `{!forall x, Decision (P1 x), !forall x, Decision (P2 x)} (l : list A) :
  (forall x, x ∈ l -> (P1 x <-> P2 x)) -> filter P1 l = filter P2 l.
Proof.
  induction l as [|x l IH]; intros Hext; [reflexivity|].
  rewrite !filter_cons.
  rewrite IH by (intros y Hy; apply Hext; apply elem_of_cons; auto).
  assert (Hx : P1 x <-> P2 x) by (apply Hext; apply elem_of_cons; auto).
  destruct (decide (P1 x)), (decide (P2 x)); try reflexivity; tauto.
Qed.

Section place_facts.

Context {A : Type}.
Variable name : A -> string.
Variable combine : A -> A -> A.   (* [combine r x]: [x] after [r] came in *)

Hypothesis combine_name : forall r x, name x = name r -> name (combine r x) = name x.

Lemma place_names r l :
  map name (place name combine r l)
  = if decide (name r ∈ map name l) then map name l else map name l ++ [name r].
Proof.
  induction l as [|x l IH]; cbn [place map].
  - rewrite decide_False by (apply not_elem_of_nil). reflexivity.
  - destruct (String.eqb_spec (name x) (name r)) as [Heq|Hne]; cbn [map].
    + rewrite combine_name by exact Heq.
      rewrite decide_True by (rewrite Heq; apply elem_of_cons; auto). reflexivity.
    + rewrite IH. destruct (decide (name r ∈ map name l)) as [Hin|Hnin].
      * rewrite decide_True by (apply elem_of_cons; auto). reflexivity.
      * rewrite decide_False; [reflexivity|].
        intros Hin. apply elem_of_cons in Hin as [Heq|Hin]; congruence.
Qed.

Lemma named_None rs n : n ∉ map name rs -> named name rs n = None.
Proof.
  induction rs as [|r rs IH]; simpl; intros Hn; [reflexivity|].
  apply not_elem_of_cons in Hn as [Hne Hn].
  destruct (String.eqb_spec (name r) n); [congruence|auto].
Qed.



Lemma in_place_app rs l1 : forall seen l2,
  in_place name combine rs seen (l1 ++ l2)
  = in_place name combine rs seen l1 ++ in_place name combine rs (rev (map name l1) ++ seen) l2.
Proof.
  induction l1 as [|x l1 IH]; intros seen l2; simpl; [reflexivity|].
  rewrite IH. rewrite <- app_assoc. reflexivity.
Qed.

Lemma in_place_seen_equiv rs l : forall seen seen',
  (forall n, n ∈ seen <-> n ∈ seen') ->
  in_place name combine rs seen l = in_place name combine rs seen' l.
Proof.
  induction l as [|x l IH]; intros seen seen' Heq; simpl; [reflexivity|].
  rewrite (IH (name x :: seen) (name x :: seen')).
  - destruct (decide (name x ∈ seen)) as [Hin|Hnin].
    + rewrite decide_True by (apply Heq; exact Hin). reflexivity.
    + rewrite decide_False by (rewrite <- Heq; exact Hnin). reflexivity.
  - intros n. rewrite !elem_of_cons, Heq. reflexivity.
Qed.

Lemma in_place_seen_skip r rs l : forall seen,
  name r ∈ seen -> in_place name combine (r :: rs) seen l = in_place name combine rs seen l.
Proof.
  induction l as [|x l IH]; intros seen Hseen; cbn [in_place named]; [reflexivity|].
  rewrite IH by (apply elem_of_cons; auto).
  destruct (decide (name x ∈ seen)) as [Hin|Hnin]; [reflexivity|].
  destruct (String.eqb_spec (name r) (name x)) as [Heq|Hne]; [|reflexivity].
  exfalso. apply Hnin. rewrite <- Heq. exact Hseen.
Qed.

(** One more incoming item [r], of a name that no later item has. *)
Lemma in_place_place r rs l : forall seen,
  name r ∉ map name rs ->
  name r ∉ seen ->
  in_place name combine rs seen (place name combine r l)
  = if decide (name r ∈ map name l)
    then in_place name combine (r :: rs) seen l
    else in_place name combine (r :: rs) seen l ++ [r].
Proof.
  intros seen Hrs. revert seen.
  induction l as [|x l IH]; intros seen Hseen; cbn [place map in_place].
  - destruct (decide (name r ∈ [])) as [Hin|_]; [inversion Hin|].
    destruct (decide (name r ∈ seen)); [contradiction|].
    rewrite (named_None rs) by exact Hrs. reflexivity.
  - destruct (String.eqb_spec (name x) (name r)) as [Heq|Hne]; cbn [in_place named].
    + rewrite combine_name by exact Heq.
      set (nx := name x) in *. clearbody nx. subst nx.
      destruct (decide (name r ∈ name r :: map name l)) as [_|Hnin];
        [|exfalso; apply Hnin; apply elem_of_cons; auto].
      destruct (decide (name r ∈ seen)); [contradiction|].
      rewrite (named_None rs (name r)) by exact Hrs.
      rewrite String.eqb_refl.
      rewrite in_place_seen_skip by (apply elem_of_cons; auto). reflexivity.
    + destruct (String.eqb_spec (name r) (name x)) as [Heq|_]; [congruence|].
      rewrite IH
        by (intros Hin; apply elem_of_cons in Hin as [Heq|Hin]; congruence).
      destruct (decide (name r ∈ map name l)) as [Hin|Hnin];
        destruct (decide (name r ∈ name x :: map name l)) as [Hin'|Hnin'];
        try reflexivity.
      * exfalso. apply Hnin'. apply elem_of_cons. auto.
      * exfalso. apply elem_of_cons in Hin' as [Heq|Hin']; congruence.
Qed.

Lemma appended_place r rs l :
  name r ∉ map name rs -> appended name rs (place name combine r l) = appended name rs l.
Proof.
  intros Hrs. unfold appended. apply filter_ext_elem.
  intros y Hy. rewrite place_names.
  destruct (decide (name r ∈ map name l)); [reflexivity|].
  rewrite elem_of_app, list_elem_of_singleton.
  split; [tauto|]. intros Hn [Hin|Heq]; [tauto|].
  apply Hrs. rewrite <- Heq. apply list_elem_of_fmap. eauto.
Qed.

(** [place_all] does what the specification says, when no two incoming
    items share a name. *)
Lemma place_all_spec rs : forall l,
  NoDup (map name rs) -> place_all name combine l rs = place_spec name combine l rs.
Proof.
  unfold place_all, place_spec.
  induction rs as [|r rs IH]; intros l Hnd; cbn [foldl].
  - unfold appended. cbn [filter list_filter]. rewrite app_nil_r.
    induction l as [|x l IHl] using rev_ind; [reflexivity|].
    rewrite in_place_app. cbn [in_place named]. rewrite <- IHl.
    destruct (decide _); reflexivity.
  - apply NoDup_cons in Hnd as [Hr Hnd].
    rewrite IH by exact Hnd.
    rewrite in_place_place by (auto using not_elem_of_nil).
    rewrite appended_place by exact Hr.
    unfold appended at 2. cbn [filter list_filter].
    destruct (decide (name r ∈ map name l)) as [Hin|Hnin].
    + rewrite decide_False by tauto. reflexivity.
    + rewrite decide_True by exact Hnin. rewrite <- app_assoc. reflexivity.
Qed.

End place_facts.

Lemma upsert1_place sn s l : upsert1 sn s l = place (sname sn) (fun r _ => r) s l.
Proof.
  induction l as [|x l IH]; simpl; [reflexivity|].
  rewrite String.eqb_sym, IH. reflexivity.
Qed.

Lemma upsert_place_all sn incoming : forall l,
  upsert sn l incoming = place_all (sname sn) (fun r _ => r) l incoming.
Proof.
  unfold upsert, place_all.
  induction incoming as [|s rest IH]; intros l; simpl; [reflexivity|].
  rewrite IH, upsert1_place. reflexivity.
Qed.

Lemma merge_kid_place sn r ks :
  merge_kid (merge_tree sn r) r ks = place gname (merge_tree sn) r ks.
Proof. induction ks as [|k ks IH]; simpl; [reflexivity|]. rewrite IH. reflexivity. Qed.

Lemma merge_kids_place_all sn rights : forall ks,
  merge_kids sn ks rights = place_all gname (merge_tree sn) ks rights.
Proof.
  unfold merge_kids, place_all.
  induction rights as [|r rest IH]; intros ks; simpl; [reflexivity|].
  rewrite IH, merge_kid_place. reflexivity.
Qed.

Lemma map_root_in_place sn rs ks : forall seen,
  map root (in_place gname (merge_tree sn) rs seen ks) = map root ks.
Proof.
  induction ks as [|k ks IH]; intros seen; cbn [in_place map]; [reflexivity|].
  rewrite IH. f_equal.
  destruct (decide _); [reflexivity|].
  destruct (named _ _ _); [apply root_merge_tree|reflexivity].
Qed.

(** The cell of the target after [Merge]. *)
Lemma Merge_result h t o fuel :
  separate_trees h t o ->
  height o <= fuel ->
  exists h',
    Group_Merge fuel h (root t) (root o) = Ok h'
    /\ snippets h' = snippets h
    /\ groups h' !! root t
       = Some (Group.mk (gname t)
                 (upsert (snippets h) (Group.Snippets (cell t)) (Group.Snippets (cell o)))
                 (map root (merge_kids (snippets h) (kids t) (kids o)))
                 (Group.Parent (cell t)))
    /\ Forall (stored h') (merge_kids (snippets h) (kids t) (kids o))
    /\ (forall a, a ∉ addrs (merge_tree (snippets h) o t) -> groups h' !! a = groups h !! a).
Proof.
  intros Hsep Hfuel.
  destruct (Merge_refines (snippets h) o t h fuel eq_refl Hsep Hfuel)
    as (h' & Hm & Hsn & Hst & Hframe).
  exists h'. rewrite merge_tree_unfold in Hst. apply stored_unfold in Hst as [Hroot Hkids].
  simpl in Hroot, Hkids. auto.
Qed.

(** C4. [Merge] keeps the order of the target: a child group or snippet
    of the target stays where it stands, combined with (group) or replaced
    by (snippet) the incoming child of its name when it is the first of
    that name; the incoming children whose name the target does not have
    follow, in the order they come in. *)
Theorem Merge_keeps_order h t o fuel :
  separate_trees h t o ->
  height o <= fuel ->
  NoDup (map gname (kids o)) ->
  NoDup (map (sname (snippets h)) (Group.Snippets (cell o))) ->
  exists h' gc',
    Group_Merge fuel h (root t) (root o) = Ok h'
    /\ groups h' !! root t = Some gc'
    /\ Group.Groups gc'
       = Group.Groups (cell t) ++ map root (appended gname (kids o) (kids t))
    /\ Forall (stored h')
         (in_place gname (merge_tree (snippets h)) (kids o) [] (kids t)
          ++ appended gname (kids o) (kids t))
    /\ Group.Snippets gc'
       = in_place (sname (snippets h)) (fun r _ => r)
           (Group.Snippets (cell o)) [] (Group.Snippets (cell t))
         ++ appended (sname (snippets h)) (Group.Snippets (cell o))
              (Group.Snippets (cell t)).
Proof.
  intros Hsep Hfuel Hgn Hsn.
  destruct (Merge_result h t o fuel Hsep Hfuel) as (h' & Hm & _ & Hroot & Hkids & _).
  assert (Hk : merge_kids (snippets h) (kids t) (kids o)
               = place_spec gname (merge_tree (snippets h)) (kids t) (kids o)).
  { rewrite merge_kids_place_all. apply place_all_spec; [|exact Hgn].
    intros r x _. apply gname_merge_tree. }
  assert (Hs : upsert (snippets h) (Group.Snippets (cell t)) (Group.Snippets (cell o))
               = place_spec (sname (snippets h)) (fun r _ => r)
                   (Group.Snippets (cell t)) (Group.Snippets (cell o))).
  { rewrite upsert_place_all. apply place_all_spec; [|exact Hsn].
    intros r x Heq. symmetry. exact Heq. }
  eexists h', _. split; [exact Hm|]. split; [exact Hroot|].
  rewrite Hk in Hkids. cbn [Group.Groups Group.Snippets]. rewrite Hk, Hs.
  unfold place_spec in *. rewrite map_app, map_root_in_place.
  destruct Hsep as [Hsh _ _ _ _ _ _]. apply shape_unfold in Hsh as [-> _].
  auto.
Qed.


(** ** Merging twice *)

Section named.

Context {A : Type}.
Variable name : A -> string.
Variable combine : A -> A -> A.
Hypothesis combine_name : forall r x, name x = name r -> name (combine r x) = name x.

Lemma named_Some l n x : named name l n = Some x -> x ∈ l /\ name x = n.
Proof.
  induction l as [|y l IH]; simpl; [discriminate|].
  destruct (String.eqb_spec (name y) n) as [Heq|Hne].
  - intros [= ->]. split; [apply elem_of_cons; auto|exact Heq].
  - intros H. apply IH in H as [Hin Hn]. split; [apply elem_of_cons; auto|exact Hn].
Qed.

Lemma named_self l x : NoDup (map name l) -> x ∈ l -> named name l (name x) = Some x.
Proof.
  induction l as [|y l IH]; simpl; intros Hnd Hin; [inversion Hin|].
  apply NoDup_cons in Hnd as [Hy Hnd].
  destruct (String.eqb_spec (name y) (name x)) as [Heq|Hne].
  - apply elem_of_cons in Hin as [->|Hin]; [reflexivity|].
    exfalso. apply Hy. rewrite Heq. apply list_elem_of_fmap. eauto.
  - apply elem_of_cons in Hin as [->|Hin]; [congruence|]. apply IH; assumption.
Qed.

Lemma named_place_other r l n :
  name r <> n -> named name (place name combine r l) n = named name l n.
Proof.
  intros Hne. induction l as [|x l IH]; simpl.
  - destruct (String.eqb_spec (name r) n); [congruence|reflexivity].
  - destruct (String.eqb_spec (name x) (name r)) as [Heq|Hxr]; simpl.
    + rewrite combine_name by exact Heq.
      destruct (String.eqb_spec (name x) n); [congruence|reflexivity].
    + rewrite IH. reflexivity.
Qed.

Lemma named_place_self r l :
  named name (place name combine r l) (name r)
  = Some (match named name l (name r) with
          | Some x => combine r x
          | None => r
          end).
Proof.
  induction l as [|x l IH]; simpl.
  - rewrite String.eqb_refl. reflexivity.
  - destruct (String.eqb_spec (name x) (name r)) as [Heq|Hxr]; simpl.
    + rewrite combine_name by exact Heq.
      destruct (String.eqb_spec (name x) (name r)); [reflexivity|congruence].
    + destruct (String.eqb_spec (name x) (name r)); [congruence|]. exact IH.
Qed.

Lemma named_place_all_other rs : forall l n,
  n ∉ map name rs -> named name (place_all name combine l rs) n = named name l n.
Proof.
  unfold place_all. induction rs as [|r rs IH]; simpl; intros l n Hn; [reflexivity|].
  apply not_elem_of_cons in Hn as [Hne Hn].
  rewrite IH by exact Hn. apply named_place_other. congruence.
Qed.

(** After all incoming items are placed, the first item of the name of an
    incoming item [r] is [r], combined with the target's item of that name
    if there was one. *)
Lemma named_place_all rs : forall l r,
  NoDup (map name rs) ->
  r ∈ rs ->
  named name (place_all name combine l rs) (name r)
  = Some (match named name l (name r) with
          | Some x => combine r x
          | None => r
          end).
Proof.
  induction rs as [|r0 rs IH]; intros l r Hnd Hin; [inversion Hin|].
  cbn [map] in Hnd. apply NoDup_cons in Hnd as [Hr0 Hnd].
  change (place_all name combine l (r0 :: rs))
    with (place_all name combine (place name combine r0 l) rs).
  apply elem_of_cons in Hin as [->|Hin].
  - rewrite named_place_all_other by exact Hr0. apply named_place_self.
  - rewrite IH by assumption.
    rewrite named_place_other; [reflexivity|].
    intros Heq. apply Hr0. rewrite Heq. apply list_elem_of_fmap. eauto.
Qed.

(** Placing an item that is already the first of its name changes nothing. *)
Lemma place_fixed r l x :
  named name l (name r) = Some x -> combine r x = x -> place name combine r l = l.
Proof.
  induction l as [|y l IH]; simpl; [discriminate|].
  destruct (String.eqb_spec (name y) (name r)) as [Heq|Hne].
  - intros [= ->] ->. reflexivity.
  - intros H1 H2. rewrite IH by assumption. reflexivity.
Qed.

Lemma place_spec_elem l rs x :
  x ∈ place_spec name combine l rs ->
  x ∈ l \/ x ∈ rs \/ exists r k, r ∈ rs /\ k ∈ l /\ x = combine r k.
Proof.
  unfold place_spec. rewrite elem_of_app. intros [Hin|Hin].
  - generalize dependent (@nil string).
    induction l as [|y l IH]; intros seen Hin; [inversion Hin|].
    cbn [in_place] in Hin. apply elem_of_cons in Hin as [->|Hin].
    + destruct (decide _); [left; apply elem_of_cons; auto|].
      destruct (named name rs (name y)) as [r|] eqn:E; [|left; apply elem_of_cons; auto].
      apply named_Some in E as [Hr _]. right. right. exists r, y.
      split; [exact Hr|]. split; [apply elem_of_cons; auto|reflexivity].
    + destruct (IH _ Hin) as [H|[H|(r & k & Hr & Hk & ->)]]; auto.
      * left. apply elem_of_cons. auto.
      * right. right. exists r, k. split; [exact Hr|]. split; [apply elem_of_cons; auto|reflexivity].
  - unfold appended in Hin. apply list_elem_of_filter in Hin as [_ Hin]. auto.
Qed.

End named.

Lemma split_match_named r ks :
  (fun x => x.1.2) <$> split_match r ks = named gname ks (gname r).
Proof.
  induction ks as [|k ks IH]; simpl; [reflexivity|].
  destruct (String.eqb (gname k) (gname r)); [reflexivity|].
  rewrite <- IH. destruct (split_match r ks) as [[[? ?] ?]|]; reflexivity.
Qed.

Lemma upsert_fixed sn incoming l :
  Forall (fun s => named (sname sn) l (sname sn s) = Some s) incoming ->
  upsert sn l incoming = l.
Proof.
  unfold upsert. induction 1 as [|s rest Hs _ IH]; simpl; [reflexivity|].
  rewrite upsert1_place, (place_fixed (sname sn) (fun r _ => r) s l s Hs eq_refl).
  exact IH.
Qed.

(** [Merge] of a tree the target has absorbed leaves the store as it is. *)
Lemma Merge_absorbed sn o : forall t h fuel,
  snippets h = sn ->
  shape t -> shape o ->
  stored h t -> stored h o ->
  snippets_valid sn t -> snippets_valid sn o ->
  absorbed sn t o ->
  height o <= fuel ->
  Group_Merge fuel h (root t) (root o) = Ok h.
Proof.
  induction o as [oa oc oks IH] using gtree_induction.
  intros t h fuel Hsn Hsht Hsho Hstt Hsto Hvt Hvo Habs Hfuel.
  rewrite height_unfold in Hfuel. cbn [kids] in Hfuel.
  destruct fuel as [|n]; [lia|].
  inversion Habs as [? ? Hkids Hsnips]; subst. cbn [kids cell] in Hkids, Hsnips.
  apply shape_unfold in Hsht as [Hgt Hshk]. apply shape_unfold in Hsho as [Hgo Hsho].
  apply stored_unfold in Hstt as [Hroot Hstk]. apply stored_unfold in Hsto as [Horoot Hsto].
  apply snippets_valid_unfold in Hvt as [Hvts Hvk].
  apply snippets_valid_unfold in Hvo as [Hvos Hvo].
  cbn [kids cell root] in *.
  assert (Hloop : MergeAll_loop (Group_Merge n) h (root t) (map root oks) = Ok h).
  { assert (Hh : Forall (fun r => height r <= n) oks) by (apply height_kids; lia).
    clear Hfuel Hgo Horoot Hvos Hsnips Habs.
    induction IH as [|r rest Hr _ IHrest]; [reflexivity|].
    inversion Hkids as [|? ? (k & Hk & Hkr) Hkids']; subst.
    inversion Hsho; inversion Hsto; inversion Hvo; inversion Hh; subst.
    cbn [map MergeAll_loop]. unfold merge_group. rewrite Hroot.
    cbn [mbind result_bind deref]. rewrite Hgt.
    rewrite (find_group_split h r (kids t));
      [|apply stored_root; assumption
       |eapply Forall_impl; [exact Hstk|]; intros x; apply stored_root].
    pose proof (split_match_named r (kids t)) as Hn. rewrite Hk in Hn.
    destruct (split_match r (kids t)) as [[[pre k'] post]|] eqn:Hsplit; [|discriminate].
    cbn in Hn. injection Hn as ->.
    cbn [fmap option_fmap option_map fst snd mbind result_bind].
    apply (split_match_Some _ _ _ _ _ id) in Hsplit as (Hks & _).
    assert (Hin : k ∈ kids t).
    { rewrite Hks. apply elem_of_app. right. apply elem_of_cons. auto. }
    rewrite Forall_forall in Hshk, Hstk, Hvk.
    rewrite (Hr k h n) by auto.
    cbn [mbind result_bind]. apply IHrest; try assumption.
    all: rewrite Forall_forall; assumption. }
  cbn [Group_Merge]. rewrite Horoot. cbn [mbind result_bind deref].
  rewrite Hgo, Hloop. cbn [mbind result_bind]. rewrite Horoot. cbn [mbind result_bind deref].
  rewrite (mergeSnippets_upsert _ h (root t) (cell t)) by assumption.
  rewrite upsert_fixed by exact Hsnips.
  rewrite set_Snippets_id, set_group_id by exact Hroot. reflexivity.
Qed.

(** A tree with unique names has absorbed itself. *)
Lemma absorbed_self sn t : unique_names sn t -> absorbed sn t t.
Proof.
  induction t as [a c ks IH] using gtree_induction. intros Hu.
  inversion Hu as [? ? ? Hnk Hns Huk]; subst. constructor; cbn [kids cell].
  - rewrite Forall_forall in *. intros r Hr. exists r.
    split; [apply named_self; assumption|]. apply IH; auto.
  - rewrite Forall_forall. intros s Hs. apply named_self; assumption.
Qed.

(** After [Merge], the target has absorbed the incoming tree. *)
Lemma merge_tree_absorbed sn o : forall t,
  unique_names sn o -> absorbed sn (merge_tree sn o t) o.
Proof.
  induction o as [oa oc oks IH] using gtree_induction. intros t Hu.
  inversion Hu as [? ? ? Hnk Hns Huk]; subst.
  rewrite merge_tree_unfold. constructor; cbn [kids cell Group.Snippets].
  - rewrite Forall_forall in *. intros r Hr.
    rewrite merge_kids_place_all.
    rewrite (named_place_all gname (merge_tree sn));
      [|intros ? ? _; apply gname_merge_tree| |]; try assumption.
    eexists. split; [reflexivity|].
    destruct (named gname (kids t) (gname r)); [apply IH|apply absorbed_self]; auto.
  - rewrite Forall_forall. intros s Hs.
    rewrite upsert_place_all.
    rewrite (named_place_all (sname sn) (fun r _ => r)); try assumption.
    + destruct (named _ _ _); reflexivity.
    + intros r x Heq. symmetry. exact Heq.
Qed.

Lemma elem_of_forest_nodes ac ts :
  ac ∈ forest_nodes ts <-> exists x, x ∈ ts /\ ac ∈ nodes x.
Proof.
  unfold forest_nodes. induction ts as [|t ts IH]; simpl.
  - split; [intros H; inversion H|intros (x & H & _); inversion H].
  - rewrite elem_of_app, IH. split.
    + intros [H|(x & Hx & H)]; [exists t|exists x]; rewrite elem_of_cons; auto.
    + intros (x & Hx & H). apply elem_of_cons in Hx as [->|Hx]; eauto.
Qed.

Lemma addrs_kid k ks : k ∈ ks -> addrs k ⊆+ forest_addrs ks.
Proof.
  intros Hin. apply list_elem_of_split in Hin as (pre & post & ->).
  rewrite forest_addrs_app, forest_addrs_cons. solve_submseteq.
Qed.

Lemma node_addr a c t : (a, c) ∈ nodes t -> a ∈ addrs t.
Proof. intros H. unfold addrs. apply list_elem_of_fmap. exists (a, c). auto. Qed.

Lemma NoDup_fst_functional {B : Type} (l : list (loc * B)) a c c' :
  NoDup l.*1 -> (a, c) ∈ l -> (a, c') ∈ l -> c = c'.
Proof.
  induction l as [|[x y] l IH]; intros Hnd H1 H2; [inversion H1|].
  cbn in Hnd. apply NoDup_cons in Hnd as [Hx Hnd].
  apply elem_of_cons in H1 as [H1|H1]; apply elem_of_cons in H2 as [H2|H2].
  - congruence.
  - injection H1 as -> ->. exfalso. apply Hx.
    apply list_elem_of_fmap. exists (x, c'). auto.
  - injection H2 as -> ->. exfalso. apply Hx.
    apply list_elem_of_fmap. exists (x, c). auto.
  - eauto.
Qed.

(** With unique names in the incoming tree, every group of it that the
    merged tree holds has the cell it had. *)
Lemma merge_tree_incoming_nodes sn o : forall t,
  unique_names sn o ->
  NoDup (addrs t ++ addrs o) ->
  forall a c, (a, c) ∈ nodes (merge_tree sn o t) -> a ∈ addrs o -> (a, c) ∈ nodes o.
Proof.
  induction o as [oa oc oks IH] using gtree_induction.
  intros t Hu Hnd a c Hin Ha.
  inversion Hu as [? ? ? Hnk Hns Huk]; subst.
  rewrite merge_tree_unfold in Hin. cbn [nodes kids cell] in Hin.
  fold (forest_nodes (merge_kids sn (kids t) oks)) in Hin.
  assert (Hdisj : forall x, x ∈ addrs t -> x ∉ addrs (GNode oa oc oks)).
  { apply NoDup_app in Hnd. tauto. }
  apply elem_of_cons in Hin as [[= -> ->]|Hin].
  - exfalso. apply (Hdisj (root t)); [|exact Ha]. rewrite addrs_unfold. apply elem_of_cons. auto.
  - apply elem_of_forest_nodes in Hin as (x & Hx & Hin).
    rewrite merge_kids_place_all, place_all_spec in Hx;
      [|intros ? ? _; apply gname_merge_tree|exact Hnk].
    cbn [nodes]. fold (forest_nodes oks). apply elem_of_cons. right.
    apply place_spec_elem in Hx as [Hx|[Hx|(r & k & Hr & Hk & ->)]].
    + exfalso. apply (Hdisj a); [|exact Ha].
      rewrite addrs_unfold. apply elem_of_cons. right.
      eapply elem_of_submseteq'; [apply addrs_kid; exact Hx|]. eapply node_addr; eauto.
    + apply elem_of_forest_nodes. eauto.
    + apply elem_of_forest_nodes. exists r. split; [exact Hr|].
      rewrite Forall_forall in IH, Huk.
      assert (Hkt : addrs k ⊆+ addrs t).
      { rewrite (addrs_unfold t). apply submseteq_cons, addrs_kid, Hk. }
      assert (Hro : addrs r ⊆+ addrs (GNode oa oc oks)).
      { rewrite (addrs_unfold (GNode oa oc oks)). cbn [root kids].
        apply submseteq_cons, addrs_kid, Hr. }
      apply (IH r Hr k); auto.
      * eapply submseteq_NoDup; [|exact Hnd]. apply submseteq_app; assumption.
      * apply node_addr in Hin.
        apply (elem_of_submseteq' _ _ _ (merge_tree_addrs sn r k)) in Hin.
        apply elem_of_app in Hin as [Hin|Hin]; [|exact Hin].
        exfalso. apply (Hdisj a); [|exact Ha].
        eapply elem_of_submseteq'; eauto.
Qed.

(** C3. Merging the same incoming tree a second time changes nothing: the
    second [Merge] returns the store that the first one left, so every
    group holds the children and the snippets it held, with the fields
    they had, and no child is added. *)
Theorem Merge_twice_is_Merge_once h t o fuel :
  separate_trees h t o ->
  unique_names (snippets h) o ->
  height o <= fuel ->
  exists h1,
    Group_Merge fuel h (root t) (root o) = Ok h1
    /\ Group_Merge fuel h1 (root t) (root o) = Ok h1.
Proof.
  intros Hsep Hu Hfuel.
  destruct (Merge_refines (snippets h) o t h fuel eq_refl Hsep Hfuel)
    as (h1 & Hm & Hsn & Hst & Hframe).
  exists h1. split; [exact Hm|].
  destruct Hsep as [Hsht Hsho Hstt Hsto Hvt Hvo Hnd].
  rewrite <- (root_merge_tree (snippets h) o t).
  apply (Merge_absorbed (snippets h)); auto.
  - apply merge_tree_shape; assumption.
  - unfold stored in *. rewrite Forall_forall in *. intros [a c] Hin. cbn [fst snd].
    destruct (decide (a ∈ addrs (merge_tree (snippets h) o t))) as [Hat|Hat].
    + unfold addrs in Hat. apply list_elem_of_fmap in Hat as ([a' c'] & Heq & Hin').
      cbn in Heq. subst a'.
      pose proof (Hst _ Hin') as Hc. cbn [fst snd] in Hc. rewrite Hc. f_equal.
      eapply (NoDup_fst_functional (nodes o)); [|
        eapply merge_tree_incoming_nodes; eauto; eapply node_addr; eauto|exact Hin].
      apply NoDup_app in Hnd. tauto.
    + rewrite Hframe by exact Hat. apply (Hsto _ Hin).
  - apply merge_tree_snippets_valid; assumption.
  - apply merge_tree_absorbed. exact Hu.
Qed.

(** ** The merge on the worked example *)

Ltac by_compute := apply (bool_decide_unpack _); vm_compute; exact I.

Lemma ex_separate : separate_trees ex_store ex_target ex_incoming.
Proof.
  constructor.
  - repeat constructor.
  - repeat constructor.
  - repeat constructor.
  - repeat constructor.
  - repeat constructor; eexists; reflexivity.
  - repeat constructor; eexists; reflexivity.
  - by_compute.
Defined.

Lemma ex_unique : unique_names (snippets ex_store) ex_incoming.
Proof.
  constructor; [by_compute|by_compute|].
  repeat constructor; by_compute.
Defined.


Lemma Merge_keeps_order_witness :
  separate_trees ex_store ex_target ex_incoming
  /\ exists h' gc',
       Group_Merge 2 ex_store 0 1 = Ok h'
       /\ groups h' !! 0 = Some gc'
       /\ Group.Groups gc' = [2; 4]
       /\ Group.Snippets gc' = [1; 2].
Proof.
  split; [exact ex_separate|].
  destruct (Merge_keeps_order ex_store ex_target ex_incoming 2 ex_separate)
    as (h' & gc' & H1 & H2 & H3 & _ & H5).
  - cbn. lia.
  - by_compute.
  - by_compute.
  - exists h', gc'. auto.
Defined.

Lemma Merge_twice_witness :
  separate_trees ex_store ex_target ex_incoming
  /\ unique_names (snippets ex_store) ex_incoming
  /\ exists h1,
       Group_Merge 2 ex_store 0 1 = Ok h1
       /\ Group_Merge 2 h1 0 1 = Ok h1.
Proof.
  split; [exact ex_separate|]. split; [exact ex_unique|].
  apply (Merge_twice_is_Merge_once ex_store ex_target ex_incoming 2 ex_separate ex_unique).
  cbn. lia.
Defined.

Lemma mergeSnippets_appends_witness :
  exists h2,
    Group_mergeSnippets ex_store 0 ([1] ++ [2]) = Ok h2
    /\ groups h2 !! 0 = Some (Group.mk "Imported" [1; 2] [2] None)
    /\ snippets h2 = snippets ex_store
    /\ snippets h2 !! 2 = Some (Snippet.mk "addr" ";a" "1 Main St" (Some 1) 20%Z).
Proof.
  apply (mergeSnippets_appends_unmatched ex_store 0 [1] 2
           (set_group ex_store 0 (Group.mk "Imported" [1] [2] None))
           (Group.mk "Imported" [1] [2] None)
           (Snippet.mk "addr" ";a" "1 Main St" (Some 1) 20%Z)).
  - reflexivity.
  - reflexivity.
  - reflexivity.
  - repeat constructor. eexists. split; [reflexivity|]. discriminate.
Defined.

Lemma Path_witness :
  Snippet_Path 1 ex_store (Snippet.mk "ty" "ty" "Thank you!" (Some 2) 10%Z)
  = Ok "Imported/Work/ty".
Proof.
  destruct (Path_is_parent_path_joined_with_name ex_store) as (_ & Hgroup & Hsnippet).
  destruct (Hsnippet (Snippet.mk "ty" "ty" "Thank you!" (Some 2) 10%Z) 2
              (Group.mk "Work" [3] [] (Some 0)) 1 eq_refl eq_refl) as (pp & Hpp & Hpath).
  - eapply ancestry_child; [reflexivity|reflexivity|]. apply ancestry_root. reflexivity.
  - specialize (Hpp 1 (le_n 1)). specialize (Hpath 1 (le_n 1)).
    cbn in Hpp. injection Hpp as <-. exact Hpath.
Defined.

(** ** The structured-document backend *)

Section textexpander_facts.
Import textexpander.

Lemma index_snippets_spec l : forall m h te,
  index_ok h m ->
  exists m' h',
    index_snippets l m (h, te) = Returns m' (h', te)
    /\ expander.groups h' = expander.groups h
    /\ index_ok h' m'
    /\ forall u, is_Some (m' !! u) <-> is_Some (m !! u) \/ u ∈ map UUID l.
Proof.
  induction l as [|s l IH]; intros m h te Hok.
  - exists m, h. split; [reflexivity|]. split; [reflexivity|]. split; [exact Hok|].
    intros u. split; [auto|]. intros [H|H]; [exact H|inversion H].
  - cbn [index_snippets]. unfold mbind, M_bind, new_snippet.
    set (h1 := mkHeap (expander.groups h) (snippets h ++ [_])).
    destruct (IH (<[UUID s := length (snippets h)]> m) h1 te) as (m' & h' & Hrun & Hg & Hok' & Hdom).
    + intros u a. unfold names, h1. cbn [snippets]. rewrite map_app. cbn [map].
      destruct (decide (UUID s = u)) as [<-|Hne].
      * rewrite lookup_insert_eq. intros [= <-].
        rewrite lookup_app_r by (rewrite length_map; lia).
        rewrite length_map, Nat.sub_diag. reflexivity.
      * rewrite lookup_insert_ne by exact Hne. intros Hu.
        apply Hok in Hu. apply lookup_app_l_Some. exact Hu.
    + exists m', h'. split; [exact Hrun|]. split; [exact Hg|]. split; [exact Hok'|].
      intros u. rewrite Hdom. cbn [map]. rewrite elem_of_cons.
      destruct (decide (UUID s = u)) as [<-|Hne].
      * rewrite lookup_insert_eq. split; [auto|]. intros _. left. eauto.
      * rewrite lookup_insert_ne by exact Hne. split; [tauto|].
        intros [H|[H|H]]; auto. congruence.
Qed.

Lemma names_set_parent h s sc p :
  snippets h !! s = Some sc ->
  map Snippet.Name
      (<[s := Snippet.mk (Snippet.Name sc) (Snippet.Abbr sc) (Snippet.Text sc) p
                         (Snippet.ModTime sc)]> (snippets h))
  = names h.
Proof.
  intros Hs. unfold names.
  change (map Snippet.Name) with (fmap (M := list) Snippet.Name).
  rewrite list_fmap_insert. cbn [Snippet.Name].
  apply list_insert_id. rewrite list_lookup_fmap, Hs. reflexivity.
Qed.

Lemma resolve_loop snips group uuids : forall h te gc,
  expander.groups h !! group = Some gc ->
  index_ok h snips ->
  match for_each (resolve snips group) uuids (h, te) with
  | Returns _ (h', te') =>
      te' = te /\ names h' = names h
      /\ length (expander.groups h') = length (expander.groups h)
      /\ (forall a, a <> group -> expander.groups h' !! a = expander.groups h !! a)
      /\ exists new,
           Forall2 (fun s u => snips !! u = Some s) new uuids
           /\ expander.groups h' !! group
              = Some (set_Snippets gc (Group.Snippets gc ++ new))
  | Fails e (h', te') =>
      te' = te /\ names h' = names h
      /\ length (expander.groups h') = length (expander.groups h)
      /\ (forall a, a <> group -> expander.groups h' !! a = expander.groups h !! a)
      /\ exists u, e = ErrInvalidSnippetUUID u /\ u ∈ uuids /\ snips !! u = None
  | _ => False
  end.
Proof.
  induction uuids as [|u uuids IH]; intros h te gc Hg Hok.
  - cbn. repeat split; auto. exists []. split; [constructor|].
    rewrite app_nil_r, set_Snippets_id. exact Hg.
  - cbn [for_each]. unfold mbind at 1, M_bind at 1. unfold resolve at 1.
    destruct (snips !! u) as [s|] eqn:Hu.
    + destruct (snippets h !! s) as [sc|] eqn:Hsc.
      2:{ exfalso. pose proof (Hok u s Hu) as Hs. unfold names in Hs.
          apply lookup_lt_Some in Hs. rewrite length_map in Hs.
          apply lookup_ge_None in Hsc. lia. }
      unfold mbind, M_bind, set_snippet_parent, push_snippet. rewrite Hsc.
      cbn [expander.groups]. rewrite Hg.
      set (h1 := mkHeap _ _).
      set (gc2 := set_Snippets gc (Group.Snippets gc ++ [s])).
      assert (Hn1 : names (set_group h1 group gc2) = names h).
      { unfold names, h1. cbn [set_group snippets]. apply names_set_parent. exact Hsc. }
      specialize (IH (set_group h1 group gc2) te gc2).
      destruct (for_each (resolve snips group) uuids (set_group h1 group gc2, te))
        as [[] [h' te']|e [h' te']| |].
      * destruct IH as (-> & Hn & Hl & Hfr & new & Hnew & Hg').
        { eapply lookup_set_group_eq. exact Hg. }
        { intros u' a' Hu'. rewrite Hn1. apply Hok. exact Hu'. }
        split; [reflexivity|]. split; [congruence|].
        split; [rewrite Hl; cbn; apply length_insert|].
        split.
        { intros a Ha. rewrite Hfr by exact Ha.
          rewrite lookup_set_group_ne by exact Ha. reflexivity. }
        exists (s :: new). split; [constructor; assumption|].
        rewrite Hg'. unfold gc2. destruct gc; cbn. rewrite <- app_assoc. reflexivity.
      * destruct IH as (-> & Hn & Hl & Hfr & u' & -> & Hin & Hnone).
        { eapply lookup_set_group_eq. exact Hg. }
        { intros u' a' Hu'. rewrite Hn1. apply Hok. exact Hu'. }
        split; [reflexivity|]. split; [congruence|].
        split; [rewrite Hl; cbn; apply length_insert|].
        split.
        { intros a Ha. rewrite Hfr by exact Ha.
          rewrite lookup_set_group_ne by exact Ha. reflexivity. }
        exists u'. split; [reflexivity|]. split; [apply elem_of_cons; auto|exact Hnone].
      * apply IH.
        { eapply lookup_set_group_eq. exact Hg. }
        { intros u' a' Hu'. rewrite Hn1. apply Hok. exact Hu'. }
      * apply IH.
        { eapply lookup_set_group_eq. exact Hg. }
        { intros u' a' Hu'. rewrite Hn1. apply Hok. exact Hu'. }
    + cbn. repeat split; auto. exists u. split; [reflexivity|].
      split; [apply elem_of_cons; auto|exact Hu].
Qed.

Lemma built_frame h h' a g :
  built h a g ->
  names h' = names h ->
  expander.groups h' !! a = expander.groups h !! a ->
  built h' a g.
Proof.
  intros (gc & Hg & Hn & Hs) Hnames Hsame. exists gc.
  rewrite Hsame, Hnames. auto.
Qed.

Lemma parse_group_spec snips g h te :
  index_ok h snips ->
  match parse_group snips g (h, te) with
  | Returns _ (h', te') =>
      names h' = names h /\ file te' = file te /\ data te' = data te
      /\ length (expander.groups h') = S (length (expander.groups h))
      /\ (forall a, a < length (expander.groups h) ->
                    expander.groups h' !! a = expander.groups h !! a)
      /\ groups te' = groups te ++ [length (expander.groups h)]
      /\ built h' (length (expander.groups h)) g
      /\ found snips g
  | Fails e (h', te') =>
      te' = te /\ names h' = names h
      /\ length (expander.groups h') = S (length (expander.groups h))
      /\ (forall a, a < length (expander.groups h) ->
                    expander.groups h' !! a = expander.groups h !! a)
      /\ exists u, e = ErrInvalidSnippetUUID u /\ u ∈ UUIDs g /\ snips !! u = None
  | _ => False
  end.
Proof.
  intros Hok. unfold parse_group.
  unfold mbind at 1, M_bind at 1. unfold new_group at 1.
  set (a := length (expander.groups h)).
  set (cell0 := Group.mk (Name g) [] [] None).
  set (h1 := mkHeap (expander.groups h ++ [cell0]) (snippets h)).
  assert (Hg1 : expander.groups h1 !! a = Some cell0).
  { unfold h1, a. cbn. rewrite lookup_app_r by lia. rewrite Nat.sub_diag. reflexivity. }
  assert (Hok1 : index_ok h1 snips) by exact Hok.
  pose proof (resolve_loop snips a (UUIDs g) h1 te cell0 Hg1 Hok1) as Hloop.
  unfold mbind at 1, M_bind at 1.
  destruct (for_each (resolve snips a) (UUIDs g) (h1, te))
    as [[] [h' te']|e [h' te']| |]; [| |exact Hloop|exact Hloop].
  - destruct Hloop as (-> & Hn & Hl & Hfr & new & Hnew & Hg').
    cbn. split; [exact Hn|]. split; [reflexivity|]. split; [reflexivity|].
    split; [rewrite Hl; unfold h1; cbn; rewrite length_app; cbn; lia|].
    split.
    { intros b Hb. rewrite Hfr by (unfold a; lia).
      unfold h1. cbn. apply lookup_app_l. exact Hb. }
    split; [reflexivity|]. split.
    + exists (set_Snippets cell0 (Group.Snippets cell0 ++ new)).
      split; [exact Hg'|]. split; [reflexivity|]. cbn.
      eapply Forall2_impl; [exact Hnew|]. intros s u Hu. cbn beta in Hu.
      rewrite Hn. apply Hok. exact Hu.
    + unfold found. clear -Hnew. induction Hnew; constructor; eauto.
  - destruct Hloop as (-> & Hn & Hl & Hfr & u & -> & Hin & Hnone).
    split; [reflexivity|]. split; [exact Hn|].
    split; [rewrite Hl; unfold h1; cbn; rewrite length_app; cbn; lia|].
    split.
    { intros b Hb. rewrite Hfr by (unfold a; lia).
      unfold h1. cbn. apply lookup_app_l. exact Hb. }
    exists u. auto.
Qed.

Lemma parse_groups_spec snips gs : forall h te,
  index_ok h snips ->
  match for_each (parse_group snips) gs (h, te) with
  | Returns _ (h', te') =>
      names h' = names h /\ file te' = file te /\ data te' = data te
      /\ length (expander.groups h) <= length (expander.groups h')
      /\ (forall a, a < length (expander.groups h) ->
                    expander.groups h' !! a = expander.groups h !! a)
      /\ Forall (found snips) gs
      /\ exists new, groups te' = groups te ++ new /\ Forall2 (built h') new gs
  | Fails e (h', te') =>
      names h' = names h /\ file te' = file te /\ data te' = data te
      /\ length (expander.groups h) <= length (expander.groups h')
      /\ (forall a, a < length (expander.groups h) ->
                    expander.groups h' !! a = expander.groups h !! a)
      /\ exists u pre bad post new,
           e = ErrInvalidSnippetUUID u
           /\ gs = pre ++ bad :: post
           /\ u ∈ UUIDs bad /\ snips !! u = None
           /\ Forall (found snips) pre
           /\ groups te' = groups te ++ new
           /\ Forall2 (built h') new pre
  | _ => False
  end.
Proof.
  induction gs as [|g gs IH]; intros h te Hok.
  - cbn. repeat split; auto. exists []. rewrite app_nil_r. split; [reflexivity|constructor].
  - cbn [for_each]. unfold mbind at 1, M_bind at 1.
    pose proof (parse_group_spec snips g h te Hok) as Hstep.
    destruct (parse_group snips g (h, te)) as [[] [h1 te1]|e [h1 te1]| |];
      [| |exact Hstep|exact Hstep].
    + destruct Hstep as (Hn1 & Hf1 & Hd1 & Hl1 & Hfr1 & Hg1 & Hb1 & Hfound1).
      assert (Hok1 : index_ok h1 snips).
      { intros u a Hu. rewrite Hn1. apply Hok. exact Hu. }
      specialize (IH h1 te1 Hok1).
      destruct (for_each (parse_group snips) gs (h1, te1)) as [[] [h' te']|e [h' te']| |];
        [| |exact IH|exact IH].
      * destruct IH as (Hn & Hf & Hd & Hl & Hfr & Hfound & new & Hg & Hb).
        split; [congruence|]. split; [congruence|]. split; [congruence|].
        split; [lia|]. split.
        { intros a Ha. rewrite Hfr by lia. apply Hfr1. exact Ha. }
        split; [constructor; assumption|].
        exists (length (expander.groups h) :: new).
        split; [rewrite Hg, Hg1, <- app_assoc; reflexivity|].
        constructor; [|exact Hb].
        eapply built_frame; [exact Hb1|exact Hn|]. apply Hfr. lia.
      * destruct IH as (Hn & Hf & Hd & Hl & Hfr & u & pre & bad & post & new
                        & -> & -> & Hin & Hnone & Hpre & Hg & Hb).
        split; [congruence|]. split; [congruence|]. split; [congruence|].
        split; [lia|]. split.
        { intros a Ha. rewrite Hfr by lia. apply Hfr1. exact Ha. }
        exists u, (g :: pre), bad, post, (length (expander.groups h) :: new).
        split; [reflexivity|]. split; [reflexivity|]. split; [exact Hin|].
        split; [exact Hnone|]. split; [constructor; assumption|].
        split; [rewrite Hg, Hg1, <- app_assoc; reflexivity|].
        constructor; [|exact Hb].
        eapply built_frame; [exact Hb1|exact Hn|]. apply Hfr. lia.
    + destruct Hstep as (-> & Hn1 & Hl1 & Hfr1 & u & -> & Hin & Hnone).
      split; [exact Hn1|]. split; [reflexivity|]. split; [reflexivity|].
      split; [lia|]. split; [exact Hfr1|].
      exists u, [], g, gs, []. rewrite app_nil_r.
      repeat split; auto; constructor.
Qed.

Lemma Load_Document d h te :
  exists snips h0,
    Load (Document d) (h, te)
    = for_each (parse_group snips) (Groups d) (h0, mkTE (file te) (Some d) (groups te))
    /\ index_ok h0 snips
    /\ (forall u, is_Some (snips !! u) <-> u ∈ map UUID (Snippets d))
    /\ expander.groups h0 = expander.groups h.
Proof.
  destruct (index_snippets_spec (Snippets d) ∅ h (mkTE (file te) (Some d) (groups te)))
    as (snips & h0 & Hrun & Hgr & Hok & Hdom).
  { intros u a Hu. rewrite lookup_empty in Hu. discriminate. }
  exists snips, h0. split; [|split; [exact Hok|split; [|exact Hgr]]].
  - unfold Load, parse, mbind, M_bind, get, set_data. cbn. rewrite Hrun. reflexivity.
  - intros u. rewrite Hdom. rewrite lookup_empty. split; [|auto].
    intros [[x Hx]|H]; [discriminate|exact H].
Qed.





(** [Load] of a document whose references all resolve appends one complete
    group for each group record. *)
Lemma Load_appends d h te h' te' :
  Load (Document d) (h, te) = Returns tt (h', te') ->
  exists new,
    Groups_of te' = Groups_of te ++ new /\ Forall2 (built h') new (Groups d).
Proof.
  destruct (Load_Document d h te) as (snips & h0 & -> & Hok & Hdom & _).
  pose proof (parse_groups_spec snips (Groups d) h0
                (mkTE (file te) (Some d) (groups te)) Hok) as Hrun.
  intros Heq. rewrite Heq in Hrun.
  destruct Hrun as (_ & _ & _ & _ & _ & _ & new & Hg & Hb). eauto.
Qed.



End textexpander_facts.

(** ** Calls on the file system *)

Lemma bind_Returns {S A B : Type} (m : M S A) (k : A -> M S B) s b s' :
  (m ≫= k) s = Returns b s' ->
  exists a s1, m s = Returns a s1 /\ k a s1 = Returns b s'.
Proof.
  unfold mbind, M_bind. destruct (m s) as [a s1|e s1| |]; try discriminate. eauto.
Qed.

Lemma for_each_cons_Returns {S A : Type} (body : A -> M S unit) x xs s s' :
  for_each body (x :: xs) s = Returns tt s' ->
  exists s1, body x s = Returns tt s1 /\ for_each body xs s1 = Returns tt s'.
Proof.
  cbn [for_each]. intros H. apply bind_Returns in H as ([] & s1 & H1 & H2). eauto.
Qed.

(** An invariant of the state that every round keeps holds when the loop
    returns. *)
Lemma for_each_invariant {S A : Type} (body : A -> M S unit) (I : S -> S -> Prop) xs :
  (forall s, I s s) ->
  (forall s1 s2 s3, I s1 s2 -> I s2 s3 -> I s1 s3) ->
  (forall x s s', x ∈ xs -> body x s = Returns tt s' -> I s s') ->
  forall s s', for_each body xs s = Returns tt s' -> I s s'.
Proof.
  intros Hrefl Htrans. induction xs as [|x xs IH]; intros Hbody s s' Hrun.
  - cbn in Hrun. injection Hrun as <-. apply Hrefl.
  - apply for_each_cons_Returns in Hrun as (s1 & H1 & H2).
    eapply Htrans.
    + eapply Hbody; [apply elem_of_cons; auto|exact H1].
    + apply IH; [|exact H2]. intros y t t' Hy. apply Hbody. apply elem_of_cons. auto.
Qed.

(** A loop that returns has run its body on every element, between two
    stretches that keep what every round keeps. *)
Lemma for_each_runs {S A : Type} (body : A -> M S unit) (I : S -> S -> Prop) xs x :
  (forall s, I s s) ->
  (forall s1 s2 s3, I s1 s2 -> I s2 s3 -> I s1 s3) ->
  (forall y s s', y ∈ xs -> body y s = Returns tt s' -> I s s') ->
  x ∈ xs ->
  forall s s', for_each body xs s = Returns tt s' ->
               exists u u', I s u /\ body x u = Returns tt u' /\ I u' s'.
Proof.
  intros Hrefl Htrans. induction xs as [|y xs IH]; intros Hbody Hx s s' Hrun.
  - inversion Hx.
  - apply for_each_cons_Returns in Hrun as (s1 & H1 & H2).
    apply elem_of_cons in Hx as [->|Hx].
    + exists s, s1. split; [apply Hrefl|]. split; [exact H1|].
      apply (for_each_invariant body I xs Hrefl Htrans); [|exact H2].
      intros z t t' Hz. apply Hbody. apply elem_of_cons. auto.
    + destruct (IH (fun z t t' Hz => Hbody z t t' (proj2 (elem_of_cons _ _ _) (or_intror Hz)))
                  Hx s1 s' H2) as (u & u' & Hsu & Hb & Hu').
      exists u, u'. split; [|auto]. eapply Htrans; [|exact Hsu].
      eapply Hbody; [apply elem_of_cons; auto|exact H1].
Qed.

Lemma keeps_dirs_refl w : keeps_dirs w w.
Proof. intros q t H. exact H. Qed.

Lemma keeps_dirs_trans w1 w2 w3 : keeps_dirs w1 w2 -> keeps_dirs w2 w3 -> keeps_dirs w1 w3.
Proof. intros H12 H23 q t H. apply H23, H12, H. Qed.

Lemma fs_le_refl f : fs_le f f.
Proof. constructor; [auto|]. intros q n _ H. exists n. split; [exact H|lia]. Qed.

Lemma fs_le_trans f1 f2 f3 : fs_le f1 f2 -> fs_le f2 f3 -> fs_le f1 f3.
Proof.
  intros [Hd1 Hn1] [Hd2 Hn2]. constructor; [auto|].
  intros q n Hq H. destruct (Hn1 q n Hq H) as (n' & H' & Hle).
  destruct (Hn2 q n' Hq H') as (n'' & H'' & Hle'). exists n''. split; [exact H''|lia].
Qed.

Lemma grows_refl w : grows w w.
Proof. split; [reflexivity|apply fs_le_refl]. Qed.

Lemma grows_trans w1 w2 w3 : grows w1 w2 -> grows w2 w3 -> grows w1 w3.
Proof.
  intros [Hs1 Hf1] [Hs2 Hf2]. split; [congruence|]. eapply fs_le_trans; eauto.
Qed.

Lemma os_Mkdir_grows p w w' :
  os_Mkdir p w = Returns tt w' ->
  grows w w' /\ exists t, fs w' !! p = Some (Dir t).
Proof.
  unfold os_Mkdir. destruct (fs w !! p) eqn:Hp; [discriminate|].
  destruct (parent_ok (fs w) p); [|discriminate].
  intros [= <-]. unfold stamp_fs. cbn [fs store]. split; [split; [reflexivity|]|].
  - constructor.
    + intros q t Hq. cbn [fs]. rewrite lookup_insert_ne by congruence. exact Hq.
    + intros q n _ Hq. exists n. cbn [fs]. rewrite lookup_insert_ne by congruence.
      split; [exact Hq|lia].
  - eexists. cbn [fs]. apply lookup_insert_eq.
Qed.

Lemma MkdirAll_rec_grows n : forall p w w',
  MkdirAll_rec n p w = Returns tt w' ->
  grows w w' /\ exists t, fs w' !! p = Some (Dir t).
Proof.
  induction n as [|n IH]; intros p w w'; cbn [MkdirAll_rec].
  - destruct (fs w !! p) as [[t|c t]|] eqn:Hp; try discriminate.
    intros [= <-]. split; [apply grows_refl|eauto].
  - destruct (fs w !! p) as [[t|c t]|] eqn:Hp; try discriminate.
    { intros [= <-]. split; [apply grows_refl|eauto]. }
    assert (Hstep : forall w1, grows w w1 ->
              match os_Mkdir p w1 with
              | Fails e w2 =>
                  match fs w2 !! p with
                  | Some (Dir _) => Returns tt w2
                  | _ => Fails e w2
                  end
              | r => r
              end = Returns tt w' ->
              grows w w' /\ exists t, fs w' !! p = Some (Dir t)).
    { intros w1 Hg1 Hrun.
      destruct (os_Mkdir p w1) as [[] w2|e w2| |] eqn:Hmk; try discriminate.
      - injection Hrun as <-. apply os_Mkdir_grows in Hmk as [Hg2 Hdir].
        split; [eapply grows_trans; eauto|exact Hdir].
      - unfold os_Mkdir in Hmk.
        destruct (fs w1 !! p) eqn:Hp1.
        + injection Hmk as <- <-. rewrite Hp1 in Hrun.
          destruct n0 as [t|c t]; [|discriminate]. injection Hrun as <-.
          split; [exact Hg1|eauto].
        + destruct (parent_ok (fs w1) p); [discriminate|].
          injection Hmk as <- <-. rewrite Hp1 in Hrun. discriminate. }
    destruct (parent_of (bytes p)) as [q|].
    + destruct (MkdirAll_rec n (str q) w) as [[] w1|e w1| |] eqn:Hrec; try discriminate.
      apply IH in Hrec as [Hg1 _]. apply Hstep. exact Hg1.
    + apply Hstep. apply grows_refl.
Qed.

Lemma os_MkdirAll_grows p w w' :
  os_MkdirAll p w = Returns tt w' ->
  grows w w' /\ exists t, fs w' !! p = Some (Dir t).
Proof. apply MkdirAll_rec_grows. Qed.

(** [MkdirAll] of a directory that is there does nothing. *)
Lemma os_MkdirAll_exists p w t :
  fs w !! p = Some (Dir t) -> os_MkdirAll p w = Returns tt w.
Proof. intros H. unfold os_MkdirAll. cbn [MkdirAll_rec]. rewrite H. reflexivity. Qed.

(** ** Body paths and sidecar paths *)

Lemma bytes_append a b : bytes (a +:+ b) = bytes a ++ bytes b.
Proof.
  unfold bytes. induction a as [|c a IH]; [reflexivity|].
  simpl. f_equal. exact IH.
Qed.

Lemma bytes_str l : bytes (str l) = l.
Proof. apply list_ascii_of_string_of_list_ascii. Qed.

Lemma str_bytes s : str (bytes s) = s.
Proof. apply string_of_list_ascii_of_string. Qed.

Lemma split_slash_slash_free t : slash_free t -> split_slash t = [t].
Proof.
  induction 1 as [|c t Hc _ IH]; [reflexivity|].
  cbn [split_slash]. destruct (Ascii.eqb_spec c slash); [contradiction|].
  rewrite IH. reflexivity.
Qed.

Lemma split_slash_snoc l t :
  slash_free t ->
  exists init e, split_slash l = init ++ [e] /\ split_slash (l ++ t) = init ++ [e ++ t].
Proof.
  intros Ht. induction l as [|c l (init & e & H1 & H2)].
  - exists [], []. split; [reflexivity|]. apply split_slash_slash_free. exact Ht.
  - cbn [split_slash app]. rewrite H1, H2.
    destruct (Ascii.eqb c slash).
    + exists ([] :: init), e. split; reflexivity.
    + destruct init as [|i init]; cbn.
      * exists [], (c :: e). split; reflexivity.
      * exists ((c :: i) :: init), e. split; reflexivity.
Qed.

Lemma join_slash_snoc xs x : x `suffix_of` join_slash (xs ++ [x]).
Proof.
  induction xs as [|y xs IH]; [exists []; reflexivity|].
  cbn [app]. destruct (xs ++ [x]) as [|z zs] eqn:E; [destruct xs; discriminate|].
  destruct IH as [k Hk]. change (join_slash (y :: z :: zs))
    with (y ++ slash :: join_slash (z :: zs)).
  rewrite Hk. exists (y ++ slash :: k). rewrite <- app_assoc. reflexivity.
Qed.

Lemma clean_step_real rooted out e :
  3 <= length e -> clean_step rooted out e = e :: out.
Proof.
  intros He. unfold clean_step.
  destruct (decide (e = [])) as [->|_]; [cbn in He; lia|].
  destruct (decide (e = [dot])) as [->|_]; [cbn in He; lia|].
  destruct (decide (e = [dot; dot])) as [->|_]; [cbn in He; lia|].
  reflexivity.
Qed.

(** Cleaning keeps a last element that ends in ".txt". *)
Lemma clean_body_path l : txt `suffix_of` clean (l ++ txt).
Proof.
  assert (Hfree : slash_free txt) by (repeat constructor; discriminate).
  destruct (split_slash_snoc l txt Hfree) as (init & e & _ & Hsplit).
  assert (Hclean : forall x, x <> [] ->
            clean x
            = let body := join_slash (rev (fold_left (clean_step (is_rooted x))
                                                     (split_slash x) [])) in
              if is_rooted x then slash :: body
              else if nonempty body then body else [dot]).
  { intros [|c x] Hx; [contradiction|reflexivity]. }
  rewrite Hclean by (destruct l; discriminate). cbv zeta.
  rewrite Hsplit. rewrite fold_left_app. cbn [fold_left].
  rewrite clean_step_real by (rewrite length_app; cbn; lia).
  cbn [rev].
  set (out := fold_left _ init []).
  pose proof (join_slash_snoc (rev out) (e ++ txt)) as [k Hk].
  rewrite Hk.
  assert (Hne : nonempty (k ++ e ++ txt) = true).
  { destruct k; [destruct e|]; reflexivity. }
  rewrite Hne.
  destruct (is_rooted _).
  - exists (slash :: k ++ e). cbn. rewrite <- !app_assoc. reflexivity.
  - exists (k ++ e). rewrite <- !app_assoc. reflexivity.
Qed.

Lemma path_Join_body_path d p : body_path (path_Join d (p +:+ "." +:+ autokey.snippetExt)).
Proof.
  unfold body_path, path_Join. rewrite bytes_str.
  change ("." +:+ autokey.snippetExt) with ".txt".
  rewrite bytes_append. fold txt.
  unfold join_elems. cbn [filter list_filter].
  assert (Hx : nonempty (bytes p ++ txt) = true) by (destruct (bytes p); reflexivity).
  destruct (bytes d) as [|c d'] eqn:Hd.
  - rewrite decide_False by (cbn; discriminate).
    rewrite decide_True by exact Hx. cbn [join_slash]. apply clean_body_path.
  - rewrite decide_True by reflexivity.
    rewrite decide_True by exact Hx. cbn [join_slash].
    pose proof (clean_body_path ((c :: d') ++ slash :: bytes p)) as H.
    rewrite <- app_assoc in H. exact H.
Qed.

Lemma metadataPath_Returns file w m w' :
  autokey.metadataPath file w = Returns m w' ->
  w' = w /\ json `suffix_of` bytes m /\ exists d stem ext,
    filePattern (bytes file) = Some (d, stem, ext)
    /\ m = str d +:+ "." +:+ str stem +:+ "." +:+ autokey.metadataExt.
Proof.
  unfold autokey.metadataPath.
  destruct (filePattern (bytes file)) as [[[d stem] ext]|]; [|discriminate].
  intros [= <- <-]. split; [reflexivity|]. split.
  - rewrite !bytes_append. exists (bytes (str d) ++ bytes "." ++ bytes (str stem)).
    rewrite <- !app_assoc. reflexivity.
  - eauto.
Qed.

Lemma suffix_last (t l : list ascii) c :
  t `suffix_of` l -> last t = Some c -> last l = Some c.
Proof. intros [k ->] Ht. rewrite last_app, Ht. reflexivity. Qed.

Lemma sidecar_not_body (p : string) : json `suffix_of` bytes p -> ~ body_path p.
Proof.
  intros Hj Ht.
  apply (suffix_last _ _ "n"%char) in Hj; [|reflexivity].
  apply (suffix_last _ _ "t"%char) in Ht; [|reflexivity].
  congruence.
Qed.

(** ** Writing one snippet *)

Section autokey_facts.

Import autokey.
Context {Json : JsonCodec}.

Lemma writeSnippet_unfold fuel ak s w :
  writeSnippet fuel ak s w
  = match snippets (store w) !! s with
    | None => Panics
    | Some sc =>
        match Snippet_Path fuel (store w) sc with
        | Panic => Panics
        | OutOfFuel => Diverges
        | Ok p =>
            let sPath := path_Join (dir ak) (p +:+ "." +:+ snippetExt) in
            match filePattern (bytes sPath) with
            | None => Fails (ErrInvalidFileName sPath) w
            | Some (d, stem, _) =>
                let mdPath := str d +:+ "." +:+ str stem +:+ "." +:+ metadataExt in
                if (match fs w !! mdPath with
                    | Some fi => negb (node_ModTime fi <? Snippet.ModTime sc)%Z
                    | None => false
                    end)
                then Returns tt w
                else write_both sPath mdPath sc w
            end
        end
    end.
Proof.
  unfold writeSnippet, mbind, M_bind, get, lift, deref, metadataPath, mret, M_ret, fail.
  destruct (snippets (store w) !! s) as [sc|]; [|reflexivity].
  destruct (Snippet_Path fuel (store w) sc) as [p| |]; [|reflexivity|reflexivity].
  cbv zeta.
  destruct (filePattern _) as [[[d stem] ext]|]; [|reflexivity].
  destruct (fs w !! _) as [fi|]; [destruct (negb _)|]; reflexivity.
Qed.

Lemma target_paths fuel ak h s sPath mdPath sc :
  target fuel ak h s = Some (sPath, mdPath, sc) ->
  body_path sPath /\ ~ body_path mdPath /\ sPath <> mdPath
  /\ snippets h !! s = Some sc.
Proof.
  unfold target. destruct (snippets h !! s) as [sc'|]; [|discriminate]. cbn.
  destruct (Snippet_Path fuel h sc') as [p| |]; try discriminate. cbv zeta.
  destruct (filePattern _) as [[[d stem] ext]|]; [|discriminate]. cbn.
  intros [= <- <- <-].
  assert (Hb : body_path (path_Join (dir ak) (p +:+ "." +:+ snippetExt)))
    by apply path_Join_body_path.
  assert (Hn : ~ body_path (str d +:+ "." +:+ str stem +:+ "." +:+ metadataExt)).
  { apply sidecar_not_body. rewrite !bytes_append.
    exists (bytes (str d) ++ bytes "." ++ bytes (str stem)).
    rewrite <- !app_assoc. reflexivity. }
  repeat split; auto. intros Heq. apply Hn. rewrite <- Heq. exact Hb.
Qed.

Lemma chtime_ordinary t old : ordinary t -> chtime t old = t.
Proof.
  unfold ordinary, chtime, IsZero, UnixNano, zero_time.
  change (2 ^ 63)%Z with 9223372036854775808%Z.
  change (2 ^ 64)%Z with 18446744073709551616%Z.
  intros H. destruct (Z.eqb_spec t (-62135596800000000000)) as [->|_]; [lia|].
  rewrite Z.mod_small by lia. lia.
Qed.

Lemma ordinary_store_lookup h s sc :
  ordinary_store h -> snippets h !! s = Some sc -> ordinary (Snippet.ModTime sc).
Proof. intros Hall Hs. exact (Forall_lookup_1 _ _ _ _ Hall Hs). Qed.

Lemma write_file_Returns op p c w w' :
  write_file op p c w = Returns tt w' ->
  (forall t, fs w !! p <> Some (Dir t))
  /\ w' = stamp_fs (fun t => <[p := File c t]> (fs w)) (EvWrite p c) w.
Proof.
  unfold write_file. intros H. split.
  - intros t Ht. rewrite Ht in H. discriminate.
  - destruct (fs w !! p) as [[t|c0 t]|]; [discriminate| |];
      destruct (parent_ok (fs w) p); congruence.
Qed.

Lemma os_Chtimes_Returns p t w w' :
  os_Chtimes p t w = Returns tt w' ->
  exists n, fs w !! p = Some n
            /\ denied w p = false
            /\ w' = touch_fs (<[p := set_mtime (chtime t (node_ModTime n)) n]> (fs w))
                             (EvChtimes p t) w.
Proof.
  unfold os_Chtimes. destruct (fs w !! p) as [n|]; [|discriminate].
  destruct (denied w p); [discriminate|]. intros [= <-]. eauto.
Qed.

(** What the four calls leave behind when they return. *)
Lemma write_both_Returns sPath mdPath sc w w' :
  sPath <> mdPath ->
  write_both sPath mdPath sc w = Returns tt w' ->
  store w' = store w
  /\ fs w' !! mdPath
     = Some (File (json_encode (newMetadata sc))
                  (chtime (Snippet.ModTime sc) (clock w (tick w))))
  /\ fs w' !! sPath
     = Some (File (Snippet.Text sc)
                  (chtime (Snippet.ModTime sc) (clock w (S (tick w)))))
  /\ (forall q, q <> mdPath -> q <> sPath -> fs w' !! q = fs w !! q)
  /\ (forall t, fs w !! mdPath <> Some (Dir t))
  /\ (forall t, fs w !! sPath <> Some (Dir t))
  /\ trace w'
     = trace w ++ [EvWrite mdPath (json_encode (newMetadata sc));
                   EvChtimes mdPath (Snippet.ModTime sc);
                   EvWrite sPath (Snippet.Text sc);
                   EvChtimes sPath (Snippet.ModTime sc)].
Proof.
  intros Hne. unfold write_both, writeMetadata, ioutil_WriteFile.
  intros H.
  apply bind_Returns in H as ([] & w1 & H1 & H).
  apply bind_Returns in H as ([] & w2 & H2 & H).
  apply bind_Returns in H as ([] & w3 & H3 & H4).
  apply write_file_Returns in H1 as [Hmd ->].
  apply os_Chtimes_Returns in H2 as (n2 & Hn2 & _ & ->).
  cbn [fs stamp_fs] in Hn2. rewrite lookup_insert_eq in Hn2. injection Hn2 as <-.
  apply write_file_Returns in H3 as [Hs ->].
  cbn [fs stamp_fs touch_fs] in Hs. rewrite !lookup_insert_ne in Hs by congruence.
  apply os_Chtimes_Returns in H4 as (n4 & Hn4 & _ & ->).
  cbn [fs stamp_fs touch_fs clock tick] in Hn4. rewrite lookup_insert_eq in Hn4.
  injection Hn4 as <-.
  cbn [store fs trace clock tick stamp_fs touch_fs set_mtime node_ModTime].
  split; [reflexivity|]. split.
  { rewrite !lookup_insert_ne by congruence. rewrite lookup_insert_eq. reflexivity. }
  split; [apply lookup_insert_eq|]. split.
  { intros q Hq1 Hq2. rewrite !lookup_insert_ne by congruence. reflexivity. }
  split; [exact Hmd|]. split; [exact Hs|].
  rewrite <- !app_assoc. reflexivity.
Qed.

(** [writeSnippet] returns in one of two ways: the sidecar is up to date
    and nothing happens, or it is not and both files are written. *)
Lemma writeSnippet_Returns fuel ak s w w' :
  writeSnippet fuel ak s w = Returns tt w' ->
  exists sPath mdPath sc,
    target fuel ak (store w) s = Some (sPath, mdPath, sc)
    /\ ((up_to_date fuel ak (store w) (fs w) s /\ w' = w)
        \/ (~ up_to_date fuel ak (store w) (fs w) s
            /\ write_both sPath mdPath sc w = Returns tt w')).
Proof.
  rewrite writeSnippet_unfold. unfold up_to_date, target.
  destruct (snippets (store w) !! s) as [sc|]; [|discriminate]. cbn [mbind option_bind].
  destruct (Snippet_Path fuel (store w) sc) as [p| |]; try discriminate. cbv zeta.
  destruct (filePattern _) as [[[d stem] ext]|]; [|discriminate]. cbn [mbind option_bind].
  set (sPath := path_Join _ _). set (mdPath := _ +:+ _).
  intros H. exists sPath, mdPath, sc. split; [reflexivity|].
  destruct (fs w !! mdPath) as [fi|] eqn:Hfi.
  - destruct (Z.ltb_spec (node_ModTime fi) (Snippet.ModTime sc)) as [Hlt|Hge];
      cbn [negb] in H.
    + right. split; [|exact H].
      intros (? & ? & ? & n & [= <- <- <-] & Hn & Hle). rewrite Hfi in Hn.
      injection Hn as <-. lia.
    + left. injection H as <-. split; [|reflexivity].
      exists sPath, mdPath, sc, fi. auto.
  - right. split; [|exact H].
    intros (? & ? & ? & n & [= <- <- <-] & Hn & _). rewrite Hfi in Hn. discriminate.
Qed.

Lemma writeSnippet_up_to_date fuel ak s w :
  up_to_date fuel ak (store w) (fs w) s -> writeSnippet fuel ak s w = Returns tt w.
Proof.
  intros (sPath & mdPath & sc & n & Ht & Hn & Hle).
  rewrite writeSnippet_unfold. unfold target in Ht.
  destruct (snippets (store w) !! s) as [sc'|]; [|discriminate]. cbn [mbind option_bind] in Ht.
  destruct (Snippet_Path fuel (store w) sc') as [p| |]; try discriminate. cbv zeta in *.
  destruct (filePattern _) as [[[d stem] ext]|]; [|discriminate].
  cbn [mbind option_bind] in Ht. injection Ht as <- <- <-.
  rewrite Hn. destruct (Z.ltb_spec (node_ModTime n) (Snippet.ModTime sc')); [lia|].
  reflexivity.
Qed.

Lemma up_to_date_mono fuel ak h f f' s :
  fs_le f f' -> up_to_date fuel ak h f s -> up_to_date fuel ak h f' s.
Proof.
  intros [_ Hnode] (sPath & mdPath & sc & n & Ht & Hn & Hle).
  destruct (target_paths _ _ _ _ _ _ _ Ht) as (_ & Hmd & _).
  destruct (Hnode mdPath n Hmd Hn) as (n' & Hn' & Hle').
  exists sPath, mdPath, sc, n'. split; [exact Ht|]. split; [exact Hn'|lia].
Qed.

(** Writing a snippet lets the file system grow and leaves the snippet up
    to date. *)
Lemma writeSnippet_grows fuel ak s w w' :
  ordinary_store (store w) ->
  writeSnippet fuel ak s w = Returns tt w' ->
  grows w w' /\ up_to_date fuel ak (store w') (fs w') s.
Proof.
  intros Hord H. apply writeSnippet_Returns in H
    as (sPath & mdPath & sc & Ht & [[Hup ->]|[Hnot Hw]]).
  - split; [apply grows_refl|exact Hup].
  - destruct (target_paths _ _ _ _ _ _ _ Ht) as (Hbody & Hmd & Hne & Hcell).
    apply write_both_Returns in Hw
      as (Hstore & Hfmd & Hfs & Hother & Hdmd & Hds & _); [|exact Hne].
    rewrite (chtime_ordinary _ _ (ordinary_store_lookup _ _ _ Hord Hcell)) in Hfmd.
    split; [split; [exact Hstore|constructor]|].
    + intros q t Hq. rewrite Hother; [exact Hq| |]; intros ->; [eapply Hdmd|eapply Hds]; eauto.
    + intros q n Hq Hn. destruct (decide (q = mdPath)) as [->|Hqm].
      * eexists. split; [exact Hfmd|]. cbn [node_ModTime].
        destruct (Z.le_gt_cases (Snippet.ModTime sc) (node_ModTime n)) as [Hle|Hgt]; [|lia].
        exfalso. apply Hnot. exists sPath, mdPath, sc, n. auto.
      * exists n. rewrite Hother; [split; [exact Hn|lia]|exact Hqm|].
        intros ->. apply Hq. exact Hbody.
    + rewrite Hstore. eexists sPath, mdPath, sc, _.
      split; [exact Ht|]. split; [exact Hfmd|]. cbn. lia.
Qed.

(** ** Writing a tree *)

Lemma settled_mono n ak h f f' : forall g,
  fs_le f f' -> settled n ak h f g -> settled n ak h f' g.
Proof.
  induction n as [|n IH]; intros g Hle; [exact id|].
  intros (gc & p & t & Hg & Hp & Hd & Hk & Hs).
  exists gc, p, t. split; [exact Hg|]. split; [exact Hp|].
  split; [apply (fs_le_dir _ _ Hle), Hd|]. split.
  - eapply Forall_impl; [exact Hk|]. intros x. apply IH. exact Hle.
  - eapply Forall_impl; [exact Hs|]. intros x. apply up_to_date_mono. exact Hle.
Qed.

Lemma for_each_nothing {A : Type} (body : A -> M World unit) xs w :
  Forall (fun x => body x w = Returns tt w) xs -> for_each body xs w = Returns tt w.
Proof.
  induction 1 as [|x xs Hx _ IH]; [reflexivity|].
  cbn [for_each]. unfold mbind, M_bind. rewrite Hx. exact IH.
Qed.

(** A loop whose rounds let the world grow, each establishing a fact that
    growth keeps, establishes all the facts. *)
Lemma for_each_establishes {A : Type} (body : A -> M World unit)
    (Q : A -> World -> Prop) xs :
  (forall x w w', Q x w -> grows w w' -> Q x w') ->
  (forall x w w',
      x ∈ xs -> ordinary_store (store w) -> body x w = Returns tt w' ->
      grows w w' /\ Q x w') ->
  forall w w', ordinary_store (store w) ->
               for_each body xs w = Returns tt w' ->
               grows w w' /\ Forall (fun x => Q x w') xs.
Proof.
  intros Hmono. induction xs as [|x xs IH]; intros Hbody w w' Hord Hrun.
  - cbn in Hrun. injection Hrun as <-. split; [apply grows_refl|constructor].
  - apply for_each_cons_Returns in Hrun as (w1 & H1 & H2).
    apply Hbody in H1 as [Hg1 Hq1]; [|apply elem_of_cons; auto|exact Hord].
    apply IH in H2 as [Hg2 Hq2];
      [|intros y u u' Hy; apply Hbody; apply elem_of_cons; auto
       |rewrite (proj1 Hg1); exact Hord].
    split; [eapply grows_trans; eauto|]. constructor; [|exact Hq2].
    eapply Hmono; eauto.
Qed.

Lemma writeGroup_unfold n ak g w :
  writeGroup (S n) ak g w
  = match expander.groups (store w) !! g with
    | None => Panics
    | Some gc =>
        match Group_Path (S n) (store w) gc with
        | Panic => Panics
        | OutOfFuel => Diverges
        | Ok p =>
            (_ ← os_MkdirAll (path_Join (dir ak) p);
             _ ← for_each (writeGroup n ak) (Group.Groups gc);
             for_each (writeSnippet (S n) ak) (Group.Snippets gc)) w
        end
    end.
Proof.
  cbn [writeGroup]. unfold mbind at 1, M_bind at 1, get.
  unfold mbind at 1, M_bind at 1, lift at 1, deref.
  destruct (expander.groups (store w) !! g) as [gc|]; [|reflexivity].
  unfold mbind at 1, M_bind at 1, lift at 1.
  destruct (Group_Path (S n) (store w) gc); reflexivity.
Qed.

Lemma writeGroup_Returns n ak g w w' :
  writeGroup n ak g w = Returns tt w' ->
  exists gc p w1 w2,
    expander.groups (store w) !! g = Some gc
    /\ Group_Path n (store w) gc = Ok p
    /\ os_MkdirAll (path_Join (dir ak) p) w = Returns tt w1
    /\ for_each (writeGroup (pred n) ak) (Group.Groups gc) w1 = Returns tt w2
    /\ for_each (writeSnippet n ak) (Group.Snippets gc) w2 = Returns tt w'.
Proof.
  destruct n as [|n]; [discriminate|]. rewrite writeGroup_unfold.
  destruct (expander.groups (store w) !! g) as [gc|] eqn:Hg; [|discriminate].
  destruct (Group_Path (S n) (store w) gc) as [p| |] eqn:Hp; try discriminate.
  intros H.
  apply bind_Returns in H as ([] & w1 & H1 & H).
  apply bind_Returns in H as ([] & w2 & H2 & H3).
  exists gc, p, w1, w2. auto.
Qed.

Lemma writeSnippet_keeps_dirs n ak s w w' :
  writeSnippet n ak s w = Returns tt w' -> keeps_dirs w w'.
Proof.
  intros H. apply writeSnippet_Returns in H as (p & m & c & Ht & [[_ ->]|[_ Hw]]);
    [apply keeps_dirs_refl|].
  destruct (target_paths _ _ _ _ _ _ _ Ht) as (_ & _ & Hne & _).
  apply write_both_Returns in Hw as (_ & _ & _ & Hother & Hdm & Hds & _); [|exact Hne].
  intros q t Hq. rewrite Hother; [exact Hq| |]; intros ->; [eapply Hdm|eapply Hds]; eauto.
Qed.

Lemma writeGroup_keeps_dirs n ak : forall g w w',
  writeGroup n ak g w = Returns tt w' -> keeps_dirs w w'.
Proof.
  induction n as [|n IH]; intros g w w' H; [discriminate|].
  apply writeGroup_Returns in H as (gc & p & w1 & w2 & _ & _ & H1 & H2 & H3).
  apply os_MkdirAll_grows in H1 as [[_ Hle] _].
  apply (keeps_dirs_trans _ w1); [exact (fs_le_dir _ _ Hle)|].
  apply (keeps_dirs_trans _ w2).
  - apply (for_each_invariant _ keeps_dirs _ keeps_dirs_refl keeps_dirs_trans) in H2;
      [exact H2|]. intros x u u' _. apply IH.
  - apply (for_each_invariant _ keeps_dirs _ keeps_dirs_refl keeps_dirs_trans) in H3;
      [exact H3|]. intros x u u' _. apply writeSnippet_keeps_dirs.
Qed.

Lemma settled_nothing n ak : forall g w,
  settled n ak (store w) (fs w) g -> writeGroup n ak g w = Returns tt w.
Proof.
  induction n as [|n IH]; intros g w; [intros []|].
  intros (gc & p & t & Hg & Hp & Hd & Hk & Hs).
  rewrite writeGroup_unfold, Hg, Hp.
  unfold mbind at 1, M_bind at 1. rewrite (os_MkdirAll_exists _ _ _ Hd).
  unfold mbind at 1, M_bind at 1. rewrite for_each_nothing.
  - apply for_each_nothing. eapply Forall_impl; [exact Hs|].
    intros s. apply writeSnippet_up_to_date.
  - eapply Forall_impl; [exact Hk|]. intros x. apply IH.
Qed.

Lemma writeGroup_settles n ak : forall g w w',
  ordinary_store (store w) ->
  writeGroup n ak g w = Returns tt w' ->
  grows w w' /\ settled n ak (store w') (fs w') g.
Proof.
  induction n as [|n IH]; intros g w w' Hord; [discriminate|].
  rewrite writeGroup_unfold.
  destruct (expander.groups (store w) !! g) as [gc|] eqn:Hg; [|discriminate].
  destruct (Group_Path (S n) (store w) gc) as [p| |] eqn:Hp; try discriminate.
  intros H.
  apply bind_Returns in H as ([] & w1 & H1 & H).
  apply bind_Returns in H as ([] & w2 & H2 & H3).
  apply os_MkdirAll_grows in H1 as [Hg1 [t Hdir]].
  apply (for_each_establishes _ (fun x u => settled n ak (store u) (fs u) x)) in H2
    as [Hg2 Hkids].
  2:{ intros x u u' Hx [Hst Hle]. rewrite Hst. eapply settled_mono; eauto. }
  2:{ intros x u u' _. apply IH. }
  2:{ rewrite (proj1 Hg1). exact Hord. }
  apply (for_each_establishes _ (fun x u => up_to_date (S n) ak (store u) (fs u) x)) in H3
    as [Hg3 Hsnips].
  2:{ intros x u u' Hx [Hst Hle]. rewrite Hst. eapply up_to_date_mono; eauto. }
  2:{ intros x u u' _. apply writeSnippet_grows. }
  2:{ rewrite (proj1 Hg2), (proj1 Hg1). exact Hord. }
  assert (Hg13 : grows w w') by (eapply grows_trans; [|eapply grows_trans]; eauto).
  split; [exact Hg13|].
  destruct Hg13 as [Hst13 Hle13]. destruct Hg3 as [Hst3 Hle3]. destruct Hg2 as [Hst2 Hle2].
  exists gc, p, t. rewrite Hst13. split; [exact Hg|]. split; [exact Hp|].
  split; [apply (fs_le_dir _ _ Hle3), (fs_le_dir _ _ Hle2), Hdir|].
  split; [|rewrite <- Hst13; exact Hsnips].
  eapply Forall_impl; [exact Hkids|]. intros x Hx. cbn beta in Hx.
  rewrite <- Hst13, Hst3. apply (settled_mono _ _ _ (fs w2)); [exact Hle3|exact Hx].
Qed.

Lemma elem_of_range_map keys (m : gmap string rawGroup) rg :
  rg ∈ range_map keys m <-> exists k, k ∈ keys /\ m !! k = Some rg.
Proof. unfold range_map. apply list_elem_of_omap. Qed.

(** C1, amended. [writeSnippet] skips a snippet whose sidecar is there and
    not older than the snippet, leaving the world as it was; otherwise,
    when it returns, the sidecar holds the metadata and the body file holds
    the text, each with the time that [os.Chtimes] leaves on it, which is
    the snippet's modification time where that time is ordinary.  So after
    a [Write] that returned, on a store whose snippets have ordinary
    modification times, a second [Write] on the same store and file
    system, in any order of the same groups, returns without a change: no
    node is written or stamped, and the trace is as it was. *)
Theorem Write_again_writes_nothing fuel ak :
  (forall s w,
      up_to_date fuel ak (store w) (fs w) s ->
      writeSnippet fuel ak s w = Returns tt w)
  /\ (forall s w w',
         ~ up_to_date fuel ak (store w) (fs w) s ->
         writeSnippet fuel ak s w = Returns tt w' ->
         exists sPath mdPath sc,
           target fuel ak (store w) s = Some (sPath, mdPath, sc)
           /\ fs w' !! mdPath
              = Some (File (json_encode (newMetadata sc))
                           (chtime (Snippet.ModTime sc) (clock w (tick w))))
           /\ fs w' !! sPath
              = Some (File (Snippet.Text sc)
                           (chtime (Snippet.ModTime sc) (clock w (S (tick w)))))
           /\ (ordinary (Snippet.ModTime sc) ->
               fs w' !! mdPath
               = Some (File (json_encode (newMetadata sc)) (Snippet.ModTime sc))
               /\ fs w' !! sPath
                  = Some (File (Snippet.Text sc) (Snippet.ModTime sc))))
  /\ (forall keys keys' w w1 w2,
         ordinary_store (store w) ->
         Write fuel keys ak w = Returns tt w1 ->
         (forall k, k ∈ keys' -> k ∈ keys) ->
         store w2 = store w1 ->
         fs w2 = fs w1 ->
         Write fuel keys' ak w2 = Returns tt w2).
Proof.
  split; [|split].
  - intros s w. apply writeSnippet_up_to_date.
  - intros s w w' Hnot H.
    apply writeSnippet_Returns in H as (sPath & mdPath & sc & Ht & [[Hup _]|[_ Hw]]);
      [contradiction|].
    destruct (target_paths _ _ _ _ _ _ _ Ht) as (_ & _ & Hne & _).
    apply write_both_Returns in Hw as (_ & Hmd & Hs & _); [|exact Hne].
    exists sPath, mdPath, sc. split; [exact Ht|]. split; [exact Hmd|].
    split; [exact Hs|]. intros Hord.
    rewrite (chtime_ordinary _ _ Hord) in Hmd. rewrite (chtime_ordinary _ _ Hord) in Hs.
    auto.
  - intros keys keys' w w1 w2 Hord Hrun Hsub Hstore Hfs. unfold Write in *.
    apply (for_each_establishes _
             (fun rg u => managed rg = true ->
                          settled fuel ak (store u) (fs u) (group rg))) in Hrun
      as [_ Hall].
    + apply for_each_nothing. rewrite Forall_forall in *. intros rg Hrg.
      destruct (managed rg) eqn:Hm; [|reflexivity].
      apply settled_nothing. rewrite Hstore, Hfs. apply Hall; [|exact Hm].
      apply elem_of_range_map in Hrg as (k & Hk & Hrg).
      apply elem_of_range_map. eauto.
    + intros rg u u' Hq [Hst Hle] Hm. rewrite Hst. eapply settled_mono; eauto.
    + intros rg u u' _ Hu Hbody. destruct (managed rg).
      * apply writeGroup_settles in Hbody as [Hg Hs]; auto.
      * injection Hbody as <-. split; [apply grows_refl|discriminate].
    + exact Hord.
Qed.

(** ** What [Write] persists *)


Lemma Load_Returns fuel ak w ak' w' :
  Load fuel ak w = Returns ak' w' ->
  exists gs w1, dir ak' = dir ak /\ install gs (groups ak) w1 = Returns (groups ak') w'.
Proof.
  unfold Load. intros H.
  apply bind_Returns in H as (root & w1 & _ & H).
  apply bind_Returns in H as (w1' & w1'' & Hget & H).
  apply bind_Returns in H as (rc & w2 & Hrc & H).
  apply bind_Returns in H as (m & w3 & Hinst & H).
  injection H as <- <-. eauto.
Qed.


Lemma install_upserts gs : forall m w m' w',
  install gs m w = Returns m' w' ->
  forall k, m' !! k = m !! k \/ exists g, m' !! k = Some (mkRawGroup g false).
Proof.
  induction gs as [|g gs IH]; intros m w m' w' H k.
  - injection H as <- <-. auto.
  - cbn [install] in H.
    apply bind_Returns in H as ([] & w1 & _ & H).
    apply bind_Returns in H as (w1' & w1'' & _ & H).
    apply bind_Returns in H as (gc & w2 & _ & H).
    destruct (IH _ _ _ _ H k) as [Hold|Hnew]; [|auto].
    destruct (decide (Group.Name gc = k)) as [<-|Hne].
    + rewrite lookup_insert_eq in Hold. eauto.
    + rewrite lookup_insert_ne in Hold by exact Hne. auto.
Qed.

(** [Load] keeps every entry of the table whose name it does not load, and
    stores an unmanaged entry under every name it loads. *)
Lemma Load_upserts fuel ak w ak' w' :
  Load fuel ak w = Returns ak' w' ->
  forall k, groups ak' !! k = groups ak !! k
            \/ exists g, groups ak' !! k = Some (mkRawGroup g false).
Proof.
  intros H. apply Load_Returns in H as (gs & w1 & _ & H).
  eapply install_upserts. exact H.
Qed.

End autokey_facts.

(** ** The backends on the worked example *)

Lemma Write_again_witness :
  exists w1,
    autokey.Write (Json := line_codec) 3 ["Imported"] ex_ak ex_world = Returns tt w1
    /\ autokey.Write (Json := line_codec) 3 ["Imported"] ex_ak w1 = Returns tt w1.
Proof.
  eexists. split; [vm_compute; reflexivity|].
  eapply (proj2 (proj2 (Write_again_writes_nothing (Json := line_codec) 3 ex_ak))
            ["Imported"] ["Imported"] ex_world).
  - unfold ordinary_store, ordinary. cbn [store ex_world ex_store snippets].
    repeat constructor; cbn; lia.
  - vm_compute. reflexivity.
  - auto.
  - reflexivity.
  - reflexivity.
Defined.

(** C1, as stated, fails: the files of a snippet dated in the year 3000
    are left with the instant that [UnixNano] wraps around to, which is
    older than the snippet, so that the next [Write] writes them again; and
    the files of a snippet with the zero date keep the time at which they
    were written. *)
Lemma Write_again_writes_far_dates :
  exists w1 w2,
    autokey.Write (Json := line_codec) 2 ["Work"] rt_ak far_world = Returns tt w1
    /\ (Snippet.ModTime <$> snippets (store w1) !! 0) = Some 32503680000000000000%Z
    /\ (node_ModTime <$> fs w1 !! "/home/u/.config/autokey/data/Work/.u1.json")
       = Some (-4389808147419103232)%Z
    /\ (node_ModTime <$> fs w1 !! "/home/u/.config/autokey/data/Work/u1.txt")
       = Some (-4389808147419103232)%Z
    /\ (Snippet.ModTime <$> snippets (store w1) !! 1) = Some zero_time
    /\ (node_ModTime <$> fs w1 !! "/home/u/.config/autokey/data/Work/.u2.json")
       = Some 1700000000000000000%Z
    /\ (node_ModTime <$> fs w1 !! "/home/u/.config/autokey/data/Work/u2.txt")
       = Some 1700000000000000000%Z
    /\ autokey.Write (Json := line_codec) 2 ["Work"] rt_ak w1 = Returns tt w2
    /\ trace w2
       = trace w1
         ++ [EvWrite "/home/u/.config/autokey/data/Work/.u1.json"
                     (autokey.json_encode (JsonCodec := line_codec)
                        (autokey.newMetadata
                           (Snippet.mk "u1" "ty" "Thank you!" (Some 0)
                                       32503680000000000000%Z)));
             EvChtimes "/home/u/.config/autokey/data/Work/.u1.json"
                       32503680000000000000%Z;
             EvWrite "/home/u/.config/autokey/data/Work/u1.txt" "Thank you!";
             EvChtimes "/home/u/.config/autokey/data/Work/u1.txt"
                       32503680000000000000%Z].
Proof.
  eexists _, _. split; [vm_compute; reflexivity|].
  do 6 (split; [vm_compute; reflexivity|]).
  split; vm_compute; reflexivity.
Qed.


(** ** Loading twice *)

(** C6, as stated, fails: after two loads of the same document the
    document backend lists two groups, both named "Work". *)
Lemma Load_twice_lists_groups_twice :
  exists h1 te1 h2 te2,
    textexpander.Load (textexpander.Document ex_document)
      (mkHeap [] [], textexpander.mkTE "Settings.textexpander" None [])
    = Returns tt (h1, te1)
    /\ textexpander.Load (textexpander.Document ex_document) (h1, te1)
       = Returns tt (h2, te2)
    /\ textexpander.Groups_of te1 = [0]
    /\ textexpander.Groups_of te2 = [0; 1]
    /\ Group.Name <$> groups h2 !! 0 = Some "Work"
    /\ Group.Name <$> groups h2 !! 1 = Some "Work".
Proof. eexists _, _, _, _. repeat split. Qed.

(** C6, amended. A second [Load] adds to what the first one left.  The
    document backend appends one complete group for each group record to
    the list it has; the file-tree backend keeps every entry of its table
    under a name it does not load and stores an unmanaged entry under each
    name it loads. *)
Theorem Load_again_adds (Json : autokey.JsonCodec) :
  (forall d h te h' te',
      textexpander.Load (textexpander.Document d) (h, te) = Returns tt (h', te') ->
      exists new,
        textexpander.Groups_of te' = textexpander.Groups_of te ++ new
        /\ Forall2 (built h') new (textexpander.Groups d))
  /\ (forall fuel ak w ak' w',
         autokey.Load fuel ak w = Returns ak' w' ->
         forall k,
           autokey.groups ak' !! k = autokey.groups ak !! k
           \/ exists g, autokey.groups ak' !! k = Some (autokey.mkRawGroup g false)).
Proof.
  split.
  - intros d h te h' te'. apply Load_appends.
  - intros fuel ak w ak' w'. apply Load_upserts.
Qed.

Lemma Load_again_witness :
  exists h2 te2 new,
    textexpander.Load (textexpander.Document ex_document)
      (mkHeap [Group.mk "Work" [0] [] None]
              [Snippet.mk "u1" "ty" "Thank you!" (Some 0) 10%Z],
       textexpander.mkTE "Settings.textexpander" (Some ex_document) [0])
    = Returns tt (h2, te2)
    /\ textexpander.Groups_of te2 = [0] ++ new
    /\ Forall2 (built h2) new (textexpander.Groups ex_document).
Proof.
  eexists _, _.
  destruct (proj1 (Load_again_adds line_codec) ex_document
              (mkHeap [Group.mk "Work" [0] [] None]
                      [Snippet.mk "u1" "ty" "Thank you!" (Some 0) 10%Z])
              (textexpander.mkTE "Settings.textexpander" (Some ex_document) [0])
              _ _ eq_refl) as (new & Hnew & Hbuilt).
  exists new. split; [reflexivity|]. split; [exact Hnew|exact Hbuilt].
Defined.

(** ** Tidy paths *)

Lemma split_slash_app e r :
  slash_free e -> split_slash (e ++ slash :: r) = e :: split_slash r.
Proof.
  induction 1 as [|c e Hc _ IH]; cbn [app split_slash].
  - rewrite Ascii.eqb_refl. reflexivity.
  - destruct (Ascii.eqb_spec c slash); [contradiction|]. rewrite IH. reflexivity.
Qed.

Lemma join_slash_cons e e' es :
  join_slash (e :: e' :: es) = e ++ slash :: join_slash (e' :: es).
Proof. reflexivity. Qed.

Lemma split_slash_join es :
  es <> [] -> Forall slash_free es -> split_slash (join_slash es) = es.
Proof.
  intros Hne Hall. induction Hall as [|e es He Hes IH]; [contradiction|].
  destruct es as [|e' es].
  - apply split_slash_slash_free. exact He.
  - rewrite join_slash_cons, split_slash_app by exact He.
    rewrite IH by discriminate. reflexivity.
Qed.

Lemma join_slash_app es es' :
  es <> [] -> es' <> [] ->
  join_slash (es ++ es') = join_slash es ++ slash :: join_slash es'.
Proof.
  intros Hne Hne'. induction es as [|e es IH]; [contradiction|].
  destruct es as [|e2 es].
  - destruct es' as [|e' es']; [contradiction|]. reflexivity.
  - cbn [app]. rewrite !join_slash_cons. cbn [app] in IH.
    rewrite IH by discriminate. rewrite <- app_assoc. reflexivity.
Qed.

Lemma clean_step_simple rooted out e :
  simple e -> clean_step rooted out e = e :: out.
Proof.
  intros (H1 & _ & H2 & H3). unfold clean_step.
  rewrite !decide_False by assumption. reflexivity.
Qed.

Lemma fold_clean_step rooted es : forall out,
  Forall simple es -> fold_left (clean_step rooted) es out = rev es ++ out.
Proof.
  induction es as [|e es IH]; intros out Hall; [reflexivity|].
  apply Forall_cons in Hall as [He Hes]. cbn [fold_left rev].
  rewrite clean_step_simple by exact He. rewrite IH by exact Hes.
  rewrite <- app_assoc. reflexivity.
Qed.

Lemma simple_head x : simple x -> exists c r, x = c :: r /\ c <> slash.
Proof.
  intros (Hne & Hfree & _). destruct x as [|c r]; [contradiction|].
  exists c, r. split; [reflexivity|]. apply Forall_cons in Hfree as [Hc _]. exact Hc.
Qed.

Lemma join_slash_head es :
  es <> [] -> Forall simple es -> exists c r, join_slash es = c :: r /\ c <> slash.
Proof.
  intros Hne Hall. destruct Hall as [|e es He Hes]; [contradiction|].
  destruct (simple_head e He) as (c & r & -> & Hc).
  destruct es as [|e' es]; [exists c, r; auto|].
  rewrite join_slash_cons. exists c, (r ++ slash :: join_slash (e' :: es)). auto.
Qed.

Lemma simple_slash_free es : Forall simple es -> Forall slash_free es.
Proof. intros H. eapply Forall_impl; [exact H|]. intros x (_ & Hx & _). exact Hx. Qed.

Lemma clean_tidy l : tidy l -> clean l = l.
Proof.
  intros (rooted & es & Hne & Hall & ->).
  destruct (join_slash_head es Hne Hall) as (c & r & Hj & Hc).
  pose proof (split_slash_join es Hne (simple_slash_free es Hall)) as Hsplit.
  destruct rooted; cbn [lead app].
  - unfold clean. cbn [is_rooted]. rewrite Ascii.eqb_refl.
    cbn [split_slash]. rewrite Ascii.eqb_refl. rewrite Hsplit.
    cbn [fold_left]. unfold clean_step at 2. rewrite decide_True by reflexivity.
    rewrite fold_clean_step by exact Hall. rewrite app_nil_r, rev_involutive.
    reflexivity.
  - rewrite Hj. unfold clean. cbn [is_rooted].
    destruct (Ascii.eqb_spec c slash); [contradiction|].
    rewrite <- Hj, Hsplit. rewrite fold_clean_step by exact Hall.
    rewrite app_nil_r, rev_involutive. rewrite Hj. reflexivity.
Qed.

Lemma tidy_app l es :
  tidy l -> es <> [] -> Forall simple es -> tidy (l ++ slash :: join_slash es).
Proof.
  intros (rooted & es0 & Hne0 & Hall0 & ->) Hne Hall.
  exists rooted, (es0 ++ es). split; [destruct es0; [contradiction|discriminate]|].
  split; [apply Forall_app; auto|].
  rewrite join_slash_app by assumption. rewrite <- app_assoc. reflexivity.
Qed.

Lemma tidy_simple x : simple x -> tidy x.
Proof.
  intros Hx. exists false, [x]. split; [discriminate|].
  split; [constructor; [exact Hx|constructor]|reflexivity].
Qed.

Lemma tidy_nonempty l : tidy l -> l <> [].
Proof.
  intros (rooted & es & Hne & Hall & ->).
  destruct (join_slash_head es Hne Hall) as (c & r & -> & _).
  destruct rooted; discriminate.
Qed.

(** [path.Join] of a tidy path and tidy elements puts a slash between
    them. *)
Lemma path_Join_tidy a es :
  tidy (bytes a) -> es <> [] -> Forall simple es ->
  path_Join a (str (join_slash es)) = str (bytes a ++ slash :: join_slash es).
Proof.
  intros Ha Hne Hall. unfold path_Join, join_elems. rewrite bytes_str.
  pose proof (tidy_nonempty _ Ha) as Hna.
  destruct (join_slash_head es Hne Hall) as (c & r & Hj & _).
  pose proof (clean_tidy _ (tidy_app _ _ Ha Hne Hall)) as Hclean.
  destruct (bytes a) as [|a0 a'] eqn:Hbytes; [contradiction|].
  rewrite Hj in *.
  cbn [filter list_filter].
  rewrite decide_True by reflexivity. rewrite decide_True by reflexivity.
  cbn [join_slash]. rewrite Hclean. reflexivity.
Qed.

Lemma path_Join_simple a x :
  tidy (bytes a) -> simple (bytes x) ->
  path_Join a x = str (bytes a ++ slash :: bytes x).
Proof.
  intros Ha Hx. rewrite <- (str_bytes x) at 1.
  apply (path_Join_tidy a [bytes x]); [exact Ha|discriminate|].
  constructor; [exact Hx|constructor].
Qed.

Lemma tidy_snoc l x : tidy l -> simple x -> tidy (l ++ slash :: x).
Proof.
  intros Hl Hx. apply (tidy_app l [x]); [exact Hl|discriminate|].
  constructor; [exact Hx|constructor].
Qed.

(** [filepath.Base] of a tidy path is its last element. *)
Lemma simple_last x : simple x -> exists r c, x = r ++ [c] /\ c <> slash.
Proof.
  intros (Hne & Hfree & _).
  destruct (exists_last Hne) as (r & c & ->). exists r, c. split; [reflexivity|].
  apply Forall_app in Hfree as [_ Hc]. apply Forall_cons in Hc as [Hc _]. exact Hc.
Qed.

Lemma base_tidy l x : tidy l -> simple x -> base (l ++ slash :: x) = x.
Proof.
  intros Hl Hx.
  destruct Hl as (rooted & es & Hne & Hall & ->).
  destruct (simple_last x Hx) as (r & c & Hr & Hc).
  assert (Hes : es ++ [x] <> []) by (destruct es; discriminate).
  assert (Hall' : Forall simple (es ++ [x])).
  { apply Forall_app. split; [exact Hall|]. constructor; [exact Hx|constructor]. }
  assert (E : (lead rooted ++ join_slash es) ++ slash :: x
              = lead rooted ++ join_slash (es ++ [x])).
  { rewrite join_slash_app by (assumption || discriminate).
    rewrite <- app_assoc. reflexivity. }
  rewrite E. clear E.
  set (l := lead rooted ++ join_slash (es ++ [x])).
  assert (Hlast : exists k, l = k ++ [c]).
  { pose proof (join_slash_snoc es x) as [k Hk]. unfold l. rewrite Hk, Hr.
    exists (lead rooted ++ k ++ r). rewrite <- !app_assoc. reflexivity. }
  destruct Hlast as [k Hk].
  assert (Hstrip : rev (strip_slashes_rev (rev l)) = l).
  { rewrite Hk, rev_app_distr. cbn [rev app strip_slashes_rev].
    destruct (Ascii.eqb_spec c slash); [contradiction|].
    change (c :: rev k) with ([c] ++ rev k). rewrite rev_app_distr, rev_involutive.
    reflexivity. }
  assert (Hsplit : last (split_slash l) = Some x).
  { unfold l. destruct rooted; cbn [lead app].
    - cbn [split_slash]. rewrite Ascii.eqb_refl.
      rewrite split_slash_join by (auto using simple_slash_free).
      change ([] :: es ++ [x]) with (([] :: es) ++ [x]). apply last_snoc.
    - rewrite split_slash_join by (auto using simple_slash_free). apply last_snoc. }
  unfold base. destruct l as [|l0 l'] eqn:Hl; [destruct k; discriminate|].
  rewrite Hstrip, Hsplit. destruct x; [destruct r; discriminate|reflexivity].
Qed.

(** The entries of a directory. *)
Lemma strip_prefix_app p l : strip_prefix p (p ++ l) = Some l.
Proof.
  induction p as [|c p IH]; [destruct l; reflexivity|].
  cbn [app strip_prefix]. rewrite Ascii.eqb_refl. exact IH.
Qed.

Lemma strip_prefix_Some p : forall l r, strip_prefix p l = Some r -> l = p ++ r.
Proof.
  induction p as [|c p IH]; intros l r.
  - destruct l; cbn; congruence.
  - destruct l as [|x l]; [discriminate|]. cbn [strip_prefix].
    destruct (Ascii.eqb_spec c x) as [->|]; [|discriminate].
    intros H. rewrite (IH _ _ H). reflexivity.
Qed.

Lemma existsb_slash_free x : existsb (Ascii.eqb slash) x = false <-> slash_free x.
Proof.
  unfold slash_free. induction x as [|c x IH]; cbn [existsb].
  - split; [constructor|reflexivity].
  - rewrite orb_false_iff, IH, Forall_cons.
    destruct (Ascii.eqb_spec slash c) as [<-|Hne]; split; intros [H1 H2];
      try discriminate; try contradiction; auto.
Qed.

Lemma child_name_simple d x :
  simple x -> child_name d (str (bytes d ++ slash :: x)) = Some (str x).
Proof.
  intros (Hne & Hfree & H1 & H2). unfold child_name.
  rewrite bytes_str.
  change (bytes d ++ slash :: x) with (bytes d ++ [slash] ++ x).
  rewrite app_assoc, strip_prefix_app.
  destruct x as [|c n]; [contradiction|].
  apply existsb_slash_free in Hfree. rewrite Hfree.
  rewrite !decide_False by assumption. reflexivity.
Qed.

Lemma child_name_Some d k name :
  child_name d k = Some name ->
  simple (bytes name) /\ bytes k = bytes d ++ slash :: bytes name.
Proof.
  unfold child_name.
  destruct (strip_prefix _ _) as [[|c n]|] eqn:Hs; try discriminate.
  destruct (existsb _ _) eqn:He; [discriminate|].
  destruct (decide (c :: n = [dot])) as [|H1]; [discriminate|].
  destruct (decide (c :: n = [dot; dot])) as [|H2]; [discriminate|].
  intros [= <-]. change (String c (str n)) with (str (c :: n)). rewrite bytes_str.
  apply strip_prefix_Some in Hs.
  split.
  - split; [discriminate|]. split; [apply existsb_slash_free; exact He|auto].
  - rewrite Hs, <- app_assoc. reflexivity.
Qed.

Lemma elem_of_entries (f : gmap string node) d name nd :
  (name, nd) ∈ entries f d <-> exists k, f !! k = Some nd /\ child_name d k = Some name.
Proof.
  unfold entries. rewrite list_elem_of_omap. split.
  - intros ([k n] & Hk & Hc). apply elem_of_map_to_list in Hk.
    destruct (child_name d k) as [x|] eqn:Hx; [|discriminate].
    cbn in Hc. injection Hc as <- <-. eauto.
  - intros (k & Hk & Hc). exists (k, nd). split; [apply elem_of_map_to_list; exact Hk|].
    rewrite Hc. reflexivity.
Qed.

Lemma hidden_body n : n <> [] -> hidden (str (n ++ txt)) = hidden (str n).
Proof.
  intros Hn. unfold hidden. rewrite !bytes_str. destruct n; [contradiction|reflexivity].
Qed.

Lemma simple_body n : slash_free n -> simple (n ++ txt).
Proof.
  intros Hn. split; [destruct n; discriminate|]. split.
  - apply Forall_app. split; [exact Hn|]. repeat constructor; discriminate.
  - split; intros H; apply (f_equal (@length ascii)) in H;
      rewrite length_app in H; cbn in H; lia.
Qed.

(** ** Loading a tree *)

Section load_facts.

Import autokey.
Context {Json : JsonCodec}.

Lemma only_refl g w : only g w w.
Proof. constructor; auto. Qed.

Lemma only_trans g w1 w2 w3 : only g w1 w2 -> only g w2 w3 -> only g w1 w3.
Proof.
  intros [Hf1 Hs1 Hg1] [Hf2 Hs2 Hg2]. constructor; [congruence|auto|auto].
Qed.

Lemma apart_cell w w' a gc :
  apart w w' -> expander.groups (store w) !! a = Some gc ->
  expander.groups (store w') !! a = Some gc.
Proof. intros H. apply (only_groups (S a) w w' (H (S a))). lia. Qed.

Lemma load_unfold n d parent :
  load (S n) d parent
  = (files ← ioutil_ReadDir d;
     g ← new_group (Group.mk (filepath_Base d) [] [] parent);
     _ ← for_each (load_entry n d g) files;
     mret g).
Proof. reflexivity. Qed.

Lemma ioutil_ReadDir_Returns d w files w' :
  ioutil_ReadDir d w = Returns files w' ->
  w' = w /\ files ≡ₚ entries (fs w) d.
Proof.
  unfold ioutil_ReadDir. destruct (fs w !! d) as [[t|c t]|]; try discriminate.
  intros [= <- <-]. split; [reflexivity|]. apply merge_sort_Permutation.
Qed.

Lemma update_group_Returns a f w w' :
  update_group a f w = Returns tt w' ->
  exists gc, expander.groups (store w) !! a = Some gc
             /\ w' = set_store (set_group (store w) a (f gc)) w.
Proof.
  unfold update_group. destruct (expander.groups (store w) !! a) as [gc|]; [|discriminate].
  intros [= <-]. eauto.
Qed.

Lemma update_group_only a f w w' :
  update_group a f w = Returns tt w' ->
  only a w w'
  /\ exists gc, expander.groups (store w) !! a = Some gc
                /\ expander.groups (store w') !! a = Some (f gc).
Proof.
  intros H. apply update_group_Returns in H as (gc & Hgc & ->). split.
  - constructor; [reflexivity|auto|].
    intros b gb Hb Hgb. cbn. rewrite list_lookup_insert_ne by congruence. exact Hgb.
  - exists gc. split; [exact Hgc|]. cbn. apply list_lookup_insert_eq.
    eapply lookup_lt_Some. exact Hgc.
Qed.

Lemma newSnippet_Returns file w s w' :
  newSnippet file w = Returns s w' ->
  exists sc, snippet_at (fs w) file = Some sc
             /\ s = length (snippets (store w))
             /\ w' = set_store (mkHeap (expander.groups (store w))
                                       (snippets (store w) ++ [sc])) w.
Proof.
  unfold newSnippet. intros H.
  apply bind_Returns in H as (mdPath & w1 & H1 & H).
  apply bind_Returns in H as (md & w2 & H2 & H).
  apply bind_Returns in H as (buf & w3 & H3 & H4).
  apply metadataPath_Returns in H1 as (-> & _ & d & stem & ext & Hpat & ->).
  unfold parseMetadata in H2.
  destruct (fs w !! _) as [[t|c t]|] eqn:Hmd; try discriminate.
  destruct (json_decode c) as [md0|] eqn:Hdec; [|discriminate].
  injection H2 as <- <-.
  unfold ioutil_ReadFile in H3.
  destruct (fs w !! file) as [[t'|b t']|] eqn:Hbody; try discriminate.
  injection H3 as <- <-.
  unfold new_snippet in H4. injection H4 as <- <-.
  eexists. split; [|split; reflexivity].
  unfold snippet_at. rewrite Hpat. cbn [mbind option_bind].
  rewrite Hmd. cbn [mbind option_bind]. rewrite Hbody. cbn [mbind option_bind].
  rewrite Hdec. reflexivity.
Qed.

Lemma lookup_agree {A : Type} (l : list A) (i : nat) x y :
  l !! i = Some x -> l !! i = Some y -> x = y.
Proof. congruence. Qed.

(** What one round of the loop does, by the kind of the entry. *)
Lemma load_entry_Dir n d g x t u u' :
  load_entry n d g (x, Dir t) u = Returns tt u' ->
  exists c u1,
    load n (path_Join d x) (Some g) u = Returns c u1
    /\ update_group g (fun gc => set_Groups gc (Group.Groups gc ++ [c])) u1
       = Returns tt u'.
Proof.
  unfold load_entry. cbn [snd fst]. intros H.
  apply bind_Returns in H as (c & u1 & H1 & H2). eauto.
Qed.

Lemma load_entry_File n d g x c t u u' :
  hidden x = false ->
  load_entry n d g (x, File c t) u = Returns tt u' ->
  exists sc gc,
    snippet_at (fs u) (path_Join d x) = Some sc
    /\ expander.groups (store u) !! g = Some gc
    /\ only g u u'
    /\ expander.groups (store u') !! g
       = Some (set_Snippets gc (Group.Snippets gc ++ [length (snippets (store u))]))
    /\ snippets (store u') !! length (snippets (store u))
       = Some (with_Snippet_Parent (Some g) sc).
Proof.
  unfold load_entry. cbn [snd fst]. intros -> H.
  apply bind_Returns in H as (s & u1 & H1 & H).
  apply bind_Returns in H as ([] & u2 & H2 & H3).
  apply newSnippet_Returns in H1 as (sc & Hsc & -> & ->).
  unfold update_snippet in H2. cbn [store set_store snippets] in H2.
  rewrite list_lookup_middle in H2 by reflexivity. injection H2 as <-.
  apply update_group_Returns in H3 as (gc & Hgc & ->).
  cbn [store set_store expander.groups snippets] in *.
  exists sc, gc. split; [exact Hsc|]. split; [exact Hgc|].
  split; [|split]; [constructor|..];
    cbn [fs store set_store set_group snippets expander.groups].
  - reflexivity.
  - intros s sc' Hs. pose proof (lookup_lt_Some _ _ _ Hs) as Hlt.
    rewrite list_lookup_insert_ne by lia. apply lookup_app_l_Some. exact Hs.
  - intros a ga Ha Hga. rewrite list_lookup_insert_ne by congruence. exact Hga.
  - apply list_lookup_insert_eq. eapply lookup_lt_Some. exact Hgc.
  - apply list_lookup_insert_eq. rewrite length_app. cbn. lia.
Qed.

Lemma load_entry_hidden n d g x c t u u' :
  hidden x = true ->
  load_entry n d g (x, File c t) u = Returns tt u' -> u' = u.
Proof. unfold load_entry. cbn [snd fst]. intros ->. intros [= <-]. reflexivity. Qed.

(** [load] allocates the cell it returns and leaves the cells of the
    store alone. *)
Lemma load_apart n : forall d parent w g w',
  load n d parent w = Returns g w' ->
  g = length (expander.groups (store w)) /\ apart w w'.
Proof.
  induction n as [|n IH]; intros d parent w g w'; [discriminate|].
  rewrite load_unfold. intros H.
  apply bind_Returns in H as (files & w0 & H0 & H).
  apply ioutil_ReadDir_Returns in H0 as [-> _].
  apply bind_Returns in H as (g0 & w1 & H1 & H).
  apply bind_Returns in H as ([] & w2 & H2 & H3).
  injection H3 as <- <-. unfold new_group in H1. injection H1 as <- <-.
  split; [reflexivity|].
  set (g := length (expander.groups (store w))) in *.
  assert (Hloop : only g
            (set_store (mkHeap (expander.groups (store w)
                                ++ [Group.mk (filepath_Base d) [] [] parent])
                               (snippets (store w))) w) w2).
  { revert H2. apply for_each_invariant.
    - apply only_refl.
    - apply only_trans.
    - intros [x [t|c t]] u u' _ Hbody.
      + apply load_entry_Dir in Hbody as (c & u1 & Hl & Hu).
        apply IH in Hl as [_ Hl]. apply update_group_only in Hu as [Hu _].
        eapply only_trans; [apply Hl|exact Hu].
      + destruct (hidden x) eqn:Hx.
        * apply load_entry_hidden in Hbody as ->; [apply only_refl|exact Hx].
        * apply load_entry_File in Hbody as (sc & gc & _ & _ & Ho & _); [exact Ho|exact Hx]. }
  destruct Hloop as [Hf Hs Hg]. cbn [fs store set_store snippets expander.groups] in *.
  intros g'. constructor; [exact Hf|exact Hs|].
  intros a ga _ Ha. apply Hg.
  - apply lookup_lt_Some in Ha. unfold g. lia.
  - apply lookup_app_l_Some. exact Ha.
Qed.

Lemma load_loop n d g f files : forall u u' gc,
  for_each (load_entry n d g) files u = Returns tt u' ->
  fs u = f ->
  expander.groups (store u) !! g = Some gc ->
  only g u u'
  /\ exists new_s new_g,
      expander.groups (store u') !! g
      = Some (Group.mk (Group.Name gc) (Group.Snippets gc ++ new_s)
                       (Group.Groups gc ++ new_g) (Group.Parent gc))
      /\ (forall x c t, (x, File c t) ∈ files -> hidden x = false ->
            exists s sc, s ∈ new_s
                         /\ snippet_at f (path_Join d x) = Some sc
                         /\ snippets (store u') !! s
                            = Some (with_Snippet_Parent (Some g) sc))
      /\ (forall x t, (x, Dir t) ∈ files -> exists c, c ∈ new_g /\ produced n d g f c x u')
      /\ (forall c, c ∈ new_g -> exists x t, (x, Dir t) ∈ files /\ produced n d g f c x u').
Proof.
  induction files as [|[x nd] files IH]; intros u u' gc Hrun Hf Hg.
  - injection Hrun as <-. split; [apply only_refl|]. exists [], [].
    rewrite !app_nil_r. split; [destruct gc; exact Hg|].
    split; [|split]; intros; exfalso; eapply not_elem_of_nil; eauto.
  - apply for_each_cons_Returns in Hrun as (u1 & Hhead & Hrest).
    destruct nd as [t|c t].
    + (* a directory *)
      apply load_entry_Dir in Hhead as (ch & v1 & Hl & Hu).
      pose proof (load_apart _ _ _ _ _ _ Hl) as [Hch Hap].
      apply update_group_only in Hu as (Ho1 & gc1 & Hg1 & Hg1').
      pose proof (lookup_agree _ _ _ _ Hg1 (apart_cell _ _ _ _ Hap Hg)) as ->.
      assert (Hne : ch <> g) by (apply lookup_lt_Some in Hg; lia).
      assert (Hf1 : fs u1 = f).
      { rewrite (only_fs _ _ _ Ho1), (only_fs _ _ _ (Hap g)). exact Hf. }
      destruct (IH _ _ _ Hrest Hf1 Hg1') as (Ho2 & new_s & new_g & Hcell & Hfiles & Hdirs & Hkids).
      split; [eapply only_trans; [eapply only_trans; [apply Hap|exact Ho1]|exact Ho2]|].
      exists new_s, (ch :: new_g). cbn [set_Groups Group.Name Group.Snippets Group.Groups
                                         Group.Parent] in Hcell.
      rewrite <- app_assoc in Hcell. split; [exact Hcell|].
      assert (Hprod : produced n d g f ch x u').
      { exists u, v1. split; [exact Hl|]. split; [exact Hf|]. split; [exact Hne|].
        eapply only_trans; eauto. }
      split; [|split].
      * intros y c t' Hy Hh. apply elem_of_cons in Hy as [Heq|Hy]; [discriminate|].
        eauto.
      * intros y t' Hy. apply elem_of_cons in Hy as [[= -> _]|Hy].
        -- exists ch. split; [apply elem_of_cons; auto|exact Hprod].
        -- destruct (Hdirs _ _ Hy) as (c & Hc & Hp). exists c.
           split; [apply elem_of_cons; auto|exact Hp].
      * intros c Hc. apply elem_of_cons in Hc as [->|Hc].
        -- exists x, t. split; [apply elem_of_cons; auto|exact Hprod].
        -- destruct (Hkids _ Hc) as (y & t' & Hy & Hp). exists y, t'.
           split; [apply elem_of_cons; auto|exact Hp].
    + destruct (hidden x) eqn:Hx.
      * (* a hidden file *)
        apply load_entry_hidden in Hhead as ->; [|exact Hx].
        destruct (IH _ _ _ Hrest Hf Hg) as (Ho & new_s & new_g & Hcell & Hfiles & Hdirs & Hkids).
        split; [exact Ho|]. exists new_s, new_g. split; [exact Hcell|].
        split; [|split].
        -- intros y c' t' Hy Hh. apply elem_of_cons in Hy as [[= -> _ _]|Hy];
             [congruence|eauto].
        -- intros y t' Hy. apply elem_of_cons in Hy as [Heq|Hy]; [discriminate|eauto].
        -- intros c' Hc. destruct (Hkids _ Hc) as (y & t' & Hy & Hp). exists y, t'.
           split; [apply elem_of_cons; auto|exact Hp].
      * (* a snippet file *)
        apply load_entry_File in Hhead as (sc & gc0 & Hsc & Hg0 & Ho1 & Hg1 & Hs1);
          [|exact Hx].
        pose proof (lookup_agree _ _ _ _ Hg0 Hg) as ->.
        assert (Hf1 : fs u1 = f) by (rewrite (only_fs _ _ _ Ho1); exact Hf).
        destruct (IH _ _ _ Hrest Hf1 Hg1) as (Ho2 & new_s & new_g & Hcell & Hfiles & Hdirs & Hkids).
        split; [eapply only_trans; eauto|].
        exists (length (snippets (store u)) :: new_s), new_g.
        cbn [set_Snippets Group.Name Group.Snippets Group.Groups Group.Parent] in Hcell.
        rewrite <- app_assoc in Hcell. split; [exact Hcell|].
        split; [|split].
        -- intros y c' t' Hy Hh. apply elem_of_cons in Hy as [[= -> _ _]|Hy].
           ++ exists (length (snippets (store u))), sc.
              split; [apply elem_of_cons; auto|]. split; [rewrite <- Hf; exact Hsc|].
              apply (only_snippets _ _ _ Ho2). exact Hs1.
           ++ destruct (Hfiles _ _ _ Hy Hh) as (s & sc' & Hs & Hat & Hcell').
              exists s, sc'. split; [apply elem_of_cons; auto|auto].
        -- intros y t' Hy. apply elem_of_cons in Hy as [Heq|Hy]; [discriminate|eauto].
        -- intros c' Hc. destruct (Hkids _ Hc) as (y & t' & Hy & Hp). exists y, t'.
           split; [apply elem_of_cons; auto|exact Hp].
Qed.

(** What [load] returns: a group named after the directory, with a snippet
    for every file of the directory that is not hidden, and with the child
    groups that [load] returned for its subdirectories, and no other. *)
Lemma load_Returns n d parent w g w' :
  load (S n) d parent w = Returns g w' ->
  apart w w'
  /\ exists gc,
      expander.groups (store w') !! g = Some gc
      /\ Group.Name gc = filepath_Base d
      /\ (forall x c t, (x, File c t) ∈ entries (fs w) d -> hidden x = false ->
            exists s sc, s ∈ Group.Snippets gc
                         /\ snippet_at (fs w) (path_Join d x) = Some sc
                         /\ snippets (store w') !! s
                            = Some (with_Snippet_Parent (Some g) sc))
      /\ (forall x t, (x, Dir t) ∈ entries (fs w) d ->
            exists c, c ∈ Group.Groups gc /\ produced n d g (fs w) c x w')
      /\ (forall c, c ∈ Group.Groups gc ->
            exists x t, (x, Dir t) ∈ entries (fs w) d /\ produced n d g (fs w) c x w').
Proof.
  intros H. pose proof (load_apart _ _ _ _ _ _ H) as [Hg Hap].
  split; [exact Hap|].
  rewrite load_unfold in H.
  apply bind_Returns in H as (files & w0 & H0 & H).
  apply ioutil_ReadDir_Returns in H0 as [-> Hperm].
  apply bind_Returns in H as (g0 & w1 & H1 & H).
  apply bind_Returns in H as ([] & w2 & H2 & H3).
  injection H3 as <- <-. unfold new_group in H1. injection H1 as <- <-.
  eapply load_loop in H2 as (_ & new_s & new_g & Hcell & Hfiles & Hdirs & Hkids);
    [|reflexivity|cbn; apply list_lookup_middle; reflexivity].
  cbn [fs set_store] in *.
  eexists. split; [exact Hcell|]. split; [reflexivity|].
  cbn [Group.Snippets Group.Groups app].
  split; [|split].
  - intros x c t Hx. apply (Hfiles x c t). rewrite Hperm. exact Hx.
  - intros x t Hx. apply (Hdirs x t). rewrite Hperm. exact Hx.
  - intros c Hc. destruct (Hkids c Hc) as (x & t & Hx & Hp). exists x, t.
    split; [rewrite <- Hperm; exact Hx|exact Hp].
Qed.

Lemma same_content_refl w : same_content w w.
Proof. constructor; eauto. Qed.

Lemma same_content_trans w1 w2 w3 :
  same_content w1 w2 -> same_content w2 w3 -> same_content w1 w3.
Proof.
  intros [Hf1 Hs1 Hg1] [Hf2 Hs2 Hg2]. constructor; [congruence|congruence|].
  intros a gc Ha. destruct (Hg1 a gc Ha) as (gc1 & Ha1 & Hn1 & Hsn1 & Hgr1).
  destruct (Hg2 a gc1 Ha1) as (gc2 & Ha2 & Hn2 & Hsn2 & Hgr2).
  exists gc2. split; [exact Ha2|]. split; [congruence|]. split; congruence.
Qed.

Lemma install_table gs : forall m u m' u',
  install gs m u = Returns m' u' ->
  same_content u u'
  /\ forall k,
      (m' !! k = m !! k
       /\ forall c gc, c ∈ gs -> expander.groups (store u) !! c = Some gc ->
                       Group.Name gc <> k)
      \/ (exists c gc, c ∈ gs /\ expander.groups (store u') !! c = Some gc
                       /\ Group.Name gc = k
                       /\ m' !! k = Some (mkRawGroup c false)).
Proof.
  induction gs as [|g gs IH]; intros m u m' u' H.
  - injection H as <- <-. split; [apply same_content_refl|].
    intros k. left. split; [reflexivity|]. intros c gc Hc. exfalso.
    eapply not_elem_of_nil; eauto.
  - cbn [install] in H.
    apply bind_Returns in H as ([] & u1 & H1 & H).
    apply bind_Returns in H as (u1' & u1'' & Hget & H). injection Hget as <- <-.
    apply bind_Returns in H as (gc1 & u2 & Hgc1 & H).
    unfold lift, deref in Hgc1.
    destruct (expander.groups (store u1) !! g) as [gc1'|] eqn:Hg1; [|discriminate].
    injection Hgc1 as <- <-.
    apply update_group_Returns in H1 as (gc0 & Hg0 & ->).
    assert (Hstep : same_content u (set_store (set_group (store u) g
                                                 (with_Group_Parent None gc0)) u)).
    { constructor; [reflexivity|reflexivity|]. intros a gc Ha. cbn.
      destruct (decide (a = g)) as [->|Hne].
      - rewrite list_lookup_insert_eq by (eapply lookup_lt_Some; eauto).
        pose proof (lookup_agree _ _ _ _ Ha Hg0) as ->.
        eexists. split; [reflexivity|]. auto.
      - rewrite list_lookup_insert_ne by congruence. eauto. }
    cbn [store set_store set_group expander.groups] in Hg1.
    rewrite list_lookup_insert_eq in Hg1 by (eapply lookup_lt_Some; eauto).
    injection Hg1 as <-.
    destruct (IH _ _ _ _ H) as [Hsame Htable].
    split; [eapply same_content_trans; eauto|].
    intros k. destruct (Htable k) as [[Hk Hnone]|(c & gc & Hc & Hcell & Hname & Hk)].
    + cbn [with_Group_Parent Group.Name] in Hk.
      destruct (decide (Group.Name gc0 = k)) as [<-|Hne].
      * right. rewrite lookup_insert_eq in Hk.
        destruct (same_groups _ _ (same_content_trans _ _ _ Hstep Hsame) g gc0 Hg0)
          as (gc' & Hg' & Hn' & _).
        exists g, gc'. split; [apply elem_of_cons; auto|auto].
      * left. rewrite lookup_insert_ne in Hk by exact Hne. split; [exact Hk|].
        intros c gc Hc Hcell. apply elem_of_cons in Hc as [->|Hc].
        -- pose proof (lookup_agree _ _ _ _ Hcell Hg0) as ->. exact Hne.
        -- destruct (same_groups _ _ Hstep c gc Hcell) as (gc' & Hc' & Hn' & _).
           rewrite <- Hn'. eapply Hnone; eauto.
    + right. exists c, gc. split; [apply elem_of_cons; auto|auto].
Qed.

End load_facts.

(** ** More fuel, same path *)

Lemma Group_Path_mono n : forall m h g p,
  Group_Path n h g = Ok p -> n <= m -> Group_Path m h g = Ok p.
Proof.
  induction n as [|n IH]; intros m h g p H Hle.
  - cbn in H. destruct (Group.Parent g) eqn:Hp; [discriminate|].
    destruct m; cbn; rewrite Hp; exact H.
  - cbn [Group_Path] in H. destruct m as [|m]; [lia|]. cbn [Group_Path].
    destruct (Group.Parent g) as [a|]; [|exact H].
    destruct (groups h !! a) as [pg|]; [|discriminate].
    cbn [deref mbind result_bind] in *.
    destruct (Group_Path n h pg) as [pp| |] eqn:Hpp; try discriminate.
    rewrite (IH m h pg pp Hpp) by lia. exact H.
Qed.

Lemma Snippet_Path_mono n m h s p :
  Snippet_Path n h s = Ok p -> n <= m -> Snippet_Path m h s = Ok p.
Proof.
  unfold Snippet_Path. intros H Hle.
  destruct (deref _) as [pg| |]; try discriminate. cbn [mbind result_bind] in *.
  destruct (Group_Path n h pg) as [pp| |] eqn:Hpp; try discriminate.
  rewrite (Group_Path_mono n m h pg pp Hpp Hle). exact H.
Qed.

(** ** [MkdirAll] makes the directory and those above it *)

Lemma drop_element_rev_suffix r : drop_element_rev r `suffix_of` r.
Proof.
  induction r as [|c r IH]; [reflexivity|]. cbn [drop_element_rev].
  destruct (Ascii.eqb c slash); [reflexivity|]. apply suffix_cons_r. exact IH.
Qed.

Lemma strip_slashes_rev_suffix r : strip_slashes_rev r `suffix_of` r.
Proof.
  induction r as [|c r IH]; [reflexivity|]. cbn [strip_slashes_rev].
  destruct (Ascii.eqb c slash); [|reflexivity]. apply suffix_cons_r. exact IH.
Qed.

Lemma parent_of_prefix l q : parent_of l = Some q -> q `prefix_of` l.
Proof.
  unfold parent_of.
  destruct (drop_element_rev _) as [|x [|c r]] eqn:Hd; try discriminate.
  intros [= <-].
  assert (Hs : (c :: r) `suffix_of` rev l).
  { etransitivity; [|apply strip_slashes_rev_suffix].
    etransitivity; [|apply drop_element_rev_suffix]. rewrite Hd.
    apply suffix_cons_r. reflexivity. }
  destruct Hs as [k Hk]. exists (rev k).
  rewrite <- (rev_involutive l), Hk, rev_app_distr. reflexivity.
Qed.

Lemma os_Mkdir_touches p w w' :
  os_Mkdir p w = Returns tt w' ->
  forall q, q <> p -> fs w' !! q = fs w !! q.
Proof.
  unfold os_Mkdir. destruct (fs w !! p); [discriminate|].
  destruct (parent_ok (fs w) p); [|discriminate].
  intros [= <-] q Hq. cbn [fs stamp_fs]. apply lookup_insert_ne. congruence.
Qed.

Lemma MkdirAll_rec_touches n : forall p w w',
  MkdirAll_rec n p w = Returns tt w' ->
  forall q, ~ bytes q `prefix_of` bytes p -> fs w' !! q = fs w !! q.
Proof.
  induction n as [|n IH]; intros p w w'; cbn [MkdirAll_rec].
  - destruct (fs w !! p) as [[t|c t]|]; try discriminate. intros [= <-]. reflexivity.
  - destruct (fs w !! p) as [[t|c t]|] eqn:Hp; try discriminate.
    { intros [= <-]. reflexivity. }
    assert (Hstep : forall w1,
              match os_Mkdir p w1 with
              | Fails e w2 =>
                  match fs w2 !! p with
                  | Some (Dir _) => Returns tt w2
                  | _ => Fails e w2
                  end
              | r => r
              end = Returns tt w' ->
              forall q, ~ bytes q `prefix_of` bytes p -> fs w' !! q = fs w1 !! q).
    { intros w1 Hrun q Hq.
      destruct (os_Mkdir p w1) as [[] w2|e w2| |] eqn:Hmk; try discriminate.
      - injection Hrun as <-. eapply os_Mkdir_touches; [exact Hmk|].
        intros ->. apply Hq. reflexivity.
      - unfold os_Mkdir in Hmk. destruct (fs w1 !! p) eqn:Hp1.
        + injection Hmk as <- <-. rewrite Hp1 in Hrun.
          destruct n0; [|discriminate]. injection Hrun as <-. reflexivity.
        + destruct (parent_ok (fs w1) p); [discriminate|].
          injection Hmk as <- <-. rewrite Hp1 in Hrun. discriminate. }
    destruct (parent_of (bytes p)) as [q0|] eqn:Hpar.
    + destruct (MkdirAll_rec n (str q0) w) as [[] w1|e w1| |] eqn:Hrec; try discriminate.
      intros Hrun q Hq. rewrite (Hstep w1 Hrun q Hq). eapply IH; [exact Hrec|].
      rewrite bytes_str. intros Hpre. apply Hq. etransitivity; [exact Hpre|].
      apply parent_of_prefix. exact Hpar.
    + intros Hrun q Hq. apply (Hstep w Hrun q Hq).
Qed.

(** ** Writing and the files of one snippet *)

Section one_snippet.

Import autokey.
Context {Json : JsonCodec}.

Variables (fuel : nat) (ak : AutoKey) (h : heap).
Variables (s : loc) (sPath mdPath : string) (sc : Snippet.t).

Hypothesis Htarget : target fuel ak h s = Some (sPath, mdPath, sc).

(** No other snippet of the store is written to the two files. *)
Hypothesis Halone : forall s' p m c,
  target fuel ak h s' = Some (p, m, c) -> p = sPath \/ m = mdPath -> c = sc.

(** No group of the store has its directory at or below the two files. *)
Hypothesis Hdirs : forall g gc p,
  expander.groups h !! g = Some gc ->
  Group_Path fuel h gc = Ok p ->
  ~ bytes mdPath `prefix_of` bytes (path_Join (dir ak) p)
  /\ ~ bytes sPath `prefix_of` bytes (path_Join (dir ak) p).

Lemma spares_refl w : spares h sPath mdPath sc w w.
Proof. intros H. split; [exact H|]. right. split; reflexivity. Qed.

Lemma spares_trans w1 w2 w3 :
  spares h sPath mdPath sc w1 w2 -> spares h sPath mdPath sc w2 w3 ->
  spares h sPath mdPath sc w1 w3.
Proof.
  intros H12 H23 H1. destruct (H12 H1) as [H2 Hf12]. destruct (H23 H2) as [H3 Hf23].
  split; [exact H3|]. destruct Hf23 as [Hw|[Hm Hs]]; [left; exact Hw|].
  destruct Hf12 as [[[t1 Hwm] [t2 Hws]]|[Hm' Hs']].
  - left. split; [exists t1|exists t2]; congruence.
  - right. split; congruence.
Qed.

Lemma target_mono n s' x :
  target n ak h s' = Some x -> n <= fuel -> target fuel ak h s' = Some x.
Proof.
  unfold target. destruct (snippets h !! s') as [c|]; [|discriminate].
  cbn [mbind option_bind].
  destruct (Snippet_Path n h c) as [p| |] eqn:Hp; try discriminate.
  intros H Hle. rewrite (Snippet_Path_mono _ _ _ _ _ Hp Hle). exact H.
Qed.

Lemma target_paths_of s' p m c :
  target fuel ak h s' = Some (p, m, c) ->
  snippets h !! s' = Some c /\ paths_of fuel ak h c = Some (p, m).
Proof.
  unfold target, paths_of. destruct (snippets h !! s') as [c'|]; [|discriminate].
  cbn [mbind option_bind].
  destruct (Snippet_Path fuel h c') as [q| |] eqn:Hq; try discriminate. cbv zeta.
  destruct (filePattern _) as [[[d st] e]|] eqn:Hpat; [|discriminate].
  cbn [mbind option_bind]. intros [= <- <- <-]. rewrite Hq. cbv zeta. rewrite Hpat.
  split; reflexivity.
Qed.

Lemma target_cell s1 s2 p1 m1 p2 m2 c :
  target fuel ak h s1 = Some (p1, m1, c) ->
  target fuel ak h s2 = Some (p2, m2, c) ->
  p1 = p2 /\ m1 = m2.
Proof.
  intros H1 H2. apply target_paths_of in H1 as [_ H1]. apply target_paths_of in H2 as [_ H2].
  rewrite H1 in H2. injection H2 as <- <-. split; reflexivity.
Qed.

Lemma writeSnippet_spares n s' w w' :
  n <= fuel -> writeSnippet n ak s' w = Returns tt w' -> spares h sPath mdPath sc w w'.
Proof.
  intros Hle H Hst.
  apply writeSnippet_Returns in H as (p & m & c & Ht & [[_ ->]|[_ Hw]]).
  { split; [exact Hst|]. right. split; reflexivity. }
  rewrite Hst in Ht. apply target_mono in Ht; [|exact Hle].
  destruct (target_paths _ _ _ _ _ _ _ Ht) as (Hbp & Hbm & Hne & _).
  destruct (target_paths _ _ _ _ _ _ _ Htarget) as (Hbs & Hbmd & _ & _).
  apply write_both_Returns in Hw as (Hstore & Hfm & Hfp & Hother & _); [|exact Hne].
  split; [congruence|].
  destruct (decide (p = sPath \/ m = mdPath)) as [Hhit|Hmiss].
  - left. pose proof (Halone _ _ _ _ Ht Hhit) as ->.
    destruct (target_cell _ _ _ _ _ _ _ Ht Htarget) as [-> ->]. split; eauto.
  - right. split; apply Hother; intros ->; tauto.
Qed.

Lemma os_MkdirAll_spares g gc p w w' :
  expander.groups h !! g = Some gc ->
  Group_Path fuel h gc = Ok p ->
  os_MkdirAll (path_Join (dir ak) p) w = Returns tt w' -> spares h sPath mdPath sc w w'.
Proof.
  intros Hg Hp H Hst. destruct (Hdirs g gc p Hg Hp) as [Hm Hs].
  pose proof (os_MkdirAll_grows _ _ _ H) as [[Hstore _] _].
  split; [congruence|]. right.
  split; eapply MkdirAll_rec_touches; eauto.
Qed.

Lemma writeGroup_spares n : forall g w w',
  n <= fuel -> writeGroup n ak g w = Returns tt w' -> spares h sPath mdPath sc w w'.
Proof.
  induction n as [|n IH]; intros g w w' Hle; [discriminate|].
  rewrite writeGroup_unfold. intros H Hst. revert H. rewrite Hst.
  destruct (expander.groups h !! g) as [gc|] eqn:Hg; [|discriminate].
  destruct (Group_Path (S n) h gc) as [p| |] eqn:Hp; try discriminate.
  intros H.
  apply bind_Returns in H as ([] & w1 & H1 & H).
  apply bind_Returns in H as ([] & w2 & H2 & H3).
  assert (S1 : spares h sPath mdPath sc w w1).
  { eapply os_MkdirAll_spares; [exact Hg| |exact H1].
    eapply Group_Path_mono; [exact Hp|exact Hle]. }
  assert (S2 : spares h sPath mdPath sc w1 w2).
  { apply (for_each_invariant (writeGroup n ak) (spares h sPath mdPath sc)
             (Group.Groups gc) spares_refl spares_trans); [|exact H2].
    intros x u u' _. apply IH. lia. }
  assert (S3 : spares h sPath mdPath sc w2 w').
  { apply (for_each_invariant (writeSnippet (S n) ak) (spares h sPath mdPath sc)
             (Group.Snippets gc) spares_refl spares_trans); [|exact H3].
    intros x u u' _. apply writeSnippet_spares. exact Hle. }
  exact (spares_trans _ _ _ S1 (spares_trans _ _ _ S2 S3) Hst).
Qed.

Lemma Write_spares keys w w' :
  Write fuel keys ak w = Returns tt w' -> spares h sPath mdPath sc w w'.
Proof.
  unfold Write.
  apply (for_each_invariant _ (spares h sPath mdPath sc) _ spares_refl spares_trans).
  intros rg u u' _. destruct (managed rg).
  - apply writeGroup_spares. lia.
  - intros [= <-]. apply spares_refl.
Qed.

(** After [Write], every managed group is settled. *)
Lemma Write_settles keys w w' :
  ordinary_store (store w) ->
  Write fuel keys ak w = Returns tt w' ->
  grows w w'
  /\ forall k rg, k ∈ keys -> groups ak !! k = Some rg -> managed rg = true ->
                  settled fuel ak (store w') (fs w') (group rg).
Proof.
  unfold Write. intros Hord Hrun.
  apply (for_each_establishes _
           (fun rg u => managed rg = true ->
                        settled fuel ak (store u) (fs u) (group rg))) in Hrun
    as [Hg Hall].
  - split; [exact Hg|]. intros k rg Hk Hrg. rewrite Forall_forall in Hall.
    apply Hall. apply elem_of_range_map. eauto.
  - intros rg u u' Hq [Hst Hle] Hm. rewrite Hst. eapply settled_mono; eauto.
  - intros rg u u' _ Hu Hbody. destruct (managed rg).
    + apply writeGroup_settles in Hbody as [Hg Hs]; auto.
    + injection Hbody as <-. split; [apply grows_refl|discriminate].
  - exact Hord.
Qed.

(** A managed group that holds the snippet, written where the sidecar was
    not up to date, leaves the two files holding the snippet: [Write] runs
    [writeSnippet] on it, which finds the sidecar as it was or the two
    files written, and what follows leaves them holding the snippet. *)
Lemma Write_writes keys w w' k g gc :
  store w = h ->
  ~ up_to_date fuel ak h (fs w) s ->
  k ∈ keys -> groups ak !! k = Some (mkRawGroup g true) ->
  expander.groups h !! g = Some gc ->
  s ∈ Group.Snippets gc ->
  Write fuel keys ak w = Returns tt w' ->
  store w' = h /\ written sPath mdPath sc (fs w')
  /\ exists p t, Group_Path fuel h gc = Ok p
                 /\ fs w' !! path_Join (dir ak) p = Some (Dir t).
Proof.
  intros Hst Hstale Hk Hrg Hg Hs Hrun.
  set (K := fun u u' : World => spares h sPath mdPath sc u u' /\ keeps_dirs u u').
  assert (Krefl : forall u, K u u).
  { intros u. split; [apply spares_refl|apply keeps_dirs_refl]. }
  assert (Ktrans : forall u1 u2 u3, K u1 u2 -> K u2 u3 -> K u1 u3).
  { intros u1 u2 u3 [A1 B1] [A2 B2].
    split; [eapply spares_trans|eapply keeps_dirs_trans]; eauto. }
  assert (Ksnip : forall n x u u',
            n <= fuel -> writeSnippet n ak x u = Returns tt u' -> K u u').
  { intros n x u u' Hn Hx.
    split; [eapply writeSnippet_spares|eapply writeSnippet_keeps_dirs]; eauto. }
  assert (Kgroup : forall n x u u',
            n <= fuel -> writeGroup n ak x u = Returns tt u' -> K u u').
  { intros n x u u' Hn Hx.
    split; [eapply writeGroup_spares|eapply writeGroup_keeps_dirs]; eauto. }
  unfold Write in Hrun.
  assert (Hround : forall rg v v',
            rg ∈ range_map keys (groups ak) ->
            (if managed rg then writeGroup fuel ak (group rg) else mret tt) v
            = Returns tt v' -> K v v').
  { intros rg v v' _. destruct (managed rg).
    - apply Kgroup. lia.
    - intros [= <-]. apply Krefl. }
  assert (Hin : mkRawGroup g true ∈ range_map keys (groups ak)).
  { apply elem_of_range_map. eauto. }
  destruct (for_each_runs _ K _ _ Krefl Ktrans Hround Hin _ _ Hrun)
    as (u & u' & Kwu & Hbody & Ku'w').
  cbn [managed group] in Hbody.
  destruct (proj1 Kwu Hst) as [Hstu _].
  apply writeGroup_Returns in Hbody as (gc' & p & u1 & u2 & Hg' & Hp & H1 & H2 & H3).
  rewrite Hstu in Hg', Hp. pose proof (lookup_agree _ _ _ _ Hg' Hg) as ->.
  assert (Kuu1 : K u u1).
  { split; [eapply os_MkdirAll_spares; eauto|].
    apply os_MkdirAll_grows in H1 as [[_ Hle] _]. exact (fs_le_dir _ _ Hle). }
  pose proof (os_MkdirAll_grows _ _ _ H1) as [_ [t Hdir]].
  assert (Ku1u2 : K u1 u2).
  { apply (for_each_invariant _ K _ Krefl Ktrans) in H2; [exact H2|].
    intros x v v' _. apply Kgroup. lia. }
  assert (Hround' : forall x a a',
            x ∈ Group.Snippets gc -> writeSnippet fuel ak x a = Returns tt a' -> K a a').
  { intros x a a' _. apply Ksnip. lia. }
  destruct (for_each_runs _ K _ _ Krefl Ktrans Hround' Hs _ _ H3)
    as (v & v' & Ku2v & Hsn & Kv'u').
  assert (Kwv : K w v) by (eauto 6).
  assert (Kv'w' : K v' w') by eauto.
  assert (Ku1w' : K u1 w') by (apply (Ktrans _ u2); [exact Ku1u2|]; eauto 6).
  destruct (proj1 Kwv Hst) as [Hstv Hfv].
  assert (Hv' : store v' = h /\ written sPath mdPath sc (fs v')).
  { apply writeSnippet_Returns in Hsn as (p0 & m0 & c0 & Ht0 & [[Hup ->]|[_ Hwb]]).
    - split; [exact Hstv|]. destruct Hfv as [Hw|[Hm _]]; [exact Hw|].
      exfalso. apply Hstale. rewrite Hstv in Hup.
      destruct Hup as (sp & mp & c & nd & Ht & Hnd & Hle).
      exists sp, mp, c, nd. split; [exact Ht|]. split; [|exact Hle].
      rewrite Htarget in Ht. injection Ht as <- <- <-. rewrite <- Hm. exact Hnd.
    - rewrite Hstv, Htarget in Ht0. injection Ht0 as <- <- <-.
      destruct (target_paths _ _ _ _ _ _ _ Htarget) as (_ & _ & Hne & _).
      apply write_both_Returns in Hwb as (Hstore & Hfm & Hfp & _); [|exact Hne].
      split; [congruence|]. split; eauto. }
  destruct Hv' as [Hstv' Hwv'].
  destruct (proj1 Kv'w' Hstv') as [Hstw' Hfw'].
  split; [exact Hstw'|]. split.
  - destruct Hfw' as [Hw|[Hm Hp']]; [exact Hw|].
    destruct Hwv' as [[t1 Hmd] [t2 Hbody]].
    split; [exists t1|exists t2]; congruence.
  - exists p, t. split; [exact Hp|]. apply (proj2 Ku1w'). exact Hdir.
Qed.

End one_snippet.

(** ** Writing, then loading *)

Lemma filepath_Base_Join d x :
  tidy (bytes d) -> simple (bytes x) -> filepath_Base (path_Join d x) = x.
Proof.
  intros Hd Hx. rewrite path_Join_simple by assumption.
  unfold filepath_Base. rewrite bytes_str, base_tidy by assumption. apply str_bytes.
Qed.

Lemma tidy_Join d x :
  tidy (bytes d) -> simple (bytes x) -> tidy (bytes (path_Join d x)).
Proof.
  intros Hd Hx. rewrite path_Join_simple by assumption. rewrite bytes_str.
  apply tidy_snoc; assumption.
Qed.

Lemma simple_body_name n :
  simple (bytes n) -> simple (bytes (n +:+ ".txt")).
Proof. intros (_ & Hfree & _). rewrite bytes_append. apply simple_body. exact Hfree. Qed.

Lemma hidden_body_name n : simple (bytes n) -> hidden (n +:+ ".txt") = hidden n.
Proof.
  intros (Hne & _). unfold hidden. rewrite bytes_append.
  destruct (bytes n); [contradiction|reflexivity].
Qed.

Lemma elem_of_entries_Join (f : gmap string node) d x nd :
  tidy (bytes d) -> simple (bytes x) ->
  f !! path_Join d x = Some nd -> (x, nd) ∈ entries f d.
Proof.
  intros Hd Hx Hf. apply elem_of_entries. exists (path_Join d x).
  split; [exact Hf|]. rewrite path_Join_simple by assumption.
  rewrite child_name_simple by exact Hx. rewrite str_bytes. reflexivity.
Qed.

(** The body path of a snippet of a root group. *)
Lemma body_path_of_root_snippet d N n :
  tidy (bytes d) -> simple (bytes N) -> simple (bytes n) ->
  path_Join d (path_Join N n +:+ "." +:+ autokey.snippetExt)
  = path_Join (path_Join d N) (n +:+ ".txt").
Proof.
  intros Hd HN Hn.
  rewrite (path_Join_simple (path_Join d N) (n +:+ ".txt"))
    by auto using tidy_Join, simple_body_name.
  rewrite (path_Join_simple d N) by assumption.
  rewrite (path_Join_simple N n) by auto using tidy_simple.
  rewrite bytes_str, bytes_append.
  change ("." +:+ autokey.snippetExt) with ".txt".
  set (p := str (bytes N ++ slash :: bytes n) +:+ ".txt").
  assert (Hp : p = str (join_slash [bytes N; bytes n ++ txt])).
  { rewrite <- (str_bytes p). f_equal. unfold p. rewrite bytes_append, bytes_str.
    cbn [join_slash]. rewrite <- app_assoc. reflexivity. }
  rewrite Hp, path_Join_tidy.
  - cbn [join_slash]. rewrite <- app_assoc. reflexivity.
  - exact Hd.
  - discriminate.
  - constructor; [exact HN|]. constructor; [|constructor].
    destruct Hn as (_ & Hfree & _). apply simple_body. exact Hfree.
Qed.

Section round_trip.

Import autokey.
Context {Json : JsonCodec}.

Lemma snippet_at_body f file sc :
  snippet_at f file = Some sc -> exists b t, f !! file = Some (File b t).
Proof.
  unfold snippet_at. destruct (filePattern _) as [[[d stem] e]|]; [|discriminate].
  cbn [mbind option_bind]. destruct (f !! (_ +:+ _)) as [sidecar|]; [|discriminate].
  cbn [mbind option_bind]. destruct (f !! file) as [[t|b t]|]; [| |discriminate].
  - destruct sidecar; discriminate.
  - eauto.
Qed.

(** The snippet that [newSnippet] builds from the two files that hold
    [sc]. *)
Lemma snippet_at_written fuel ak h s sPath mdPath sc f :
  target fuel ak h s = Some (sPath, mdPath, sc) ->
  written sPath mdPath sc f ->
  round_trips (newMetadata sc) ->
  exists sc0, snippet_at f sPath = Some sc0
              /\ Snippet.Name sc0 = Snippet.Abbr sc
              /\ Snippet.Abbr sc0 = Snippet.Abbr sc
              /\ Snippet.Text sc0 = Snippet.Text sc.
Proof.
  intros Ht [[tm Hmd] [tb Hbody]] (md' & Hdec & Hdesc & Habbr).
  unfold target in Ht. destruct (snippets h !! s) as [c|]; [|discriminate].
  cbn [mbind option_bind] in Ht.
  destruct (Snippet_Path fuel h c) as [p| |]; try discriminate. cbv zeta in Ht.
  destruct (filePattern _) as [[[d stem] e]|] eqn:Hpat; [|discriminate].
  cbn [mbind option_bind] in Ht. injection Ht as Hs Hm <-.
  rewrite Hs in Hpat. unfold snippet_at. rewrite Hpat. cbn [mbind option_bind].
  rewrite Hm, Hmd. cbn [mbind option_bind]. rewrite Hbody. cbn [mbind option_bind].
  rewrite Hdec. cbn [mbind option_bind].
  eexists. split; [reflexivity|]. cbn [Snippet.Name Snippet.Abbr Snippet.Text Snippet.ModTime].
  rewrite Hdesc, Habbr. cbn [newMetadata Description Abbreviation Abbreviations].
  split; [reflexivity|]. split; [|reflexivity].
  destruct (String.eqb_spec (Snippet.Abbr c) "") as [->|_]; reflexivity.
Qed.

(** A child group that [load] returned for a subdirectory. *)
Lemma produced_cell n d g f c x u' :
  produced n d g f c x u' ->
  exists gc,
    expander.groups (store u') !! c = Some gc
    /\ Group.Name gc = filepath_Base (path_Join d x)
    /\ forall y b t, (y, File b t) ∈ entries f (path_Join d x) -> hidden y = false ->
         exists s sc, s ∈ Group.Snippets gc
                      /\ snippet_at f (path_Join (path_Join d x) y) = Some sc
                      /\ snippets (store u') !! s
                         = Some (with_Snippet_Parent (Some c) sc).
Proof.
  intros (v & v' & Hl & Hf & Hne & Ho).
  destruct n as [|n]; [discriminate|].
  apply load_Returns in Hl as (_ & gc & Hgc & Hname & Hfiles & _).
  exists gc. split; [apply (only_groups _ _ _ Ho); assumption|]. split; [exact Hname|].
  intros y b t Hy Hh. rewrite <- Hf in Hy.
  destruct (Hfiles y b t Hy Hh) as (s & sc & Hs & Hat & Hcell).
  exists s, sc. split; [exact Hs|]. split; [rewrite <- Hf; exact Hat|].
  apply (only_snippets _ _ _ Ho). exact Hcell.
Qed.

(** [Load] on a data directory that holds the directory [N] with the body
    file of [n] and its sidecar in it. *)
Lemma Load_finds fuel ak w ak' w' N n sc0 tD :
  tidy (bytes (dir ak)) -> simple (bytes N) -> simple (bytes n) ->
  hidden n = false ->
  fs w !! path_Join (dir ak) N = Some (Dir tD) ->
  snippet_at (fs w) (path_Join (path_Join (dir ak) N) (n +:+ ".txt")) = Some sc0 ->
  Load fuel ak w = Returns ak' w' ->
  exists g' gc' s',
    groups ak' !! N = Some (mkRawGroup g' false)
    /\ expander.groups (store w') !! g' = Some gc'
    /\ Group.Name gc' = N
    /\ s' ∈ Group.Snippets gc'
    /\ snippets (store w') !! s' = Some (with_Snippet_Parent (Some g') sc0).
Proof.
  intros Hd HN Hn Hhid Hdir Hat H.
  unfold Load in H.
  apply bind_Returns in H as (root & u1 & Hload & H).
  apply bind_Returns in H as (u1' & u1'' & Hget & H). injection Hget as <- <-.
  apply bind_Returns in H as (rc & u1' & Hrc & H).
  unfold lift, deref in Hrc.
  destruct (expander.groups (store u1) !! root) as [rc'|] eqn:Hroot; [|discriminate].
  injection Hrc as <- <-.
  apply bind_Returns in H as (m & u2 & Hinst & H). injection H as <- <-.
  cbn [groups].
  destruct fuel as [|n1]; [discriminate|].
  apply load_Returns in Hload as (_ & rc0 & Hroot0 & _ & _ & Hdirs & Hkids).
  pose proof (lookup_agree _ _ _ _ Hroot0 Hroot) as ->.
  apply install_table in Hinst as [Hsame Htable].
  (* what a child group named [N] holds *)
  assert (Hchild : forall c x t,
            (x, Dir t) ∈ entries (fs w) (dir ak) ->
            produced n1 (dir ak) root (fs w) c x u1 ->
            exists gc, expander.groups (store u1) !! c = Some gc
                       /\ Group.Name gc = x
                       /\ (x = N ->
                           exists s', s' ∈ Group.Snippets gc
                                      /\ snippets (store u1) !! s'
                                         = Some (with_Snippet_Parent (Some c) sc0))).
  { intros c x t Hx Hp.
    apply elem_of_entries in Hx as (kx & _ & Hkx). apply child_name_Some in Hkx as [Hsx _].
    apply produced_cell in Hp as (gc & Hgc & Hname & Hfiles).
    exists gc. split; [exact Hgc|]. split; [rewrite Hname; apply filepath_Base_Join; assumption|].
    intros ->. destruct (snippet_at_body _ _ _ Hat) as (b & tb & Hb).
    destruct (Hfiles (n +:+ ".txt") b tb) as (s' & sc' & Hs' & Hat' & Hcell').
    - apply elem_of_entries_Join; [apply tidy_Join; assumption| |exact Hb].
      apply simple_body_name. exact Hn.
    - rewrite hidden_body_name by exact Hn. exact Hhid.
    - rewrite Hat in Hat'. injection Hat' as <-. eauto. }
  assert (HN' : (N, Dir tD) ∈ entries (fs w) (dir ak))
    by (apply elem_of_entries_Join; assumption).
  destruct (Htable N) as [[_ Hnone]|(c & gc2 & Hc & Hgc2 & Hname2 & Hm)].
  { exfalso. destruct (Hdirs N tD HN') as (c & Hc & Hp).
    destruct (Hchild c N tD HN' Hp) as (gc & Hgc & Hname & _).
    exact (Hnone c gc Hc Hgc Hname). }
  destruct (Hkids c Hc) as (x & t & Hx & Hp).
  destruct (Hchild c x t Hx Hp) as (gc & Hgc & Hname & Hsn).
  destruct (same_groups _ _ Hsame c gc Hgc) as (gc' & Hgc' & Hn' & Hs' & _).
  pose proof (lookup_agree _ _ _ _ Hgc' Hgc2) as ->.
  assert (HxN : x = N) by congruence.
  destruct (Hsn HxN) as (s' & Hin & Hcell).
  exists c, gc2, s'. split; [exact Hm|]. split; [exact Hgc2|]. split; [exact Hname2|].
  split; [rewrite Hs'; exact Hin|]. rewrite (same_snippets _ _ Hsame). exact Hcell.
Qed.

End round_trip.

(** ** The round trip on an example *)

(** C8, as stated, fails: where the sidecar of the snippet is there and not
    older than the snippet, [Write] leaves both files alone, and [Load]
    then finds the text and the trigger that were there. *)
Lemma Write_then_Load_finds_older_text :
  exists w1 ak' w2 gc',
    autokey.Write (Json := line_codec) 2 ["Work"] rt_ak rt_world_earlier = Returns tt w1
    /\ autokey.Load (Json := line_codec) 3 rt_ak w1 = Returns ak' w2
    /\ (Snippet.Abbr <$> snippets (store w1) !! 0) = Some "ty"
    /\ (Snippet.Text <$> snippets (store w1) !! 0) = Some "Thank you!"
    /\ autokey.groups ak' = {["Work" := autokey.mkRawGroup 2 false]}
    /\ groups (store w2) !! 2 = Some gc'
    /\ Group.Snippets gc' = [2; 3]
    /\ ((fun sc => (Snippet.Abbr sc, Snippet.Text sc)) <$> snippets (store w2) !! 2)
       = Some ("thx", "Thanks!")
    /\ ((fun sc => (Snippet.Abbr sc, Snippet.Text sc)) <$> snippets (store w2) !! 3)
       = Some ("brb", "Be right back").
Proof.
  eexists _, _, _, _.
  split; [vm_compute; reflexivity|].
  split; [vm_compute; reflexivity|].
  repeat split.
Qed.

Section round_trip_theorem.

Import autokey.
Context {Json : JsonCodec}.

(** C8, amended. Let a root group with a simple name be managed under a
    tidy data directory, and let it hold a snippet with a simple name that
    is not hidden, whose sidecar is not up to date, whose two files no
    other snippet is written to and no group directory stands at, and
    whose metadata the codec gives back.  When [Write] and then [Load]
    return, the table holds under the name of the group a group of that
    name with a snippet that has the abbreviation and the text of the
    written one; its name is the abbreviation. *)
Theorem Write_then_Load_finds_snippet
    fuel fuel' keys ak w w1 ak' w2 k g gc s sc sPath mdPath :
  tidy (bytes (dir ak)) ->
  expander.groups (store w) !! g = Some gc ->
  Group.Parent gc = None ->
  simple (bytes (Group.Name gc)) ->
  s ∈ Group.Snippets gc ->
  Snippet.Parent sc = Some g ->
  simple (bytes (Snippet.Name sc)) ->
  hidden (Snippet.Name sc) = false ->
  k ∈ keys ->
  groups ak !! k = Some (mkRawGroup g true) ->
  round_trips (newMetadata sc) ->
  target fuel ak (store w) s = Some (sPath, mdPath, sc) ->
  no_other_writer fuel ak (store w) sPath mdPath sc ->
  no_directory_at fuel ak (store w) mdPath ->
  no_directory_at fuel ak (store w) sPath ->
  ~ up_to_date fuel ak (store w) (fs w) s ->
  Write fuel keys ak w = Returns tt w1 ->
  Load fuel' ak w1 = Returns ak' w2 ->
  exists g' gc' s' sc',
    groups ak' !! Group.Name gc = Some (mkRawGroup g' false)
    /\ expander.groups (store w2) !! g' = Some gc'
    /\ Group.Name gc' = Group.Name gc
    /\ s' ∈ Group.Snippets gc'
    /\ snippets (store w2) !! s' = Some sc'
    /\ Snippet.Abbr sc' = Snippet.Abbr sc
    /\ Snippet.Text sc' = Snippet.Text sc
    /\ Snippet.Name sc' = Snippet.Abbr sc.
Proof.
  intros Hd Hg Hroot HN Hs Hpar Hn Hhid Hk Hrg Hcodec Ht Halone Hdmd Hdsp Hstale
         Hwrite Hload.
  assert (Hdirs : forall g0 gc0 p,
            expander.groups (store w) !! g0 = Some gc0 ->
            Group_Path fuel (store w) gc0 = Ok p ->
            ~ bytes mdPath `prefix_of` bytes (path_Join (dir ak) p)
            /\ ~ bytes sPath `prefix_of` bytes (path_Join (dir ak) p)).
  { intros g0 gc0 p Hg0 Hp. split; [eapply Hdmd|eapply Hdsp]; eauto. }
  destruct (Write_writes fuel ak (store w) s sPath mdPath sc Ht Halone Hdirs
              keys w w1 k g gc eq_refl Hstale Hk Hrg Hg Hs Hwrite)
    as (_ & Hwritten & p & t & Hp & Hdir).
  assert (Hpath : Group_Path fuel (store w) gc = Ok (Group.Name gc)).
  { destruct fuel; cbn; rewrite Hroot; reflexivity. }
  rewrite Hpath in Hp. injection Hp as <-.
  destruct (snippet_at_written _ _ _ _ _ _ _ _ Ht Hwritten Hcodec)
    as (sc0 & Hat & Hname0 & Habbr0 & Htext0).
  assert (HsPath : sPath = path_Join (path_Join (dir ak) (Group.Name gc))
                                     (Snippet.Name sc +:+ ".txt")).
  { apply target_paths_of in Ht as [_ Hpaths]. unfold paths_of in Hpaths.
    unfold Snippet_Path in Hpaths. rewrite Hpar in Hpaths.
    cbn [mbind option_bind] in Hpaths. rewrite Hg in Hpaths.
    cbn [deref mbind result_bind] in Hpaths. rewrite Hpath in Hpaths.
    cbn [mbind result_bind] in Hpaths. cbv zeta in Hpaths.
    destruct (filePattern _) as [[[d0 st0] e0]|]; [|discriminate].
    cbn [mbind option_bind] in Hpaths. injection Hpaths as <- _.
    apply body_path_of_root_snippet; assumption. }
  rewrite HsPath in Hat.
  destruct (Load_finds _ _ _ _ _ _ _ _ _ Hd HN Hn Hhid Hdir Hat Hload)
    as (g' & gc' & s' & Hm & Hgc' & Hname' & Hin & Hcell).
  exists g', gc', s', (with_Snippet_Parent (Some g') sc0).
  repeat (split; [assumption|]). cbn. auto.
Qed.

End round_trip_theorem.

Ltac solve_simple :=
  vm_compute; split; [discriminate|]; split; [|split; discriminate];
  repeat (constructor; [discriminate|]); constructor.

Lemma Write_then_Load_witness :
  exists w1 ak' w2,
    autokey.Write (Json := line_codec) 2 ["Work"] rt_ak rt_world = Returns tt w1
    /\ autokey.Load (Json := line_codec) 3 rt_ak w1 = Returns ak' w2
    /\ exists g' gc' s' sc',
         autokey.groups ak' !! "Work" = Some (autokey.mkRawGroup g' false)
         /\ groups (store w2) !! g' = Some gc'
         /\ Group.Name gc' = "Work"
         /\ s' ∈ Group.Snippets gc'
         /\ snippets (store w2) !! s' = Some sc'
         /\ Snippet.Abbr sc' = "ty"
         /\ Snippet.Text sc' = "Thank you!"
         /\ Snippet.Name sc' = "ty".
Proof.
  eexists _, _, _.
  split; [vm_compute; reflexivity|].
  split; [vm_compute; reflexivity|].
  eapply (Write_then_Load_finds_snippet (Json := line_codec) 2 3 ["Work"] rt_ak rt_world
            _ _ _ "Work" 0 (Group.mk "Work" [0; 1] [] None)
            0 (Snippet.mk "u1" "ty" "Thank you!" (Some 0) 10%Z)
            "/home/u/.config/autokey/data/Work/u1.txt"
            "/home/u/.config/autokey/data/Work/.u1.json").
  - exists true, [bytes "home"; bytes "u"; bytes ".config"; bytes "autokey"; bytes "data"].
    split; [discriminate|]. split; [|reflexivity].
    repeat (constructor; [solve_simple|]). constructor.
  - reflexivity.
  - reflexivity.
  - solve_simple.
  - apply list_elem_of_here.
  - reflexivity.
  - solve_simple.
  - reflexivity.
  - apply list_elem_of_here.
  - vm_compute. reflexivity.
  - eexists. split; [vm_compute; reflexivity|]. split; reflexivity.
  - vm_compute. reflexivity.
  - intros s' p m c Ht Hor. destruct s' as [|[|s']].
    + vm_compute in Ht. injection Ht as _ _ <-. reflexivity.
    + vm_compute in Ht. injection Ht as <- <- _. destruct Hor as [H|H]; discriminate H.
    + unfold target in Ht. cbn in Ht. discriminate Ht.
  - intros g gc p Hg Hp. destruct g as [|g]; [|cbn in Hg; discriminate Hg].
    injection Hg as <-. vm_compute in Hp. injection Hp as <-.
    apply (bool_decide_unpack _). vm_compute. exact I.
  - intros g gc p Hg Hp. destruct g as [|g]; [|cbn in Hg; discriminate Hg].
    injection Hg as <-. vm_compute in Hp. injection Hp as <-.
    apply (bool_decide_unpack _). vm_compute. exact I.
  - intros (sp & mp & c & nd & _ & Hnd & _). cbn in Hnd. rewrite lookup_empty in Hnd.
    discriminate Hnd.
  - vm_compute. reflexivity.
  - vm_compute. reflexivity.
Defined.

(** * Further properties *)

(** ** The registry *)

(** X1. A name is registered once: after [Register] returns no error, [New]
    finds the constructor under the name, another [Register] of the name
    fails and says so, and [New] finds under every other name what it found
    before. *)
Theorem Register_then_New {F : Type} (name : string) (fn : F) r r' :
  Register name fn r = inr r' ->
  r !! name = None
  /\ New name r' = inr fn
  /\ (forall fn', Register name fn' r' = inl (AlreadyRegistered name))
  /\ (forall other, other <> name -> New other r' = New other r).
Proof.
  unfold Register, New. destruct (r !! name) eqn:Hr; [discriminate|].
  intros [= <-]. split; [reflexivity|]. rewrite lookup_insert_eq.
  split; [reflexivity|]. split; [reflexivity|].
  intros other Hne. rewrite lookup_insert_ne by congruence. reflexivity.
Qed.

Lemma Register_then_New_witness :
  New (NewExpander := nat) "AutoKey" (<["AutoKey" := 1]> ∅) = inr 1
  /\ Register "AutoKey" 2 (<["AutoKey" := 1]> (∅ : gmap string nat))
     = inl (AlreadyRegistered "AutoKey").
Proof.
  assert (H : Register "AutoKey" 1 (∅ : gmap string nat) = inr (<["AutoKey" := 1]> ∅))
    by (unfold Register; rewrite lookup_empty; reflexivity).
  destruct (Register_then_New (F := nat) "AutoKey" 1 ∅ (<["AutoKey" := 1]> ∅) H)
    as (_ & Hnew & Hagain & _).
  split; [exact Hnew|apply Hagain].
Defined.

(** ** What [Merge] writes *)

Lemma lists_only_refl h : lists_only h h.
Proof. constructor; [reflexivity|reflexivity|]. intros a gc Ha. exists gc. auto. Qed.

Lemma lists_only_trans h1 h2 h3 : lists_only h1 h2 -> lists_only h2 h3 -> lists_only h1 h3.
Proof.
  intros [Hs1 Hl1 Hc1] [Hs2 Hl2 Hc2]. constructor; [congruence|congruence|].
  intros a gc Ha. destruct (Hc1 a gc Ha) as (gc1 & Ha1 & Hn1 & Hp1 & Hg1 & Hsn1).
  destruct (Hc2 a gc1 Ha1) as (gc2 & Ha2 & Hn2 & Hp2 & Hg2 & Hsn2).
  exists gc2. split; [exact Ha2|]. split; [congruence|]. split; [congruence|].
  split; lia.
Qed.

(** An assignment to the lists of one group. *)
Lemma lists_only_set_group h g gc gc' :
  groups h !! g = Some gc ->
  Group.Name gc' = Group.Name gc ->
  Group.Parent gc' = Group.Parent gc ->
  length (Group.Groups gc) <= length (Group.Groups gc') ->
  length (Group.Snippets gc) <= length (Group.Snippets gc') ->
  lists_only h (set_group h g gc').
Proof.
  intros Hg Hn Hp Hgr Hsn. constructor; cbn [set_group snippets groups].
  - reflexivity.
  - apply length_insert.
  - intros a ac Ha. destruct (decide (a = g)) as [->|Hne].
    + pose proof (lookup_agree _ _ _ _ Ha Hg) as ->. exists gc'.
      split; [apply list_lookup_insert_eq; eapply lookup_lt_Some; eauto|auto].
    + exists ac. rewrite list_lookup_insert_ne by congruence. auto.
Qed.

Lemma merge_snippet_lists_only g h s h' :
  merge_snippet g h s = Ok h' -> lists_only h h'.
Proof.
  unfold merge_snippet. intros H. apply bind_Ok in H as (gc & Hgc & H).
  unfold deref in Hgc. destruct (groups h !! g) as [gc0|] eqn:Hg; [|discriminate].
  injection Hgc as ->. apply bind_Ok in H as (found & Hfound & H).
  destruct found as [j|]; injection H as <-.
  - apply (lists_only_set_group h g gc); cbn; auto.
    rewrite length_insert. reflexivity.
  - apply (lists_only_set_group h g gc); cbn; auto.
    rewrite length_app. lia.
Qed.

Lemma mergeSnippets_lists_only incoming : forall h g h',
  Group_mergeSnippets h g incoming = Ok h' -> lists_only h h'.
Proof.
  induction incoming as [|s rest IH]; cbn [Group_mergeSnippets]; intros h g h' H.
  - injection H as <-. apply lists_only_refl.
  - apply bind_Ok in H as (h1 & H1 & H).
    eapply lists_only_trans; [eapply merge_snippet_lists_only; eauto|eauto].
Qed.

Section MergeAll_lists_only.

Variable Merge : heap -> loc -> loc -> result heap.
Hypothesis Merge_lists_only : forall h l r h', Merge h l r = Ok h' -> lists_only h h'.

Lemma merge_group_lists_only g h r h' :
  merge_group Merge g h r = Ok h' -> lists_only h h'.
Proof.
  unfold merge_group. intros H. apply bind_Ok in H as (gc & Hgc & H).
  unfold deref in Hgc. destruct (groups h !! g) as [gc0|] eqn:Hg; [|discriminate].
  injection Hgc as ->. apply bind_Ok in H as (found & _ & H).
  destruct found as [lft|].
  - eapply Merge_lists_only; eauto.
  - injection H as <-. apply (lists_only_set_group h g gc); cbn; auto.
    rewrite length_app. lia.
Qed.

Lemma MergeAll_loop_lists_only rights : forall h g h',
  MergeAll_loop Merge h g rights = Ok h' -> lists_only h h'.
Proof.
  induction rights as [|r rest IH]; cbn [MergeAll_loop]; intros h g h' H.
  - injection H as <-. apply lists_only_refl.
  - apply bind_Ok in H as (h1 & H1 & H).
    eapply lists_only_trans; [eapply merge_group_lists_only; eauto|eauto].
Qed.

End MergeAll_lists_only.

(** X2. [Merge] and [MergeAll] assign to the [Groups] and [Snippets] of
    groups and to nothing else: no snippet is written (so no snippet gets a
    parent), no group is renamed or gets a parent, no cell is allocated,
    and no list of a group gets shorter. *)
Theorem Merge_writes_lists_only fuel h g other rights h' :
  Group_Merge fuel h g other = Ok h' \/ Group_MergeAll fuel h g rights = Ok h' ->
  lists_only h h'.
Proof.
  assert (HM : forall n h0 l r h0', Group_Merge n h0 l r = Ok h0' -> lists_only h0 h0').
  { induction n as [|n IH]; intros h0 l r h0'; cbn [Group_Merge]; [discriminate|].
    intros H. apply bind_Ok in H as (oc & _ & H). apply bind_Ok in H as (h1 & H1 & H).
    apply bind_Ok in H as (oc' & _ & H).
    eapply lists_only_trans.
    - eapply MergeAll_loop_lists_only; [|exact H1]. exact IH.
    - eapply mergeSnippets_lists_only. exact H. }
  intros [H|H].
  - eapply HM. exact H.
  - unfold Group_MergeAll in H. eapply MergeAll_loop_lists_only; [|exact H].
    intros h0 l r h0'. apply HM.
Qed.

Lemma Merge_writes_lists_only_witness :
  exists h', Group_Merge 2 ex_store 0 1 = Ok h' /\ lists_only ex_store h'.
Proof.
  eexists. split; [vm_compute; reflexivity|].
  apply (Merge_writes_lists_only 2 ex_store 0 1 []). left. vm_compute. reflexivity.
Defined.

(** ** Snippets of one name *)

Section last_wins.

Context {A : Type}.
Variable name : A -> string.

Lemma named_app l1 l2 n :
  named name (l1 ++ l2) n
  = match named name l1 n with
    | Some x => Some x
    | None => named name l2 n
    end.
Proof.
  induction l1 as [|x l1 IH]; cbn [app named]; [reflexivity|].
  destruct (String.eqb (name x) n); [reflexivity|exact IH].
Qed.

Lemma named_place_take r l n :
  named name (place name (fun r _ => r) r l) n
  = if String.eqb (name r) n then Some r else named name l n.
Proof.
  destruct (String.eqb_spec (name r) n) as [<-|Hne].
  - rewrite named_place_self by (intros ? ? H; symmetry; exact H).
    destruct (named name l (name r)); reflexivity.
  - apply named_place_other; [|exact Hne]. intros ? ? H. symmetry. exact H.
Qed.

(** After the incoming items are placed, the first item of a name is the
    last incoming item of that name, or the item that was the first when
    none comes in. *)
Lemma named_place_all_last rs : forall l n,
  named name (place_all name (fun r _ => r) l rs) n
  = match last_named name rs n with
    | Some r => Some r
    | None => named name l n
    end.
Proof.
  unfold last_named, place_all.
  induction rs as [|r rs IH]; intros l n; cbn [foldl rev]; [reflexivity|].
  rewrite IH, named_app, named_place_take. cbn [named].
  destruct (named name (rev rs) n); [reflexivity|].
  destruct (String.eqb (name r) n); reflexivity.
Qed.

Lemma place_NoDup r l :
  NoDup (map name l) -> NoDup (map name (place name (fun r _ => r) r l)).
Proof.
  intros Hnd. rewrite place_names by (intros ? ? H; symmetry; exact H).
  destruct (decide (name r ∈ map name l)) as [Hin|Hnin]; [exact Hnd|].
  apply NoDup_app. split; [exact Hnd|]. split.
  - intros x Hx Hx'. apply list_elem_of_singleton in Hx' as ->. contradiction.
  - apply NoDup_singleton.
Qed.

Lemma place_all_NoDup rs : forall l,
  NoDup (map name l) -> NoDup (map name (place_all name (fun r _ => r) l rs)).
Proof.
  unfold place_all. induction rs as [|r rs IH]; intros l Hnd; cbn [foldl]; [exact Hnd|].
  apply IH. apply place_NoDup. exact Hnd.
Qed.

End last_wins.

(** X3. [mergeSnippets], where no pointer is nil, returns; of every name
    the target then holds as its first snippet the last incoming snippet
    of that name, or the one it held when none comes in; and snippet names
    that were pairwise distinct in the target still are, whatever names
    the incoming list repeats. *)
Theorem mergeSnippets_last_wins h g gc incoming :
  groups h !! g = Some gc ->
  valid_snippets (snippets h) incoming ->
  valid_snippets (snippets h) (Group.Snippets gc) ->
  exists l',
    Group_mergeSnippets h g incoming = Ok (set_group h g (set_Snippets gc l'))
    /\ (forall n,
          named (sname (snippets h)) l' n
          = match last_named (sname (snippets h)) incoming n with
            | Some s => Some s
            | None => named (sname (snippets h)) (Group.Snippets gc) n
            end)
    /\ (NoDup (map (sname (snippets h)) (Group.Snippets gc)) ->
        NoDup (map (sname (snippets h)) l')).
Proof.
  intros Hg Hi Hl. exists (upsert (snippets h) (Group.Snippets gc) incoming).
  split; [apply mergeSnippets_upsert; assumption|].
  rewrite upsert_place_all. split.
  - intros n. apply named_place_all_last.
  - apply place_all_NoDup.
Qed.

Lemma mergeSnippets_last_wins_witness :
  exists l',
    Group_mergeSnippets ex_store 0 [1; 2]
    = Ok (set_group ex_store 0 (set_Snippets (Group.mk "Imported" [0] [2] None) l'))
    /\ (forall n,
          named (sname (snippets ex_store)) l' n
          = match last_named (sname (snippets ex_store)) [1; 2] n with
            | Some s => Some s
            | None => named (sname (snippets ex_store)) [0] n
            end)
    /\ (NoDup (map (sname (snippets ex_store)) [0]) ->
        NoDup (map (sname (snippets ex_store)) l')).
Proof.
  apply (mergeSnippets_last_wins ex_store 0 (Group.mk "Imported" [0] [2] None) [1; 2]).
  - reflexivity.
  - repeat constructor; eexists; reflexivity.
  - repeat constructor; eexists; reflexivity.
Defined.

(** ** [SetGroup] and [Group] of the structured-document backend *)

Section textexpander_groups.

Import textexpander.

Lemma upsert_group_find h g gc : forall l l',
  expander.groups h !! g = Some gc ->
  upsert_group h g l = Ok l' ->
  find_named h (Group.Name gc) l' = Ok (Some g).
Proof.
  induction l as [|x l IH]; intros l' Hg; cbn [upsert_group].
  - intros [= <-]. cbn [find_named]. rewrite Hg. cbn. rewrite String.eqb_refl. reflexivity.
  - rewrite Hg. cbn [deref mbind result_bind].
    destruct (expander.groups h !! x) as [xc|] eqn:Hx; [|discriminate].
    cbn [deref mbind result_bind].
    destruct (String.eqb_spec (Group.Name gc) (Group.Name xc)) as [Heq|Hne].
    + intros [= <-]. cbn [find_named]. rewrite Hg. cbn. rewrite String.eqb_refl. reflexivity.
    + intros H. apply bind_Ok in H as (rest' & Hrest & [= <-]).
      cbn [find_named]. rewrite Hx. cbn [deref mbind result_bind].
      destruct (String.eqb_spec (Group.Name gc) (Group.Name xc)); [contradiction|].
      apply IH; assumption.
Qed.

Lemma upsert_group_other h g gc name : forall l l',
  expander.groups h !! g = Some gc ->
  name <> Group.Name gc ->
  upsert_group h g l = Ok l' ->
  find_named h name l' = find_named h name l.
Proof.
  induction l as [|x l IH]; intros l' Hg Hne; cbn [upsert_group].
  - intros [= <-]. cbn [find_named]. rewrite Hg. cbn.
    destruct (String.eqb_spec name (Group.Name gc)); [contradiction|reflexivity].
  - rewrite Hg. cbn [deref mbind result_bind].
    destruct (expander.groups h !! x) as [xc|] eqn:Hx; [|discriminate].
    cbn [deref mbind result_bind].
    destruct (String.eqb_spec (Group.Name gc) (Group.Name xc)) as [Heq|Hne'].
    + intros [= <-]. cbn [find_named]. rewrite Hg, Hx. cbn.
      destruct (String.eqb_spec name (Group.Name gc)); [contradiction|].
      destruct (String.eqb_spec name (Group.Name xc)); [congruence|reflexivity].
    + intros H. apply bind_Ok in H as (rest' & Hrest & [= <-]).
      cbn [find_named]. rewrite Hx. cbn [deref mbind result_bind].
      rewrite (IH _ Hg Hne Hrest). reflexivity.
Qed.

Lemma upsert_group_Ok h g : forall l,
  Forall (fun a => is_Some (expander.groups h !! a)) (g :: l) ->
  exists l', upsert_group h g l = Ok l'
             /\ Forall (fun a => is_Some (expander.groups h !! a)) l'
             /\ (length l' = length l \/ l' = l ++ [g]).
Proof.
  intros l Hall. apply Forall_cons in Hall as [Hg Hl].
  induction l as [|x l IH]; cbn [upsert_group].
  - exists [g]. split; [reflexivity|]. split; [repeat constructor; exact Hg|right; reflexivity].
  - apply Forall_cons in Hl as [Hx Hl]. destruct Hg as [gc Hg'] eqn:E; clear E.
    destruct Hx as [xc Hx]. rewrite Hg', Hx. cbn [deref mbind result_bind].
    destruct (String.eqb (Group.Name gc) (Group.Name xc)).
    + exists (g :: l). split; [reflexivity|]. split; [|left; reflexivity].
      constructor; [eexists; exact Hg'|exact Hl].
    + destruct (IH Hl) as (l' & -> & Hall' & Hlen). exists (x :: l').
      split; [reflexivity|]. split; [constructor; [eexists; exact Hx|exact Hall']|].
      destruct Hlen as [Hlen| ->]; [left; cbn; congruence|right; reflexivity].
Qed.

(** X4. In the structured-document backend, where every listed group and
    the new one are there, [SetGroup] returns and changes the list only:
    [Group] then finds the new group under its name, finds under every
    other name what it found before, and the list is as long as before or
    one longer, the new group being its last. *)
Theorem SetGroup_then_Group h te g gc :
  expander.groups h !! g = Some gc ->
  Forall (fun a => is_Some (expander.groups h !! a)) (groups te) ->
  exists l',
    SetGroup g (h, te) = Returns tt (h, mkTE (file te) (data te) l')
    /\ Group_of h (mkTE (file te) (data te) l') (Group.Name gc) = Ok (Some g)
    /\ (forall name, name <> Group.Name gc ->
          Group_of h (mkTE (file te) (data te) l') name = Group_of h te name)
    /\ (length l' = length (groups te) \/ l' = groups te ++ [g]).
Proof.
  intros Hg Hall.
  destruct (upsert_group_Ok h g (groups te)) as (l' & Hl' & _ & Hlen).
  { constructor; [eexists; exact Hg|exact Hall]. }
  exists l'. unfold SetGroup. rewrite Hl'. split; [reflexivity|].
  unfold Group_of. cbn [groups]. split; [eapply upsert_group_find; eassumption|].
  split; [|exact Hlen]. intros name Hne. eapply upsert_group_other; eassumption.
Qed.

Lemma SetGroup_then_Group_witness :
  exists l',
    SetGroup 3 (ex_store, mkTE "Settings.textexpander" None [2; 4])
    = Returns tt (ex_store, mkTE "Settings.textexpander" None l')
    /\ Group_of ex_store (mkTE "Settings.textexpander" None l') "Work" = Ok (Some 3)
    /\ (forall name, name <> "Work" ->
          Group_of ex_store (mkTE "Settings.textexpander" None l') name
          = Group_of ex_store (mkTE "Settings.textexpander" None [2; 4]) name)
    /\ (length l' = 2 \/ l' = [2; 4] ++ [3]).
Proof.
  apply (SetGroup_then_Group ex_store (mkTE "Settings.textexpander" None [2; 4]) 3
           (Group.mk "Work" [4] [] (Some 1))).
  - reflexivity.
  - repeat constructor; eexists; reflexivity.
Defined.

End textexpander_groups.

(** ** The table of the directory backend *)

Section autokey_table.

Import autokey.
Context {Json : JsonCodec}.

Lemma find_named_by_key h m name :
  (forall k rg, m !! k = Some rg ->
     exists gc, expander.groups h !! group rg = Some gc /\ Group.Name gc = k) ->
  forall keys,
    find_named h name (range_map keys m)
    = Ok (if decide (name ∈ keys) then group <$> m !! name else None).
Proof.
  intros Hkeyed. unfold range_map.
  induction keys as [|k keys IH]; [reflexivity|].
  cbn [omap list_omap]. destruct (m !! k) as [rg|] eqn:Hk.
  - destruct (Hkeyed k rg Hk) as (gc & Hgc & Hname).
    cbn [find_named]. rewrite Hgc. cbn [deref mbind result_bind]. rewrite Hname.
    destruct (String.eqb_spec name k) as [->|Hne].
    + rewrite decide_True by apply list_elem_of_here. rewrite Hk. reflexivity.
    + rewrite IH. destruct (decide (name ∈ keys)) as [Hin|Hnin].
      * rewrite decide_True by (apply elem_of_cons; auto). reflexivity.
      * rewrite decide_False; [reflexivity|].
        intros [?|?]%elem_of_cons; contradiction.
  - rewrite IH. destruct (decide (name = k)) as [->|Hne].
    + rewrite Hk. destruct (decide (k ∈ keys)), (decide (k ∈ k :: keys)); reflexivity.
    + destruct (decide (name ∈ keys)) as [Hin|Hnin].
      * rewrite decide_True by (apply elem_of_cons; auto). reflexivity.
      * rewrite decide_False; [reflexivity|].
        intros [?|?]%elem_of_cons; contradiction.
Qed.

(** X5. Where every entry of the table stands under the name of its group,
    [Group] returns the group of the entry under the name asked for, and
    nil where there is none, in whatever order the table is gone
    through. *)
Theorem Group_finds_by_key h ak keys name :
  keyed h ak ->
  iteration_of (groups ak) keys ->
  Group_of keys h ak name = Ok (group <$> groups ak !! name).
Proof.
  intros Hkeyed [_ Hkeys]. unfold Group_of.
  rewrite (find_named_by_key h (groups ak) name Hkeyed keys).
  destruct (decide (name ∈ keys)) as [Hin|Hnin]; [reflexivity|].
  destruct (groups ak !! name) as [rg|] eqn:Hrg; [|reflexivity].
  exfalso. apply Hnin, Hkeys. eauto.
Qed.

Lemma keyed_SetGroup h ak g gc :
  keyed h ak -> expander.groups h !! g = Some gc ->
  keyed h (mkAK (dir ak) (<[Group.Name gc := mkRawGroup g true]> (groups ak))).
Proof.
  intros Hkeyed Hg k rg. cbn [groups].
  destruct (decide (Group.Name gc = k)) as [<-|Hne].
  - rewrite lookup_insert_eq. intros [= <-]. exists gc. auto.
  - rewrite lookup_insert_ne by exact Hne. apply Hkeyed.
Qed.

(** X6. In the directory backend, [SetGroup] with a group that is there
    returns and keeps every entry under the name of its group; [Group]
    then returns the new group under its name and, under any other name,
    the group that the table held there before. *)
Theorem SetGroup_then_Group_by_name h ak g gc :
  keyed h ak ->
  expander.groups h !! g = Some gc ->
  exists ak',
    SetGroup h ak g = Ok ak'
    /\ keyed h ak'
    /\ forall keys, iteration_of (groups ak') keys ->
         Group_of keys h ak' (Group.Name gc) = Ok (Some g)
         /\ forall name, name <> Group.Name gc ->
              Group_of keys h ak' name = Ok (group <$> groups ak !! name).
Proof.
  intros Hkeyed Hg. eexists. unfold SetGroup. rewrite Hg. cbn [deref mbind result_bind].
  split; [reflexivity|].
  pose proof (keyed_SetGroup h ak g gc Hkeyed Hg) as Hkeyed'.
  split; [exact Hkeyed'|]. intros keys [_ Hkeys].
  assert (Hfind : forall name,
            Group_of keys h
              (mkAK (dir ak) (<[Group.Name gc := mkRawGroup g true]> (groups ak))) name
            = Ok (group <$> <[Group.Name gc := mkRawGroup g true]> (groups ak) !! name)).
  { intros name. unfold Group_of.
    etransitivity; [apply (find_named_by_key h _ name Hkeyed' keys)|]. cbn [groups].
    destruct (decide (name ∈ keys)) as [Hin|Hnin]; [reflexivity|].
    destruct (_ !! name) as [rg|] eqn:Hrg; [|reflexivity].
    exfalso. apply Hnin, Hkeys. cbn [groups]. eauto. }
  split.
  - rewrite Hfind, lookup_insert_eq. reflexivity.
  - intros name Hne. rewrite Hfind, lookup_insert_ne by congruence. reflexivity.
Qed.

(** X7. [Load] keeps every entry of the table under the name of its
    group: the entries it adds stand under the names of the groups it
    read, and the groups of the entries it keeps are as they were. *)
Theorem Load_keeps_keyed fuel ak w ak' w' :
  keyed (store w) ak ->
  Load fuel ak w = Returns ak' w' ->
  keyed (store w') ak'.
Proof.
  intros Hkeyed H. unfold Load in H.
  apply bind_Returns in H as (root & u1 & Hload & H).
  apply bind_Returns in H as (u1' & u1'' & Hget & H). injection Hget as <- <-.
  apply bind_Returns in H as (rc & u1' & Hrc & H).
  unfold lift, deref in Hrc.
  destruct (expander.groups (store u1) !! root) as [rc'|] eqn:Hroot; [|discriminate].
  injection Hrc as <- <-.
  apply bind_Returns in H as (m & u2 & Hinst & H). injection H as <- <-.
  apply load_apart in Hload as [_ Hap].
  apply install_table in Hinst as [Hsame Htable].
  intros k rg. cbn [groups]. intros Hk.
  destruct (Htable k) as [[Hold _]|(c & gc & _ & Hcell & Hname & Hnew)].
  - rewrite Hold in Hk. destruct (Hkeyed k rg Hk) as (gc & Hgc & Hname).
    assert (Hgc1 : expander.groups (store u1) !! group rg = Some gc).
    { apply (only_groups _ _ _ (Hap (S (group rg)))); [lia|exact Hgc]. }
    destruct (same_groups _ _ Hsame _ _ Hgc1) as (gc' & Hgc' & Hn' & _).
    exists gc'. split; [exact Hgc'|congruence].
  - rewrite Hnew in Hk. injection Hk as <-. exists gc. auto.
Qed.

End autokey_table.

Lemma rt_keyed : keyed rt_store rt_ak.
Proof.
  intros k rg H. unfold rt_ak in H. cbn [autokey.groups] in H.
  apply lookup_singleton_Some in H as [<- <-].
  eexists. split; reflexivity.
Defined.

Lemma rt_iteration rg : autokey.iteration_of {["Work" := rg]} ["Work"].
Proof.
  split; [repeat constructor; apply not_elem_of_nil|].
  intros k. split.
  - intros ->%list_elem_of_singleton. rewrite lookup_singleton_eq. eauto.
  - intros [x [<- _]%lookup_singleton_Some]. apply list_elem_of_here.
Defined.

Lemma Group_finds_by_key_witness :
  autokey.Group_of ["Work"] rt_store rt_ak "Work"
  = Ok (autokey.group <$> autokey.groups rt_ak !! "Work").
Proof.
  apply (Group_finds_by_key rt_store rt_ak ["Work"] "Work" rt_keyed).
  apply rt_iteration.
Defined.

Lemma SetGroup_then_Group_by_name_witness :
  exists ak',
    autokey.SetGroup rt_store rt_ak 0 = Ok ak'
    /\ keyed rt_store ak'
    /\ forall keys, autokey.iteration_of (autokey.groups ak') keys ->
         autokey.Group_of keys rt_store ak' "Work" = Ok (Some 0)
         /\ forall name, name <> "Work" ->
              autokey.Group_of keys rt_store ak' name
              = Ok (autokey.group <$> autokey.groups rt_ak !! name).
Proof.
  apply (SetGroup_then_Group_by_name rt_store rt_ak 0 (Group.mk "Work" [0; 1] [] None)
           rt_keyed).
  reflexivity.
Defined.

Lemma Load_keeps_keyed_witness :
  exists ak' w',
    autokey.Load (Json := line_codec) 3 rt_ak rt_world_earlier = Returns ak' w'
    /\ keyed (store w') ak'.
Proof.
  eexists _, _. split; [vm_compute; reflexivity|].
  apply (Load_keeps_keyed (Json := line_codec) 3 rt_ak rt_world_earlier).
  - exact rt_keyed.
  - vm_compute. reflexivity.
Defined.

(** ** The file names that [metadataPath] takes *)

Lemma tail_splits_sound : forall r pre s e,
  tail_splits pre r = Some (s, e) ->
  pre ++ r = s ++ dot :: e /\ s <> [] /\ e <> [].
Proof.
  induction r as [|c r IH]; intros pre s e; cbn [tail_splits]; [discriminate|].
  destruct (tail_splits (pre ++ [c]) r) as [[s' e']|] eqn:Hrec.
  - intros [= -> ->]. apply IH in Hrec as (Heq & Hs & He).
    rewrite <- app_assoc in Heq. auto.
  - destruct (Ascii.eqb_spec c dot) as [->|]; [|discriminate].
    destruct pre as [|p pre]; [discriminate|]. destruct r as [|x r']; [discriminate|].
    intros [= <- <-]. split; [reflexivity|]. split; discriminate.
Qed.

Lemma tail_splits_complete : forall r pre a b,
  pre ++ r = a ++ dot :: b -> a <> [] -> b <> [] -> length pre <= length a ->
  is_Some (tail_splits pre r).
Proof.
  induction r as [|c r IH]; intros pre a b Heq Ha Hb Hlen.
  - rewrite app_nil_r in Heq. subst pre. rewrite length_app in Hlen. cbn in Hlen. lia.
  - cbn [tail_splits].
    destruct (tail_splits (pre ++ [c]) r) as [x|] eqn:Hrec; [eauto|].
    destruct (decide (length pre = length a)) as [Hl|Hl].
    + apply app_inj_1 in Heq as [-> [= -> ->]]; [|exact Hl].
      rewrite Ascii.eqb_refl. destruct a; [contradiction|]. destruct b; [contradiction|].
      cbn. eauto.
    + exfalso. assert (Hsome : is_Some (tail_splits (pre ++ [c]) r)).
      { apply (IH _ a b); [rewrite <- app_assoc; exact Heq|exact Ha|exact Hb|].
        rewrite length_app. cbn. lia. }
      rewrite Hrec in Hsome. destruct Hsome as [? [=]].
Qed.

Lemma tail_splits_no_dot : forall e pre, dot ∉ e -> tail_splits pre e = None.
Proof.
  induction e as [|c e IH]; intros pre Hd; [reflexivity|]. cbn [tail_splits].
  rewrite IH by (intros H; apply Hd; apply elem_of_cons; auto).
  destruct (Ascii.eqb_spec c dot) as [->|]; [|reflexivity].
  exfalso. apply Hd, list_elem_of_here.
Qed.

Lemma tail_splits_exact e : forall r pre,
  pre ++ r <> [] -> e <> [] -> dot ∉ e ->
  tail_splits pre (r ++ dot :: e) = Some (pre ++ r, e).
Proof.
  induction r as [|c r IH]; intros pre Hne He Hd.
  - rewrite app_nil_r in *. cbn [app tail_splits].
    rewrite tail_splits_no_dot by exact Hd. rewrite Ascii.eqb_refl.
    destruct pre; [contradiction|]. destruct e; [contradiction|]. reflexivity.
  - cbn [app tail_splits]. rewrite IH; [|rewrite <- app_assoc; exact Hne|exact He|exact Hd].
    rewrite <- app_assoc. reflexivity.
Qed.

Lemma dir_splits_sound : forall r pre d s e,
  dir_splits pre r = Some (d, s, e) ->
  pre ++ r = d ++ s ++ dot :: e /\ s <> [] /\ e <> []
  /\ exists d0, d0 <> [] /\ d = d0 ++ [slash].
Proof.
  induction r as [|c r IH]; intros pre d s e; cbn [dir_splits]; [discriminate|].
  destruct (dir_splits (pre ++ [c]) r) as [[[d' s'] e']|] eqn:Hrec.
  - intros [= -> -> ->]. apply IH in Hrec as (Heq & Hs & He & Hd).
    rewrite <- app_assoc in Heq. auto.
  - destruct (Ascii.eqb_spec c slash) as [->|]; [|discriminate].
    destruct pre as [|p pre]; [discriminate|]. cbn [nonempty andb].
    destruct (tail_splits [] r) as [[s' e']|] eqn:Ht; [|discriminate].
    intros [= <- <- <-]. apply tail_splits_sound in Ht as (Heq & Hs & He).
    cbn [app] in Heq. split; [rewrite Heq; cbn [app]; rewrite <- app_assoc; reflexivity|].
    split; [exact Hs|]. split; [exact He|]. exists (p :: pre). split; [discriminate|reflexivity].
Qed.

Lemma dir_splits_no_slash : forall t pre, slash ∉ t -> dir_splits pre t = None.
Proof.
  induction t as [|c t IH]; intros pre Hs; [reflexivity|]. cbn [dir_splits].
  rewrite IH by (intros H; apply Hs; apply elem_of_cons; auto).
  destruct (Ascii.eqb_spec c slash) as [->|]; [|reflexivity].
  exfalso. apply Hs, list_elem_of_here.
Qed.

Lemma dir_splits_exact n e : forall r pre,
  pre ++ r <> [] -> slash ∉ n ++ dot :: e ->
  tail_splits [] (n ++ dot :: e) = Some (n, e) ->
  dir_splits pre (r ++ slash :: n ++ dot :: e) = Some (pre ++ r ++ [slash], n, e).
Proof.
  induction r as [|c r IH]; intros pre Hne Hs Ht.
  - rewrite app_nil_r in Hne. cbn [app dir_splits].
    rewrite dir_splits_no_slash by exact Hs. rewrite Ascii.eqb_refl.
    destruct pre; [contradiction|]. cbn [nonempty andb]. rewrite Ht. reflexivity.
  - cbn [app dir_splits]. rewrite IH; [|rewrite <- app_assoc; exact Hne|exact Hs|exact Ht].
    rewrite <- app_assoc. reflexivity.
Qed.

Lemma existsb_newline l : existsb (Ascii.eqb newline) l = false <-> newline ∉ l.
Proof.
  induction l as [|c l IH]; cbn [existsb].
  - split; [intros _; apply not_elem_of_nil|reflexivity].
  - rewrite orb_false_iff, IH, not_elem_of_cons.
    destruct (Ascii.eqb_spec newline c); split; intros [? ?]; split; congruence.
Qed.

Lemma filePattern_is_Some l :
  is_Some (filePattern l)
  <-> (newline ∉ l) /\ exists a b, l = a ++ dot :: b /\ a <> [] /\ b <> [].
Proof.
  unfold filePattern. split.
  - destruct (existsb (Ascii.eqb newline) l) eqn:Hnl; [intros [? [=]]|].
    apply existsb_newline in Hnl. intros H. split; [exact Hnl|].
    destruct (dir_splits [] l) as [[[d s] e]|] eqn:Hd.
    + apply dir_splits_sound in Hd as (Heq & Hs & He & _). cbn [app] in Heq.
      exists (d ++ s), e. rewrite <- app_assoc. split; [exact Heq|].
      split; [|exact He]. destruct d; [exact Hs|discriminate].
    + destruct (tail_splits [] l) as [[s e]|] eqn:Ht; [|destruct H as [? [=]]].
      apply tail_splits_sound in Ht as (Heq & Hs & He). eauto.
  - intros [Hnl (a & b & Heq & Ha & Hb)]. apply existsb_newline in Hnl. rewrite Hnl.
    destruct (dir_splits [] l) as [x|]; [eauto|].
    destruct (tail_splits_complete l [] a b Heq Ha Hb) as [[s e] ->]; [cbn; lia|eauto].
Qed.

Lemma filePattern_exact D n e :
  newline ∉ D ++ slash :: n ++ dot :: e ->
  D <> [] -> n <> [] -> e <> [] -> slash ∉ n -> slash ∉ e -> dot ∉ e ->
  filePattern (D ++ slash :: n ++ dot :: e) = Some (D ++ [slash], n, e).
Proof.
  intros Hnl HD Hn He Hsn Hse Hde. unfold filePattern.
  apply existsb_newline in Hnl. rewrite Hnl.
  rewrite (dir_splits_exact n e D []); [reflexivity|exact HD| |].
  - intros [H|[H|H]%elem_of_cons]%elem_of_app; [contradiction|discriminate|contradiction].
  - apply (tail_splits_exact e n []); assumption.
Qed.

(** X8. The metadata of the file [n.e] in the directory [D] is looked for
    in the hidden file [.n.json] of that directory, where [n] and [e] hold
    no slash and [e] holds no dot. *)
Theorem metadataPath_is_hidden_sibling D n e w :
  D <> "" -> n <> "" -> e <> "" ->
  newline ∉ bytes D -> newline ∉ bytes n -> newline ∉ bytes e ->
  slash ∉ bytes n -> slash ∉ bytes e -> dot ∉ bytes e ->
  autokey.metadataPath (D +:+ "/" +:+ n +:+ "." +:+ e) w
  = Returns (D +:+ "/." +:+ n +:+ ".json") w.
Proof.
  intros HD Hn He HnlD Hnln Hnle Hsn Hse Hde. unfold autokey.metadataPath.
  rewrite !bytes_append. change (bytes "/") with [slash]. change (bytes ".") with [dot].
  cbn [app]. rewrite filePattern_exact; try assumption.
  - cbn [mret M_ret]. f_equal. rewrite <- (str_bytes (_ +:+ _)).
    rewrite <- (str_bytes (D +:+ _)). f_equal.
    rewrite !bytes_append, !bytes_str, <- !app_assoc. reflexivity.
  - intros [H|[H|[H|[H|H]%elem_of_cons]%elem_of_app]%elem_of_cons]%elem_of_app;
      try contradiction; discriminate.
  - intros H. apply HD. rewrite <- (str_bytes D), H. reflexivity.
  - intros H. apply Hn. rewrite <- (str_bytes n), H. reflexivity.
  - intros H. apply He. rewrite <- (str_bytes e), H. reflexivity.
Qed.

Lemma metadataPath_is_hidden_sibling_witness :
  autokey.metadataPath ("/home/u/data/Work" +:+ "/" +:+ "v1.2" +:+ "." +:+ "txt") rt_world
  = Returns ("/home/u/data/Work" +:+ "/." +:+ "v1.2" +:+ ".json") rt_world.
Proof.
  apply (metadataPath_is_hidden_sibling "/home/u/data/Work" "v1.2" "txt" rt_world);
    try discriminate; apply (bool_decide_unpack _); vm_compute; exact I.
Defined.

(** X9. [metadataPath] returns for the file names that hold no line break
    and hold a dot that is neither their first nor their last character;
    for every other name it fails with the error that names the file. *)
Theorem metadataPath_Returns_iff file w :
  ((exists m, autokey.metadataPath file w = Returns m w)
   <-> (newline ∉ bytes file)
       /\ exists a b, bytes file = a ++ dot :: b /\ a <> [] /\ b <> [])
  /\ ((exists m, autokey.metadataPath file w = Returns m w)
      \/ autokey.metadataPath file w = Fails (ErrInvalidFileName file) w).
Proof.
  unfold autokey.metadataPath. rewrite <- filePattern_is_Some.
  destruct (filePattern (bytes file)) as [[[d s] e]|].
  - split; [split; eauto|left; eauto].
  - split; [|right; reflexivity]. split; [intros [m [=]]|intros [? [=]]].
Qed.

(** ** What [Load] asks of the data directory *)

Section load_needs.

Import autokey.
Context {Json : JsonCodec}.

Lemma load_under f d p :
  under f d p ->
  forall n parent w g w',
    load n d parent w = Returns g w' -> fs w = f ->
    exists n' parent' v g' v',
      load n' p parent' v = Returns g' v' /\ fs v = f.
Proof.
  induction 1 as [|q x t _ IH Hx]; intros n parent w g w' Hload Hf.
  - eauto 10.
  - destruct (IH _ _ _ _ _ Hload Hf) as (n' & parent' & v & g' & v' & Hq & Hfv).
    destruct n' as [|n']; [discriminate|].
    apply load_Returns in Hq as (_ & gc & _ & _ & _ & Hdirs & _).
    rewrite Hfv in Hdirs. destruct (Hdirs x t Hx) as (c & _ & v0 & v0' & Hl & Hf0 & _).
    eauto 10.
Qed.

Lemma snippet_at_Some f file sc :
  snippet_at f file = Some sc ->
  exists d stem ext c t b t' md,
    filePattern (bytes file) = Some (d, stem, ext)
    /\ f !! (str d +:+ "." +:+ str stem +:+ "." +:+ metadataExt) = Some (File c t)
    /\ f !! file = Some (File b t')
    /\ json_decode c = Some md.
Proof.
  unfold snippet_at.
  destruct (filePattern _) as [[[d stem] e]|] eqn:Hpat; [|discriminate].
  cbn [mbind option_bind].
  destruct (f !! (_ +:+ _)) as [sidecar|] eqn:Hmd; [|discriminate].
  cbn [mbind option_bind]. destruct (f !! file) as [body|] eqn:Hbody; [|discriminate].
  cbn [mbind option_bind]. destruct sidecar as [t|c t]; [discriminate|].
  destruct body as [t'|b t']; [discriminate|].
  destruct (json_decode c) as [md|] eqn:Hdec; [|discriminate]. intros _.
  exists d, stem, e, c, t, b, t', md. auto.
Qed.

(** X10. [Load] returns only where every file that it comes to and whose
    name does not start with a dot has a name that [metadataPath] takes
    and a sidecar that is a regular file and decodes: a file of any other
    kind in the data directory, or in a directory listed below it, makes
    [Load] fail. *)
Theorem Load_needs_sidecars fuel ak w ak' w' p x c t :
  Load fuel ak w = Returns ak' w' ->
  under (fs w) (dir ak) p ->
  (x, File c t) ∈ entries (fs w) p ->
  hidden x = false ->
  exists mdPath c' t' md,
    metadataPath (path_Join p x) w = Returns mdPath w
    /\ fs w !! mdPath = Some (File c' t')
    /\ json_decode c' = Some md.
Proof.
  intros H Hp Hx Hh. unfold Load in H.
  apply bind_Returns in H as (root & u1 & Hload & _).
  destruct (load_under _ _ _ Hp _ _ _ _ _ Hload eq_refl)
    as (n' & parent' & v & g' & v' & Hq & Hfv).
  destruct n' as [|n']; [discriminate|].
  apply load_Returns in Hq as (_ & gc & _ & _ & Hfiles & _).
  rewrite Hfv in Hfiles. destruct (Hfiles x c t Hx Hh) as (s & sc & _ & Hat & _).
  apply snippet_at_Some in Hat as (d & stem & ext & c' & t' & b & tb & md & Hpat & Hmd & _ & Hdec).
  exists (str d +:+ "." +:+ str stem +:+ "." +:+ metadataExt), c', t', md.
  split; [|auto]. unfold metadataPath. rewrite Hpat. reflexivity.
Qed.

(** ** The table that [Load] leaves *)

Lemma install_roots gs : forall m u m' u',
  install gs m u = Returns m' u' ->
  (forall a gc, expander.groups (store u) !! a = Some gc -> Group.Parent gc = None ->
     exists gc', expander.groups (store u') !! a = Some gc' /\ Group.Parent gc' = None)
  /\ (forall g, g ∈ gs ->
        exists gc, expander.groups (store u') !! g = Some gc /\ Group.Parent gc = None).
Proof.
  induction gs as [|g gs IH]; intros m u m' u' H.
  - injection H as <- <-. split; [eauto|]. intros g Hg. exfalso.
    eapply not_elem_of_nil; eauto.
  - cbn [install] in H.
    apply bind_Returns in H as ([] & u1 & H1 & H).
    apply bind_Returns in H as (u1' & u1'' & Hget & H). injection Hget as <- <-.
    apply bind_Returns in H as (gc1 & u2 & Hgc1 & H).
    unfold lift, deref in Hgc1.
    destruct (expander.groups (store u1) !! g) as [gc1'|] eqn:Hg1; [|discriminate].
    injection Hgc1 as <- <-.
    apply update_group_Returns in H1 as (gc0 & Hg0 & ->).
    cbn [store set_store set_group expander.groups] in Hg1.
    rewrite list_lookup_insert_eq in Hg1 by (eapply lookup_lt_Some; eauto).
    injection Hg1 as <-.
    destruct (IH _ _ _ _ H) as [Hkeep Hnew].
    assert (Hg' : exists gc, expander.groups (store u') !! g = Some gc
                             /\ Group.Parent gc = None).
    { apply (Hkeep g (with_Group_Parent None gc0)); [|reflexivity]. cbn.
      apply list_lookup_insert_eq. eapply lookup_lt_Some; eauto. }
    split.
    + intros a gc Ha Hroot. destruct (decide (a = g)) as [->|Hne]; [exact Hg'|].
      apply (Hkeep a gc); [|exact Hroot]. cbn.
      rewrite list_lookup_insert_ne by congruence. exact Ha.
    + intros g0 [->|Hin]%elem_of_cons; [exact Hg'|auto].
Qed.

(** X11. After [Load] on a tidy data directory, the table holds under the
    name of every directory listed in the data directory an unmanaged
    group of that name, which has no parent; under every other name it
    holds what it held before. *)
Theorem Load_table_is_subdirectories fuel ak w ak' w' :
  tidy (bytes (dir ak)) ->
  Load fuel ak w = Returns ak' w' ->
  (forall N t, (N, Dir t) ∈ entries (fs w) (dir ak) ->
     exists g gc,
       groups ak' !! N = Some (mkRawGroup g false)
       /\ expander.groups (store w') !! g = Some gc
       /\ Group.Name gc = N
       /\ Group.Parent gc = None)
  /\ (forall k, (forall t, (k, Dir t) ∉ entries (fs w) (dir ak)) ->
        groups ak' !! k = groups ak !! k).
Proof.
  intros Hd H. unfold Load in H.
  apply bind_Returns in H as (root & u1 & Hload & H).
  apply bind_Returns in H as (u1' & u1'' & Hget & H). injection Hget as <- <-.
  apply bind_Returns in H as (rc & u1' & Hrc & H).
  unfold lift, deref in Hrc.
  destruct (expander.groups (store u1) !! root) as [rc'|] eqn:Hroot; [|discriminate].
  injection Hrc as <- <-.
  apply bind_Returns in H as (m & u2 & Hinst & H). injection H as <- <-.
  cbn [groups].
  destruct fuel as [|n1]; [discriminate|].
  apply load_Returns in Hload as (_ & rc0 & Hroot0 & _ & _ & Hdirs & Hkids).
  pose proof (lookup_agree _ _ _ _ Hroot0 Hroot) as ->.
  pose proof (install_roots _ _ _ _ _ Hinst) as [_ Hroots].
  apply install_table in Hinst as [Hsame Htable].
  assert (Hchild : forall c x t,
            (x, Dir t) ∈ entries (fs w) (dir ak) ->
            produced n1 (dir ak) root (fs w) c x u1 ->
            exists gc, expander.groups (store u1) !! c = Some gc /\ Group.Name gc = x).
  { intros c x t Hx Hp.
    apply elem_of_entries in Hx as (kx & _ & Hkx). apply child_name_Some in Hkx as [Hsx _].
    apply produced_cell in Hp as (gc & Hgc & Hname & _).
    exists gc. split; [exact Hgc|]. rewrite Hname. apply filepath_Base_Join; assumption. }
  split.
  - intros N t HN.
    destruct (Htable N) as [[_ Hnone]|(c & gc2 & Hc & Hgc2 & Hname2 & Hm)].
    { exfalso. destruct (Hdirs N t HN) as (c & Hc & Hp).
      destruct (Hchild c N t HN Hp) as (gc & Hgc & Hname).
      exact (Hnone c gc Hc Hgc Hname). }
    destruct (Hroots c Hc) as (gc3 & Hgc3 & Hpar).
    pose proof (lookup_agree _ _ _ _ Hgc3 Hgc2) as ->.
    exists c, gc2. auto.
  - intros k Hk.
    destruct (Htable k) as [[Hold _]|(c & gc2 & Hc & Hgc2 & Hname2 & _)]; [exact Hold|].
    exfalso. destruct (Hkids c Hc) as (x & t & Hx & Hp).
    destruct (Hchild c x t Hx Hp) as (gc & Hgc & Hname).
    destruct (same_groups _ _ Hsame c gc Hgc) as (gc' & Hgc' & Hn' & _).
    pose proof (lookup_agree _ _ _ _ Hgc' Hgc2) as ->.
    apply (Hk t). congruence.
Qed.

End load_needs.

Lemma rt_tidy : tidy (bytes (autokey.dir rt_ak)).
Proof.
  exists true, [bytes "home"; bytes "u"; bytes ".config"; bytes "autokey"; bytes "data"].
  split; [discriminate|]. split; [|reflexivity].
  repeat (constructor; [solve_simple|]). constructor.
Defined.

Lemma rt_earlier_Work : ("Work", Dir 5%Z) ∈ entries (fs rt_world_earlier) (autokey.dir rt_ak).
Proof.
  apply elem_of_entries. exists "/home/u/.config/autokey/data/Work".
  split; vm_compute; reflexivity.
Defined.

Lemma Load_needs_sidecars_witness :
  exists mdPath c' t' md,
    autokey.metadataPath (path_Join (path_Join (autokey.dir rt_ak) "Work") "u1.txt")
      rt_world_earlier
    = Returns mdPath rt_world_earlier
    /\ fs rt_world_earlier !! mdPath = Some (File c' t')
    /\ autokey.json_decode (JsonCodec := line_codec) c' = Some md.
Proof.
  eapply (Load_needs_sidecars (Json := line_codec) 3 rt_ak rt_world_earlier _ _
            (path_Join (autokey.dir rt_ak) "Work") "u1.txt" "Thanks!" 30%Z).
  - vm_compute. reflexivity.
  - eapply under_child; [apply under_here|exact rt_earlier_Work].
  - apply elem_of_entries. exists "/home/u/.config/autokey/data/Work/u1.txt".
    split; vm_compute; reflexivity.
  - reflexivity.
Defined.

Lemma Load_table_is_subdirectories_witness :
  exists ak' w',
    autokey.Load (Json := line_codec) 3 rt_ak rt_world_earlier = Returns ak' w'
    /\ (forall N t, (N, Dir t) ∈ entries (fs rt_world_earlier) (autokey.dir rt_ak) ->
          exists g gc,
            autokey.groups ak' !! N = Some (autokey.mkRawGroup g false)
            /\ groups (store w') !! g = Some gc
            /\ Group.Name gc = N
            /\ Group.Parent gc = None)
    /\ (forall k, (forall t, (k, Dir t) ∉ entries (fs rt_world_earlier) (autokey.dir rt_ak)) ->
          autokey.groups ak' !! k = autokey.groups rt_ak !! k).
Proof.
  eexists _, _. split; [vm_compute; reflexivity|].
  apply (Load_table_is_subdirectories (Json := line_codec) 3 rt_ak rt_world_earlier).
  - exact rt_tidy.
  - vm_compute. reflexivity.
Defined.

(** ** What [Write] leaves alone *)

Lemma tame_refl w : tame w w.
Proof. constructor; auto. Qed.

Lemma tame_trans w1 w2 w3 : tame w1 w2 -> tame w2 w3 -> tame w1 w3.
Proof.
  intros [Hs1 Hn1] [Hs2 Hn2]. constructor; [congruence|]. intros q.
  destruct (Hn1 q) as [H1|[[H1 [t1 H1']]|(Hp1 & Hd1 & c1 & t1 & H1)]],
           (Hn2 q) as [H2|[[H2 [t2 H2']]|(Hp2 & Hd2 & c2 & t2 & H2)]].
  - left. congruence.
  - right. left. split; [congruence|eauto].
  - right. right. split; [exact Hp2|]. split; [|eauto]. intros t. rewrite <- H1. apply Hd2.
  - right. left. split; [exact H1|]. exists t1. congruence.
  - congruence.
  - exfalso. exact (Hd2 t1 H1').
  - right. right. split; [exact Hp1|]. split; [exact Hd1|]. exists c1, t1. congruence.
  - congruence.
  - right. right. split; [exact Hp1|]. split; [exact Hd1|]. eauto.
Qed.

Lemma reaches_bind {S A B : Type} (m : M S A) (k : A -> M S B) (I : S -> S -> Prop) :
  (forall s1 s2 s3, I s1 s2 -> I s2 s3 -> I s1 s3) ->
  (forall s s', reaches m s s' -> I s s') ->
  (forall a s s', reaches (k a) s s' -> I s s') ->
  forall s s', reaches (m ≫= k) s s' -> I s s'.
Proof.
  intros Htrans Hm Hk s s' H. unfold reaches, mbind, M_bind in H.
  destruct (m s) as [a s1|e s1| |] eqn:Hms.
  - apply (Htrans _ s1); [apply Hm; left; eauto|]. apply (Hk a). exact H.
  - apply Hm. right. exists e. destruct H as [[? [=]]|[? [= _ <-]]]. exact Hms.
  - destruct H as [[? [=]]|[? [=]]].
  - destruct H as [[? [=]]|[? [=]]].
Qed.

Lemma reaches_for_each {S A : Type} (body : A -> M S unit) (I : S -> S -> Prop) xs :
  (forall s, I s s) ->
  (forall s1 s2 s3, I s1 s2 -> I s2 s3 -> I s1 s3) ->
  (forall x s s', x ∈ xs -> reaches (body x) s s' -> I s s') ->
  forall s s', reaches (for_each body xs) s s' -> I s s'.
Proof.
  intros Hrefl Htrans. induction xs as [|x xs IH]; intros Hbody s s' H.
  - destruct H as [[? [= _ <-]]|[? [=]]]. apply Hrefl.
  - cbn [for_each] in H. revert s s' H. apply reaches_bind; [exact Htrans| |].
    + intros s s'. apply Hbody, list_elem_of_here.
    + intros _. apply IH. intros y s s' Hy. apply Hbody. apply elem_of_cons. auto.
Qed.

Lemma os_Mkdir_tame p w w' : reaches (os_Mkdir p) w w' -> tame w w'.
Proof.
  unfold reaches, os_Mkdir. destruct (fs w !! p) eqn:Hp.
  { intros [[? [=]]|[? [= _ <-]]]. apply tame_refl. }
  destruct (parent_ok (fs w) p).
  - intros [[? [= _ <-]]|[? [=]]]. constructor; [reflexivity|]. intros q.
    cbn [fs stamp_fs]. destruct (decide (q = p)) as [->|Hne].
    + right. left. split; [exact Hp|]. rewrite lookup_insert_eq. eauto.
    + left. apply lookup_insert_ne. congruence.
  - intros [[? [=]]|[? [= _ <-]]]. apply tame_refl.
Qed.

Lemma MkdirAll_rec_tame n : forall p w w', reaches (MkdirAll_rec n p) w w' -> tame w w'.
Proof.
  induction n as [|n IH]; intros p w w'; unfold reaches; cbn [MkdirAll_rec].
  - destruct (fs w !! p) as [[t|c t]|].
    + intros [[? [= _ <-]]|[? [=]]]. apply tame_refl.
    + intros [[? [=]]|[? [= _ <-]]]. apply tame_refl.
    + intros [[? [=]]|[? [=]]].
  - destruct (fs w !! p) as [[t|c t]|] eqn:Hp.
    + intros [[? [= _ <-]]|[? [=]]]. apply tame_refl.
    + intros [[? [=]]|[? [= _ <-]]]. apply tame_refl.
    + assert (Hstep : forall w1,
                (exists a,
                    match os_Mkdir p w1 with
                    | Fails e w2 =>
                        match fs w2 !! p with
                        | Some (Dir _) => Returns tt w2
                        | _ => Fails e w2
                        end
                    | r => r
                    end = Returns a w')
                \/ (exists e,
                       match os_Mkdir p w1 with
                       | Fails e w2 =>
                           match fs w2 !! p with
                           | Some (Dir _) => Returns tt w2
                           | _ => Fails e w2
                           end
                       | r => r
                       end = Fails e w') ->
                tame w1 w').
      { intros w1 Hrun.
        destruct (os_Mkdir p w1) as [[] w2|e w2| |] eqn:Hmk.
        - apply (os_Mkdir_tame p). left. exists tt.
          destruct Hrun as [[? [= _ <-]]|[? [=]]]. exact Hmk.
        - apply (os_Mkdir_tame p). right. exists e.
          destruct (fs w2 !! p) as [[t|c t]|];
            destruct Hrun as [[? [= H1 H2]]|[? [= H1 H2]]]; subst; exact Hmk.
        - destruct Hrun as [[? [=]]|[? [=]]].
        - destruct Hrun as [[? [=]]|[? [=]]]. }
      destruct (parent_of (bytes p)) as [q0|].
      * destruct (MkdirAll_rec n (str q0) w) as [[] w1|e w1| |] eqn:Hrec.
        -- intros Hrun. apply (tame_trans _ w1); [|apply Hstep; exact Hrun].
           apply (IH (str q0)). left. eauto.
        -- intros [[? [=]]|[? [= _ <-]]]. apply (IH (str q0)). right. eauto.
        -- intros [[? [=]]|[? [=]]].
        -- intros [[? [=]]|[? [=]]].
      * apply Hstep.
Qed.

Lemma write_file_tame op p c w w' :
  body_path p \/ sidecar_path p ->
  reaches (write_file op p c) w w' ->
  tame w w'
  /\ ((exists e, write_file op p c w = Fails e w')
      \/ exists t, fs w' !! p = Some (File c t)).
Proof.
  intros Hp. unfold reaches, write_file.
  assert (Hok : (forall t, fs w !! p <> Some (Dir t)) ->
            tame w (stamp_fs (fun t => <[p := File c t]> (fs w)) (EvWrite p c) w)
            /\ exists t, fs (stamp_fs (fun t => <[p := File c t]> (fs w)) (EvWrite p c) w) !! p
                         = Some (File c t)).
  { intros Hnd. split.
    - constructor; [reflexivity|]. intros q. cbn [fs stamp_fs].
      destruct (decide (q = p)) as [->|Hne].
      + right. right. split; [exact Hp|]. split; [exact Hnd|].
        rewrite lookup_insert_eq. eauto.
      + left. apply lookup_insert_ne. congruence.
    - cbn [fs stamp_fs]. rewrite lookup_insert_eq. eauto. }
  destruct (fs w !! p) as [[t|c0 t]|] eqn:Hfp.
  - intros [[? [=]]|[? [= _ <-]]]. split; [apply tame_refl|left; eauto].
  - destruct (parent_ok (fs w) p).
    + intros [[? [= _ <-]]|[? [=]]].
      destruct Hok as [Ht Hf]; [intros t'; try rewrite Hfp; discriminate|].
      split; [exact Ht|right; exact Hf].
    + intros [[? [=]]|[? [= _ <-]]]. split; [apply tame_refl|left; eauto].
  - destruct (parent_ok (fs w) p).
    + intros [[? [= _ <-]]|[? [=]]].
      destruct Hok as [Ht Hf]; [intros t'; try rewrite Hfp; discriminate|].
      split; [exact Ht|right; exact Hf].
    + intros [[? [=]]|[? [= _ <-]]]. split; [apply tame_refl|left; eauto].
Qed.

Lemma os_Chtimes_tame p c t0 t w w' :
  body_path p \/ sidecar_path p ->
  fs w !! p = Some (File c t0) ->
  reaches (os_Chtimes p t) w w' -> tame w w'.
Proof.
  intros Hp Hf. unfold reaches, os_Chtimes. rewrite Hf.
  destruct (denied w p).
  { intros [[? [=]]|[? [= _ <-]]]. apply tame_refl. }
  intros [[? [= _ <-]]|[? [=]]]. constructor; [reflexivity|]. intros q.
  cbn [fs touch_fs set_mtime]. destruct (decide (q = p)) as [->|Hne].
  - right. right. split; [exact Hp|]. split; [rewrite Hf; discriminate|].
    rewrite lookup_insert_eq. eauto.
  - left. apply lookup_insert_ne. congruence.
Qed.

Section write_tame.

Import autokey.
Context {Json : JsonCodec}.

Lemma write_both_tame sPath mdPath sc w w' :
  body_path sPath -> sidecar_path mdPath ->
  reaches (write_both sPath mdPath sc) w w' -> tame w w'.
Proof.
  intros Hb Hj. unfold write_both, writeMetadata, ioutil_WriteFile.
  unfold reaches, mbind, M_bind.
  destruct (write_file "open" mdPath _ w) as [[] w1|e1 w1| |] eqn:H1.
  2:{ intros [[? [=]]|[? [= _ <-]]].
      apply (write_file_tame "open" mdPath (json_encode (newMetadata sc))); [auto|].
      right. eauto. }
  2,3: intros [[? [=]]|[? [=]]].
  destruct (write_file_tame "open" mdPath (json_encode (newMetadata sc)) w w1)
    as [Ht1 [[e He]|[t1 Hf1]]]; [auto|left; eauto|congruence|].
  destruct (os_Chtimes mdPath (Snippet.ModTime sc) w1) as [[] w2|e2 w2| |] eqn:H2.
  2:{ intros [[? [=]]|[? [= _ <-]]]. apply (tame_trans _ w1); [exact Ht1|].
      eapply os_Chtimes_tame; [right; exact Hj|exact Hf1|right; eauto]. }
  2,3: intros [[? [=]]|[? [=]]].
  assert (Ht2 : tame w1 w2).
  { eapply os_Chtimes_tame; [right; exact Hj|exact Hf1|left; eauto]. }
  destruct (write_file "open" sPath (Snippet.Text sc) w2) as [[] w3|e3 w3| |] eqn:H3.
  2:{ intros [[? [=]]|[? [= _ <-]]]. apply (tame_trans _ w1); [exact Ht1|].
      apply (tame_trans _ w2); [exact Ht2|].
      apply (write_file_tame "open" sPath (Snippet.Text sc)); [auto|]. right. eauto. }
  2,3: intros [[? [=]]|[? [=]]].
  destruct (write_file_tame "open" sPath (Snippet.Text sc) w2 w3)
    as [Ht3 [[e He]|[t3 Hf3]]]; [auto|left; eauto|congruence|].
  intros H4. apply (tame_trans _ w1); [exact Ht1|].
  apply (tame_trans _ w2); [exact Ht2|]. apply (tame_trans _ w3); [exact Ht3|].
  eapply os_Chtimes_tame; [left; exact Hb|exact Hf3|exact H4].
Qed.

Lemma writeSnippet_tame fuel ak s w w' :
  reaches (writeSnippet fuel ak s) w w' -> tame w w'.
Proof.
  unfold reaches. rewrite writeSnippet_unfold.
  destruct (snippets (store w) !! s) as [sc|]; [|intros [[? [=]]|[? [=]]]].
  destruct (Snippet_Path fuel (store w) sc) as [p| |];
    [|intros [[? [=]]|[? [=]]]|intros [[? [=]]|[? [=]]]].
  cbv zeta. destruct (filePattern _) as [[[d stem] ext]|] eqn:Hpat.
  2:{ intros [[? [=]]|[? [= _ <-]]]. apply tame_refl. }
  destruct (match fs w !! _ with Some _ => _ | None => _ end).
  { intros [[? [= _ <-]]|[? [=]]]. apply tame_refl. }
  apply write_both_tame; [apply path_Join_body_path|].
  unfold sidecar_path. rewrite !bytes_append.
  exists (bytes (str d) ++ bytes "." ++ bytes (str stem)).
  rewrite <- !app_assoc. reflexivity.
Qed.

Lemma writeGroup_tame n ak : forall g w w',
  reaches (writeGroup n ak g) w w' -> tame w w'.
Proof.
  induction n as [|n IH]; intros g w w'; [intros [[? [=]]|[? [=]]]|].
  unfold reaches. rewrite writeGroup_unfold.
  destruct (expander.groups (store w) !! g) as [gc|]; [|intros [[? [=]]|[? [=]]]].
  destruct (Group_Path (S n) (store w) gc) as [p| |];
    [|intros [[? [=]]|[? [=]]]|intros [[? [=]]|[? [=]]]].
  revert w w'. apply reaches_bind; [apply tame_trans| |].
  - intros w w'. apply MkdirAll_rec_tame.
  - intros _. apply reaches_bind; [apply tame_trans| |].
    + apply reaches_for_each; [apply tame_refl|apply tame_trans|].
      intros x w w' _. apply IH.
    + intros _. apply reaches_for_each; [apply tame_refl|apply tame_trans|].
      intros x w w' _. apply writeSnippet_tame.
Qed.

(** X12. However [Write] ends, with nil or with an error, it has left the
    store alone and has removed nothing from the file system: every path
    holds what it held before, or a new directory where nothing was, or a
    regular file, under a name that ends in ".txt" or ".json", where no
    directory was. *)
Theorem Write_is_tame fuel keys ak w w' :
  reaches (Write fuel keys ak) w w' -> tame w w'.
Proof.
  unfold Write. apply reaches_for_each; [apply tame_refl|apply tame_trans|].
  intros rg u u' _. destruct (managed rg).
  - apply writeGroup_tame.
  - intros [[? [= _ <-]]|[? [=]]]. apply tame_refl.
Qed.

End write_tame.

Section write_retry.

Import autokey.
Context {Json : JsonCodec}.

Lemma writeSnippet_stale fuel ak s w sPath mdPath sc :
  target fuel ak (store w) s = Some (sPath, mdPath, sc) ->
  ~ up_to_date fuel ak (store w) (fs w) s ->
  writeSnippet fuel ak s w = write_both sPath mdPath sc w.
Proof.
  intros Ht Hstale. pose proof Ht as Ht0.
  rewrite writeSnippet_unfold. unfold target in Ht.
  destruct (snippets (store w) !! s) as [sc'|]; [|discriminate].
  cbn [mbind option_bind] in Ht.
  destruct (Snippet_Path fuel (store w) sc') as [p| |]; try discriminate.
  cbv zeta in *.
  destruct (filePattern _) as [[[d stem] ext]|]; [|discriminate].
  cbn [mbind option_bind] in Ht. injection Ht as Hs Hm <-.
  rewrite Hs, Hm.
  destruct (fs w !! mdPath) as [fi|] eqn:Hfi; [|reflexivity].
  destruct (Z.ltb_spec (node_ModTime fi) (Snippet.ModTime sc')) as [Hlt|Hge];
    [reflexivity|].
  exfalso. apply Hstale. exists sPath, mdPath, sc', fi. auto.
Qed.

Lemma write_file_open op p c w :
  (forall t, fs w !! p <> Some (Dir t)) ->
  parent_ok (fs w) p = true ->
  write_file op p c w
  = Returns tt (stamp_fs (fun t => <[p := File c t]> (fs w)) (EvWrite p c) w).
Proof.
  intros Hnd Hpar. unfold write_file. rewrite Hpar.
  destruct (fs w !! p) as [[t|c0 t]|]; [destruct (Hnd t eq_refl)| |]; reflexivity.
Qed.

(** X13. Let a directory stand where the text of a snippet goes, while the
    sidecar is not up to date and can be written and stamped, the time of
    the snippet being ordinary.  Then [writeSnippet] fails on the text,
    after it has written the sidecar and set it to the time of the
    snippet; the directory stands as it stood; and [writeSnippet] on the
    same snippet again takes it for up to date and returns nil without a
    write. *)
Theorem writeSnippet_failure_is_not_retried fuel ak s w sPath mdPath sc t0 :
  target fuel ak (store w) s = Some (sPath, mdPath, sc) ->
  ~ up_to_date fuel ak (store w) (fs w) s ->
  ordinary (Snippet.ModTime sc) ->
  fs w !! sPath = Some (Dir t0) ->
  (forall t, fs w !! mdPath <> Some (Dir t)) ->
  parent_ok (fs w) mdPath = true ->
  denied w mdPath = false ->
  exists w',
    writeSnippet fuel ak s w = Fails (ErrPath "open" sPath) w'
    /\ store w' = store w
    /\ fs w' !! mdPath
       = Some (File (json_encode (newMetadata sc)) (Snippet.ModTime sc))
    /\ fs w' !! sPath = Some (Dir t0)
    /\ trace w' = trace w ++ [EvWrite mdPath (json_encode (newMetadata sc));
                              EvChtimes mdPath (Snippet.ModTime sc)]
    /\ writeSnippet fuel ak s w' = Returns tt w'.
Proof.
  intros Ht Hstale Hord Hdir Hnd Hpar Hden.
  destruct (target_paths _ _ _ _ _ _ _ Ht) as (_ & _ & Hne & _).
  rewrite (writeSnippet_stale _ _ _ _ _ _ _ Ht Hstale).
  unfold write_both, writeMetadata, ioutil_WriteFile, mbind, M_bind.
  rewrite (write_file_open _ _ _ _ Hnd Hpar).
  unfold os_Chtimes at 1. cbn [fs stamp_fs denied]. rewrite lookup_insert_eq, Hden.
  cbn [set_mtime node_ModTime]. rewrite (chtime_ordinary _ _ Hord).
  unfold write_file at 1. cbn [fs touch_fs].
  rewrite !lookup_insert_ne by congruence. rewrite Hdir.
  eexists. split; [reflexivity|]. cbn [store fs trace touch_fs stamp_fs].
  split; [reflexivity|]. split; [apply lookup_insert_eq|].
  split; [rewrite !lookup_insert_ne by congruence; exact Hdir|].
  split; [rewrite <- app_assoc; reflexivity|].
  apply writeSnippet_up_to_date. cbn [store fs].
  exists sPath, mdPath, sc, (File (json_encode (newMetadata sc)) (Snippet.ModTime sc)).
  split; [exact Ht|]. split; [apply lookup_insert_eq|]. cbn. lia.
Qed.

End write_retry.

Lemma writeSnippet_failure_is_not_retried_witness :
  exists w',
    autokey.writeSnippet (Json := line_codec) 2 rt_ak 0 rt_world_blocked
    = Fails (ErrPath "open" "/home/u/.config/autokey/data/Work/u1.txt") w'
    /\ store w' = rt_store
    /\ fs w' !! "/home/u/.config/autokey/data/Work/.u1.json"
       = Some (File (autokey.json_encode (JsonCodec := line_codec)
                       (autokey.newMetadata
                          (Snippet.mk "u1" "ty" "Thank you!" (Some 0) 10%Z)))
                    10%Z)
    /\ fs w' !! "/home/u/.config/autokey/data/Work/u1.txt" = Some (Dir 5%Z)
    /\ trace w'
       = [EvWrite "/home/u/.config/autokey/data/Work/.u1.json"
                  (autokey.json_encode (JsonCodec := line_codec)
                     (autokey.newMetadata
                        (Snippet.mk "u1" "ty" "Thank you!" (Some 0) 10%Z)));
          EvChtimes "/home/u/.config/autokey/data/Work/.u1.json" 10%Z]
    /\ autokey.writeSnippet (Json := line_codec) 2 rt_ak 0 w' = Returns tt w'.
Proof.
  apply (writeSnippet_failure_is_not_retried (Json := line_codec) 2 rt_ak 0
           rt_world_blocked
           "/home/u/.config/autokey/data/Work/u1.txt"
           "/home/u/.config/autokey/data/Work/.u1.json"
           (Snippet.mk "u1" "ty" "Thank you!" (Some 0) 10%Z) 5%Z).
  - vm_compute. reflexivity.
  - intros (sp & mp & c & nd & Ht & Hnd & _). vm_compute in Ht.
    injection Ht as <- <- <-. vm_compute in Hnd. discriminate Hnd.
  - unfold ordinary. cbn. lia.
  - vm_compute. reflexivity.
  - intros t. vm_compute. discriminate.
  - vm_compute. reflexivity.
  - reflexivity.
Defined.

Lemma Write_is_tame_witness :
  exists w',
    reaches (autokey.Write (Json := line_codec) 2 ["Work"] rt_ak) rt_world_blocked w'
    /\ tame rt_world_blocked w'.
Proof.
  eexists. split; [right; eexists; vm_compute; reflexivity|].
  apply (Write_is_tame (Json := line_codec) 2 ["Work"] rt_ak rt_world_blocked).
  right. eexists. vm_compute. reflexivity.
Defined.

(** ** What the loaded snippets hold *)

Section textexpander_content.

Import textexpander.

Lemma last_named_snoc {A : Type} (name : A -> string) rs r n :
  last_named name (rs ++ [r]) n
  = if String.eqb (name r) n then Some r else last_named name rs n.
Proof. unfold last_named. rewrite rev_app_distr. reflexivity. Qed.

Lemma index_snippets_holds l : forall pre m h te,
  index_holds pre h m ->
  exists m' h',
    index_snippets l m (h, te) = Returns m' (h', te)
    /\ expander.groups h' = expander.groups h
    /\ index_holds (pre ++ l) h' m'.
Proof.
  induction l as [|x l IH]; intros pre m h te Hm.
  - exists m, h. rewrite app_nil_r. auto.
  - cbn [index_snippets]. unfold mbind, M_bind, new_snippet.
    set (cell := Snippet.mk (UUID x) (Abbr x) (Text x) None (ModDate x)).
    set (h1 := mkHeap (expander.groups h) (snippets h ++ [cell])).
    destruct (IH (pre ++ [x]) (<[UUID x := length (snippets h)]> m) h1 te)
      as (m' & h' & Hrun & Hg & Hm').
    + intros u s. rewrite last_named_snoc.
      destruct (String.eqb_spec (UUID x) u) as [<-|Hne].
      * rewrite lookup_insert_eq. intros [= <-]. exists cell, x.
        split; [apply list_lookup_middle; reflexivity|]. split; [reflexivity|].
        repeat split.
      * rewrite lookup_insert_ne by exact Hne. intros Hu.
        destruct (Hm u s Hu) as (sc & r & Hs & Hr & Hrec). exists sc, r.
        split; [apply lookup_app_l_Some; exact Hs|auto].
    + exists m', h'. rewrite <- app_assoc in Hm'. auto.
Qed.

(** One call of [resolve] that returns. *)
Lemma resolve_Returns snips group u h te h' te' :
  resolve snips group u (h, te) = Returns tt (h', te') ->
  exists s sc gc,
    snips !! u = Some s
    /\ snippets h !! s = Some sc
    /\ expander.groups h !! group = Some gc
    /\ te' = te
    /\ expander.groups h' = <[group := set_Snippets gc (Group.Snippets gc ++ [s])]>
                              (expander.groups h)
    /\ snippets h' = <[s := Snippet.mk (Snippet.Name sc) (Snippet.Abbr sc)
                              (Snippet.Text sc) (Some group) (Snippet.ModTime sc)]>
                       (snippets h).
Proof.
  unfold resolve. destruct (snips !! u) as [s|] eqn:Hu; [|discriminate].
  unfold mbind, M_bind, set_snippet_parent, push_snippet.
  destruct (snippets h !! s) as [sc|] eqn:Hs; [|discriminate]. cbn [expander.groups].
  destruct (expander.groups h !! group) as [gc|] eqn:Hg; [|discriminate].
  intros [= <- <-]. exists s, sc, gc. repeat split; assumption.
Qed.

Lemma resolve_loop_Returns snips group uuids : forall h te h' te' gc,
  for_each (resolve snips group) uuids (h, te) = Returns tt (h', te') ->
  expander.groups h !! group = Some gc ->
  te' = te
  /\ exists new,
       Forall2 (fun s u => snips !! u = Some s) new uuids
       /\ expander.groups h' = <[group := set_Snippets gc (Group.Snippets gc ++ new)]>
                                 (expander.groups h)
       /\ reparented group new (snippets h) (snippets h').
Proof.
  induction uuids as [|u uuids IH]; intros h te h' te' gc Hrun Hg.
  - injection Hrun as <- <-. split; [reflexivity|]. exists [].
    split; [constructor|]. split.
    + rewrite app_nil_r, set_Snippets_id. symmetry. apply list_insert_id. exact Hg.
    + intros s sc Hs. exists sc. rewrite decide_False by apply not_elem_of_nil. auto 10.
  - apply for_each_cons_Returns in Hrun as ([h1 te1] & H1 & Hrest).
    apply resolve_Returns in H1 as (s & sc & gc0 & Hu & Hs & Hg0 & -> & Hg1 & Hs1).
    pose proof (lookup_agree _ _ _ _ Hg0 Hg) as ->.
    assert (Hg1' : expander.groups h1 !! group
                   = Some (set_Snippets gc (Group.Snippets gc ++ [s]))).
    { rewrite Hg1. apply list_lookup_insert_eq. eapply lookup_lt_Some; eauto. }
    destruct (IH _ _ _ _ _ Hrest Hg1') as (-> & new & Hnew & Hg' & Hre).
    split; [reflexivity|]. exists (s :: new). split; [constructor; assumption|]. split.
    + rewrite Hg', Hg1, list_insert_insert_eq. f_equal.
      unfold set_Snippets. cbn. rewrite <- app_assoc. reflexivity.
    + intros a ac Ha.
      destruct (decide (a = s)) as [->|Hne].
      * pose proof (lookup_agree _ _ _ _ Ha Hs) as ->.
        destruct (Hre s (Snippet.mk (Snippet.Name sc) (Snippet.Abbr sc) (Snippet.Text sc)
                                    (Some group) (Snippet.ModTime sc)))
          as (sc' & Hs' & Hn & Hab & Ht & Hm & Hp).
        { rewrite Hs1. apply list_lookup_insert_eq. eapply lookup_lt_Some; eauto. }
        exists sc'. rewrite decide_True by apply list_elem_of_here.
        cbn in Hn, Hab, Ht, Hm, Hp. repeat (split; [assumption|]).
        rewrite Hp. case_decide; reflexivity.
      * destruct (Hre a ac) as (sc' & Hs' & Hn & Hab & Ht & Hm & Hp).
        { rewrite Hs1. rewrite list_lookup_insert_ne by congruence. exact Ha. }
        exists sc'. repeat (split; [assumption|]).
        rewrite Hp. destruct (decide (a ∈ new)) as [Hin|Hnin].
        -- rewrite decide_True by (apply elem_of_cons; auto). reflexivity.
        -- rewrite decide_False; [reflexivity|].
           intros [?|?]%elem_of_cons; contradiction.
Qed.

(** One call of [parse_group] that returns. *)
Lemma parse_group_Returns snips g h te h' te' :
  parse_group snips g (h, te) = Returns tt (h', te') ->
  exists new,
    Forall2 (fun s u => snips !! u = Some s) new (UUIDs g)
    /\ expander.groups h' = expander.groups h ++ [Group.mk (Name g) new [] None]
    /\ reparented (length (expander.groups h)) new (snippets h) (snippets h')
    /\ te' = mkTE (file te) (data te) (groups te ++ [length (expander.groups h)]).
Proof.
  unfold parse_group. intros H.
  apply bind_Returns in H as (a & [h1 te1] & H1 & H).
  unfold new_group in H1. injection H1 as <- <- <-.
  apply bind_Returns in H as ([] & [h2 te2] & H2 & H).
  eapply resolve_loop_Returns in H2 as (-> & new & Hnew & Hg & Hre);
    [|cbn; apply list_lookup_middle; reflexivity].
  cbn in H. injection H as <- <-.
  exists new. split; [exact Hnew|]. cbn [expander.groups snippets] in *.
  split; [|auto]. rewrite Hg. cbn.
  rewrite insert_app_r_alt by lia. rewrite Nat.sub_diag. reflexivity.
Qed.

Lemma Forall2_impl_in {A B : Type} (P Q : A -> B -> Prop) l k :
  Forall2 P l k ->
  (forall x y, x ∈ l -> P x y -> Q x y) ->
  Forall2 Q l k.
Proof.
  induction 1 as [|x y l k Hxy _ IH]; intros Himp; constructor.
  - apply Himp; [apply list_elem_of_here|exact Hxy].
  - apply IH. intros a b Ha. apply Himp. apply elem_of_cons. auto.
Qed.

Lemma parse_group_loaded recs snips g h te h' te' new done :
  loaded recs snips h new done ->
  parse_group snips g (h, te) = Returns tt (h', te') ->
  loaded recs snips h' (new ++ [length (expander.groups h)]) (done ++ [g])
  /\ te' = mkTE (file te) (data te) (groups te ++ [length (expander.groups h)]).
Proof.
  intros (Hidx & Hlt & Hbuilt & Hpar) H.
  apply parse_group_Returns in H as (new_s & Hnew & Hg & Hre & ->).
  split; [|reflexivity].
  set (a := length (expander.groups h)) in *.
  assert (Hold : forall b gb, b ∈ new -> expander.groups h !! b = Some gb ->
                              expander.groups h' !! b = Some gb).
  { intros b gb _ Hb. rewrite Hg. apply lookup_app_l_Some. exact Hb. }
  assert (Hcell : expander.groups h' !! a = Some (Group.mk (Name g) new_s [] None)).
  { rewrite Hg. apply list_lookup_middle. reflexivity. }
  split; [|split; [|split]].
  - intros u s Hu. destruct (Hidx u s Hu) as (sc & r & Hs & Hr & Hn & Hab & Ht & Hm).
    destruct (Hre s sc Hs) as (sc' & Hs' & Hn' & Hab' & Ht' & Hm' & _).
    exists sc', r. split; [exact Hs'|]. split; [exact Hr|].
    repeat split; congruence.
  - rewrite Hg, length_app. cbn [length]. apply Forall_app. split.
    + eapply Forall_impl; [exact Hlt|]. cbn. intros; lia.
    + constructor; [fold a; lia|constructor].
  - apply Forall2_app.
    + eapply Forall2_impl_in; [exact Hbuilt|].
      intros b gr Hb (gb & Hgb & Hrest). exists gb. split; [|exact Hrest].
      apply Hold; assumption.
    + constructor; [|constructor]. eexists. split; [exact Hcell|].
      split; [reflexivity|exact Hnew].
  - intros b gb s Hb Hgb Hs.
    destruct (decide (s ∈ new_s)) as [Hin|Hnin].
    + apply list_elem_of_lookup in Hin as [i Hi].
      destruct (Forall2_lookup_l _ _ _ _ _ Hnew Hi) as (u & _ & Hu).
      destruct (Hidx u s Hu) as (sc & r & Hsc & _).
      destruct (Hre s sc Hsc) as (sc' & Hs' & _ & _ & _ & _ & Hp).
      rewrite decide_True in Hp by (apply list_elem_of_lookup; eauto).
      exists sc', a, (Group.mk (Name g) new_s [] None).
      split; [exact Hs'|]. split; [exact Hp|].
      split; [apply elem_of_app; right; apply list_elem_of_here|].
      split; [exact Hcell|]. cbn. apply list_elem_of_lookup. eauto.
    + assert (Hb' : b ∈ new).
      { apply elem_of_app in Hb as [Hb|Hb]; [exact Hb|]. exfalso.
        apply list_elem_of_singleton in Hb. subst b.
        pose proof (lookup_agree _ _ _ _ Hgb Hcell) as ->. exact (Hnin Hs). }
      assert (Hgb' : expander.groups h !! b = Some gb).
      { rewrite Forall_forall in Hlt. specialize (Hlt b Hb').
        rewrite Hg in Hgb. rewrite lookup_app_l in Hgb by exact Hlt. exact Hgb. }
      destruct (Hpar b gb s Hb' Hgb' Hs) as (sc & c & gc & Hsc & Hp & Hc & Hgc & Hsgc).
      destruct (Hre s sc Hsc) as (sc' & Hs' & _ & _ & _ & _ & Hp').
      rewrite decide_False in Hp' by exact Hnin.
      exists sc', c, gc. split; [exact Hs'|]. split; [congruence|].
      split; [apply elem_of_app; auto|]. split; [apply Hold; assumption|exact Hsgc].
Qed.

Lemma parse_groups_loaded recs snips gs : forall h te h' te' new done,
  loaded recs snips h new done ->
  for_each (parse_group snips) gs (h, te) = Returns tt (h', te') ->
  exists new',
    loaded recs snips h' (new ++ new') (done ++ gs)
    /\ te' = mkTE (file te) (data te) (groups te ++ new').
Proof.
  induction gs as [|g gs IH]; intros h te h' te' new done Hl H.
  - injection H as <- <-. exists []. rewrite !app_nil_r. destruct te; auto.
  - apply for_each_cons_Returns in H as ([h1 te1] & H1 & Hrest).
    destruct (parse_group_loaded _ _ _ _ _ _ _ _ _ Hl H1) as [Hl1 ->].
    destruct (IH _ _ _ _ _ _ Hl1 Hrest) as (new' & Hl' & Hte).
    exists (length (expander.groups h) :: new').
    rewrite <- !app_assoc in Hl'. split; [exact Hl'|].
    rewrite Hte. cbn [groups file data]. rewrite <- app_assoc. reflexivity.
Qed.

Lemma Load_Document_loaded d h te h' te' :
  Load (Document d) (h, te) = Returns tt (h', te') ->
  exists snips new,
    loaded (Snippets d) snips h' new (Groups d)
    /\ te' = mkTE (file te) (Some d) (groups te ++ new).
Proof.
  intros H.
  destruct (index_snippets_holds (Snippets d) [] ∅ h
              (mkTE (file te) (Some d) (groups te)))
    as (snips & h0 & Hrun & _ & Hidx).
  { intros u s Hu. rewrite lookup_empty in Hu. discriminate. }
  assert (Hloop : for_each (parse_group snips) (Groups d)
                    (h0, mkTE (file te) (Some d) (groups te))
                  = Returns tt (h', te')).
  { rewrite <- H. unfold Load, parse, mbind, M_bind, get, set_data. cbn. rewrite Hrun.
    reflexivity. }
  assert (Hstart : loaded (Snippets d) snips h0 [] []).
  { split; [exact Hidx|]. split; [constructor|]. split; [constructor|].
    intros a gc s Ha. exfalso. eapply not_elem_of_nil; eauto. }
  destruct (parse_groups_loaded _ _ _ _ _ _ _ _ _ Hstart Hloop) as (new & Hl & Hte).
  exists snips, new. split; [exact Hl|exact Hte].
Qed.

(** [Load] makes snippets with the dates of the records. *)
Lemma index_snippets_ordinary l : forall m h te m' h' te',
  Forall (fun r => ordinary (ModDate r)) l ->
  index_snippets l m (h, te) = Returns m' (h', te') ->
  ordinary_store h -> ordinary_store h'.
Proof.
  induction l as [|x l IH]; intros m h te m' h' te' Hall H Hord.
  - injection H as _ <- _. exact Hord.
  - cbn [index_snippets] in H. unfold mbind at 1, M_bind at 1, new_snippet in H.
    apply Forall_cons in Hall as [Hx Hl].
    eapply IH in H; [exact H|exact Hl|].
    unfold ordinary_store. cbn [snippets]. apply Forall_app. split; [exact Hord|].
    constructor; [exact Hx|constructor].
Qed.

Lemma resolve_ordinary snips group u h te h' te' :
  resolve snips group u (h, te) = Returns tt (h', te') ->
  ordinary_store h -> ordinary_store h'.
Proof.
  intros H Hord.
  apply resolve_Returns in H as (s & sc & gc & _ & Hs & _ & _ & _ & Hsn).
  unfold ordinary_store. rewrite Hsn. apply Forall_insert; [exact Hord|].
  exact (Forall_lookup_1 _ _ _ _ Hord Hs).
Qed.

Lemma parse_group_ordinary snips g h te h' te' :
  parse_group snips g (h, te) = Returns tt (h', te') ->
  ordinary_store h -> ordinary_store h'.
Proof.
  unfold parse_group. intros H Hord.
  apply bind_Returns in H as (a & [h1 te1] & H1 & H).
  unfold new_group in H1. injection H1 as <- <- <-.
  apply bind_Returns in H as ([] & [h2 te2] & H2 & H).
  cbn in H. injection H as <- <-.
  apply (for_each_invariant _ (fun st st' : state =>
                                 ordinary_store st.1 -> ordinary_store st'.1)) in H2.
  - exact H2.
  - auto.
  - auto.
  - intros u [ha ta] [hb tb] _ Hu. cbn [fst]. eapply resolve_ordinary. exact Hu.
  - exact Hord.
Qed.

Lemma Load_ordinary d h te h' te' :
  Forall (fun r => ordinary (ModDate r)) (Snippets d) ->
  Load (Document d) (h, te) = Returns tt (h', te') ->
  ordinary_store h -> ordinary_store h'.
Proof.
  intros Hall H Hord.
  destruct (index_snippets_holds (Snippets d) [] ∅ h
              (mkTE (file te) (Some d) (groups te)))
    as (snips & h0 & Hrun & _ & _).
  { intros u s Hu. rewrite lookup_empty in Hu. discriminate. }
  assert (Hloop : for_each (parse_group snips) (Groups d)
                    (h0, mkTE (file te) (Some d) (groups te))
                  = Returns tt (h', te')).
  { rewrite <- H. unfold Load, parse, mbind, M_bind, get, set_data. cbn. rewrite Hrun.
    reflexivity. }
  apply (index_snippets_ordinary _ _ _ _ _ _ _ Hall) in Hrun; [|exact Hord].
  apply (for_each_invariant _ (fun st st' : state =>
                                 ordinary_store st.1 -> ordinary_store st'.1)) in Hloop.
  - exact Hloop.
  - auto.
  - auto.
  - intros g [ha ta] [hb tb] _ Hg. cbn [fst]. eapply parse_group_ordinary. exact Hg.
  - exact Hrun.
Qed.

(** X14. When [Load] returns, the groups it adds are those of the group
    records, in order, and the snippets of each are those of its
    identifiers, in order.  Such a snippet has the identifier as its name
    and the abbreviation, the text and the time of the last snippet record
    with that identifier (the label of the record is not kept), and its
    parent is one of the added groups, which lists it. *)
Theorem Load_snippets_hold_last_record d h te h' te' :
  Load (Document d) (h, te) = Returns tt (h', te') ->
  exists new,
    Groups_of te' = Groups_of te ++ new
    /\ Forall2
         (fun a g =>
            exists gc,
              expander.groups h' !! a = Some gc
              /\ Group.Name gc = Name g
              /\ Forall2
                   (fun s u =>
                      exists sc r b gb,
                        snippets h' !! s = Some sc
                        /\ last_named UUID (Snippets d) u = Some r
                        /\ holds_record sc r
                        /\ Snippet.Parent sc = Some b
                        /\ b ∈ new
                        /\ expander.groups h' !! b = Some gb
                        /\ s ∈ Group.Snippets gb)
                   (Group.Snippets gc) (UUIDs g))
         new (Groups d).
Proof.
  intros H. apply Load_Document_loaded in H
    as (snips & new & (Hidx' & _ & Hbuilt & Hpar) & ->).
  exists new. split; [reflexivity|].
  eapply Forall2_impl_in; [exact Hbuilt|].
  intros a g Ha (gc & Hgc & Hname & Hsn). exists gc. split; [exact Hgc|].
  split; [exact Hname|]. eapply Forall2_impl_in; [exact Hsn|].
  intros s u Hs Hu. destruct (Hidx' u s Hu) as (sc & r & Hsc & Hr & Hrec).
  destruct (Hpar a gc s Ha Hgc Hs) as (sc2 & b & gb & Hsc2 & Hp & Hb & Hgb & Hsgb).
  pose proof (lookup_agree _ _ _ _ Hsc2 Hsc) as ->.
  exists sc, r, b, gb. auto 10.
Qed.

End textexpander_content.

Lemma Load_snippets_hold_last_record_witness :
  exists h' te',
    textexpander.Load (textexpander.Document ex_repeating_document)
      (mkHeap [] [], textexpander.mkTE "Settings.textexpander" None [])
    = Returns tt (h', te')
    /\ exists new,
         textexpander.Groups_of te' = [] ++ new
         /\ Forall2
              (fun a g =>
                 exists gc,
                   groups h' !! a = Some gc
                   /\ Group.Name gc = textexpander.Name g
                   /\ Forall2
                        (fun s u =>
                           exists sc r b gb,
                             snippets h' !! s = Some sc
                             /\ last_named textexpander.UUID
                                  (textexpander.Snippets ex_repeating_document) u
                                = Some r
                             /\ holds_record sc r
                             /\ Snippet.Parent sc = Some b
                             /\ b ∈ new
                             /\ groups h' !! b = Some gb
                             /\ s ∈ Group.Snippets gb)
                        (Group.Snippets gc) (textexpander.UUIDs g))
              new (textexpander.Groups ex_repeating_document).
Proof.
  eexists _, _. split; [vm_compute; reflexivity|].
  apply (Load_snippets_hold_last_record ex_repeating_document (mkHeap [] [])
           (textexpander.mkTE "Settings.textexpander" None [])).
  vm_compute. reflexivity.
Defined.

(** ** The import step of [main] *)

Lemma group_name_lookup gs g gc :
  gs !! g = Some gc -> group_name gs g = Group.Name gc.
Proof. unfold group_name. intros ->. reflexivity. Qed.

Lemma Group_Path_child h gc root rc fuel :
  Group.Parent gc = Some root -> groups h !! root = Some rc -> Group.Parent rc = None ->
  Group_Path (S fuel) h gc = Ok (path_Join (Group.Name rc) (Group.Name gc)).
Proof.
  intros Hp Hr Hrp. cbn [Group_Path]. rewrite Hp, Hr. cbn [deref mbind result_bind].
  destruct fuel; cbn [Group_Path]; rewrite Hrp; reflexivity.
Qed.

Lemma reparent_loop root gs : forall w,
  Forall (fun g => is_Some (groups (store w) !! g)) gs ->
  exists w',
    for_each (fun g => autokey.update_group g (autokey.with_Group_Parent (Some root))) gs w
    = Returns tt w'
    /\ fs w' = fs w
    /\ snippets (store w') = snippets (store w)
    /\ length (groups (store w')) = length (groups (store w))
    /\ forall a gc,
         groups (store w) !! a = Some gc ->
         groups (store w') !! a
         = Some (if decide (a ∈ gs) then autokey.with_Group_Parent (Some root) gc else gc).
Proof.
  induction gs as [|g gs IH]; intros w Hall.
  - exists w. split; [reflexivity|]. repeat (split; [reflexivity|]).
    intros a gc Ha. rewrite decide_False by apply not_elem_of_nil. exact Ha.
  - apply Forall_cons in Hall as [[gc0 Hg] Hall]. cbn [for_each].
    unfold mbind at 1, M_bind at 1, autokey.update_group at 1. rewrite Hg.
    set (w1 := set_store _ w).
    destruct (IH w1) as (w' & Hrun & Hfs & Hsn & Hlen & Hcells).
    { eapply Forall_impl; [exact Hall|]. intros a [gc Ha]. unfold w1. cbn.
      apply lookup_lt_is_Some. rewrite length_insert. eapply lookup_lt_Some. exact Ha. }
    exists w'. split; [exact Hrun|]. split; [exact Hfs|]. split; [exact Hsn|].
    split; [rewrite Hlen; unfold w1; cbn; apply length_insert|].
    intros a gc Ha. destruct (decide (a = g)) as [->|Hne].
    + pose proof (lookup_agree _ _ _ _ Ha Hg) as ->.
      rewrite decide_True by apply list_elem_of_here.
      rewrite (Hcells g (autokey.with_Group_Parent (Some root) gc0)).
      * case_decide; reflexivity.
      * unfold w1. cbn. apply list_lookup_insert_eq. eapply lookup_lt_Some. exact Hg.
    + rewrite (Hcells a gc).
      * destruct (decide (a ∈ gs)) as [Hin|Hnin].
        -- rewrite decide_True by (apply elem_of_cons; auto). reflexivity.
        -- rewrite decide_False; [reflexivity|].
           intros [?|?]%elem_of_cons; contradiction.
      * unfold w1. cbn. rewrite list_lookup_insert_ne by congruence. exact Ha.
Qed.

Lemma find_group_None h rgt rc : forall l,
  groups h !! rgt = Some rc ->
  Forall (fun a => is_Some (groups h !! a)) l ->
  Group.Name rc ∉ map (group_name (groups h)) l ->
  find_group h rgt l = Ok None.
Proof.
  induction l as [|a l IH]; intros Hr Hall Hnin; [reflexivity|].
  apply Forall_cons in Hall as [[ac Ha] Hall]. cbn [find_group].
  rewrite Ha, Hr. cbn [deref mbind result_bind].
  cbn [map] in Hnin. apply not_elem_of_cons in Hnin as [Hne Hnin].
  rewrite (group_name_lookup _ _ _ Ha) in Hne.
  destruct (String.eqb_spec (Group.Name ac) (Group.Name rc)); [congruence|].
  apply IH; assumption.
Qed.

Lemma MergeAll_loop_appends Merge root name rights : forall h done,
  groups h !! root = Some (Group.mk name [] done None) ->
  Forall (fun a => a <> root /\ is_Some (groups h !! a)) (done ++ rights) ->
  NoDup (map (group_name (groups h)) (done ++ rights)) ->
  MergeAll_loop Merge h root rights
  = Ok (set_group h root (Group.mk name [] (done ++ rights) None)).
Proof.
  induction rights as [|r rights IH]; intros h done Hroot Hall Hnd.
  - rewrite app_nil_r. cbn. rewrite set_group_id by exact Hroot. reflexivity.
  - cbn [MergeAll_loop]. unfold merge_group. rewrite Hroot.
    cbn [deref mbind result_bind Group.Groups].
    pose proof Hall as Hall'. apply Forall_app in Hall' as [Hdone Hrs].
    apply Forall_cons in Hrs as [[Hr [rc Hrc]] Hrs].
    rewrite (find_group_None h r rc done Hrc).
    2:{ eapply Forall_impl; [exact Hdone|]. intros a [_ Ha]. exact Ha. }
    2:{ rewrite map_app in Hnd. apply NoDup_app in Hnd as (_ & Hdis & _).
        intros Hin. apply (Hdis _ Hin). cbn [map].
        rewrite (group_name_lookup _ _ _ Hrc). apply list_elem_of_here. }
    cbn [mbind result_bind set_Groups Group.Name Group.Snippets Group.Groups Group.Parent].
    set (h1 := set_group h root _).
    assert (Hsame : forall a, a <> root -> groups h1 !! a = groups h !! a).
    { intros a Ha. unfold h1. apply lookup_set_group_ne. exact Ha. }
    rewrite (IH h1 (done ++ [r])).
    + unfold h1, set_group. cbn. rewrite list_insert_insert_eq, <- app_assoc. reflexivity.
    + unfold h1. eapply lookup_set_group_eq. exact Hroot.
    + rewrite <- app_assoc. cbn [app]. eapply Forall_impl; [exact Hall|].
      intros a [Ha Hsome]. split; [exact Ha|]. rewrite Hsame by exact Ha. exact Hsome.
    + rewrite <- app_assoc. cbn [app].
      assert (Heq : map (group_name (groups h1)) (done ++ r :: rights)
                    = map (group_name (groups h)) (done ++ r :: rights)).
      { apply map_ext_Forall. eapply Forall_impl; [exact Hall|].
        intros a [Ha _]. unfold group_name. rewrite Hsame by exact Ha. reflexivity. }
      rewrite Heq. exact Hnd.
Qed.

Section import_step.

Import spandex.

Lemma adopt_Returns n name groups1 groups2 w :
  Forall (fun g => is_Some (groups (store w) !! g)) groups1 ->
  (forall g, g ∈ groups2 -> g ∈ groups1) ->
  NoDup (map (group_name (groups (store w))) groups2) ->
  exists w',
    adopt n name groups1 groups2 w = Returns (length (groups (store w))) w'
    /\ fs w' = fs w
    /\ snippets (store w') = snippets (store w)
    /\ groups (store w') !! length (groups (store w))
       = Some (Group.mk name [] groups2 None)
    /\ (forall a gc,
          groups (store w) !! a = Some gc ->
          groups (store w') !! a
          = Some (if decide (a ∈ groups1)
                  then autokey.with_Group_Parent (Some (length (groups (store w)))) gc
                  else gc)).
Proof.
  intros Hall Hsub Hnd. unfold adopt.
  set (root := length (groups (store w))).
  unfold mbind at 1, M_bind at 1, autokey.new_group at 1. fold root.
  set (w0 := set_store _ w).
  destruct (reparent_loop root groups1 w0) as (w1 & Hrun & Hfs & Hsn & Hlen & Hcells).
  { eapply Forall_impl; [exact Hall|]. intros a [gc Ha]. exists gc.
    unfold w0. cbn. apply lookup_app_l_Some. exact Ha. }
  unfold mbind at 1, M_bind at 1. rewrite Hrun.
  unfold mbind at 1, M_bind at 1, get.
  assert (Hlt : forall a, a ∈ groups1 -> a < root).
  { intros a Ha. rewrite Forall_forall in Hall. destruct (Hall a Ha) as [gc Hgc].
    eapply lookup_lt_Some. exact Hgc. }
  assert (Hroot1 : groups (store w1) !! root = Some (Group.mk name [] [] None)).
  { rewrite (Hcells root (Group.mk name [] [] None)).
    - rewrite decide_False; [reflexivity|]. intros Hin. apply Hlt in Hin. lia.
    - unfold w0. cbn. apply list_lookup_middle. reflexivity. }
  assert (Hold : forall a gc, groups (store w) !! a = Some gc ->
            groups (store w1) !! a
            = Some (if decide (a ∈ groups1)
                    then autokey.with_Group_Parent (Some root) gc else gc)).
  { intros a gc Ha. apply Hcells. unfold w0. cbn. apply lookup_app_l_Some. exact Ha. }
  assert (Hname : forall a, a ∈ groups1 ->
            group_name (groups (store w1)) a = group_name (groups (store w)) a).
  { intros a Ha. rewrite Forall_forall in Hall. destruct (Hall a Ha) as [gc Hgc].
    rewrite (group_name_lookup _ _ _ (Hold a gc Hgc)), (group_name_lookup _ _ _ Hgc).
    case_decide; reflexivity. }
  unfold Group_MergeAll.
  rewrite (MergeAll_loop_appends (Group_Merge n) root name groups2 (store w1) []).
  2:{ exact Hroot1. }
  2:{ cbn [app]. rewrite Forall_forall. intros a Ha. apply Hsub in Ha.
      split; [apply Hlt in Ha; lia|].
      rewrite Forall_forall in Hall. destruct (Hall a Ha) as [gc Hgc].
      eexists. apply (Hold a gc Hgc). }
  2:{ cbn [app].
      assert (Heq : map (group_name (groups (store w1))) groups2
                    = map (group_name (groups (store w))) groups2).
      { apply map_ext_Forall. rewrite Forall_forall. intros a Ha. apply Hname, Hsub, Ha. }
      rewrite Heq. exact Hnd. }
  cbn [app lift mbind]. unfold M_bind, put_store, mret, M_ret.
  eexists. split; [reflexivity|]. cbn [fs store set_store set_group snippets groups].
  split; [exact Hfs|]. split; [exact Hsn|].
  assert (Hroot' : <[root := Group.mk name [] groups2 None]> (groups (store w1)) !! root
                   = Some (Group.mk name [] groups2 None)).
  { apply list_lookup_insert_eq. eapply lookup_lt_Some. exact Hroot1. }
  split; [exact Hroot'|].
  intros a gc Ha. rewrite list_lookup_insert_ne.
  - apply Hold. exact Ha.
  - apply lookup_lt_Some in Ha. fold root in Ha. lia.
Qed.

(** X15. The import step of [main], on groups of pairwise distinct names:
    the new root group has the import name, no parent and the groups as
    its children, in the order of the second list; every one of the groups
    has the root as its parent and is otherwise as it was, so that its
    path is its name joined to the import name; nothing else changes. *)
Theorem adopt_makes_children n name groups1 groups2 w :
  Forall (fun g => is_Some (groups (store w) !! g)) groups1 ->
  (forall g, g ∈ groups2 -> g ∈ groups1) ->
  NoDup (map (group_name (groups (store w))) groups2) ->
  exists w',
    adopt n name groups1 groups2 w = Returns (length (groups (store w))) w'
    /\ fs w' = fs w
    /\ snippets (store w') = snippets (store w)
    /\ groups (store w') !! length (groups (store w))
       = Some (Group.mk name [] groups2 None)
    /\ (forall a gc,
          groups (store w) !! a = Some gc ->
          groups (store w') !! a
          = Some (if decide (a ∈ groups1)
                  then autokey.with_Group_Parent (Some (length (groups (store w)))) gc
                  else gc))
    /\ (forall a gc fuel,
          a ∈ groups1 -> groups (store w') !! a = Some gc ->
          Group_Path (S fuel) (store w') gc = Ok (path_Join name (Group.Name gc))).
Proof.
  intros Hall Hsub Hnd.
  destruct (adopt_Returns n name groups1 groups2 w Hall Hsub Hnd)
    as (w' & Hrun & Hfs & Hsn & Hroot & Hcells).
  exists w'. repeat (split; [assumption|]).
  intros a gc fuel Ha Hgc.
  rewrite Forall_forall in Hall. destruct (Hall a Ha) as [gc0 Hgc0].
  pose proof (Hcells a gc0 Hgc0) as Hc. rewrite decide_True in Hc by exact Ha.
  pose proof (lookup_agree _ _ _ _ Hgc Hc) as ->.
  apply (Group_Path_child _ _ (length (groups (store w))) (Group.mk name [] groups2 None));
    [reflexivity|exact Hroot|reflexivity].
Qed.

End import_step.

Lemma adopt_makes_children_witness :
  exists w',
    spandex.adopt 0 "Imported" [2; 4] [4; 2] ex_world = Returns 5 w'
    /\ fs w' = fs ex_world
    /\ snippets (store w') = snippets (store ex_world)
    /\ groups (store w') !! 5 = Some (Group.mk "Imported" [] [4; 2] None)
    /\ (forall a gc,
          groups (store ex_world) !! a = Some gc ->
          groups (store w') !! a
          = Some (if decide (a ∈ [2; 4])
                  then autokey.with_Group_Parent (Some 5) gc
                  else gc))
    /\ (forall a gc fuel,
          a ∈ [2; 4] -> groups (store w') !! a = Some gc ->
          Group_Path (S fuel) (store w') gc = Ok (path_Join "Imported" (Group.Name gc))).
Proof.
  apply (adopt_makes_children 0 "Imported" [2; 4] [4; 2] ex_world).
  - repeat constructor; eexists; reflexivity.
  - intros g Hg. apply (bool_decide_unpack _). revert g Hg.
    apply Forall_forall. repeat constructor.
  - apply (bool_decide_unpack _). vm_compute. exact I.
Defined.

(** ** Calls that only read *)

Lemma untouched_refl w : untouched w w.
Proof. split; reflexivity. Qed.

Lemma untouched_trans w1 w2 w3 : untouched w1 w2 -> untouched w2 w3 -> untouched w1 w3.
Proof. intros [? ?] [? ?]. split; congruence. Qed.

Lemma untouched_set_store h w : untouched w (set_store h w).
Proof. split; reflexivity. Qed.

Lemma reaches_pure {A : Type} (m : M World A) :
  (forall w, match m w with
             | Returns _ w' | Fails _ w' => untouched w w'
             | _ => True
             end) ->
  forall w w', reaches m w w' -> untouched w w'.
Proof.
  intros Hm w w' [[a H]|[e H]]; specialize (Hm w); rewrite H in Hm; exact Hm.
Qed.

Section load_reads.

Import autokey.
Context {Json : JsonCodec}.

Lemma update_group_untouched a f w w' :
  reaches (update_group a f) w w' -> untouched w w'.
Proof.
  apply reaches_pure. clear. intros w. unfold update_group.
  destruct (expander.groups (store w) !! a); [apply untouched_set_store|exact I].
Qed.

Lemma update_snippet_untouched a f w w' :
  reaches (update_snippet a f) w w' -> untouched w w'.
Proof.
  apply reaches_pure. clear. intros w. unfold update_snippet.
  destruct (snippets (store w) !! a); [apply untouched_set_store|exact I].
Qed.

Lemma newSnippet_untouched file w w' :
  reaches (newSnippet file) w w' -> untouched w w'.
Proof.
  apply reaches_pure. clear. intros w.
  unfold newSnippet, mbind, M_bind, metadataPath, parseMetadata, ioutil_ReadFile,
    new_snippet, fail, mret, M_ret.
  destruct (filePattern (bytes file)) as [[[d stem] ext]|]; [|apply untouched_refl].
  destruct (fs w !! _) as [[t|c t]|]; try apply untouched_refl.
  destruct (json_decode c); [|apply untouched_refl].
  destruct (fs w !! file) as [[t'|b t']|]; try apply untouched_refl.
  apply untouched_set_store.
Qed.

Lemma load_untouched n : forall d parent w w',
  reaches (load n d parent) w w' -> untouched w w'.
Proof.
  induction n as [|n IH]; intros d parent; [intros w w' [[? [=]]|[? [=]]]|].
  rewrite load_unfold.
  apply reaches_bind; [apply untouched_trans| |].
  { apply reaches_pure. intros w. unfold ioutil_ReadDir.
    destruct (fs w !! d) as [[t|c t]|]; apply untouched_refl. }
  intros files. apply reaches_bind; [apply untouched_trans| |].
  { apply reaches_pure. intros w. apply untouched_set_store. }
  intros g. apply reaches_bind; [apply untouched_trans| |].
  2:{ intros _. apply reaches_pure. intros w. apply untouched_refl. }
  apply reaches_for_each; [apply untouched_refl|apply untouched_trans|].
  intros [x nd] w w' _. unfold load_entry. cbn [fst snd]. destruct nd as [t|c t].
  - revert w w'. apply reaches_bind; [apply untouched_trans|apply IH|].
    intros child w w'. apply update_group_untouched.
  - destruct (hidden x).
    + revert w w'. apply reaches_pure. intros w. apply untouched_refl.
    + revert w w'. apply reaches_bind; [apply untouched_trans| |].
      { intros w w'. apply newSnippet_untouched. }
      intros s. apply reaches_bind; [apply untouched_trans| |].
      { intros w w'. apply update_snippet_untouched. }
      intros _ w w'. apply update_group_untouched.
Qed.

Lemma install_untouched gs : forall m w w',
  reaches (install gs m) w w' -> untouched w w'.
Proof.
  induction gs as [|g gs IH]; intros m; cbn [install].
  - apply reaches_pure. intros w. apply untouched_refl.
  - apply reaches_bind; [apply untouched_trans| |].
    { intros w w'. apply update_group_untouched. }
    intros _. apply reaches_bind; [apply untouched_trans| |].
    { apply reaches_pure. intros w. apply untouched_refl. }
    intros w0. apply reaches_bind; [apply untouched_trans| |].
    { apply reaches_pure. intros w. unfold lift.
      destruct (deref _); [apply untouched_refl|exact I|exact I]. }
    intros gc. apply IH.
Qed.

End load_reads.

Section load_only_reads.

Context {Json : autokey.JsonCodec}.

(** X16. However [Load] of the directory backend ends, with nil or with an
    error, it has left the file system as it was and has made no call
    that changes it. *)
Theorem Load_only_reads fuel ak w w' :
  reaches (autokey.Load fuel ak) w w' -> untouched w w'.
Proof.
  unfold autokey.Load. revert w w'.
  apply reaches_bind; [apply untouched_trans|apply load_untouched|].
  intros root. apply reaches_bind; [apply untouched_trans| |].
  { apply reaches_pure. intros w. apply untouched_refl. }
  intros w0. apply reaches_bind; [apply untouched_trans| |].
  { apply reaches_pure. intros w. unfold lift.
    destruct (deref _); [apply untouched_refl|exact I|exact I]. }
  intros rc. apply reaches_bind; [apply untouched_trans|apply install_untouched|].
  intros m. apply reaches_pure. intros w. apply untouched_refl.
Qed.

End load_only_reads.

Lemma Load_only_reads_witness :
  exists w',
    reaches (autokey.Load (Json := line_codec) 3 rt_ak) rt_world w'
    /\ untouched rt_world w'.
Proof.
  eexists. split; [right; eexists; vm_compute; reflexivity|].
  apply (Load_only_reads (Json := line_codec) 3 rt_ak rt_world).
  right. eexists. vm_compute. reflexivity.
Defined.

(** ** Runs of the program *)

Section runs.

Import spandex.
Context {Json : autokey.JsonCodec}.

Lemma init_registry :
  init = inr (<["TextExpander" := newTE]> (<["AutoKey" := newAK]> ∅)).
Proof.
  unfold init, Register. rewrite lookup_empty.
  rewrite lookup_insert_ne by discriminate. rewrite lookup_empty. reflexivity.
Qed.

Lemma New_registry name fn :
  New name (<["TextExpander" := newTE]> (<["AutoKey" := newAK]> ∅)) = inr fn ->
  (name = "TextExpander" /\ fn = newTE) \/ (name = "AutoKey" /\ fn = newAK).
Proof.
  unfold New. destruct (decide (name = "TextExpander")) as [->|Hte].
  { rewrite lookup_insert_eq. intros [= <-]. auto. }
  rewrite lookup_insert_ne by congruence.
  destruct (decide (name = "AutoKey")) as [->|Hak].
  { rewrite lookup_insert_eq. intros [= <-]. auto. }
  rewrite lookup_insert_ne by congruence. rewrite lookup_empty. discriminate.
Qed.

Lemma on_store_untouched {A : Type} (m : M textexpander.state A) te w w' :
  reaches (on_store m te) w w' -> untouched w w'.
Proof.
  apply reaches_pure. clear. intros w. unfold on_store.
  destruct (m (store w, te)) as [a [h te']|e [h te']| |];
    try apply untouched_set_store; exact I.
Qed.

Lemma Expander_Load_untouched s x w w' :
  reaches (Expander_Load s x) w w' -> untouched w w'.
Proof.
  destruct x as [te|ak]; cbn [Expander_Load]; revert w w'.
  - apply reaches_bind; [apply untouched_trans| |].
    + intros w w'. apply on_store_untouched.
    + intros r. apply reaches_pure. intros w. apply untouched_refl.
  - apply reaches_bind; [apply untouched_trans| |].
    + unfold autokey.Load.
      apply reaches_bind; [apply untouched_trans|apply load_untouched|].
      intros root. apply reaches_bind; [apply untouched_trans| |].
      { apply reaches_pure. intros w. apply untouched_refl. }
      intros w0. apply reaches_bind; [apply untouched_trans| |].
      { apply reaches_pure. intros w. unfold lift.
        destruct (deref _); [apply untouched_refl|exact I|exact I]. }
      intros rc. apply reaches_bind; [apply untouched_trans|apply install_untouched|].
      intros m. apply reaches_pure. intros w. apply untouched_refl.
    + intros r. apply reaches_pure. intros w. apply untouched_refl.
Qed.

Lemma adopt_untouched n name gs1 gs2 w w' :
  reaches (adopt n name gs1 gs2) w w' -> untouched w w'.
Proof.
  unfold adopt. revert w w'. apply reaches_bind; [apply untouched_trans| |].
  { apply reaches_pure. intros w. apply untouched_set_store. }
  intros root. apply reaches_bind; [apply untouched_trans| |].
  { apply reaches_for_each; [apply untouched_refl|apply untouched_trans|].
    intros g w w' _. apply update_group_untouched. }
  intros _. apply reaches_bind; [apply untouched_trans| |].
  { apply reaches_pure. intros w. apply untouched_refl. }
  intros w0. apply reaches_bind; [apply untouched_trans| |].
  { apply reaches_pure. intros w. unfold lift.
    destruct (Group_MergeAll _ _ _ _); [apply untouched_refl|exact I|exact I]. }
  intros h. apply reaches_bind; [apply untouched_trans| |].
  { apply reaches_pure. intros w. apply untouched_set_store. }
  intros _. apply reaches_pure. intros w. apply untouched_refl.
Qed.

Lemma SetGroup_TE_Returns te g w dst w' :
  Expander_SetGroup (TE te) g w = Returns dst w' -> exists te', dst = TE te'.
Proof.
  cbn [Expander_SetGroup]. intros H. apply bind_Returns in H as (r & w1 & _ & H).
  injection H as <- _. eauto.
Qed.

Lemma Write_TE s te w :
  exists w', Expander_Write s (TE te) w = Fails ErrNotImplemented w' /\ untouched w w'.
Proof.
  exists (set_store (store w) w). split; [reflexivity|apply untouched_set_store].
Qed.

(** The lines of [main] after the destination is made. *)
Lemma to_TE_ends n s name gs1 gs2 te w :
  match (root ← adopt n name gs1 gs2;
         dst ← Expander_SetGroup (TE te) root;
         Expander_Write s dst) w with
  | Returns _ _ => False
  | Fails _ w' => untouched w w'
  | _ => True
  end.
Proof.
  unfold mbind at 1, M_bind at 1.
  destruct (adopt n name gs1 gs2 w) as [root w1|e1 w1| |] eqn:H1; [| |exact I|exact I].
  2:{ apply (adopt_untouched n name gs1 gs2). right. eauto. }
  assert (Hu1 : untouched w w1).
  { apply (adopt_untouched n name gs1 gs2). left. eauto. }
  unfold mbind at 1, M_bind at 1.
  destruct (Expander_SetGroup (TE te) root w1) as [dst w2|e2 w2| |] eqn:H2;
    [| |exact I|exact I].
  2:{ apply (untouched_trans _ w1); [exact Hu1|].
      cbn [Expander_SetGroup] in H2. revert H2.
      unfold mbind, M_bind. destruct (on_store _ te w1) as [r w3|e3 w3| |] eqn:H3;
        try discriminate.
      intros [= _ <-]. apply (on_store_untouched (textexpander.SetGroup root) te).
      right. eauto. }
  assert (Hu2 : untouched w1 w2).
  { cbn [Expander_SetGroup] in H2. apply bind_Returns in H2 as (r & w3 & H3 & H2).
    injection H2 as _ <-. apply (on_store_untouched (textexpander.SetGroup root) te).
    left. eauto. }
  destruct (SetGroup_TE_Returns _ _ _ _ _ H2) as [te' ->].
  destruct (Write_TE s te' w2) as (w3 & -> & Hu3).
  apply (untouched_trans _ w1); [exact Hu1|]. apply (untouched_trans _ w2); assumption.
Qed.

(** X17. A run with the structured-document backend as its destination
    never completes, whatever the source is: it ends before [main]
    returns, and where it exits it has left the file system as it was and
    has made no call that changes it. *)
Theorem main_to_TextExpander_writes_nothing f s w :
  dstExp f = "TextExpander" ->
  (forall w', main f s w <> Done w')
  /\ (forall m w', main f s w = Exits m w' -> untouched w w').
Proof.
  intros Hdst. unfold main. rewrite init_registry. cbv beta iota.
  destruct (String.eqb (srcExp f) "" || String.eqb (dstExp f) ""); cbv beta iota.
  { split; [intros ? ?; discriminate|]. intros m w' [= _ <-]. apply untouched_refl. }
  destruct (New (srcExp f) _) as [e|newSrc] eqn:Hsrc; cbv beta iota.
  { split; [intros ? ?; discriminate|]. intros m w' [= _ <-]. apply untouched_refl. }
  destruct (Expander_Load s (newSrc f) w) as [src w1|e w1| |] eqn:Hload; cbv beta iota.
  2:{ split; [intros ? ?; discriminate|]. intros m w' [= _ <-].
      apply (Expander_Load_untouched s (newSrc f)). right. eauto. }
  2,3: split; intros ? ?; [|intros ?]; discriminate.
  assert (H1 : untouched w w1).
  { apply (Expander_Load_untouched s (newSrc f)). left. eauto. }
  assert (Hnew : New "TextExpander" (<["TextExpander" := newTE]> (<["AutoKey" := newAK]> ∅))
                 = inr newTE)
    by (unfold New; rewrite lookup_insert_eq; reflexivity).
  rewrite Hdst, Hnew. cbv beta iota.
  change (newTE f) with (TE (textexpander.mkTE (teFile f) None [])).
  pose proof (to_TE_ends (fuel s) s (import_name f) (Expander_Groups (keys1 s) src)
                (Expander_Groups (keys2 s) src)
                (textexpander.mkTE (teFile f) None []) w1) as Hrest.
  match type of Hrest with
  | match ?o with Returns _ _ => _ | _ => _ end => destruct o as [a w2|e w2| |]
  end; cbv beta iota.
  - contradiction.
  - split; [intros ? ?; discriminate|]. intros m w' [= _ <-].
    apply (untouched_trans _ w1); assumption.
  - split; intros ? ?; [|intros ?]; discriminate.
  - split; intros ? ?; [|intros ?]; discriminate.
Qed.

End runs.

Lemma main_to_TextExpander_witness :
  (forall w',
      spandex.main (Json := line_codec)
        (spandex.mkFlags "AutoKey" "TextExpander" "" "Settings.textexpander"
                         "/home/u/.config/autokey")
        (spandex.mkSurroundings textexpander.Unreadable 3 ["Work"] ["Work"] [])
        rt_world_earlier
      <> spandex.Done w')
  /\ (forall m w',
         spandex.main (Json := line_codec)
           (spandex.mkFlags "AutoKey" "TextExpander" "" "Settings.textexpander"
                            "/home/u/.config/autokey")
           (spandex.mkSurroundings textexpander.Unreadable 3 ["Work"] ["Work"] [])
           rt_world_earlier
         = spandex.Exits m w' ->
         untouched rt_world_earlier w').
Proof.
  apply (main_to_TextExpander_writes_nothing (Json := line_codec)).
  reflexivity.
Defined.

(** ** An import from a settings document into the data directory *)

Section import_run.

Import spandex.
Context {Json : autokey.JsonCodec}.

Lemma on_store_Returns {A : Type} (m : M textexpander.state A) te w r w' :
  on_store m te w = Returns r w' ->
  exists h, m (store w, te) = Returns r.1 (h, r.2) /\ w' = set_store h w.
Proof.
  unfold on_store. destruct (m (store w, te)) as [a [h te']|e [h te']| |]; try discriminate.
  intros [= <- <-]. eauto.
Qed.

Lemma loaded_names recs snips h new done :
  loaded recs snips h new done ->
  map (group_name (groups h)) new = map textexpander.Name done
  /\ Forall (fun a => is_Some (groups h !! a)) new.
Proof.
  intros (_ & _ & Hbuilt & _). induction Hbuilt as [|a g new done (gc & Hgc & Hn & _) _ IH].
  - split; [reflexivity|constructor].
  - destruct IH as [IH1 IH2]. split.
    + cbn [map]. rewrite (group_name_lookup _ _ _ Hgc), Hn, IH1. reflexivity.
    + constructor; [eauto|exact IH2].
Qed.

Lemma New_TextExpander :
  New "TextExpander" (<["TextExpander" := newTE]> (<["AutoKey" := newAK]> ∅)) = inr newTE.
Proof. unfold New. rewrite lookup_insert_eq. reflexivity. Qed.

Lemma New_AutoKey :
  New "AutoKey" (<["TextExpander" := newTE]> (<["AutoKey" := newAK]> ∅)) = inr newAK.
Proof.
  unfold New. rewrite lookup_insert_ne by discriminate. rewrite lookup_insert_eq.
  reflexivity.
Qed.

Lemma SetGroup_Ok h ak g gc :
  groups h !! g = Some gc ->
  autokey.SetGroup h ak g
  = Ok (autokey.mkAK (autokey.dir ak)
          (<[Group.Name gc := autokey.mkRawGroup g true]> (autokey.groups ak))).
Proof. unfold autokey.SetGroup. intros ->. reflexivity. Qed.

(** The steps of a run from the document backend to the directory
    backend that completes. *)
Lemma main_Done_steps f s w w' d :
  srcExp f = "TextExpander" -> dstExp f = "AutoKey" ->
  document s = textexpander.Document d ->
  NoDup (map textexpander.Name (textexpander.Groups d)) ->
  main f s w = Done w' ->
  exists h1 snips new w2,
    loaded (textexpander.Snippets d) snips h1 new (textexpander.Groups d)
    /\ snippets (store w2) = snippets h1
    /\ groups (store w2) !! length (groups h1)
       = Some (Group.mk (import_name f) [] new None)
    /\ (forall a gc, a ∈ new -> groups h1 !! a = Some gc ->
          groups (store w2) !! a
          = Some (autokey.with_Group_Parent (Some (length (groups h1))) gc))
    /\ autokey.Write (fuel s) (keysW s)
         (autokey.mkAK (path_Join (akDir f) autokey.dataDir)
                       {[import_name f := autokey.mkRawGroup (length (groups h1)) true]})
         w2
       = Returns tt w'
    /\ (ordinary_store (store w) ->
        Forall (fun r => ordinary (textexpander.ModDate r)) (textexpander.Snippets d) ->
        ordinary_store (store w2)).
Proof.
  intros Hsrc Hdst Hdoc Hnd. unfold main. rewrite init_registry. cbv beta iota.
  rewrite Hsrc, Hdst. cbn [String.eqb Ascii.eqb orb]. rewrite New_TextExpander, New_AutoKey.
  cbv beta iota. cbn [newTE newAK Expander_Load]. rewrite Hdoc.
  unfold mbind at 1, M_bind at 1.
  destruct (on_store _ _ w) as [r w1|e w1| |] eqn:Hload; try discriminate.
  apply on_store_Returns in Hload as (h1 & Hload & ->). destruct r as [[] te1].
  cbn [fst snd] in Hload. cbn [mret M_ret snd].
  pose proof (fun Ha Hb => Load_ordinary d _ _ _ _ Hb Hload Ha) as Hordinary.
  apply Load_Document_loaded in Hload as (snips & new & Hl & ->).
  cbn [textexpander.groups app Expander_Groups textexpander.Groups_of].
  destruct (loaded_names _ _ _ _ _ Hl) as [Hnames Hsome].
  destruct (adopt_Returns (fuel s) (import_name f) new new (set_store h1 w))
    as (w2 & Hadopt & Hfs & Hsn & Hroot & Hcells).
  { exact Hsome. }
  { auto. }
  { cbn [store set_store]. rewrite Hnames. exact Hnd. }
  cbn [store set_store] in *.
  match goal with
  | |- match ?o with Returns _ _ => _ | _ => _ end = _ -> _ =>
      destruct o as [[] w3|e w3| |] eqn:Hrest; try discriminate
  end.
  intros [= <-].
  apply bind_Returns in Hrest as (root & wa & Ha & Hrest).
  rewrite Hadopt in Ha. injection Ha as <- <-.
  apply bind_Returns in Hrest as (dst & wb & Hset & Hwrite).
  cbn [newAK Expander_SetGroup] in Hset.
  apply bind_Returns in Hset as (w0 & w0' & Hget & Hset). injection Hget as <- <-.
  apply bind_Returns in Hset as (ak' & w0' & Hak & Hset). injection Hset as <- <-.
  rewrite (SetGroup_Ok _ _ _ _ Hroot) in Hak. cbn [lift Group.Name] in Hak.
  injection Hak as <- <-.
  cbn [Expander_Write] in Hwrite.
  exists h1, snips, new, w2.
  split; [exact Hl|]. split; [exact Hsn|]. split; [exact Hroot|]. split; [|split].
  - intros a gc Ha Hgc. pose proof (Hcells a gc Hgc) as Hc.
    rewrite decide_True in Hc by exact Ha. exact Hc.
  - rewrite <- Hwrite. f_equal.
  - intros Ha Hb. unfold ordinary_store. rewrite Hsn. exact (Hordinary Ha Hb).
Qed.

Lemma Snippet_Path_child h sc b gb root rc fuel :
  Snippet.Parent sc = Some b -> groups h !! b = Some gb ->
  Group.Parent gb = Some root -> groups h !! root = Some rc -> Group.Parent rc = None ->
  Snippet_Path (S fuel) h sc
  = Ok (path_Join (path_Join (Group.Name rc) (Group.Name gb)) (Snippet.Name sc)).
Proof.
  intros Hp Hb Hgp Hr Hrp. unfold Snippet_Path. rewrite Hp. cbn [mbind option_bind].
  rewrite Hb. cbn [deref mbind result_bind].
  rewrite (Group_Path_child h gb root rc fuel Hgp Hr Hrp). reflexivity.
Qed.

Lemma holds_record_last recs u r sc :
  last_named textexpander.UUID recs u = Some r -> holds_record sc r ->
  Snippet.Name sc = u.
Proof.
  intros Hr (Hn & _). unfold last_named in Hr. apply named_Some in Hr as [_ Hu].
  congruence.
Qed.

(** X18. A run that imports a settings document into the data directory
    and completes, where the group records have pairwise distinct names,
    the snippet records and the snippets of the store have ordinary dates,
    and [Write] comes to the import name: the data directory then holds a
    directory of the import name and in it a directory for every group
    record; and every identifier that a group record lists has, in the
    directory of a group record that lists it, a sidecar that is not older
    than the last snippet record with that identifier. *)
Theorem main_imports_document f s w w' d :
  srcExp f = "TextExpander" -> dstExp f = "AutoKey" ->
  document s = textexpander.Document d ->
  NoDup (map textexpander.Name (textexpander.Groups d)) ->
  ordinary_store (store w) ->
  Forall (fun r => ordinary (textexpander.ModDate r)) (textexpander.Snippets d) ->
  import_name f ∈ keysW s ->
  main f s w = Done w' ->
  (exists t,
      fs w' !! path_Join (path_Join (akDir f) autokey.dataDir) (import_name f)
      = Some (Dir t))
  /\ forall g, g ∈ textexpander.Groups d ->
       (exists t,
           fs w' !! path_Join (path_Join (akDir f) autokey.dataDir)
                      (path_Join (import_name f) (textexpander.Name g))
           = Some (Dir t))
       /\ forall u, u ∈ textexpander.UUIDs g ->
            exists r g' mdPath n,
              last_named textexpander.UUID (textexpander.Snippets d) u = Some r
              /\ g' ∈ textexpander.Groups d
              /\ u ∈ textexpander.UUIDs g'
              /\ autokey.metadataPath
                   (path_Join (path_Join (akDir f) autokey.dataDir)
                      (path_Join (path_Join (import_name f) (textexpander.Name g')) u
                       +:+ "." +:+ autokey.snippetExt)) w'
                 = Returns mdPath w'
              /\ fs w' !! mdPath = Some n
              /\ (textexpander.ModDate r <= node_ModTime n)%Z.
Proof.
  intros Hsrc Hdst Hdoc Hnd Hord Hdates Hkey Hmain.
  destruct (main_Done_steps f s w w' d Hsrc Hdst Hdoc Hnd Hmain)
    as (h1 & snips & new & w2 & Hl & Hsn & Hroot & Hcells & Hwrite & Hord2).
  specialize (Hord2 Hord Hdates).
  set (root := length (groups h1)) in *.
  set (ak := autokey.mkAK _ _) in Hwrite.
  apply Write_settles in Hwrite as [[Hstore _] Hsettled]; [|exact Hord2].
  specialize (Hsettled (import_name f) (autokey.mkRawGroup root true) Hkey).
  cbn [autokey.groups autokey.managed autokey.group ak] in Hsettled.
  rewrite lookup_singleton_eq in Hsettled. specialize (Hsettled eq_refl eq_refl).
  rewrite Hstore in Hsettled.
  destruct Hl as (Hidx & _ & Hbuilt & Hpar).
  destruct (fuel s) as [|n1]; [contradiction|]. cbn [settled] in Hsettled.
  destruct Hsettled as (rc & p & t & Hrc & Hp & Hdir & Hkids & _).
  pose proof (lookup_agree _ _ _ _ Hrc Hroot) as ->.
  cbn in Hp. injection Hp as <-. cbn [autokey.dir ak Group.Groups] in *.
  split; [eauto|].
  (* the cell of a group of [new] *)
  assert (Hgroup : forall a gc1, a ∈ new -> groups h1 !! a = Some gc1 ->
            exists n2 t',
              n1 = S n2
              /\ fs w' !! path_Join (path_Join (akDir f) autokey.dataDir)
                            (path_Join (import_name f) (Group.Name gc1))
                 = Some (Dir t')
              /\ Forall (up_to_date (S n2) ak (store w2) (fs w')) (Group.Snippets gc1)).
  { intros a gc1 Ha Hgc1. rewrite Forall_forall in Hkids. specialize (Hkids a Ha).
    destruct n1 as [|n2]; [contradiction|]. cbn [settled] in Hkids.
    destruct Hkids as (gc' & p' & t' & Hgc' & Hp' & Hdir' & _ & Hup).
    pose proof (lookup_agree _ _ _ _ Hgc' (Hcells a gc1 Ha Hgc1)) as ->.
    rewrite (Group_Path_child _ _ root (Group.mk (import_name f) [] new None) n2) in Hp'
      by (reflexivity || exact Hroot).
    injection Hp' as <-. exists n2, t'. split; [reflexivity|]. split; [exact Hdir'|exact Hup]. }
  intros g Hg.
  apply list_elem_of_lookup in Hg as [i Hi].
  destruct (Forall2_lookup_r _ _ _ _ _ Hbuilt Hi) as (a & Ha & gc1 & Hgc1 & Hname & Hsnips).
  assert (Ha' : a ∈ new) by (apply list_elem_of_lookup; eauto).
  destruct (Hgroup a gc1 Ha' Hgc1) as (n2 & t' & -> & Hdir' & Hup).
  rewrite Hname in Hdir'. split; [eauto|].
  intros u Hu. apply list_elem_of_lookup in Hu as [j Hj].
  destruct (Forall2_lookup_r _ _ _ _ _ Hsnips Hj) as (sa & Hsa & Hsnip).
  assert (Hsa' : sa ∈ Group.Snippets gc1) by (apply list_elem_of_lookup; eauto).
  destruct (Hidx u sa Hsnip) as (sc & r & Hsc & Hr & Hrec).
  destruct (Hpar a gc1 sa Ha' Hgc1 Hsa') as (sc2 & b & gb & Hsc2 & Hparent & Hb & Hgb & Hsb).
  pose proof (lookup_agree _ _ _ _ Hsc2 Hsc) as ->.
  (* the record of the parent *)
  apply list_elem_of_lookup in Hb as [ib Hib].
  destruct (Forall2_lookup_l _ _ _ _ _ Hbuilt Hib) as (g' & Hg' & gb2 & Hgb2 & Hnameb & Hsnipsb).
  pose proof (lookup_agree _ _ _ _ Hgb2 Hgb) as ->.
  apply list_elem_of_lookup in Hsb as [jb Hjb].
  destruct (Forall2_lookup_l _ _ _ _ _ Hsnipsb Hjb) as (u' & Hu' & Hsnip').
  destruct (Hidx u' sa Hsnip') as (sc3 & r' & Hsc3 & Hr' & Hrec').
  pose proof (lookup_agree _ _ _ _ Hsc3 Hsc) as ->.
  assert (Huu : u' = u).
  { rewrite <- (holds_record_last _ _ _ _ Hr' Hrec').
    apply (holds_record_last _ _ _ _ Hr Hrec). }
  subst u'.
  (* the freshness check of the snippet *)
  rewrite Forall_forall in Hup. destruct (Hup sa Hsa') as (sPath & mdPath & sc' & n & Ht & Hn & Hle).
  unfold target in Ht. rewrite Hsn in Ht.
  assert (Hsc' : snippets h1 !! sa = Some sc) by exact Hsc.
  rewrite Hsc' in Ht. cbn [mbind option_bind] in Ht.
  assert (Hb' : b ∈ new) by (apply list_elem_of_lookup; eauto).
  rewrite (Snippet_Path_child (store w2) sc b
             (autokey.with_Group_Parent (Some root) gb) root
             (Group.mk (import_name f) [] new None) n2) in Ht;
    [|exact Hparent|exact (Hcells b gb Hb' Hgb)|reflexivity|exact Hroot|reflexivity].
  cbv zeta in Ht. cbn [Group.Name autokey.with_Group_Parent autokey.dir ak] in Ht.
  destruct (filePattern _) as [[[d0 stem] e]|] eqn:Hpat; [|discriminate].
  cbn [mbind option_bind] in Ht. injection Ht as <- <- <-.
  pose proof (holds_record_last _ _ _ _ Hr Hrec) as Hsu.
  destruct Hrec as (_ & _ & _ & Hrm).
  exists r, g', (str d0 +:+ "." +:+ str stem +:+ "." +:+ autokey.metadataExt), n.
  split; [exact Hr|]. split; [apply list_elem_of_lookup; eauto|].
  split; [apply list_elem_of_lookup; eauto|]. split.
  - unfold autokey.metadataPath. rewrite <- Hnameb, <- Hsu, Hpat. reflexivity.
  - split; [exact Hn|]. rewrite <- Hrm. exact Hle.
Qed.

End import_run.

Lemma main_imports_document_witness :
  exists w',
    spandex.main (Json := line_codec)
      (spandex.mkFlags "TextExpander" "AutoKey" "" "Settings.textexpander"
                       "/home/u/.config/autokey")
      (spandex.mkSurroundings (textexpander.Document ex_document) 3 [] []
                              ["Imported from TextExpander"])
      rt_world
    = spandex.Done w'
    /\ (exists t,
           fs w' !! path_Join (path_Join "/home/u/.config/autokey" autokey.dataDir)
                      "Imported from TextExpander"
           = Some (Dir t))
    /\ forall g, g ∈ textexpander.Groups ex_document ->
         (exists t,
             fs w' !! path_Join (path_Join "/home/u/.config/autokey" autokey.dataDir)
                        (path_Join "Imported from TextExpander" (textexpander.Name g))
             = Some (Dir t))
         /\ forall u, u ∈ textexpander.UUIDs g ->
              exists r g' mdPath n,
                last_named textexpander.UUID (textexpander.Snippets ex_document) u = Some r
                /\ g' ∈ textexpander.Groups ex_document
                /\ u ∈ textexpander.UUIDs g'
                /\ autokey.metadataPath
                     (path_Join (path_Join "/home/u/.config/autokey" autokey.dataDir)
                        (path_Join (path_Join "Imported from TextExpander"
                                              (textexpander.Name g')) u
                         +:+ "." +:+ autokey.snippetExt)) w'
                   = Returns mdPath w'
                /\ fs w' !! mdPath = Some n
                /\ (textexpander.ModDate r <= node_ModTime n)%Z.
Proof.
  eexists. split; [vm_compute; reflexivity|].
  apply (main_imports_document (Json := line_codec)
           (spandex.mkFlags "TextExpander" "AutoKey" "" "Settings.textexpander"
                            "/home/u/.config/autokey")
           (spandex.mkSurroundings (textexpander.Document ex_document) 3 [] []
                                   ["Imported from TextExpander"])
           rt_world _ ex_document).
  - reflexivity.
  - reflexivity.
  - reflexivity.
  - apply (bool_decide_unpack _). vm_compute. exact I.
  - unfold ordinary_store, ordinary. cbn [store rt_world rt_store snippets].
    repeat constructor; cbn; lia.
  - unfold ordinary. repeat constructor; cbn; lia.
  - apply list_elem_of_here.
  - vm_compute. reflexivity.
Defined.
